(** * modo: a shallow embedding of the pull-based signal graph of [modo.hh]

    The embedding follows [src/modo.hh] class by class.  C++ [float] is IEEE
    binary32 and [double] is IEEE binary64, both evaluated in their own
    precision with round-to-nearest-even; they are modelled by the
    standard library's executable [SpecFloat] operations at precision
    24 / 53.  Objects are records, member functions take the object and
    return the updated object next to their result, and the objects an
    [Input] points to live in an explicit world that every pull threads
    through. *)

From Stdlib Require Import ZArith Zpower QArith Qpower Qround Qabs Lia Lqa.
From Stdlib Require Import List String Ascii Bool.
From Stdlib Require Import Floats.SpecFloat.
Import ListNotations.

Local Open Scope Z_scope.

(** ** Machine numbers *)

(** [int] is a 32-bit two's complement integer; arithmetic that leaves the
    range wraps around, as the targeted compilers do. *)
Definition wrap32 (n : Z) : Z := (n + 2 ^ 31) mod 2 ^ 32 - 2 ^ 31.

(** Conversion to [unsigned char]. *)
Definition to_uchar (n : Z) : Z := n mod 256.

(** The code of a [char] as an [int]. *)
Definition char_code (c : ascii) : Z := Z.of_N (N_of_ascii c).

Definition NUL : ascii := Ascii.zero.

(** Truncation toward zero of a finite floating-point value; infinities and
    NaN have no integer value. *)
Definition SFtrunc (x : spec_float) : option Z :=
  match x with
  | S754_zero _ => Some 0
  | S754_finite s m e => Some (cond_Zopp s (Z.shiftl (Zpos m) e))
  | S754_infinity _ | S754_nan => None
  end.

(** The rational number a floating-point datum stands for (0 for the
    infinities and NaN, which stand for none). *)
Definition pow2 (e : Z) : Q := (2 # 1) ^ e.

Definition SF2Q (x : spec_float) : Q :=
  match x with
  | S754_finite s m e => inject_Z (cond_Zopp s (Zpos m)) * pow2 e
  | _ => 0%Q
  end.

Definition is_finite (x : spec_float) : bool :=
  match x with
  | S754_zero _ | S754_finite _ _ _ => true
  | _ => false
  end.

Definition is_nan (x : spec_float) : bool :=
  match x with
  | S754_nan => true
  | _ => false
  end.

(** C++ [float]: IEEE binary32. *)
Module F32.
Definition prec : Z := 24.
Definition emax : Z := 128.

Definition add := SFadd prec emax.
Definition sub := SFsub prec emax.
Definition mul := SFmul prec emax.
Definition div := SFdiv prec emax.
Definition ltb := SFltb.
Definition leb := SFleb.
Definition valid := valid_binary prec emax.

(** Conversion of an integer to [float]. *)
Definition of_int (n : Z) : spec_float := binary_normalize prec emax n 0 false.

(** The literal [n/d] for integers [n] and [d] that are themselves
    binary32 numbers: the correctly rounded quotient, which is how a
    decimal literal such as [.9f] (9/10) is read. *)
Definition dec (n d : Z) : spec_float := div (of_int n) (of_int d).

(** Conversion of a [float] to a signed integer type of [bits] bits:
    truncation toward zero, undefined ([None]) when the truncated value
    does not fit. *)
Definition to_sint (bits : Z) (x : spec_float) : option Z :=
  match SFtrunc x with
  | Some n =>
      if (- 2 ^ (bits - 1) <=? n) && (n <? 2 ^ (bits - 1)) then Some n else None
  | None => None
  end.

(** Conversion of a [double] to [float]: rounding to nearest. *)
Definition of_double (x : spec_float) : spec_float :=
  match x with
  | S754_finite s m e => binary_round prec emax s m e
  | _ => x
  end.

Definition zero : spec_float := S754_zero false.
Definition one : spec_float := of_int 1.
End F32.

(** C++ [double]: IEEE binary64. *)
Module F64.
Definition prec : Z := 53.
Definition emax : Z := 1024.

Definition add := SFadd prec emax.
Definition mul := SFmul prec emax.
Definition valid := valid_binary prec emax.

Definition of_int (n : Z) : spec_float := binary_normalize prec emax n 0 false.

(** Promotion of a [float] to [double]: exact; the mantissa is brought
    to the binary64 normal form. *)
Definition of_float (x : spec_float) : spec_float :=
  match x with
  | S754_finite s m e => binary_round prec emax s m e
  | _ => x
  end.
End F64.

Definition f32 : Set := spec_float.
Definition f64 : Set := spec_float.

(** [constexpr float DT = 1.f / 44100.f;] *)
Definition DT : f32 := F32.div (F32.of_int 1) (F32.of_int 44100).

(** ** [struct Sample] *)

Record Sample := mkSample { left : f32; right : f32 }.

Module SampleOps.
(** [Sample()] *)
Definition default : Sample := mkSample F32.zero F32.zero.
(** [Sample(float sample)] *)
Definition of_float (s : f32) : Sample := mkSample s s.
(** [operator +] *)
Definition add (a b : Sample) : Sample :=
  mkSample (F32.add (left a) (left b)) (F32.add (right a) (right b)).
(** [operator *] *)
Definition scale (a : Sample) (f : f32) : Sample :=
  mkSample (F32.mul (left a) f) (F32.mul (right a) f).
End SampleOps.

(** ** [Output], [Value], [Input] *)

(** [Output<T>]: the capability [T get(int t)].  A pull may change the
    objects of the graph, which live in the world [W]. *)
Definition Output (W T : Type) : Type := Z -> W -> T * W.

(** [Value<T>::get] ignores the time. *)
Definition Value_get {W T : Type} (value : T) : Output W T :=
  fun _ w => (value, w).

(** [Input<T>] holds its own [Value<T>] and a pointer that designates
    either that value ([None]) or another output of the graph. *)
Record Input (W T : Type) := mkInput {
  input_value : T;
  input_output : option (Output W T)
}.
Arguments mkInput {W T}.
Arguments input_value {W T}.
Arguments input_output {W T}.

Module InputOps.
Section Ops.
Context {W T : Type}.
(** [Input(const T& value = T())] *)
Definition make (value : T) : Input W T := mkInput value None.
(** [connect(Output<T>&)], also written [o >> i] *)
Definition connect (i : Input W T) (o : Output W T) : Input W T :=
  mkInput (input_value i) (Some o).
(** [connect(const T&)], also written [v >> i] *)
Definition connect_value (i : Input W T) (v : T) : Input W T :=
  mkInput v None.
(** [Input<T>::get] *)
Definition get (i : Input W T) : Output W T :=
  match input_output i with
  | Some o => o
  | None => Value_get (input_value i)
  end.
End Ops.
End InputOps.

(** ** [Node<T>] *)

(** The members of [Node<T>] next to the members [S] of the class derived
    from it. *)
Record Node (S T : Type) := mkNode {
  node_value : T;
  node_t : Z;
  node_self : S
}.
Arguments mkNode {S T}.
Arguments node_value {S T}.
Arguments node_t {S T}.
Arguments node_self {S T}.

Section NodeGet.
Context {S T : Type}.
(** [virtual T produce()]: it reads the time through [this->t] (the
    helper [get(Output<T2>&)] pulls at that time) and may change the
    derived object. *)
Variable produce : Z -> S -> T * S.

(** [Node(): value(), t(0) {}] *)
Definition Node_new (default : T) (self : S) : Node S T :=
  mkNode default 0 self.

(** [T get(int t) override] *)
Definition Node_get (t : Z) (n : Node S T) : T * Node S T :=
  if negb (t =? node_t n) then
    let '(v, s) := produce t (node_self n) in
    (v, mkNode v t s)
  else (node_value n, n).

(** [k] pulls in a row at the same time: the values returned, in order,
    and the node they leave. *)
Fixpoint Node_pulls (k : nat) (t : Z) (n : Node S T) : list T * Node S T :=
  match k with
  | O => ([], n)
  | Datatypes.S k' =>
      let '(v, n1) := Node_get t n in
      let '(vs, n2) := Node_pulls k' t n1 in
      (v :: vs, n2)
  end.
End NodeGet.

(** A call counter around a processing routine, as a test would
    add it: the derived object carries the number of calls so far. *)
Definition counted {A S T : Type} (f : A -> S -> T * S) : A -> S * nat -> T * (S * nat) :=
  fun a sc => let '(v, s) := f a (fst sc) in (v, (s, Datatypes.S (snd sc))).

(** ** [InputTuple] and [Node2<T>] *)

(** [InputTuple<Head, Tail...>]: one input socket per parameter of the
    processing routine, in declared order. *)
Inductive InputTuple (W : Type) : list Type -> Type :=
| InputTuple_nil : InputTuple W []
| InputTuple_cons {Head : Type} {Tail : list Type}
  (head : Input W Head) (tail : InputTuple W Tail) : InputTuple W (Head :: Tail).
Arguments InputTuple_nil {W}.
Arguments InputTuple_cons {W Head Tail}.

(** The argument pack handed to [process]. *)
Fixpoint Args (ts : list Type) : Type :=
  match ts with
  | [] => unit
  | Head :: Tail => (Head * Args Tail)%type
  end.

(** The pulls of [get_and_process]: [head.get(t)] is evaluated before the
    call into the tail, so the sockets are pulled in declared order, all
    at the same time [t]. *)
Fixpoint InputTuple_get {W : Type} {ts : list Type} (i : InputTuple W ts)
    (t : Z) (w : W) : Args ts * W :=
  match i in InputTuple _ ts return Args ts * W with
  | InputTuple_nil => (tt, w)
  | InputTuple_cons head tail =>
      let '(a, w1) := InputOps.get head t w in
      let '(r, w2) := InputTuple_get tail t w1 in
      ((a, r), w2)
  end.

Section Node2Get.
Context {W S R : Type} {ts : list Type}.

(** [Node2<T>] derives from [T] (here [S]) and adds the sockets, the
    cached value and its time stamp. *)
Record Node2 := mkNode2 {
    node2_self : S;
    node2_inputs : InputTuple W ts;
    node2_value : R;
    node2_t : Z
  }.

(** [T::process], the routine the sockets are derived from. *)
Variable process : Args ts -> S -> R * S.

(** [Node2] inherits the constructors of [T] ([using T::T;]) and gives
    [value] and [t] no initializer: an object that is not
    zero-initialized starts with whatever its storage holds, which the
    model takes as [storage_value] and [storage_t]. *)
Definition Node2_new (self : S) (inputs : InputTuple W ts)
    (storage_value : R) (storage_t : Z) : Node2 :=
  mkNode2 self inputs storage_value storage_t.

(** [return_type<T> get(int t) override] *)
Definition Node2_get (t : Z) (nw : Node2 * W) : R * (Node2 * W) :=
  let '(n, w) := nw in
  if negb (t =? node2_t n) then
    let '(args, w1) := InputTuple_get (node2_inputs n) t w in
    let '(v, s) := process args (node2_self n) in
    (v, (mkNode2 s (node2_inputs n) v t, w1))
  else (node2_value n, (n, w)).

Fixpoint Node2_pulls (k : nat) (t : Z) (nw : Node2 * W) : list R * (Node2 * W) :=
  match k with
  | O => ([], nw)
  | Datatypes.S k' =>
      let '(v, nw1) := Node2_get t nw in
      let '(vs, nw2) := Node2_pulls k' t nw1 in
      (v :: vs, nw2)
  end.
End Node2Get.
Arguments Node2 : clear implicits.
Arguments mkNode2 {W S R ts}.

(** ** Oscillators and basic processors *)

Module Saw.
Record state := mk { value : f32 }.
(** [float value = 0.f;] *)
Definition init : state := mk F32.zero.
(** [value += frequency * (2.0 * DT)] is evaluated in [double]: [2.0] is
    a [double] literal, so [DT], [frequency] and [value] are promoted and
    the sum is converted back to [float]. *)
Definition process (s : state) (frequency : f32) : f32 * state :=
  let step := F64.mul (F64.of_float frequency) (F64.mul (F64.of_int 2) (F64.of_float DT)) in
  let v := F32.of_double (F64.add (F64.of_float (value s)) step) in
  let v := if F32.ltb F32.one v then F32.sub v (F32.of_int 2) else v in
  (v, mk v).
End Saw.

Module Square.
Record state := mk { value : f32 }.
Definition init : state := mk F32.zero.
Definition process (s : state) (frequency : f32) : f32 * state :=
  let v := F32.add (value s) (F32.mul frequency DT) in
  let v := if F32.ltb F32.one v then F32.sub v F32.one else v in
  (if F32.ltb (F32.dec 5 10) v then F32.one else SFopp F32.one, mk v).
End Square.

Module Gain.
Section Wired.
Context {W : Type}.
(** The two public sockets [input] and [amount]. *)
Variable input amount : Input W f32.
(** [get(input) * get(amount)], each operand pulled at [this->t]. *)
Definition produce (t : Z) (w : W) : f32 * W :=
  let '(a, w1) := InputOps.get input t w in
  let '(b, w2) := InputOps.get amount t w1 in
  (F32.mul a b, w2).
End Wired.
End Gain.

Module Width.
Definition process (input : Sample) (width : f32) : Sample :=
  SampleOps.add
    (SampleOps.scale input (F32.add (F32.dec 5 10) (F32.mul width (F32.dec 5 10))))
    (SampleOps.scale (mkSample (right input) (left input))
       (F32.sub (F32.dec 5 10) (F32.mul width (F32.dec 5 10)))).
End Width.

Module Clip.
Definition process (input : f32) : f32 :=
  if F32.ltb (F32.dec 9 10) input then F32.dec 9 10
  else if F32.ltb input (SFopp (F32.dec 9 10)) then SFopp (F32.dec 9 10)
  else input.
End Clip.

(** ** Reverb *)

(** Assignment to [buffer[position]]. *)
Fixpoint store {A : Type} (l : list A) (i : nat) (x : A) : list A :=
  match l, i with
  | [], _ => []
  | _ :: r, O => x :: r
  | a :: r, Datatypes.S j => a :: store r j x
  end.

Module Freeverb.
(** [Comb<N>] *)
Record Comb := mkComb {
    comb_N : nat;
    comb_buffer : list f32;
    comb_position : nat;
    comb_previous : f32
  }.
Definition Comb_new (N : nat) : Comb := mkComb N (repeat F32.zero N) 0 F32.zero.
Definition Comb_process (c : Comb) (input feedback damp : f32) : f32 * Comb :=
  let output := nth (comb_position c) (comb_buffer c) F32.zero in
  let filtered :=
    F32.add (F32.mul output (F32.sub F32.one damp)) (F32.mul (comb_previous c) damp) in
  (output,
   mkComb (comb_N c)
     (store (comb_buffer c) (comb_position c) (F32.add input (F32.mul filtered feedback)))
     ((comb_position c + 1) mod comb_N c)%nat
     filtered).

(** [AllPass<N>] *)
Record AllPass := mkAllPass {
    allpass_N : nat;
    allpass_buffer : list f32;
    allpass_position : nat
  }.
Definition AllPass_new (N : nat) : AllPass := mkAllPass N (repeat F32.zero N) 0.
Definition AllPass_process (a : AllPass) (input : f32) : f32 * AllPass :=
  let feedback := F32.dec 5 10 in
  let output := nth (allpass_position a) (allpass_buffer a) F32.zero in
  (F32.sub output input,
   mkAllPass (allpass_N a)
     (store (allpass_buffer a) (allpass_position a) (F32.add input (F32.mul output feedback)))
     ((allpass_position a + 1) mod allpass_N a)%nat).

(** [Channel<S>]: [comb1] .. [comb8] and [all_pass1] .. [all_pass4], kept
    in declaration order. *)
Record Channel := mkChannel { combs : list Comb; all_passes : list AllPass }.
Definition Channel_new (S : nat) : Channel :=
  mkChannel
    (map (fun n => Comb_new (n + S)) [1116; 1188; 1277; 1356; 1422; 1491; 1557; 1617]%nat)
    (map (fun n => AllPass_new (n + S)) [556; 441; 341; 225]%nat).

(** The comb filters in parallel: each sees [input] and adds to [result]. *)
Fixpoint combs_process (cs : list Comb) (input feedback damp result : f32)
    : f32 * list Comb :=
  match cs with
  | [] => (result, [])
  | c :: r =>
      let '(o, c') := Comb_process c input feedback damp in
      let '(result', r') := combs_process r input feedback damp (F32.add result o) in
      (result', c' :: r')
  end.

(** The all-pass filters in series. *)
Fixpoint all_passes_process (l : list AllPass) (result : f32) : f32 * list AllPass :=
  match l with
  | [] => (result, [])
  | a :: r =>
      let '(o, a') := AllPass_process a result in
      let '(result', r') := all_passes_process r o in
      (result', a' :: r')
  end.

Definition Channel_process (c : Channel) (input feedback damp : f32) : f32 * Channel :=
  let '(result, cs) := combs_process (combs c) input feedback damp F32.zero in
  let '(result, aps) := all_passes_process (all_passes c) result in
  (result, mkChannel cs aps).

Record state := mk { channel1 : Channel; channel2 : Channel }.
Definition init : state := mk (Channel_new 0) (Channel_new 23).

(** [const float feedback = room_size * .28f + .7f;] *)
Definition feedback (room_size : f32) : f32 :=
  F32.add (F32.mul room_size (F32.dec 28 100)) (F32.dec 7 10).

Definition process (r : state) (input room_size damp wet dry width : f32) : Sample * state :=
  let _input := F32.mul input (F32.dec 3 100) in
  let feedback := feedback room_size in
  let damp := F32.mul damp (F32.dec 4 10) in
  let wet := F32.mul wet (F32.of_int 3) in
  let dry := F32.mul dry (F32.of_int 2) in
  let '(output1, c1) := Channel_process (channel1 r) _input feedback damp in
  let '(output2, c2) := Channel_process (channel2 r) _input feedback damp in
  (SampleOps.add
     (SampleOps.scale (Width.process (mkSample output1 output2) width) wet)
     (SampleOps.scale (SampleOps.of_float input) dry),
   mk c1 c2).
End Freeverb.

(** ** Automation *)

(** [*cursor] for a cursor into a NUL-terminated text: the rest of the text
    stands for the pointer, the empty rest for the terminator. *)
Definition deref (cursor : string) : ascii :=
  match cursor with
  | EmptyString => NUL
  | String c _ => c
  end.

(** [++cursor] *)
Definition advance (cursor : string) : string :=
  match cursor with
  | EmptyString => EmptyString
  | String _ rest => rest
  end.

Definition is_digit (c : ascii) : bool := (48 <=? char_code c) && (char_code c <=? 57).

Module Automation.
Record state := mk {
    automation : string;
    cursor : string;
    value : f32;
    delta : f32;
    t : Z
  }.

(** the digit loop of the integer part: [number = number * 10.f + digit] *)
Fixpoint parse_integer (cursor : string) (number : f32) : f32 * string :=
  match cursor with
  | String c rest =>
      if is_digit c then
        parse_integer rest
          (F32.add (F32.mul number (F32.of_int 10)) (F32.of_int (char_code c - 48)))
      else (number, cursor)
  | EmptyString => (number, cursor)
  end.

(** the digit loop of the fraction: [number += digit * factor; factor /= 10.f] *)
Fixpoint parse_fraction (cursor : string) (number factor : f32) : f32 * string :=
  match cursor with
  | String c rest =>
      if is_digit c then
        parse_fraction rest
          (F32.add number (F32.mul (F32.of_int (char_code c - 48)) factor))
          (F32.div factor (F32.of_int 10))
      else (number, cursor)
  | EmptyString => (number, cursor)
  end.

Definition parse_number (cursor : string) : f32 * string :=
  let '(sign, cursor) :=
    if Ascii.eqb (deref cursor) "-" then (F32.of_int (-1), advance cursor)
    else (F32.one, cursor) in
  let '(number, cursor) := parse_integer cursor F32.zero in
  let '(number, cursor) :=
    if Ascii.eqb (deref cursor) "."
    then parse_fraction (advance cursor) number (F32.dec 1 10)
    else (number, cursor) in
  (F32.mul number sign, cursor).

Fixpoint skip_space (cursor : string) : string :=
  match cursor with
  | String c rest => if Ascii.eqb c " " then skip_space rest else cursor
  | EmptyString => cursor
  end.

(** [Automation(const char* automation)] *)
Definition init (automation : string) : state :=
  mk automation automation F32.zero F32.zero 1.

(** [float process()].  The conversion of [parse_number() / DT] to [int]
    is undefined when the quotient does not fit: [None]. *)
Definition process (a : state) : option (f32 * state) :=
  let value := F32.add (value a) (delta a) in
  let t := wrap32 (t a - 1) in
  if t =? 0 then
    if negb (Ascii.eqb (deref (cursor a)) NUL) then
      let '(new_value, c1) := parse_number (cursor a) in
      if Ascii.eqb (deref c1) "/" then
        let '(duration, c2) := parse_number (advance c1) in
        match F32.to_sint 32 (F32.div duration DT) with
        | Some t =>
            let delta := F32.div (F32.sub new_value value) (F32.of_int t) in
            Some (value, mk (automation a) (skip_space c2) value delta t)
        | None => None
        end
      else
        Some (new_value, mk (automation a) (skip_space c1) new_value F32.zero 1)
    else Some (value, mk (automation a) (cursor a) value F32.zero t)
  else Some (value, mk (automation a) (cursor a) value (delta a) t).

Definition reset (a : state) : state := init (automation a).

(** [n] calls of [process] in a row: the values returned, oldest
    first, and the object left. *)
Fixpoint run (n : nat) (a : state) : option (list f32 * state) :=
  match n with
  | O => Some ([], a)
  | Datatypes.S k =>
      match process a with
      | Some (v, a1) =>
          match run k a1 with
          | Some (vs, a2) => Some (v :: vs, a2)
          | None => None
          end
      | None => None
      end
  end.
End Automation.

(** ** MIDI events *)

Record MIDIEvent := mkMIDIEvent { status : Z; data1 : Z; data2 : Z }.

Module MIDI.
(** [MIDIEvent(): status(0), data1(0), data2(2)] *)
Definition empty : MIDIEvent := mkMIDIEvent 0 0 2.
(** The three-argument constructor takes [uchar] parameters. *)
Definition make (status data1 data2 : Z) : MIDIEvent :=
  mkMIDIEvent (to_uchar status) (to_uchar data1) (to_uchar data2).
Definition create_note_off (note velocity channel : Z) : MIDIEvent :=
  make (Z.lor 0x80 (to_uchar channel)) (to_uchar note) (to_uchar velocity).
Definition create_note_on (note velocity channel : Z) : MIDIEvent :=
  make (Z.lor 0x90 (to_uchar channel)) (to_uchar note) (to_uchar velocity).
(** [operator bool] *)
Definition to_bool (e : MIDIEvent) : bool := negb (Z.land (status e) 0x80 =? 0).
Definition is_note_off (e : MIDIEvent) : bool := Z.land (status e) 0xF0 =? 0x80.
Definition is_note_on (e : MIDIEvent) : bool := Z.land (status e) 0xF0 =? 0x90.
Definition get_channel (e : MIDIEvent) : Z := Z.land (status e) 0x0F.
(** The clock tick [MIDIEvent(0xF8, 0, 0)] that [MIDIClock] emits. *)
Definition clock : MIDIEvent := make 0xF8 0 0.
End MIDI.

(** [pattern[i]] for a NUL-terminated text: the characters, then the
    terminator; reading further is undefined. *)
Definition char_at (pattern : string) (i : Z) : option ascii :=
  if i <? 0 then None
  else
    match String.get (Z.to_nat i) pattern with
    | Some c => Some c
    | None => if i =? Z.of_nat (String.length pattern) then Some NUL else None
    end.

Module NotePattern.
Record state := mk { note : Z; pattern : string; t : Z }.

(** [NotePattern(uchar note, const char* pattern)] *)
Definition init (note : Z) (pattern : string) : state := mk (to_uchar note) pattern 0.

(** [MIDIEvent process(MIDIEvent clock)]; [/] and [%] on [int] truncate. *)
Definition process (p : state) (clock : MIDIEvent) : option (MIDIEvent * state) :=
  if status clock =? 0xF8 then
    if Z.rem (t p) 6 =? 0 then
      match char_at (pattern p) (Z.quot (t p) 6) with
      | Some c =>
          let event :=
            if (char_code "0" <=? char_code c) && (char_code c <=? char_code "8")
            then MIDI.create_note_on (note p) ((char_code c - char_code "0") * 15) 0
            else MIDI.empty in
          Some (event, mk (note p) (pattern p) (wrap32 (t p + 1)))
      | None => None
      end
    else if Z.rem (t p) 6 =? 5 then
      match char_at (pattern p) (Z.quot (t p) 6) with
      | Some prev =>
          let t1 := wrap32 (t p + 1) in
          match char_at (pattern p) (Z.quot t1 6) with
          | Some c =>
              let t2 := if Ascii.eqb c NUL then 0 else t1 in
              match char_at (pattern p) (Z.quot t2 6) with
              | Some next =>
                  let event :=
                    if negb (Ascii.eqb prev " ") && negb (Ascii.eqb next "-")
                    then MIDI.create_note_off (note p) 127 0
                    else MIDI.empty in
                  Some (event, mk (note p) (pattern p) t2)
              | None => None
              end
          | None => None
          end
      | None => None
      end
    else Some (MIDI.empty, mk (note p) (pattern p) (wrap32 (t p + 1)))
  else Some (MIDI.empty, p).

(** The events answered to a sequence of clock inputs, in order. *)
Fixpoint run (p : state) (clocks : list MIDIEvent) : option (list MIDIEvent * state) :=
  match clocks with
  | [] => Some ([], p)
  | c :: r =>
      match process p c with
      | Some (e, p1) =>
          match run p1 r with
          | Some (es, p2) => Some (e :: es, p2)
          | None => None
          end
      | None => None
      end
  end.
End NotePattern.

(** ** ADSR envelope *)

Module ADSR.
Inductive State := Attack | Decay | Sustain | Release.

Record state := mk { current : State; value : f32; note : Z }.

(** [State state = State::Sustain; float value = 0.f; uchar note = 0;] *)
Definition init : state := mk Sustain F32.zero 0.

Section Process.
(** [std::pow] on [float]: a library routine, not part of the
    repository. *)
Variable pow : f32 -> f32 -> f32.

(** The per-tick step of the attack ramp, [1000.f / attack * DT]. *)
Definition attack_step (attack : f32) : f32 :=
  F32.mul (F32.div (F32.of_int 1000) attack) DT.

Definition process (a : state) (event : MIDIEvent)
    (attack decay sustain release : f32) : f32 * state :=
  let '(note, st) :=
    if MIDI.is_note_on event then
      let slide := negb (note a =? 0) in
      (data1 event, if negb slide then Attack else current a)
    else if MIDI.is_note_off event && (data1 event =? note a) then (0, Release)
    else (note a, current a) in
  match st with
  | Attack =>
      let v := F32.add (value a) (attack_step attack) in
      if F32.leb F32.one v then (F32.one, mk Decay F32.one note)
      else (v, mk Attack v note)
  | Decay =>
      let v :=
        F32.add sustain
          (F32.mul (F32.sub (value a) sustain)
             (pow (F32.dec 1 100) (F32.div (F32.mul DT (F32.of_int 1000)) decay))) in
      (v, mk Decay v note)
  | Sustain => (value a, mk Sustain (value a) note)
  | Release =>
      let v := F32.sub (value a) (F32.mul (F32.div (F32.of_int 1000) release) DT) in
      if F32.leb v F32.zero then (F32.zero, mk Sustain F32.zero note)
      else (v, mk Release v note)
  end.

(** The values answered to a sequence of events, with the envelope
    parameters held fixed, and the object left. *)
Fixpoint run (a : state) (events : list MIDIEvent)
    (attack decay sustain release : f32) : list f32 * state :=
  match events with
  | [] => ([], a)
  | e :: r =>
      let '(v, a1) := process a e attack decay sustain release in
      let '(vs, a2) := run a1 r attack decay sustain release in
      (v :: vs, a2)
  end.
End Process.
End ADSR.

(** ** WAV output *)

Module WAVOutput.
(** [write<T>(data)] copies the [size] bytes of the integer [data],
    least significant first. *)
Fixpoint write (size : nat) (data : Z) : list Z :=
  match size with
  | O => []
  | Datatypes.S k => data mod 256 :: write k (data / 256)
  end.

(** [write_tag(tag)] copies four characters. *)
Definition write_tag (tag : string) : list Z :=
  map char_code (firstn 4 (list_ascii_of_string tag)).

(** The argument of [write<int16_t>(sample.left * 32767.f + .5f)],
    converted to [int16_t]. *)
Definition quantize (x : f32) : option Z :=
  F32.to_sint 16 (F32.add (F32.mul x (F32.of_int 32767)) (F32.dec 5 10)).

Definition header (frames : Z) : list Z :=
  write_tag "RIFF" ++ write 4 (wrap32 (36 + wrap32 (wrap32 (frames * 2) * 2)))
  ++ write_tag "WAVE"
  ++ write_tag "fmt " ++ write 4 16 ++ write 2 1 ++ write 2 2
  ++ write 4 44100 ++ write 4 (44100 * 2 * 2) ++ write 2 (2 * 2) ++ write 2 16
  ++ write_tag "data" ++ write 4 (wrap32 (wrap32 (frames * 2) * 2)).

Section Run.
Context {W : Type}.
Variable input : Output W Sample.

(** The loop [for (int t = 1; t <= frames; ++t)], entered at [t]; [++t]
    is [int] arithmetic.  [fuel] bounds the number of times the test
    [t <= frames] is made: a loop that has not left by then has no
    outcome. *)
Fixpoint frames_loop (fuel : nat) (t frames : Z) (w : W) : option (list Z * W) :=
  match fuel with
  | O => None
  | Datatypes.S k =>
      if t <=? frames then
        let '(sample, w1) := input t w in
        match quantize (left sample), quantize (right sample) with
        | Some l, Some r =>
            match frames_loop k (wrap32 (t + 1)) frames w1 with
            | Some (bytes, w2) => Some (write 2 l ++ write 2 r ++ bytes, w2)
            | None => None
            end
        | _, _ => None
        end
      else Some ([], w)
  end.

(** [void run(Output<Sample>& input, int frames)]: the bytes written
    to the file and the world the pulls leave.  A loop that leaves makes
    its test once more than it pulls, [frames + 1] times for a positive
    [frames]. *)
Definition run (frames : Z) (w : W) : option (list Z * W) :=
  match frames_loop (Datatypes.S (Z.to_nat frames)) 1 frames w with
  | Some (bytes, w') => Some (header frames ++ bytes, w')
  | None => None
  end.
End Run.
End WAVOutput.

(** ** Observers used by the statements *)

(** An output that records the times at which it is pulled. *)
Definition logged {W T : Type} (o : Output W T) : Output (W * list Z) T :=
  fun t wl => let '(v, w) := o t (fst wl) in (v, (w, snd wl ++ [t])).

(** The times [t0], [t0 + 1], ..., [count] of them. *)
Fixpoint times_from (t0 : Z) (count : nat) : list Z :=
  match count with
  | O => []
  | Datatypes.S k => t0 :: times_from (t0 + 1) k
  end.

(** The number of calls a [counted] routine has seen. *)
Definition calls {S T : Type} (n : Node (S * nat) T) : nat := snd (node_self n).
Definition calls2 {W S R : Type} {ts : list Type} (n : Node2 W (S * nat) R ts) : nat :=
  snd (node2_self n).

(** The quantization as the specification words it: [round(sample x 32767)]
    clamped to the int16 range, rounding half away from zero. *)
Definition round_half_away (q : Q) : Z :=
  if Qle_bool 0 q then Qfloor (q + (1 # 2)) else Qceiling (q - (1 # 2)).
Definition quantize_spec (x : f32) : Z :=
  Z.max (-32768) (Z.min 32767 (round_half_away (SF2Q x * inject_Z 32767))).


(** The value [process] returns at tick [n] (the [n]-th call, counted from
    1) of a freshly constructed [Automation]. *)
Definition Automation_value_at (script : string) (n : nat) : option f32 :=
  match Automation.run n (Automation.init script) with
  | Some (vs, _) => nth_error vs (n - 1)
  | None => None
  end.

(** The samples an output yields when pulled at [t], [t + 1], ...,
    [count] times, and the world left. *)
Fixpoint pulled {W : Type} (input : Output W Sample) (count : nat) (t : Z) (w : W)
    : list Sample * W :=
  match count with
  | O => ([], w)
  | Datatypes.S k =>
      let '(s, w1) := input t w in
      let '(r, w2) := pulled input k (t + 1) w1 in
      (s :: r, w2)
  end.

(** The four data bytes of one frame. *)
Definition frame_bytes (s : Sample) : option (list Z) :=
  match WAVOutput.quantize (left s), WAVOutput.quantize (right s) with
  | Some l, Some r => Some (WAVOutput.write 2 l ++ WAVOutput.write 2 r)
  | _, _ => None
  end.

Fixpoint frames_bytes (l : list Sample) : option (list Z) :=
  match l with
  | [] => Some []
  | s :: r =>
      match frame_bytes s, frames_bytes r with
      | Some b, Some bs => Some (b ++ bs)
      | _, _ => None
      end
  end.

(** [Saw::process] and [Square::process] as [Node2] sees them: one
    [float] parameter. *)
Definition Saw_routine (args : Args [f32 : Type]) (s : Saw.state) : f32 * Saw.state :=
  Saw.process s (fst args).
Definition Square_routine (args : Args [f32 : Type]) (s : Square.state) : f32 * Square.state :=
  Square.process s (fst args).

(** The run of an oscillator over a sequence of frequency inputs. *)
Fixpoint Saw_run (s : Saw.state) (fs : list f32) : list f32 :=
  match fs with
  | [] => []
  | f :: r => let '(v, s1) := Saw.process s f in v :: Saw_run s1 r
  end.
Fixpoint Square_run (s : Square.state) (fs : list f32) : list f32 :=
  match fs with
  | [] => []
  | f :: r => let '(v, s1) := Square.process s f in v :: Square_run s1 r
  end.

(** ** Concrete objects the statements are evaluated on *)

(** A [Gain] with the constants 2 and 3 bound to its sockets, its
    [produce] counted, freshly constructed. *)
Definition gain_2_3 : Z -> unit * nat -> f32 * (unit * nat) :=
  counted (Gain.produce (InputOps.make (F32.of_int 2)) (InputOps.make (F32.of_int 3))).
Definition fresh_gain : Node (unit * nat) f32 := Node_new F32.zero (tt, O).

(** A [Node2<Saw>] with 440 bound to its frequency socket, constructed in
    storage that held 0.5 in [value] and 7 in [t]. *)
Definition stale_saw : Node2 unit (Saw.state * nat) f32 [f32 : Type] :=
  Node2_new (Saw.init, O)
    (InputTuple_cons (InputOps.make (F32.of_int 440)) InputTuple_nil)
    (F32.dec 5 10) 7.

(** The scripts of the automation scenarios. *)
Definition zero_ramp_script : string := "1/0 2".
Definition ramp_script : string := "0 1/1".

(** The tick at which the ramp of ["0 1/1"] ends and the value it has
    reached there. *)
Definition ramp_ticks : nat := Z.to_nat 44102.
Definition ramp_end : f32 := S754_finite false 16768507 (-24).

(** [v] lies within 6/10000 of the line [(i - 2) / 44100]. *)
Definition ramp_within (i : Z) (v : f32) : bool :=
  is_finite v &&
  Qle_bool (Qabs (SF2Q v - inject_Z (i - 2) / inject_Z 44100)) (6 # 10000).

(** A check of the values of the ticks [i], [i + 1], ... *)
Fixpoint all_from (ok : Z -> f32 -> bool) (i : Z) (vs : list f32) : bool :=
  match vs with
  | [] => true
  | v :: r => ok i v && all_from ok (i + 1) r
  end.

(** What a run amounts to in the ramp scenario: the check of the ticks
    from 2 on, the values at ticks 1, 2, 44101 and 44102, and the object
    left. *)
Definition summarize (o : option (list f32 * Automation.state)) :=
  match o with
  | Some (vs, a) =>
      Some (all_from ramp_within 2 (tl vs),
            nth_error vs 0, nth_error vs 1,
            nth_error vs (Z.to_nat 44100), nth_error vs (Z.to_nat 44101),
            Automation.cursor a, Automation.value a, Automation.delta a)
  | None => None
  end.

(** ** Floating-point values and correct rounding *)

(** [m * 2^e] with an integer [m]. *)
Definition Q2 (m e : Z) : Q := inject_Z m * pow2 e.

(** After [k] shifts of the exact mantissa [m]: the quotient by [2^k], and
    the round and sticky bits locate the remainder against the half. *)
Definition shr_inv (m k : Z) (mrs : shr_record) : Prop :=
  exists rem,
    m = shr_m mrs * 2 ^ k + rem /\ 0 <= rem < 2 ^ k /\ 0 <= shr_m mrs /\
    (shr_r mrs = true <-> 2 ^ k <= 2 * rem) /\
    (shr_s mrs = true <-> rem <> 0 /\ 2 * rem <> 2 ^ k).

(** The mantissa rounded to nearest even after the shift. *)
Definition rne (mrs : shr_record) : Z :=
  round_nearest_even (shr_m mrs) (loc_of_shr_record mrs).

(** The value of a datum with the infinities placed at [2^emax], just
    past the largest finite number. *)
Definition Bval (emax : Z) (x : spec_float) : Q :=
  match x with
  | S754_finite s m e => Q2 (cond_Zopp s (Zpos m)) e
  | S754_infinity s => if s then - pow2 emax else pow2 emax
  | _ => 0%Q
  end.

(** The datum [binary_round_aux] builds from the final mantissa and
    exponent. *)
Definition round_result (prec emax : Z) (s : bool) (M E : Z) : spec_float :=
  match M with
  | Z0 => S754_zero s
  | Zpos p => if E <=? emax - prec then S754_finite s p E else S754_infinity s
  | Zneg _ => S754_nan
  end.

(** A pair [(N, ec)] stands for a number of the format (with unbounded
    exponent) when the mantissa fits and the exponent is not below the
    least one. *)
Definition fmt_rep (prec emax : Z) (N ec : Z) : Prop :=
  0 <= N <= 2 ^ prec /\ SpecFloat.emin prec emax <= ec.

(** A signed number of the format (the infinities counted at [2^emax]). *)
Definition fmt_repQ (prec emax : Z) (c : Q) : Prop :=
  exists N ec, fmt_rep prec emax N ec /\ (Q2 N ec <= pow2 emax)%Q /\ (c == Q2 N ec \/ c == - Q2 N ec)%Q.

(** [r] is a rounding of the exact value [v]: a datum of the format that
    no number of the format separates from [v]. *)
Definition Rounded (prec emax : Z) (v : Q) (r : spec_float) : Prop :=
  valid_binary prec emax r = true /\ is_nan r = false /\
  forall c, fmt_repQ prec emax c ->
    ((v <= c)%Q -> (Bval emax r <= c)%Q) /\ ((c <= v)%Q -> (c <= Bval emax r)%Q).

(** [r] is nearest to the exact value [v]: no number of the format on
    the other side of [v] is nearer to it. *)
Definition Nearest (prec emax : Z) (v : Q) (r : spec_float) : Prop :=
  forall c, fmt_repQ prec emax c ->
    ((c <= v)%Q -> (v <= Bval emax r)%Q -> (Bval emax r - v <= v - c)%Q) /\
    ((v <= c)%Q -> (Bval emax r <= v)%Q -> (v - Bval emax r <= c - v)%Q).

(** The value of a [float]. *)
Definition B32 : spec_float -> Q := Bval F32.emax.

(** ** Invariants and observers of the processors *)

(** The state of [Saw] stays a [float] in [-1, 1]. *)
Definition Saw_inv (v : f32) : Prop :=
  F32.valid v = true /\ F32.leb (F32.of_int (-1)) v = true /\ F32.leb v F32.one = true.

(** A frequency input of an oscillator: a [float] above 0 and below the
    sample rate. *)
Definition audio_frequency (f : f32) : Prop :=
  F32.valid f = true /\ F32.ltb F32.zero f = true /\ F32.ltb f (F32.of_int 44100) = true.

(** Each value is strictly above the one before, starting above [v]. *)
Fixpoint ascending (v : f32) (vs : list f32) : Prop :=
  match vs with
  | [] => True
  | x :: r => F32.ltb v x = true /\ ascending x r
  end.

(** An event that is neither a note-on nor a note-off. *)
Definition quiet (e : MIDIEvent) : Prop :=
  MIDI.is_note_on e = false /\ MIDI.is_note_off e = false.

(** The attack step 2^-24, the spacing of the [float]s just below 1.0: a
    step of at least this size moves every value below 1.0 up. *)
Definition least_step : f32 := S754_finite false 8388608 (-47).

(** 2^-25, half the spacing of the [float]s just below 1.0: a step above
    it moves every value below 1.0 up, a step below it is lost once the
    value is 0.5 or more. *)
Definition half_step : f32 := S754_finite false 8388608 (-48).

(** The position of a non-negative [float] on the grid of step 2^-149. *)
Definition grid32 (v : spec_float) : Z :=
  match v with
  | S754_finite false m e => Zpos m * 2 ^ (e + 149)
  | _ => 0
  end.

(** ** Bounds of the reverb *)

(** [v] is a finite [float] of magnitude at most [M]. *)
Definition within (M : Q) (v : f32) : Prop :=
  F32.valid v = true /\ is_finite v = true /\ (- M <= B32 v <= M)%Q.

(** 2^-22: no operation whose exact result is within 4 errs by more. *)
Definition eps : Q := 1 # 4194304.

(** A parameter in [0, 1], and an audio sample in [-1, 1]. *)
Definition unit_range (v : f32) : Prop :=
  F32.valid v = true /\ F32.leb F32.zero v = true /\ F32.leb v F32.one = true.
Definition sample_range (v : f32) : Prop :=
  F32.valid v = true /\ F32.leb (F32.of_int (-1)) v = true /\ F32.leb v F32.one = true.

(** What a comb filter keeps: its delay line within 2, its low-pass
    state within 2 + 2^-18. *)
Definition Comb_inv (c : Freeverb.Comb) : Prop :=
  Forall (within 2) (Freeverb.comb_buffer c) /\
  within (2 + (1 # 262144)) (Freeverb.comb_previous c).

(** What a chain of all-pass filters keeps when its input is within [I]:
    each delay line within twice the bound of its input, each output
    within three times. *)
Fixpoint AllPasses_inv (I : Z) (l : list Freeverb.AllPass) : Prop :=
  match l with
  | [] => True
  | a :: r =>
      Forall (within (inject_Z (2 * I))) (Freeverb.allpass_buffer a) /\
      AllPasses_inv (3 * I) r
  end.

(** What a channel keeps: its eight comb filters, and its four all-pass
    filters fed a sum within 16. *)
Definition Channel_inv (c : Freeverb.Channel) : Prop :=
  Forall Comb_inv (Freeverb.combs c) /\ List.length (Freeverb.combs c) = 8%nat /\
  AllPasses_inv 16 (Freeverb.all_passes c) /\ List.length (Freeverb.all_passes c) = 4%nat.

(** The arguments of one call of [Freeverb::process]. *)
Record FreeverbCall := mkFreeverbCall {
    fv_input : f32;
    fv_room_size : f32;
    fv_damp : f32;
    fv_wet : f32;
    fv_dry : f32;
    fv_width : f32
  }.

(** [process] called once per tick with the arguments of the tick. *)
Fixpoint Freeverb_run (r : Freeverb.state) (calls : list FreeverbCall)
    : list Sample * Freeverb.state :=
  match calls with
  | [] => ([], r)
  | c :: rest =>
      let '(s, r1) :=
        Freeverb.process r (fv_input c) (fv_room_size c) (fv_damp c) (fv_wet c)
          (fv_dry c) (fv_width c) in
      let '(ss, r2) := Freeverb_run r1 rest in
      (s :: ss, r2)
  end.

(** The input is an audio sample and every parameter lies in [0, 1]. *)
Definition Freeverb_in_range (c : FreeverbCall) : Prop :=
  sample_range (fv_input c) /\ unit_range (fv_room_size c) /\ unit_range (fv_damp c) /\
  unit_range (fv_wet c) /\ unit_range (fv_dry c) /\ unit_range (fv_width c).

(** What bounds the reverb network: the input an audio sample, the room
    size and the damping in [0, 1].  The wet and dry levels and the
    width only enter the final mix. *)
Definition Freeverb_network_range (c : FreeverbCall) : Prop :=
  sample_range (fv_input c) /\ unit_range (fv_room_size c) /\ unit_range (fv_damp c).

(** What the reverb keeps: both channels. *)
Definition Freeverb_inv (r : Freeverb.state) : Prop :=
  Channel_inv (Freeverb.channel1 r) /\ Channel_inv (Freeverb.channel2 r).

(** A finite [float] between 0 and [m]. *)
Definition upto (m : Z) (y : f32) : Prop :=
  F32.valid y = true /\ is_finite y = true /\ (0 <= B32 y <= inject_Z m)%Q.

(** A unit impulse and [n] ticks of silence after it with the damping
    at 10, every other parameter at 1. *)
Definition Freeverb_overdamped (n : nat) : list FreeverbCall :=
  mkFreeverbCall F32.one F32.one (F32.of_int 10) F32.one F32.one F32.one ::
  repeat (mkFreeverbCall F32.zero F32.one (F32.of_int 10) F32.one F32.one F32.one) n.

(** A unit impulse and [n] ticks of silence after it, every parameter
    at 1. *)
Definition Freeverb_impulse (n : nat) : list FreeverbCall :=
  mkFreeverbCall F32.one F32.one F32.one F32.one F32.one F32.one ::
  repeat (mkFreeverbCall F32.zero F32.one F32.one F32.one F32.one F32.one) n.

(** ** [RingBuffer<T, N>] and [Queue<T, N>] *)

(** [std::size_t] is an unsigned 64-bit integer: its arithmetic wraps. *)
Definition size_t (n : Z) : Z := n mod 2 ^ 64.

Module RingBuffer.
Section Ring.
Context {T : Type}.
(** [T()], the value [data()] gives every element at construction. *)
Variable T0 : T.

(** The template parameter [N] next to the members [data] and [start]. *)
Record state := mk { ring_N : Z; data : list T; start : Z }.

(** [RingBuffer(): data(), start(0) {}] *)
Definition init (N : Z) : state := mk N (repeat T0 (Z.to_nat N)) 0.

(** The element [operator []] designates: [data[(start + i) % N]]. *)
Definition index (r : state) (i : Z) : nat :=
  Z.to_nat (size_t (start r + i) mod ring_N r).

(** [operator []], read and written. *)
Definition get (r : state) (i : Z) : T := nth (index r i) (data r) T0.
Definition set (r : state) (i : Z) (x : T) : state :=
  mk (ring_N r) (store (data r) (index r i) x) (start r).

(** [operator ++]: [start = (start + 1) % N] *)
Definition inc (r : state) : state :=
  mk (ring_N r) (data r) (size_t (start r + 1) mod ring_N r).

(** [operator --]: [start = (start + (N - 1)) % N] *)
Definition dec (r : state) : state :=
  mk (ring_N r) (data r) (size_t (start r + size_t (ring_N r - 1)) mod ring_N r).
End Ring.
Arguments state : clear implicits.
End RingBuffer.

Module Queue.
Section Queue.
Context {T : Type}.
Variable T0 : T.

Record state := mk { buffer : RingBuffer.state T; size : Z }.

(** [Queue(): size(0) {}] *)
Definition init (N : Z) : state := mk (RingBuffer.init T0 N) 0.

(** [buffer[size] = element; ++size;] *)
Definition put (q : state) (element : T) : state :=
  mk (RingBuffer.set (buffer q) (size q) element) (size_t (size q + 1)).

(** [T element = buffer[0]; ++buffer; --size; return element;] *)
Definition take (q : state) : T * state :=
  (RingBuffer.get T0 (buffer q) 0,
   mk (RingBuffer.inc (buffer q)) (size_t (size q - 1))).

Definition is_empty (q : state) : bool := size q =? 0.
End Queue.
Arguments state : clear implicits.
End Queue.

(** A ring of [N] elements, [N] at most 2^63 so that [--] does not wrap,
    with [start] inside. *)
Definition RingBuffer_wf {T : Type} (r : RingBuffer.state T) : Prop :=
  0 < RingBuffer.ring_N r <= 2 ^ 63 /\
  List.length (RingBuffer.data r) = Z.to_nat (RingBuffer.ring_N r) /\
  0 <= RingBuffer.start r < RingBuffer.ring_N r.

(** [k] times [++]. *)
Fixpoint RingBuffer_incs {T : Type} (k : nat) (r : RingBuffer.state T) : RingBuffer.state T :=
  match k with
  | O => r
  | S k' => RingBuffer_incs k' (RingBuffer.inc r)
  end.

(** The elements a queue holds, oldest first: [buffer[0]], ...,
    [buffer[size - 1]]. *)
Definition Queue_contents {T : Type} (T0 : T) (q : Queue.state T) : list T :=
  map (fun i => RingBuffer.get T0 (Queue.buffer q) (Z.of_nat i))
      (seq 0 (Z.to_nat (Queue.size q))).

(** A queue on a well-formed ring that holds at most [N] elements. *)
Definition Queue_wf {T : Type} (q : Queue.state T) : Prop :=
  RingBuffer_wf (Queue.buffer q) /\
  0 <= Queue.size q <= RingBuffer.ring_N (Queue.buffer q).

(** Elements put one after the other. *)
Definition Queue_puts {T : Type} (q : Queue.state T) (xs : list T) : Queue.state T :=
  fold_left Queue.put xs q.

(** [k] elements taken one after the other. *)
Fixpoint Queue_takes {T : Type} (T0 : T) (k : nat) (q : Queue.state T) : list T * Queue.state T :=
  match k with
  | O => ([], q)
  | S k' =>
      let '(x, q1) := Queue.take T0 q in
      let '(xs, q2) := Queue_takes T0 k' q1 in
      (x :: xs, q2)
  end.

(** ** [Pattern<N>] *)

Module Pattern.
(** The [N] patterns of the [std::array] and the queue of [N] events. *)
Record state := mk {
    patterns : list NotePattern.state;
    queue : Queue.state MIDIEvent
  }.

(** [Pattern(const std::array<NotePattern, N>& patterns)]; the queue is
    default-constructed, its ring filled with [MIDIEvent()]. *)
Definition init (patterns : list NotePattern.state) : state :=
  mk patterns (Queue.init MIDI.empty (Z.of_nat (List.length patterns))).

(** The loop [for (auto& pattern: patterns)]: every pattern sees the
    clock, and its event is queued when [operator bool] holds of it. *)
Fixpoint patterns_process (ps : list NotePattern.state) (clock : MIDIEvent)
    (q : Queue.state MIDIEvent) : option (list NotePattern.state * Queue.state MIDIEvent) :=
  match ps with
  | [] => Some ([], q)
  | p :: r =>
      match NotePattern.process p clock with
      | Some (event, p') =>
          let q' := if MIDI.to_bool event then Queue.put q event else q in
          match patterns_process r clock q' with
          | Some (r', q'') => Some (p' :: r', q'')
          | None => None
          end
      | None => None
      end
  end.

(** [MIDIEvent process(MIDIEvent clock)] *)
Definition process (s : state) (clock : MIDIEvent) : option (MIDIEvent * state) :=
  match patterns_process (patterns s) clock (queue s) with
  | Some (ps, q) =>
      if negb (Queue.is_empty q) then
        let '(e, q') := Queue.take MIDI.empty q in Some (e, mk ps q')
      else Some (MIDI.empty, mk ps q)
  | None => None
  end.

(** The events answered to a sequence of clock inputs, in order. *)
Fixpoint run (s : state) (clocks : list MIDIEvent) : option (list MIDIEvent * state) :=
  match clocks with
  | [] => Some ([], s)
  | c :: r =>
      match process s c with
      | Some (e, s1) =>
          match run s1 r with
          | Some (es, s2) => Some (e :: es, s2)
          | None => None
          end
      | None => None
      end
  end.
End Pattern.

(** What the patterns answer to one clock input, one after the other:
    their events, those [operator bool] rejects included, and the
    patterns as they are left. *)
Fixpoint Pattern_events (ps : list NotePattern.state) (clock : MIDIEvent)
    : option (list MIDIEvent * list NotePattern.state) :=
  match ps with
  | [] => Some ([], [])
  | p :: r =>
      match NotePattern.process p clock with
      | Some (event, p') =>
          match Pattern_events r clock with
          | Some (es, r') => Some (event :: es, p' :: r')
          | None => None
          end
      | None => None
      end
  end.

(** A text as a C string holds it: no NUL before the terminator. *)
Definition c_string (s : string) : Prop :=
  forall i c, String.get i s = Some c -> c <> NUL.

(** ** [Xorshift128plus] *)

(** [uint64_t] arithmetic wraps; a left shift drops the bits it pushes
    out. *)
Definition uint64 (n : Z) : Z := n mod 2 ^ 64.

Module Xorshift128plus.
(** [uint64_t s[2];] *)
Record state := mk { s0 : Z; s1 : Z }.

(** [Xorshift128plus(): s{0, 0xC0DEC0DEC0DEC0DE} {}] *)
Definition init : state := mk 0 0xC0DEC0DEC0DEC0DE.

Definition get_next (g : state) : Z * state :=
  let result := uint64 (s0 g + s1 g) in
  let x := Z.lxor (s0 g) (uint64 (Z.shiftl (s0 g) 23)) in
  (result,
   mk (s1 g)
      (Z.lxor (Z.lxor (Z.lxor x (s1 g)) (Z.shiftr x 18)) (Z.shiftr (s1 g) 5))).
End Xorshift128plus.

(** Both words of the state are 64-bit values. *)
Definition Xorshift_wf (g : Xorshift128plus.state) : Prop :=
  0 <= Xorshift128plus.s0 g < 2 ^ 64 /\ 0 <= Xorshift128plus.s1 g < 2 ^ 64.

(** The generator after [n] calls of [get_next]. *)
Fixpoint Xorshift_after (n : nat) (g : Xorshift128plus.state) : Xorshift128plus.state :=
  match n with
  | O => g
  | S k => Xorshift_after k (snd (Xorshift128plus.get_next g))
  end.

(** ** Division *)

(** Where a location places a value between two neighbours of the grid,
    in quarters of their distance. *)
Definition loc_code (l : location) : Z :=
  match l with
  | loc_Exact => 0
  | loc_Inexact Lt => 1
  | loc_Inexact Eq => 2
  | loc_Inexact Gt => 3
  end.

(** A zero of either sign. *)
Definition is_zero (x : spec_float) : bool :=
  match x with
  | S754_zero _ => true
  | _ => false
  end.

(** ** [Random] and [Noise] *)

Module Random.
(** [static uint64_t get()]: the generator is a static local of the
    function, one object for the whole program, which the model hands
    from call to call. *)
Definition get (g : Xorshift128plus.state) : Z * Xorshift128plus.state :=
  Xorshift128plus.get_next g.

(** [get() / static_cast<float>(0xFFFFFFFFFFFFFFFF)]: the number drawn
    is converted to [float] for the division. *)
Definition get_float (g : Xorshift128plus.state) : f32 * Xorshift128plus.state :=
  let '(n, g') := get g in
  (F32.div (F32.of_int n) (F32.of_int 0xFFFFFFFFFFFFFFFF), g').
End Random.

Module Noise.
(** [Random::get_float() * 2.f - 1.f] *)
Definition process (g : Xorshift128plus.state) : f32 * Xorshift128plus.state :=
  let '(x, g') := Random.get_float g in
  (F32.sub (F32.mul x (F32.of_int 2)) F32.one, g').
End Noise.

(** ** Envelope times *)

(** Each value is strictly below the one before, starting below [v]. *)
Fixpoint descending (v : f32) (vs : list f32) : Prop :=
  match vs with
  | [] => True
  | x :: r => F32.ltb x v = true /\ descending x r
  end.

(** An attack or release time the envelope can follow: a [float] above 0
    and at most 2^18 = 262144 milliseconds. *)
Definition ADSR_time (p : f32) : Prop :=
  F32.valid p = true /\ F32.ltb F32.zero p = true /\ F32.leb p (F32.of_int 262144) = true.

(** A value the envelope takes while a note sounds: a [float] above 0
    and at most 1. *)
Definition ADSR_level (v : f32) : Prop :=
  F32.valid v = true /\ F32.ltb F32.zero v = true /\ F32.leb v F32.one = true.

(** ** [class MIDIClock] *)

Module MIDIClock.
(** [float value = 1.f;] *)
Definition init : f32 := F32.one.

(** [bpm / 60.f * 24.f * DT] *)
Definition step (bpm : f32) : f32 :=
  F32.mul (F32.mul (F32.div bpm (F32.of_int 60)) (F32.of_int 24)) DT.

(** [MIDIEvent process(float bpm)] *)
Definition process (value bpm : f32) : MIDIEvent * f32 :=
  let v := F32.add value (step bpm) in
  if F32.ltb F32.one v then (MIDI.clock, F32.sub v F32.one)
  else (MIDI.empty, v).

(** The events answered to a sequence of tempos, and the value left. *)
Fixpoint run (value : f32) (bpms : list f32) : list MIDIEvent * f32 :=
  match bpms with
  | [] => ([], value)
  | bpm :: r =>
      let '(e, v1) := process value bpm in
      let '(es, v2) := run v1 r in
      (e :: es, v2)
  end.
End MIDIClock.

(** The test [NotePattern::process] applies to its clock input. *)
Definition is_tick (e : MIDIEvent) : bool := status e =? 0xF8.

(** The number of clock ticks among the events. *)
Definition ticks (es : list MIDIEvent) : Z := Z.of_nat (List.length (filter is_tick es)).

(** The beats asked for: the sum of the steps, as exact numbers. *)
Definition beats (bpms : list f32) : Q :=
  fold_right (fun bpm acc => (B32 (MIDIClock.step bpm) + acc)%Q) 0%Q bpms.

(** A tempo from 0 to 60000 beats per minute. *)
Definition MIDIClock_tempo (bpm : f32) : Prop :=
  F32.valid bpm = true /\ F32.leb F32.zero bpm = true /\ F32.leb bpm (F32.of_int 60000) = true.

(** What the clock keeps: a [float] from 0 to 1. *)
Definition MIDIClock_inv (v : f32) : Prop :=
  F32.valid v = true /\ is_finite v = true /\ (0 <= B32 v <= 1)%Q.

(** ** [class Velocity] *)

Module Velocity.
(** [float velocity;] has no initialiser: the state is whatever the
    storage holds until the first note-on.

    [float process(MIDIEvent event)]: [event.data2 / 127.f] converts
    the byte to [float] and divides. *)
Definition process (velocity : f32) (event : MIDIEvent) : f32 * f32 :=
  if MIDI.is_note_on event then
    let v := F32.div (F32.of_int (data2 event)) (F32.of_int 127) in (v, v)
  else (velocity, velocity).

Fixpoint run (velocity : f32) (events : list MIDIEvent) : list f32 * f32 :=
  match events with
  | [] => ([], velocity)
  | e :: r =>
      let '(v, s1) := process velocity e in
      let '(vs, s2) := run s1 r in
      (v :: vs, s2)
  end.
End Velocity.

(** ** [class Frequency] *)

Module Frequency.
Record state := mk { frequency : f32; target_frequency : f32; factor : f32; note : Z }.

(** [float frequency; float target_frequency;] have no initialiser, so
    the object starts with whatever the storage holds;
    [float factor = 1.f; uchar note = 0;]. *)
Definition init (frequency0 target0 : f32) : state := mk frequency0 target0 F32.one 0.

Section Process.
(** [std::pow] on [float]: a library routine, not part of the
    repository. *)
Variable pow : f32 -> f32 -> f32.

(** [440.f * std::pow(2.f, (note-69)/12.f)] *)
Definition pitch (note : Z) : f32 :=
  F32.mul (F32.of_int 440)
    (pow (F32.of_int 2) (F32.div (F32.of_int (note - 69)) (F32.of_int 12))).

(** [float process(MIDIEvent event)] *)
Definition process (s : state) (event : MIDIEvent) : f32 * state :=
  let s1 :=
    if MIDI.is_note_on event then
      let slide := negb (note s =? 0) in
      let t := pitch (data1 event) in
      if slide then
        mk (frequency s) t
           (pow (F32.div t (frequency s)) (F32.div DT (F32.dec 5 100))) (data1 event)
      else mk t t F32.one (data1 event)
    else if MIDI.is_note_off event && (data1 event =? note s) then
      mk (frequency s) (target_frequency s) (factor s) 0
    else s in
  let f := F32.mul (frequency s1) (factor s1) in
  if (F32.ltb F32.one (factor s1) && F32.ltb (target_frequency s1) f)
     || (F32.ltb (factor s1) F32.one && F32.ltb f (target_frequency s1))
  then (target_frequency s1, mk (target_frequency s1) (target_frequency s1) F32.one (note s1))
  else (f, mk f (target_frequency s1) (factor s1) (note s1)).

Fixpoint run (s : state) (events : list MIDIEvent) : list f32 * state :=
  match events with
  | [] => ([], s)
  | e :: r =>
      let '(v, s1) := process s e in
      let '(vs, s2) := run s1 r in
      (v :: vs, s2)
  end.
End Process.
End Frequency.

(** The velocity bytes, 0 to 255. *)
Definition bytes : list Z := map Z.of_nat (seq 0 256).

(** The velocity answered for the byte [d]. *)
Definition velocity_of (d : Z) : f32 := F32.div (F32.of_int d) (F32.of_int 127).

(** ** [class Pan], [class Mono] *)

Module Pan.
Definition process (input panning : f32) : Sample :=
  mkSample
    (F32.mul input (F32.sub (F32.dec 5 10) (F32.mul panning (F32.dec 5 10))))
    (F32.mul input (F32.add (F32.dec 5 10) (F32.mul panning (F32.dec 5 10)))).
End Pan.

Module Mono.
Definition process (sample : Sample) : f32 :=
  F32.mul (F32.add (left sample) (right sample)) (F32.dec 5 10).
End Mono.

(** [out] is a [float] between 0 and [x], on the side of [x]. *)
Definition attenuated (x out : f32) : Prop :=
  F32.valid out = true /\ is_finite out = true /\
  ((0 <= B32 x)%Q -> (0 <= B32 out <= B32 x)%Q) /\
  ((B32 x <= 0)%Q -> (B32 x <= B32 out <= 0)%Q).

(** ** [class Delay<N>] *)

Module Delay.
(** The arguments of one call of [process]. *)
Record Call := mkCall {
  input : f32; feedback : f32; wet : f32; dry : f32; width : f32
}.

(** [RingBuffer<float, N> buffer;], every element [0.f]. *)
Definition init (N : Z) : RingBuffer.state f32 := RingBuffer.init F32.zero N.

(** [buffer[0] * (feedback * feedback)] and [buffer[N/2] * feedback] *)
Definition left_tap (buffer : RingBuffer.state f32) (c : Call) : f32 :=
  F32.mul (RingBuffer.get F32.zero buffer 0) (F32.mul (feedback c) (feedback c)).
Definition right_tap (buffer : RingBuffer.state f32) (c : Call) : f32 :=
  F32.mul (RingBuffer.get F32.zero buffer (size_t (RingBuffer.ring_N buffer) / 2))
          (feedback c).

(** What [buffer[0] = input + left] stores. *)
Definition stored (buffer : RingBuffer.state f32) (c : Call) : f32 :=
  F32.add (input c) (left_tap buffer c).

(** [Sample process(float input, float feedback, float wet, float dry,
    float width)] *)
Definition process (buffer : RingBuffer.state f32) (c : Call)
    : Sample * RingBuffer.state f32 :=
  let l := left_tap buffer c in
  let r := right_tap buffer c in
  let b1 := RingBuffer.set buffer 0 (stored buffer c) in
  let b2 := RingBuffer.inc b1 in
  (SampleOps.add
     (SampleOps.scale (Width.process (mkSample l r) (width c)) (wet c))
     (SampleOps.scale (SampleOps.of_float (input c)) (dry c)),
   b2).

Fixpoint run (buffer : RingBuffer.state f32) (calls : list Call)
    : list Sample * RingBuffer.state f32 :=
  match calls with
  | [] => ([], buffer)
  | c :: r =>
      let '(s, b1) := process buffer c in
      let '(ss, b2) := run b1 r in
      (s :: ss, b2)
  end.
End Delay.

(** The values the calls store in the line, in order. *)
Fixpoint Delay_written (buffer : RingBuffer.state f32) (calls : list Delay.Call)
    : list f32 :=
  match calls with
  | [] => []
  | c :: r => Delay.stored buffer c :: Delay_written (snd (Delay.process buffer c)) r
  end.

(** ** Decimal numbers in an automation script *)

(** The integer a run of decimal digits denotes, read after [acc]. *)
Fixpoint decimal_value (acc : Z) (digits : string) : Z :=
  match digits with
  | EmptyString => acc
  | String c r => decimal_value (acc * 10 + (char_code c - 48)) r
  end.

Fixpoint all_digits (digits : string) : bool :=
  match digits with
  | EmptyString => true
  | String c r => is_digit c && all_digits r
  end.

(** A character that ends an integer: neither a digit nor the point. *)
Definition ends_integer (rest : string) : Prop :=
  is_digit (deref rest) = false /\ Ascii.eqb (deref rest) "." = false.

(** ** Reading a WAV file back *)

(** The integer whose bytes, least significant first, are [bytes]. *)
Fixpoint le_decode (bytes : list Z) : Z :=
  match bytes with
  | [] => 0
  | b :: r => b + 256 * le_decode r
  end.

Definition is_byte (b : Z) : Prop := 0 <= b < 256.

(** A frame whose two channels are within [-1, 1]. *)
Definition frame_in_range (s : Sample) : Prop :=
  sample_range (left s) /\ sample_range (right s).

(** ** Silence in the reverb *)

(** The same [float], or two zeros (whose signs may differ). *)
Definition same_value (x y : f32) : Prop :=
  x = y \/ (is_zero x = true /\ is_zero y = true).

Definition all_zero (l : list f32) : Prop := Forall (fun x => is_zero x = true) l.

(** The room size, the damping, the wet level and the width in [0, 1];
    the input and the dry level are left free. *)
Definition Freeverb_settings (c : FreeverbCall) : Prop :=
  unit_range (fv_room_size c) /\ unit_range (fv_damp c) /\
  unit_range (fv_wet c) /\ unit_range (fv_width c).

(** A comb filter of at least [n] elements that has been called [j]
    times since its construction: the elements from [j] on still hold
    the zeros they were constructed with. *)
Definition Comb_fresh (n j : nat) (c : Freeverb.Comb) : Prop :=
  (n <= Freeverb.comb_N c)%nat /\ Freeverb.comb_position c = j /\
  is_zero (Freeverb.comb_previous c) = true /\
  forall i, (j <= i)%nat -> is_zero (nth i (Freeverb.comb_buffer c) F32.zero) = true.

(** A comb filter that holds nothing but zeros. *)
Definition Comb_silent (c : Freeverb.Comb) : Prop :=
  is_zero (Freeverb.comb_previous c) = true /\ all_zero (Freeverb.comb_buffer c).

(** A channel whose comb filters are fresh and whose all-pass filters
    hold nothing but zeros. *)
Definition Channel_fresh (n j : nat) (c : Freeverb.Channel) : Prop :=
  Forall (Comb_fresh n j) (Freeverb.combs c) /\
  Forall (fun a => all_zero (Freeverb.allpass_buffer a)) (Freeverb.all_passes c).

Definition Channel_silent (c : Freeverb.Channel) : Prop :=
  Forall Comb_silent (Freeverb.combs c) /\
  Forall (fun a => all_zero (Freeverb.allpass_buffer a)) (Freeverb.all_passes c).

(** What the dry path alone answers: [input * (dry * 2.f)]. *)
Definition Freeverb_dry (c : FreeverbCall) : f32 :=
  F32.mul (fv_input c) (F32.mul (fv_dry c) (F32.of_int 2)).

(** ** [class LowPass] *)

Module LowPass.
(** [float previous = 0.f;] *)
Definition init : f32 := F32.zero.

(** [float process(float input, float cutoff)] *)
Definition process (previous input cutoff : f32) : f32 * f32 :=
  let output := F32.add previous (F32.mul (F32.sub input previous) cutoff) in
  (output, output).

(** The answers to a sequence of calls, each an input and a cutoff. *)
Fixpoint run (previous : f32) (calls : list (f32 * f32)) : list f32 * f32 :=
  match calls with
  | [] => ([], previous)
  | (input, cutoff) :: r =>
      let '(o, p1) := process previous input cutoff in
      let '(os, p2) := run p1 r in
      (o :: os, p2)
  end.
End LowPass.

(** ** The cursor of an automation *)

(** [cursor] points into [text]: it is what is left of [text] after some
    of its characters. *)
Definition points_into (cursor text : string) : Prop :=
  exists read : string, text = (read ++ cursor)%string.

(** * Properties *)

(** ** Machine numbers *)

Lemma to_uchar_small (n : Z) : 0 <= n < 256 -> to_uchar n = n.
Proof. intros H. unfold to_uchar. apply Z.mod_small. lia. Qed.

Lemma wrap32_small (n : Z) : - 2 ^ 31 <= n < 2 ^ 31 -> wrap32 n = n.
Proof. intros H. unfold wrap32. rewrite Z.mod_small; lia. Qed.

(** ** The memoizing nodes *)

Section NodeFacts.
Context {S T : Type}.
Variable produce : Z -> S -> T * S.

Lemma Node_get_cached (t : Z) (n : Node S T) :
  node_t n = t -> Node_get produce t n = (node_value n, n).
Proof.
  intros H. unfold Node_get. rewrite H, Z.eqb_refl. reflexivity.
Qed.

Lemma Node_get_stamp (t : Z) (n : Node S T) :
  node_t (snd (Node_get produce t n)) = t /\
  node_value (snd (Node_get produce t n)) = fst (Node_get produce t n).
Proof.
  unfold Node_get. destruct (t =? node_t n) eqn:E; simpl.
  - apply Z.eqb_eq in E. auto.
  - destruct (produce t (node_self n)); simpl. auto.
Qed.

Lemma Node_pulls_cached (k : nat) (t : Z) (n : Node S T) :
  node_t n = t -> Node_pulls produce k t n = (repeat (node_value n) k, n).
Proof.
  intros H. induction k as [|k IH]; simpl.
  - reflexivity.
  - rewrite (Node_get_cached t n H), IH. reflexivity.
Qed.

Lemma Node_pulls_first (k : nat) (t : Z) (n : Node S T) :
  Node_pulls produce (Datatypes.S k) t n =
  (repeat (fst (Node_get produce t n)) (Datatypes.S k), snd (Node_get produce t n)).
Proof.
  simpl. destruct (Node_get_stamp t n) as [Ht Hv].
  destruct (Node_get produce t n) as [v n1]; simpl in *.
  rewrite (Node_pulls_cached k t n1 Ht), Hv. reflexivity.
Qed.
End NodeFacts.

Lemma Node_get_calls {S T : Type} (produce : Z -> S -> T * S) (t : Z) (n : Node (S * nat) T) :
  calls (snd (Node_get (counted produce) t n)) =
  (calls n + if (t =? node_t n)%Z then 0 else 1)%nat.
Proof.
  unfold Node_get, calls, counted. destruct (t =? node_t n); simpl.
  - lia.
  - destruct (produce t (fst (node_self n))); simpl. lia.
Qed.

Section Node2Facts.
Context {W S R : Type} {ts : list Type}.
Variable process : Args ts -> S -> R * S.

Lemma Node2_get_cached (t : Z) (n : Node2 W S R ts) (w : W) :
  node2_t n = t -> Node2_get process t (n, w) = (node2_value n, (n, w)).
Proof.
  intros H. unfold Node2_get. rewrite H, Z.eqb_refl. reflexivity.
Qed.

Lemma Node2_get_stamp (t : Z) (nw : Node2 W S R ts * W) :
  node2_t (fst (snd (Node2_get process t nw))) = t /\
  node2_value (fst (snd (Node2_get process t nw))) = fst (Node2_get process t nw).
Proof.
  destruct nw as [n w]. unfold Node2_get. destruct (t =? node2_t n) eqn:E; simpl.
  - apply Z.eqb_eq in E. auto.
  - destruct (InputTuple_get (node2_inputs n) t w) as [args w1].
    destruct (process args (node2_self n)); simpl. auto.
Qed.

Lemma Node2_pulls_cached (k : nat) (t : Z) (n : Node2 W S R ts) (w : W) :
  node2_t n = t -> Node2_pulls process k t (n, w) = (repeat (node2_value n) k, (n, w)).
Proof.
  intros H. induction k as [|k IH]; simpl.
  - reflexivity.
  - rewrite H, Z.eqb_refl. simpl. simpl in IH. rewrite IH. reflexivity.
Qed.

Lemma Node2_pulls_first (k : nat) (t : Z) (nw : Node2 W S R ts * W) :
  Node2_pulls process (Datatypes.S k) t nw =
  (repeat (fst (Node2_get process t nw)) (Datatypes.S k), snd (Node2_get process t nw)).
Proof.
  cbn [Node2_pulls]. destruct (Node2_get_stamp t nw) as [Ht Hv].
  destruct (Node2_get process t nw) as [v [n1 w1]]; simpl in *.
  rewrite (Node2_pulls_cached k t n1 w1 Ht), Hv. reflexivity.
Qed.
End Node2Facts.

Lemma Node2_get_calls {W S R : Type} {ts : list Type} (process : Args ts -> S -> R * S)
    (t : Z) (n : Node2 W (S * nat) R ts) (w : W) :
  calls2 (fst (snd (Node2_get (counted process) t (n, w)))) =
  (calls2 n + if (t =? node2_t n)%Z then 0 else 1)%nat.
Proof.
  unfold Node2_get, calls2, counted. destruct (t =? node2_t n); simpl.
  - lia.
  - destruct (InputTuple_get (node2_inputs n) t w) as [args w1].
    destruct (process args (fst (node2_self n))); simpl. lia.
Qed.

(** Fan-out: a [Gain] whose two sockets are wired to the same source node
    pulls that node twice per tick, and the source runs its routine
    once. *)
Lemma Gain_fan_out {S : Type} (src : Z -> S -> f32 * S)
    (g : Node (Node (S * nat) f32) f32) (t : Z) :
  let o : Output (Node (S * nat) f32) f32 := Node_get (counted src) in
  let i := InputOps.connect (InputOps.make F32.zero) o in
  t <> node_t g -> t <> node_t (node_self g) ->
  let r := Node_get (Gain.produce i i) t g in
  calls (node_self (snd r)) = Datatypes.S (calls (node_self g)) /\
  fst r = F32.mul (fst (src t (fst (node_self (node_self g)))))
                  (fst (src t (fst (node_self (node_self g))))).
Proof.
  intros o i Hg Hn r.
  pose proof (Node_get_calls src t (node_self g)) as Hc.
  pose proof (Node_get_stamp (counted src) t (node_self g)) as [Ht Hv].
  assert (Hf : fst (Node_get (counted src) t (node_self g)) =
               fst (src t (fst (node_self (node_self g))))).
  { unfold Node_get, counted. apply Z.eqb_neq in Hn. rewrite Hn. simpl.
    destruct (src t (fst (node_self (node_self g)))); reflexivity. }
  assert (Hr : r = (F32.mul (fst (Node_get (counted src) t (node_self g)))
                            (fst (Node_get (counted src) t (node_self g))),
                    mkNode (F32.mul (fst (Node_get (counted src) t (node_self g)))
                                    (fst (Node_get (counted src) t (node_self g))))
                           t (snd (Node_get (counted src) t (node_self g))))).
  { subst r. unfold Node_get at 1. apply Z.eqb_neq in Hg. rewrite Hg. simpl.
    unfold Gain.produce, i, InputOps.get, InputOps.connect, InputOps.make, o. simpl.
    destruct (Node_get (counted src) t (node_self g)) as [a n1]; simpl in *.
    rewrite (Node_get_cached (counted src) t n1 Ht). rewrite Hv. reflexivity. }
  rewrite Hr. simpl. apply Z.eqb_neq in Hn. rewrite Hn in Hc. rewrite Hf.
  split; [lia | reflexivity].
Qed.

(** C1, as amended: for every node ([Node] and [Node2] alike), whatever its
    state, and every time [t], any number of consecutive pulls at [t] all
    return the value of the first of them, and together they run the
    node's routine exactly once when [t] differs from the time stamp the
    node held before the first pull, and not at all when it equals it. *)
Theorem memoized_pulls :
  (forall (S T : Type) (produce : Z -> S -> T * S) (n : Node (S * nat) T) (t : Z) (k : nat),
      let r := Node_pulls (counted produce) (Datatypes.S k) t n in
      fst r = repeat (fst (Node_get (counted produce) t n)) (Datatypes.S k) /\
      calls (snd r) = (calls n + if (t =? node_t n)%Z then 0 else 1)%nat) /\
  (forall (W S R : Type) (ts : list Type) (process : Args ts -> S -> R * S)
          (n : Node2 W (S * nat) R ts) (w : W) (t : Z) (k : nat),
      let r := Node2_pulls (counted process) (Datatypes.S k) t (n, w) in
      fst r = repeat (fst (Node2_get (counted process) t (n, w))) (Datatypes.S k) /\
      calls2 (fst (snd r)) = (calls2 n + if (t =? node2_t n)%Z then 0 else 1)%nat).
Proof.
  split.
  - intros S T produce n t k r. subst r.
    rewrite Node_pulls_first. simpl fst. simpl snd.
    split; [reflexivity | apply Node_get_calls].
  - intros W S R ts process n w t k r. subst r.
    rewrite Node2_pulls_first. simpl fst. simpl snd.
    split; [reflexivity | apply Node2_get_calls].
Qed.

(** C1 as stated fails: a freshly constructed [Gain] pulled twice at time
    0 answers the default value both times and never runs [produce], so
    the routine is not run exactly once for every time. *)
Lemma memoized_once_fails_at_stamp :
  Node_pulls gain_2_3 2 0 fresh_gain = ([F32.zero; F32.zero], fresh_gain) /\
  ~ (forall t : Z, calls (snd (Node_pulls gain_2_3 2 t fresh_gain)) = 1%nat).
Proof.
  split.
  - reflexivity.
  - intros H. specialize (H 0). vm_compute in H. discriminate H.
Qed.

(** The [Node] half of C10: [Node()] sets the time stamp to 0, so pulls at
    time 0 answer the default value and leave the node as constructed,
    its routine never run; the first pull at another time runs it. *)
Lemma Node_fresh_time0 {S T : Type} (produce : Z -> S -> T * S) (default : T) (self : S) :
  (forall k, Node_pulls produce k 0 (Node_new default self) =
             (repeat default k, Node_new default self)) /\
  (forall t, t <> 0 ->
             Node_get produce t (Node_new default self) =
             (fst (produce t self), mkNode (fst (produce t self)) t (snd (produce t self)))).
Proof.
  split.
  - intros k. apply (Node_pulls_cached produce k 0 (Node_new default self)). reflexivity.
  - intros t Ht. unfold Node_get, Node_new. simpl. apply Z.eqb_neq in Ht. rewrite Ht. simpl.
    destruct (produce t self); reflexivity.
Qed.

(** C10 on [Node2]: nothing sets [t] when a [Node2] is constructed.  With 7
    left in the storage, the first pull at time 0 runs [Saw::process] and
    answers a computed value, and a pull at time 7 answers the stale
    [value] without computing. *)
Theorem Node2_stale_stamp :
  (let r := Node2_get (counted Saw_routine) 0 (stale_saw, tt) in
   fst r = S754_finite false 10713070 (-29) /\ calls2 (fst (snd r)) = 1%nat) /\
  (let r := Node2_get (counted Saw_routine) 7 (stale_saw, tt) in
   fst r = F32.dec 5 10 /\ calls2 (fst (snd r)) = 0%nat).
Proof.
  split; split; vm_compute; reflexivity.
Qed.

(** ** The step pattern *)

Lemma create_note_on_small (note velocity : Z) :
  0 <= note < 256 -> 0 <= velocity < 256 ->
  MIDI.create_note_on note velocity 0 = mkMIDIEvent 0x90 note velocity.
Proof.
  intros Hn Hv. unfold MIDI.create_note_on, MIDI.make.
  rewrite !(to_uchar_small note Hn), !(to_uchar_small velocity Hv). reflexivity.
Qed.

Lemma create_note_off_small (note velocity : Z) :
  0 <= note < 256 -> 0 <= velocity < 256 ->
  MIDI.create_note_off note velocity 0 = mkMIDIEvent 0x80 note velocity.
Proof.
  intros Hn Hv. unfold MIDI.create_note_off, MIDI.make.
  rewrite !(to_uchar_small note Hn), !(to_uchar_small velocity Hv). reflexivity.
Qed.

(** C5: the pattern ["5--"] fed 18 clock ticks answers a note-on of
    velocity 75 at the first tick, a note-off at the 18th, and the empty
    event at the sixteen ticks in between; it is then back at its start. *)
Theorem NotePattern_5_sustain (note : Z) :
  0 <= note < 256 ->
  NotePattern.run (NotePattern.init note "5--") (repeat MIDI.clock 18) =
    Some (mkMIDIEvent 0x90 note 75 :: repeat MIDI.empty 16 ++ [mkMIDIEvent 0x80 note 127],
          NotePattern.init note "5--")
  /\ MIDI.is_note_on (mkMIDIEvent 0x90 note 75) = true
  /\ MIDI.is_note_off (mkMIDIEvent 0x80 note 127) = true
  /\ MIDI.to_bool MIDI.empty = false.
Proof.
  intros H. split; [| repeat split].
  unfold NotePattern.init. rewrite (to_uchar_small note H).
  change MIDI.clock with (mkMIDIEvent 248 0 0).
  cbv -[MIDI.create_note_on MIDI.create_note_off].
  rewrite create_note_on_small, create_note_off_small by lia. reflexivity.
Qed.

Lemma NotePattern_5_sustain_witness :
  NotePattern.run (NotePattern.init 60 "5--") (repeat MIDI.clock 18) =
    Some (mkMIDIEvent 0x90 60 75 :: repeat MIDI.empty 16 ++ [mkMIDIEvent 0x80 60 127],
          NotePattern.init 60 "5--")
  /\ MIDI.is_note_on (mkMIDIEvent 0x90 60 75) = true
  /\ MIDI.is_note_off (mkMIDIEvent 0x80 60 127) = true
  /\ MIDI.to_bool MIDI.empty = false.
Proof. apply (NotePattern_5_sustain 60). lia. Defined.

(** ** The automation interpreter *)

Lemma Automation_run_app (n m : nat) (a : Automation.state) :
  Automation.run (n + m) a =
  match Automation.run n a with
  | Some (vs, a1) =>
      match Automation.run m a1 with
      | Some (ws, a2) => Some (vs ++ ws, a2)
      | None => None
      end
  | None => None
  end.
Proof.
  revert a. induction n as [|n IH]; intros a; simpl.
  - destruct (Automation.run m a) as [[ws a2]|]; reflexivity.
  - destruct (Automation.process a) as [[v a1]|]; [|reflexivity].
    rewrite IH. destruct (Automation.run n a1) as [[vs a2]|]; [|reflexivity].
    destruct (Automation.run m a2) as [[ws a3]|]; reflexivity.
Qed.

Lemma Automation_run_length (n : nat) (a a' : Automation.state) (vs : list f32) :
  Automation.run n a = Some (vs, a') -> List.length vs = n.
Proof.
  revert a a' vs. induction n as [|n IH]; intros a a' vs; simpl.
  - intros H. injection H as <- _. reflexivity.
  - destruct (Automation.process a) as [[v a1]|]; [|discriminate].
    destruct (Automation.run n a1) as [[ws a2]|] eqn:E; [|discriminate].
    intros H. injection H as <- _. simpl. f_equal. exact (IH _ _ _ E).
Qed.

(** The value at a tick below [N] is read off the run of [N] ticks. *)
Lemma Automation_value_at_prefix (script : string) (N n : nat)
    (vs : list f32) (a : Automation.state) :
  Automation.run N (Automation.init script) = Some (vs, a) ->
  (1 <= n <= N)%nat ->
  Automation_value_at script n = nth_error vs (n - 1).
Proof.
  intros HN Hn. unfold Automation_value_at.
  replace N with (n + (N - n))%nat in HN by lia.
  rewrite Automation_run_app in HN.
  destruct (Automation.run n (Automation.init script)) as [[ws a1]|] eqn:E; [|discriminate].
  destruct (Automation.run (N - n) a1) as [[us a2]|]; [|discriminate].
  injection HN as <- _. pose proof (Automation_run_length _ _ _ _ E) as Hl.
  rewrite nth_error_app1 by lia. reflexivity.
Qed.

(** The value past tick [N] is the last one of the ticks that follow. *)
Lemma Automation_value_at_suffix (script : string) (N k : nat)
    (vs ws : list f32) (a a' : Automation.state) :
  Automation.run N (Automation.init script) = Some (vs, a) ->
  Automation.run (Datatypes.S k) a = Some (ws, a') ->
  Automation_value_at script (N + Datatypes.S k) = nth_error ws k.
Proof.
  intros HN Hk. unfold Automation_value_at.
  rewrite Automation_run_app, HN, Hk.
  pose proof (Automation_run_length _ _ _ _ HN) as Hl.
  rewrite nth_error_app2 by lia. f_equal. lia.
Qed.

Lemma all_from_nth (ok : Z -> f32 -> bool) (vs : list f32) (i : Z) (k : nat) (v : f32) :
  all_from ok i vs = true -> nth_error vs k = Some v -> ok (i + Z.of_nat k) v = true.
Proof.
  revert i k. induction vs as [|x r IH]; intros i k; simpl.
  - destruct k; discriminate.
  - intros H. apply andb_prop in H as [Hx Hr]. destruct k as [|k]; simpl.
    + intros E. injection E as <-. rewrite Z.add_0_r. exact Hx.
    + intros E. replace (i + Z.pos (Pos.of_succ_nat k)) with (i + 1 + Z.of_nat k) by lia.
      exact (IH _ _ Hr E).
Qed.

(** *** The zero-duration ramp *)

(** A stalled interpreter: the count-down [t] is at or below zero and
    [delta] is infinite.  Each call answers the infinity and counts one
    further down; no token is read. *)
Lemma Automation_stalled_step (s c : string) (v : f32) (j : Z) :
  v = F32.zero \/ v = S754_infinity false ->
  0 <= j < 2 ^ 31 ->
  Automation.process (Automation.mk s c v (S754_infinity false) (- j)) =
  Some (S754_infinity false,
        Automation.mk s c (S754_infinity false) (S754_infinity false) (- (j + 1))).
Proof.
  intros Hv Hj. unfold Automation.process. cbn [Automation.t Automation.value Automation.delta].
  rewrite wrap32_small by lia.
  destruct (- j - 1 =? 0) eqn:E; [apply Z.eqb_eq in E; lia|].
  replace (- j - 1) with (- (j + 1)) by lia.
  destruct Hv as [-> | ->]; reflexivity.
Qed.

Lemma Automation_stalled_run (s c : string) (k : nat) (v : f32) (j : Z) :
  v = F32.zero \/ v = S754_infinity false ->
  0 <= j -> j + Z.of_nat k <= 2 ^ 31 ->
  Automation.run k (Automation.mk s c v (S754_infinity false) (- j)) =
  Some (repeat (S754_infinity false) k,
        Automation.mk s c (match k with O => v | _ => S754_infinity false end)
          (S754_infinity false) (- (j + Z.of_nat k))).
Proof.
  revert v j. induction k as [|k IH]; intros v j Hv Hj Hk.
  - simpl. rewrite Z.add_0_r. reflexivity.
  - cbn [Automation.run]. rewrite Automation_stalled_step by (auto; lia).
    rewrite IH by (auto; lia).
    replace (j + 1 + Z.of_nat k) with (j + Z.of_nat (Datatypes.S k)) by lia.
    destruct k; reflexivity.
Qed.

(** C3 on the script ["1/0 2"]: the first call reads the ramp [1/0], sets
    [t] to 0 and [delta] to (1 - 0) / 0 = +infinity, and answers 0, not the
    target 1.  Each of the next [k] calls, for every [k] up to 2^31,
    answers +infinity, and the cursor still stands before the token [2]. *)
Theorem Automation_zero_ramp_stalls (k : nat) :
  Z.of_nat k <= 2 ^ 31 ->
  Automation.process (Automation.init zero_ramp_script) =
    Some (F32.zero,
          Automation.mk zero_ramp_script "2" F32.zero (S754_infinity false) 0) /\
  Automation.run (Datatypes.S k) (Automation.init zero_ramp_script) =
    Some (F32.zero :: repeat (S754_infinity false) k,
          Automation.mk zero_ramp_script "2"
            (match k with O => F32.zero | _ => S754_infinity false end)
            (S754_infinity false) (- Z.of_nat k)).
Proof.
  intros Hk.
  assert (H1 : Automation.process (Automation.init zero_ramp_script) =
               Some (F32.zero,
                     Automation.mk zero_ramp_script "2" F32.zero (S754_infinity false) 0))
    by (vm_compute; reflexivity).
  split; [exact H1|].
  cbn [Automation.run]. rewrite H1.
  change 0 with (- 0) at 1.
  rewrite (Automation_stalled_run zero_ramp_script "2" k F32.zero 0) by (auto; lia).
  reflexivity.
Qed.

Lemma Automation_zero_ramp_stalls_witness :
  Automation.process (Automation.init zero_ramp_script) =
    Some (F32.zero,
          Automation.mk zero_ramp_script "2" F32.zero (S754_infinity false) 0) /\
  Automation.run 4 (Automation.init zero_ramp_script) =
    Some (F32.zero :: repeat (S754_infinity false) 3,
          Automation.mk zero_ramp_script "2" (S754_infinity false)
            (S754_infinity false) (- 3)).
Proof. apply (Automation_zero_ramp_stalls 3). simpl. lia. Defined.

(** *** The ramp ["0 1/1"] *)

Lemma ramp_summary_eq :
  summarize (Automation.run ramp_ticks (Automation.init ramp_script)) =
  Some (true, Some F32.zero, Some F32.zero,
        Some (S754_finite false 16768127 (-24)), Some ramp_end,
        EmptyString, ramp_end, F32.zero).
Proof. vm_compute. reflexivity. Qed.

(** The components of a summary, taken apart without evaluating them. *)
Lemma summarize_inv (o : option (list f32 * Automation.state)) c v0 v1 v2 v3 s v d :
  summarize o = Some (c, v0, v1, v2, v3, s, v, d) ->
  exists vs a, o = Some (vs, a) /\
    all_from ramp_within 2 (tl vs) = c /\
    nth_error vs 0 = v0 /\ nth_error vs 1 = v1 /\
    nth_error vs (Z.to_nat 44100) = v2 /\ nth_error vs (Z.to_nat 44101) = v3 /\
    Automation.cursor a = s /\ Automation.value a = v /\ Automation.delta a = d.
Proof.
  destruct o as [[vs a]|]; [|discriminate].
  unfold summarize. generalize (Z.to_nat 44100) (Z.to_nat 44101). intros i j.
  intros E. exists vs, a. injection E. auto 12.
Qed.

(** Past the end of the script the value is frozen: [delta] is zero and
    stays zero whatever the count-down does. *)
Lemma Automation_hold_step (a : Automation.state) :
  Automation.cursor a = EmptyString -> Automation.value a = ramp_end ->
  Automation.delta a = F32.zero ->
  exists a', Automation.process a = Some (ramp_end, a') /\
             Automation.cursor a' = EmptyString /\ Automation.value a' = ramp_end /\
             Automation.delta a' = F32.zero.
Proof.
  destruct a as [s c v d t]. simpl. intros -> -> ->.
  unfold Automation.process. cbn [Automation.t Automation.value Automation.delta Automation.cursor].
  change (F32.add ramp_end F32.zero) with ramp_end.
  destruct (wrap32 (t - 1) =? 0); simpl; eexists; repeat split.
Qed.

Lemma Automation_hold_run (k : nat) (a : Automation.state) :
  Automation.cursor a = EmptyString -> Automation.value a = ramp_end ->
  Automation.delta a = F32.zero ->
  exists a', Automation.run k a = Some (repeat ramp_end k, a').
Proof.
  revert a. induction k as [|k IH]; intros a Hc Hv Hd.
  - exists a. reflexivity.
  - destruct (Automation_hold_step a Hc Hv Hd) as (a1 & Hp & Hc1 & Hv1 & Hd1).
    destruct (IH a1 Hc1 Hv1 Hd1) as (a2 & Hr).
    exists a2. cbn [Automation.run]. rewrite Hp, Hr. reflexivity.
Qed.

(** C4, as amended: for the script ["0 1/1"], the [n]-th call of [process]
    answers 0.0 for [n] = 1 and [n] = 2 (the ramp is read at the second
    call and first shows at the third); for 2 <= [n] <= 44102 the answer
    lies within 6/10000 of [(n - 2) / 44100]; from [n] = 44102 on the answer
    is the value reached there, 16768507 / 2^24 = 0.99948..., which is not
    1.0, and it is held at every later call. *)
Theorem Automation_ramp_0_1_1 (n : nat) :
  (1 <= n)%nat ->
  exists v, Automation_value_at ramp_script n = Some v /\
    ((n <= 2)%nat -> v = F32.zero) /\
    (2 <= Z.of_nat n <= 44102 ->
       (Qabs (SF2Q v - inject_Z (Z.of_nat n - 2) / inject_Z 44100) <= 6 # 10000)%Q) /\
    (44102 <= Z.of_nat n -> v = ramp_end /\ (SF2Q v < 1)%Q).
Proof.
  intros Hn.
  destruct (summarize_inv _ _ _ _ _ _ _ _ _ ramp_summary_eq)
    as (vs & a & Hrun & Hall & H0 & H1 & _ & Hlast & Hc & Hv & Hd).
  pose proof (Automation_run_length _ _ _ _ Hrun) as Hlen.
  assert (Hend : (SF2Q ramp_end < 1)%Q) by (vm_compute; reflexivity).
  destruct (Z_le_gt_dec (Z.of_nat n) 44102) as [Hle | Hgt].
  - rewrite (Automation_value_at_prefix _ _ n _ _ Hrun) by (unfold ramp_ticks; lia).
    destruct (nth_error vs (n - 1)) as [v|] eqn:Hnth.
    2:{ apply nth_error_None in Hnth. unfold ramp_ticks in Hlen. lia. }
    exists v. split; [reflexivity|]. split; [|split; [|split]].
    + intros H2. assert (Hn12 : n = 1%nat \/ n = 2%nat) by lia.
      destruct Hn12 as [-> | ->].
      * change (nth_error vs 0 = Some v) in Hnth. congruence.
      * change (nth_error vs 1 = Some v) in Hnth. congruence.
    + intros H2. destruct vs as [|x r]; [destruct (n - 1)%nat; discriminate|].
      simpl in Hall.
      assert (Hr : nth_error r (n - 2) = Some v).
      { replace (n - 1)%nat with (Datatypes.S (n - 2)) in Hnth by lia. exact Hnth. }
      pose proof (all_from_nth _ _ _ _ _ Hall Hr) as Hok.
      replace (2 + Z.of_nat (n - 2)) with (Z.of_nat n) in Hok by lia.
      unfold ramp_within in Hok. apply andb_prop in Hok as [_ Hok].
      apply Qle_bool_iff in Hok. exact Hok.
    + assert (n = ramp_ticks) by (unfold ramp_ticks; lia). subst n.
      replace (ramp_ticks - 1)%nat with (Z.to_nat 44101) in Hnth
        by (unfold ramp_ticks; lia).
      congruence.
    + assert (n = ramp_ticks) by (unfold ramp_ticks; lia). subst n.
      replace (ramp_ticks - 1)%nat with (Z.to_nat 44101) in Hnth
        by (unfold ramp_ticks; lia).
      assert (v = ramp_end) by congruence. subst v. exact Hend.
  - destruct (Automation_hold_run (Datatypes.S (n - ramp_ticks - 1)) a Hc Hv Hd) as (a' & Hk).
    exists ramp_end. split.
    + replace n with (ramp_ticks + Datatypes.S (n - ramp_ticks - 1))%nat at 1
        by (unfold ramp_ticks; lia).
      rewrite (Automation_value_at_suffix _ _ _ _ _ _ _ Hrun Hk).
      apply nth_error_repeat. lia.
    + split; [|split; [|split]]; try (intros; lia); [reflexivity | exact Hend].
Qed.

Lemma Automation_ramp_0_1_1_witness :
  exists v, Automation_value_at ramp_script 3 = Some v /\
    ((3 <= 2)%nat -> v = F32.zero) /\
    (2 <= Z.of_nat 3 <= 44102 ->
       (Qabs (SF2Q v - inject_Z (Z.of_nat 3 - 2) / inject_Z 44100) <= 6 # 10000)%Q) /\
    (44102 <= Z.of_nat 3 -> v = ramp_end /\ (SF2Q v < 1)%Q).
Proof. apply (Automation_ramp_0_1_1 3). lia. Defined.

(** C4 as stated fails: the second call answers 0.0 where C4 has
    1/44100, and the call 44101 answers 16768127 / 2^24, not 1.0. *)
Lemma Automation_ramp_as_stated_fails :
  Automation_value_at ramp_script 2 = Some F32.zero /\
  ~ (SF2Q F32.zero == 1 # 44100)%Q /\
  Automation_value_at ramp_script (Z.to_nat 44101) = Some (S754_finite false 16768127 (-24)) /\
  S754_finite false 16768127 (-24) <> F32.one.
Proof.
  destruct (summarize_inv _ _ _ _ _ _ _ _ _ ramp_summary_eq)
    as (vs & a & Hrun & _ & _ & H1 & Hpen & _).
  split; [|split; [|split]].
  - rewrite (Automation_value_at_prefix _ _ 2 _ _ Hrun) by (unfold ramp_ticks; lia).
    exact H1.
  - vm_compute. discriminate.
  - rewrite (Automation_value_at_prefix _ _ _ _ _ Hrun) by (unfold ramp_ticks; lia).
    replace (Z.to_nat 44101 - 1)%nat with (Z.to_nat 44100) by lia. exact Hpen.
  - vm_compute. discriminate.
Qed.

(** ** Floating-point arithmetic: powers of two and digits *)

(** ** Powers of two *)

Lemma pow2_pos (e : Z) : (0 < pow2 e)%Q.
Proof. unfold pow2. apply Qpower_0_lt. reflexivity. Qed.

Lemma pow2_add (a b : Z) : (pow2 (a + b) == pow2 a * pow2 b)%Q.
Proof. unfold pow2. apply Qpower_plus. discriminate. Qed.

Lemma pow2_Z (e : Z) : 0 <= e -> (pow2 e == inject_Z (2 ^ e))%Q.
Proof. intros H. unfold pow2. rewrite Zpower_Qpower by exact H. reflexivity. Qed.

Lemma pow2_le (a b : Z) : a <= b -> (pow2 a <= pow2 b)%Q.
Proof. intros H. unfold pow2. apply Qpower_le_compat_l; [exact H | discriminate]. Qed.

Lemma pow2_lt (a b : Z) : a < b -> (pow2 a < pow2 b)%Q.
Proof. intros H. unfold pow2. apply Qpower_lt_compat_l; [exact H | reflexivity]. Qed.

Lemma pow2_succ (a : Z) : (pow2 (a + 1) == 2 * pow2 a)%Q.
Proof. rewrite pow2_add. change (pow2 1) with (2 # 1)%Q. ring. Qed.

Lemma Q2_shift (m e k : Z) : 0 <= k -> (Q2 (m * 2 ^ k) e == Q2 m (e + k))%Q.
Proof.
  intros H. unfold Q2. rewrite pow2_add, (pow2_Z k H), inject_Z_mult. ring.
Qed.

Lemma Q2_le (m n e : Z) : m <= n -> (Q2 m e <= Q2 n e)%Q.
Proof.
  intros H. unfold Q2. apply Qmult_le_compat_r.
  - rewrite <- Zle_Qle. exact H.
  - apply Qlt_le_weak, pow2_pos.
Qed.

Lemma Q2_le_inv (m n e : Z) : (Q2 m e <= Q2 n e)%Q -> m <= n.
Proof.
  unfold Q2. intros H. apply Qmult_le_r in H; [|apply pow2_pos].
  rewrite <- Zle_Qle in H. exact H.
Qed.

Lemma Q2_lt (m n e : Z) : m < n -> (Q2 m e < Q2 n e)%Q.
Proof.
  intros H. unfold Q2. apply Qmult_lt_compat_r.
  - apply pow2_pos.
  - rewrite <- Zlt_Qlt. exact H.
Qed.

(** ** Digits *)

Lemma digits2_pos_bounds (m : positive) :
  2 ^ (Zpos (digits2_pos m) - 1) <= Zpos m < 2 ^ Zpos (digits2_pos m).
Proof.
  induction m as [m IH | m IH |]; cbn [digits2_pos].
  - rewrite Pos2Z.inj_succ.
    replace (Z.succ (Zpos (digits2_pos m)) - 1) with (Z.succ (Zpos (digits2_pos m) - 1)) by lia.
    rewrite !Z.pow_succ_r by lia. lia.
  - rewrite Pos2Z.inj_succ.
    replace (Z.succ (Zpos (digits2_pos m)) - 1) with (Z.succ (Zpos (digits2_pos m) - 1)) by lia.
    rewrite !Z.pow_succ_r by lia. lia.
  - simpl. lia.
Qed.

(** The number of digits is determined by the enclosing powers of two. *)
Lemma digits2_pos_unique (m : positive) (d : Z) :
  2 ^ (d - 1) <= Zpos m < 2 ^ d -> Zpos (digits2_pos m) = d.
Proof.
  intros [Hl Hu]. pose proof (digits2_pos_bounds m) as [Hl' Hu'].
  assert (Hd : 0 < d).
  { destruct (Z_lt_le_dec 0 d) as [|Hd]; [assumption|].
    destruct (Z.eq_dec d 0) as [->|]; [simpl in Hu; lia|].
    rewrite Z.pow_neg_r in Hu by lia. lia. }
  destruct (Z.lt_trichotomy (Zpos (digits2_pos m)) d) as [H | [H | H]]; [|exact H|].
  - assert (2 ^ Zpos (digits2_pos m) <= 2 ^ (d - 1)) by (apply Z.pow_le_mono_r; lia). lia.
  - assert (2 ^ d <= 2 ^ (Zpos (digits2_pos m) - 1)) by (apply Z.pow_le_mono_r; lia). lia.
Qed.

(** ** Shifting right with round and sticky bits *)

Lemma iter_pos_nat {A : Type} (f : A -> A) (p : positive) (x : A) :
  iter_pos f p x = Nat.iter (Pos.to_nat p) f x.
Proof.
  revert x. induction p as [p IH | p IH |]; intros x; cbn [iter_pos].
  - rewrite !IH, Pos2Nat.inj_xI.
    replace (Datatypes.S (2 * Pos.to_nat p)) with (Pos.to_nat p + Datatypes.S (Pos.to_nat p))%nat by lia.
    rewrite Nat.iter_add, Nat.iter_succ_r. reflexivity.
  - rewrite !IH, Pos2Nat.inj_xO.
    replace (2 * Pos.to_nat p)%nat with (Pos.to_nat p + Pos.to_nat p)%nat by lia.
    rewrite Nat.iter_add. reflexivity.
  - reflexivity.
Qed.

Lemma shr_inv_0 (m : Z) : 0 <= m -> shr_inv m 0 (Build_shr_record m false false).
Proof.
  intros H. exists 0. simpl. repeat split; try lia; intros; try discriminate; lia.
Qed.

Lemma shr_inv_step (m k : Z) (mrs : shr_record) :
  0 <= k -> shr_inv m k mrs -> shr_inv m (k + 1) (shr_1 mrs).
Proof.
  intros Hk (rem & Hm & Hrem & Hq & Hr & Hs).
  assert (HX : 0 < 2 ^ k) by (apply Z.pow_pos_nonneg; lia).
  assert (HX' : 2 ^ (k + 1) = 2 * 2 ^ k) by (rewrite Z.pow_add_r by lia; lia).
  destruct mrs as [q r s]. cbn [shr_m shr_r shr_s] in *.
  assert (Hrs : orb r s = true <-> rem <> 0).
  { rewrite orb_true_iff, Hr, Hs. lia. }
  unfold shr_inv. rewrite HX'. set (X := 2 ^ k) in *.
  destruct q as [|[p|p|]|p]; cbn [shr_1 shr_m shr_r shr_s]; try lia.
  - exists rem. rewrite Hrs. repeat split; try lia; try discriminate.
  - exists (rem + X). rewrite Hrs. repeat split; try lia.
  - exists rem. rewrite Hrs. repeat split; try lia; try discriminate.
  - exists (rem + X). rewrite Hrs. repeat split; try lia.
Qed.

Lemma shr_inv_iter (m : Z) (n : nat) :
  0 <= m ->
  shr_inv m (Z.of_nat n) (Nat.iter n shr_1 (Build_shr_record m false false)).
Proof.
  intros H. induction n as [|n IH].
  - apply shr_inv_0, H.
  - rewrite Nat2Z.inj_succ. cbn [Nat.iter]. apply shr_inv_step; [lia | exact IH].
Qed.

Lemma rne_bounds (m k : Z) (mrs : shr_record) :
  0 <= k -> shr_inv m k mrs ->
  0 <= rne mrs /\ shr_m mrs <= rne mrs <= shr_m mrs + 1 /\
  (forall N, N * 2 ^ k <= m -> N <= rne mrs) /\
  (forall N, m <= N * 2 ^ k -> rne mrs <= N).
Proof.
  intros Hk (rem & Hm & Hrem & Hq & Hr & Hs).
  assert (HX : 0 < 2 ^ k) by (apply Z.pow_pos_nonneg; lia).
  destruct mrs as [q r s]. cbn [shr_m shr_r shr_s] in *. set (X := 2 ^ k) in *.
  unfold rne, loc_of_shr_record, round_nearest_even. cbn [shr_m].
  destruct r, s.
  - assert (X <= 2 * rem) by (apply Hr; reflexivity).
    assert (rem <> 0 /\ 2 * rem <> X) by (apply Hs; reflexivity).
    repeat split; try lia; intros N HN; nia.
  - assert (X <= 2 * rem) by (apply Hr; reflexivity).
    assert (2 * rem = X).
    { destruct (Z.eq_dec (2 * rem) X) as [E|E]; [exact E|].
      assert (false = true) by (apply Hs; lia). discriminate. }
    destruct (Z.even q); repeat split; try lia; intros N HN; nia.
  - assert (~ X <= 2 * rem) by (intros C; apply Hr in C; discriminate).
    repeat split; try lia; intros N HN; nia.
  - assert (~ X <= 2 * rem) by (intros C; apply Hr in C; discriminate).
    assert (rem = 0).
    { destruct (Z.eq_dec rem 0) as [E|E]; [exact E|].
      assert (false = true) by (apply Hs; lia). discriminate. }
    repeat split; try lia; intros N HN; nia.
Qed.

(** Rounding to nearest even leaves at most half a unit. *)
Lemma rne_half (m k : Z) (mrs : shr_record) :
  0 <= k -> shr_inv m k mrs ->
  2 * Z.abs (m - rne mrs * 2 ^ k) <= 2 ^ k.
Proof.
  intros Hk (rem & Hm & Hrem & Hq & Hr & Hs).
  assert (HX : 0 < 2 ^ k) by (apply Z.pow_pos_nonneg; lia).
  destruct mrs as [q r s]. cbn [shr_m shr_r shr_s] in *. set (X := 2 ^ k) in *.
  unfold rne, loc_of_shr_record, round_nearest_even. cbn [shr_m].
  destruct r, s.
  - assert (X <= 2 * rem) by (apply Hr; reflexivity).
    replace (m - (q + 1) * X) with (rem - X) by lia. lia.
  - assert (X <= 2 * rem) by (apply Hr; reflexivity).
    assert (2 * rem = X).
    { destruct (Z.eq_dec (2 * rem) X) as [E|E]; [exact E|].
      assert (false = true) by (apply Hs; lia). discriminate. }
    destruct (Z.even q).
    + replace (m - q * X) with rem by lia. lia.
    + replace (m - (q + 1) * X) with (rem - X) by lia. lia.
  - assert (~ X <= 2 * rem) by (intros C; apply Hr in C; discriminate).
    replace (m - q * X) with rem by lia. lia.
  - assert (~ X <= 2 * rem) by (intros C; apply Hr in C; discriminate).
    replace (m - q * X) with rem by lia. lia.
Qed.

(** Hence no multiple of the unit on the other side of the exact
    mantissa is nearer to it. *)
Lemma rne_nearest (m k : Z) (mrs : shr_record) (N : Z) :
  0 <= k -> shr_inv m k mrs ->
  (N * 2 ^ k <= m -> m <= rne mrs * 2 ^ k -> rne mrs * 2 ^ k - m <= m - N * 2 ^ k) /\
  (m <= N * 2 ^ k -> rne mrs * 2 ^ k <= m -> m - rne mrs * 2 ^ k <= N * 2 ^ k - m).
Proof.
  intros Hk Hinv. pose proof (rne_half m k mrs Hk Hinv) as Hh.
  assert (HX : 0 < 2 ^ k) by (apply Z.pow_pos_nonneg; lia).
  set (X := 2 ^ k) in *. set (R := rne mrs) in *. clearbody X R.
  split; intros H1 H2.
  - destruct (Z.eq_dec N R) as [-> | Hne]; [lia|].
    assert (N <= R - 1) by nia. assert (N * X <= R * X - X) by nia. lia.
  - destruct (Z.eq_dec N R) as [-> | Hne]; [lia|].
    assert (R + 1 <= N) by nia. assert (R * X + X <= N * X) by nia. lia.
Qed.

Lemma shr_nat (mrs : shr_record) (e n : Z) :
  shr mrs e n = (Nat.iter (Z.to_nat n) shr_1 mrs, e + Z.max 0 n).
Proof.
  destruct n as [|p|p]; simpl; rewrite ?iter_pos_nat, ?Z.add_0_r; reflexivity.
Qed.

Lemma Zdigits2_bounds (M : Z) :
  0 < M -> 2 ^ (Zdigits2 M - 1) <= M < 2 ^ Zdigits2 M.
Proof. destruct M as [|p|p]; try lia. intros _. apply digits2_pos_bounds. Qed.

Lemma Zdigits2_unique (M d : Z) :
  0 < M -> 2 ^ (d - 1) <= M < 2 ^ d -> Zdigits2 M = d.
Proof. destruct M as [|p|p]; try lia. intros _. apply digits2_pos_unique. Qed.

Lemma pow2_Q2 (k : Z) : (pow2 k == Q2 1 k)%Q.
Proof. unfold Q2. ring. Qed.

Lemma Q2_pow (a e : Z) : 0 <= a -> (Q2 (2 ^ a) e == pow2 (a + e))%Q.
Proof. intros H. unfold Q2. rewrite pow2_add, (pow2_Z a H). reflexivity. Qed.


Lemma Q2_0 (e : Z) : (Q2 0 e == 0)%Q.
Proof. unfold Q2. ring. Qed.

Lemma Q2_plus (a b e : Z) : (Q2 (a + b) e == Q2 a e + Q2 b e)%Q.
Proof. unfold Q2. rewrite inject_Z_plus. ring. Qed.

Lemma Q2_minus (a b e : Z) : (Q2 (a - b) e == Q2 a e - Q2 b e)%Q.
Proof. unfold Q2, Z.sub. rewrite inject_Z_plus, inject_Z_opp. ring. Qed.

Lemma Q2_opp (m e : Z) : (Q2 (- m) e == - Q2 m e)%Q.
Proof. unfold Q2. rewrite inject_Z_opp. ring. Qed.

Lemma Q2_pos (m e : Z) : 0 < m -> (0 < Q2 m e)%Q.
Proof. intros H. rewrite <- (Q2_0 e). apply Q2_lt. exact H. Qed.

Lemma Q2_nonneg (m e : Z) : 0 <= m -> (0 <= Q2 m e)%Q.
Proof. intros H. rewrite <- (Q2_0 e). apply Q2_le. exact H. Qed.

Lemma Zpos_iter_xO (m k : positive) : Zpos (Pos.iter xO m k) = Zpos m * 2 ^ Zpos k.
Proof.
  pose proof (shift_pos_correct k m) as H. unfold shift_pos in H. rewrite H.
  rewrite Zpower_pos_nat, Zpower_nat_Z, positive_nat_Z. lia.
Qed.


Lemma leb_not_nan_l (x y : spec_float) : SFleb x y = true -> is_nan x = false.
Proof. destruct x; try reflexivity. discriminate. Qed.

Lemma leb_not_nan_r (x y : spec_float) : SFleb x y = true -> is_nan y = false.
Proof. destruct y; try reflexivity. destruct x; discriminate. Qed.

Lemma ltb_not_nan_l (x y : spec_float) : SFltb x y = true -> is_nan x = false.
Proof. destruct x; try reflexivity. discriminate. Qed.

Lemma ltb_not_nan_r (x y : spec_float) : SFltb x y = true -> is_nan y = false.
Proof. destruct y; try reflexivity. destruct x; discriminate. Qed.

Lemma Qmult_unit_bounds (x a : Q) :
  (0 <= x <= 1)%Q -> (0 <= a)%Q -> (0 <= x * a <= a)%Q.
Proof.
  intros [H0 H1] Ha. split.
  - apply Qmult_le_0_compat; assumption.
  - rewrite <- (Qmult_1_l a) at 2. apply Qmult_le_compat_r; assumption.
Qed.

Section Round.
Variables prec emax : Z.
Hypothesis Hfmt : 0 < prec < emax.

Local Abbreviation emin := (SpecFloat.emin prec emax).
Local Abbreviation fexp := (SpecFloat.fexp prec emax).
Local Abbreviation B := (Bval emax).


Lemma fexp_spec (x : Z) : fexp x = Z.max (x - prec) (3 - emax - prec).
Proof. reflexivity. Qed.

(** The first shift of [binary_round_aux] on an exact mantissa whose
    exponent is at or below the target exponent. *)
Lemma round_first (m : positive) (e : Z) :
  let E := fexp (Zpos (digits2_pos m) + e) in
  e <= E ->
  exists mrs,
    shr_fexp prec emax (Zpos m) e loc_Exact = (mrs, E) /\
    shr_inv (Zpos m) (E - e) mrs /\
    rne mrs <= 2 ^ prec /\
    (emin < E -> 2 ^ (prec - 1) <= rne mrs).
Proof.
  intros E HE. pose proof (digits2_pos_bounds m) as [Hl Hu].
  assert (HEdef : E = Z.max (Zpos (digits2_pos m) + e - prec) (3 - emax - prec))
    by reflexivity.
  assert (Hfirst : shr_fexp prec emax (Zpos m) e loc_Exact =
            (Nat.iter (Z.to_nat (E - e)) shr_1 (Build_shr_record (Zpos m) false false),
             e + Z.max 0 (E - e))).
  { unfold shr_fexp. cbn [Zdigits2 shr_record_of_loc]. fold E. apply shr_nat. }
  clearbody E. set (d := Zpos (digits2_pos m)) in *. clearbody d.
  exists (Nat.iter (Z.to_nat (E - e)) shr_1 (Build_shr_record (Zpos m) false false)).
  assert (Hinv : shr_inv (Zpos m) (E - e)
            (Nat.iter (Z.to_nat (E - e)) shr_1 (Build_shr_record (Zpos m) false false))).
  { pose proof (shr_inv_iter (Zpos m) (Z.to_nat (E - e))) as H.
    rewrite Z2Nat.id in H by lia. apply H. lia. }
  split; [|split; [exact Hinv|]].
  - rewrite Hfirst. f_equal. lia.
  - assert (Hk : 0 <= E - e) by lia.
    pose proof (rne_bounds _ _ _ Hk Hinv) as (H0 & Hq & Hlow & Hup).
    unfold SpecFloat.emin. split.
    + apply Hup. rewrite <- Z.pow_add_r by lia.
      assert (2 ^ d <= 2 ^ (prec + (E - e))) by (apply Z.pow_le_mono_r; lia).
      lia.
    + intros Hn. assert (HE' : E - e = d - prec) by lia. rewrite HE' in *.
      apply Hlow. rewrite <- Z.pow_add_r by lia.
      replace (prec - 1 + (d - prec)) with (d - 1) by lia. exact Hl.
Qed.

(** The second shift: it acts only when rounding carried the mantissa
    to [2^prec]. *)
Lemma round_second (M E : Z) :
  0 <= M <= 2 ^ prec -> emin <= E -> (emin < E -> 2 ^ (prec - 1) <= M) ->
  exists mrs M' E',
    shr_fexp prec emax M E loc_Exact = (mrs, E') /\ shr_m mrs = M' /\
    0 <= M' < 2 ^ prec /\ emin <= E' /\
    (0 < M' -> fexp (Zdigits2 M' + E') = E') /\
    (Q2 M' E' == Q2 M E)%Q.
Proof.
  unfold SpecFloat.emin. intros HM HE Hnorm.
  assert (Hshr : shr_fexp prec emax M E loc_Exact =
            (Nat.iter (Z.to_nat (fexp (Zdigits2 M + E) - E)) shr_1
               (Build_shr_record M false false),
             E + Z.max 0 (fexp (Zdigits2 M + E) - E))).
  { unfold shr_fexp. cbn [shr_record_of_loc]. apply shr_nat. }
  assert (Hp : 0 < 2 ^ (prec - 1)) by (apply Z.pow_pos_nonneg; lia).
  assert (Hpp : 2 ^ prec = 2 * 2 ^ (prec - 1)).
  { replace prec with (prec - 1 + 1) at 1 by lia. rewrite Z.pow_add_r by lia. lia. }
  destruct (Z.eq_dec M 0) as [-> | HM0].
  - exists (Build_shr_record 0 false false), 0, E.
    rewrite Hshr. cbn [Zdigits2]. rewrite fexp_spec.
    replace (Z.to_nat (Z.max (0 + E - prec) (3 - emax - prec) - E)) with O by lia.
    cbn [Nat.iter shr_m].
    split; [f_equal; lia|]. split; [reflexivity|]. split; [lia|]. split; [lia|].
    split; [lia | reflexivity].
  - destruct (Z.eq_dec M (2 ^ prec)) as [-> | HMp].
    + assert (Hd : Zdigits2 (2 ^ prec) = prec + 1).
      { apply Zdigits2_unique; [lia|]. replace (prec + 1 - 1) with prec by lia.
        rewrite Z.pow_add_r by lia. lia. }
      pose proof (shr_inv_iter (2 ^ prec) 1 ltac:(lia)) as (rem & Hm & Hrem & Hq & _).
      change (Z.of_nat 1) with 1 in *. rewrite Z.pow_1_r in *.
      exists (Nat.iter 1 shr_1 (Build_shr_record (2 ^ prec) false false)),
        (2 ^ (prec - 1)), (E + 1).
      rewrite Hshr, Hd, fexp_spec.
      replace (Z.max (prec + 1 + E - prec) (3 - emax - prec) - E) with 1 by lia.
      change (Z.to_nat 1) with 1%nat.
      assert (Hd' : Zdigits2 (2 ^ (prec - 1)) = prec).
      { apply Zdigits2_unique; lia. }
      split; [f_equal; lia|]. split; [cbn [Nat.iter] in *; lia|].
      split; [lia|]. split; [lia|]. split.
      * intros _. rewrite Hd', fexp_spec. lia.
      * rewrite !Q2_pow by lia. replace (prec - 1 + (E + 1)) with (prec + E) by lia.
        reflexivity.
    + assert (Hd : Zdigits2 M <= prec).
      { pose proof (Zdigits2_bounds M ltac:(lia)) as [Hl _].
        destruct (Z_le_gt_dec (Zdigits2 M) prec) as [|Hgt]; [assumption|].
        assert (2 ^ prec <= 2 ^ (Zdigits2 M - 1)) by (apply Z.pow_le_mono_r; lia). lia. }
      assert (Hd' : emin < E -> Zdigits2 M = prec).
      { unfold SpecFloat.emin. intros Hn. apply Zdigits2_unique; [lia|]. split; [auto|lia]. }
      unfold SpecFloat.emin in Hd'.
      exists (Build_shr_record M false false), M, E.
      rewrite Hshr, fexp_spec.
      replace (Z.to_nat (Z.max (Zdigits2 M + E - prec) (3 - emax - prec) - E)) with O by lia.
      cbn [Nat.iter shr_m].
      split; [f_equal; lia|]. split; [reflexivity|]. split; [lia|]. split; [lia|].
      split; [|reflexivity]. intros _. lia.
Qed.

(** [binary_round_aux] on an exact mantissa at or below its target
    exponent: the result is built from a canonical mantissa and exponent
    that bracket the exact value between any two representable numbers
    that bracket it. *)
Lemma round_aux_core (m : positive) (e : Z) :
  e <= fexp (Zpos (digits2_pos m) + e) ->
  exists M E,
    (forall s, binary_round_aux prec emax s (Zpos m) e loc_Exact = round_result prec emax s M E) /\
    0 <= M < 2 ^ prec /\ emin <= E /\
    (0 < M -> fexp (Zdigits2 M + E) = E) /\
    (forall N ec, 0 <= N <= 2 ^ prec -> emin <= ec ->
       ((Q2 (Zpos m) e <= Q2 N ec)%Q -> (Q2 M E <= Q2 N ec)%Q) /\
       ((Q2 N ec <= Q2 (Zpos m) e)%Q -> (Q2 N ec <= Q2 M E)%Q)) /\
    (forall N ec, 0 <= N <= 2 ^ prec -> emin <= ec ->
       ((Q2 N ec <= Q2 (Zpos m) e)%Q -> (Q2 (Zpos m) e <= Q2 M E)%Q ->
        (Q2 M E - Q2 (Zpos m) e <= Q2 (Zpos m) e - Q2 N ec)%Q) /\
       ((Q2 (Zpos m) e <= Q2 N ec)%Q -> (Q2 M E <= Q2 (Zpos m) e)%Q ->
        (Q2 (Zpos m) e - Q2 M E <= Q2 N ec - Q2 (Zpos m) e)%Q)).
Proof.
  intros HE.
  destruct (round_first m e HE) as (mrs & H1 & Hinv & Hup & Hlow).
  set (E := fexp (Zpos (digits2_pos m) + e)) in *.
  assert (HEdef : E = Z.max (Zpos (digits2_pos m) + e - prec) (3 - emax - prec))
    by reflexivity.
  pose proof (digits2_pos_bounds m) as [Hdl Hdu].
  clearbody E. set (d := Zpos (digits2_pos m)) in *. clearbody d.
  assert (Hk : 0 <= E - e) by lia.
  pose proof (rne_bounds _ _ _ Hk Hinv) as (H0 & _ & HLB & HUB).
  assert (HEmin : emin <= E) by (unfold SpecFloat.emin; lia).
  destruct (round_second (rne mrs) E ltac:(lia) HEmin Hlow)
    as (mrs2 & M & E' & H2 & Hm2 & HM & HE' & Hcan & Hval).
  exists M, E'.
  split; [|split; [exact HM | split; [exact HE' | split; [exact Hcan | split]]]].
  - intros s. unfold binary_round_aux. rewrite H1. fold (rne mrs). rewrite H2, Hm2.
    reflexivity.
  - intros N ec HN Hec. rewrite Hval.
    assert (Hpe : (Q2 (Zpos m) e == Q2 (Zpos m) e)%Q) by reflexivity.
    destruct (Z_le_gt_dec E ec) as [Hle | Hgt].
    + (* the comparand is a multiple of the unit of the result *)
      assert (Hc : (Q2 N ec == Q2 (N * 2 ^ (ec - E) * 2 ^ (E - e)) e)%Q).
      { rewrite !Q2_shift by lia. replace (e + (E - e) + (ec - E)) with ec by lia.
        reflexivity. }
      assert (Hc' : (Q2 N ec == Q2 (N * 2 ^ (ec - E)) E)%Q).
      { rewrite Q2_shift by lia. replace (E + (ec - E)) with ec by lia. reflexivity. }
      split; intros H.
      * rewrite Hc'. apply Q2_le. apply HUB. apply (Q2_le_inv _ _ e).
        rewrite <- Hc. exact H.
      * rewrite Hc'. apply Q2_le. apply HLB. apply (Q2_le_inv _ _ e).
        rewrite <- Hc. exact H.
    + (* the comparand lies below the binade of the result *)
      assert (Hn : emin < E) by lia. specialize (Hlow Hn).
      assert (HEd : E = d + e - prec) by (unfold SpecFloat.emin in Hn; lia).
      assert (HNle : (Q2 N ec <= pow2 (prec + E - 1))%Q).
      { apply Qle_trans with (Q2 (2 ^ prec) ec).
        - apply Q2_le. lia.
        - rewrite Q2_pow by lia. apply pow2_le. lia. }
      assert (Hmge : (pow2 (prec + E - 1) <= Q2 (Zpos m) e)%Q).
      { replace (prec + E - 1) with (d - 1 + e) by lia. rewrite <- Q2_pow by lia.
        apply Q2_le. exact Hdl. }
      assert (Hrge : (pow2 (prec + E - 1) <= Q2 (rne mrs) E)%Q).
      { replace (prec + E - 1) with (prec - 1 + E) by lia. rewrite <- Q2_pow by lia.
        apply Q2_le. exact Hlow. }
      split; intros H.
      * (* then the exact value is the power of two itself *)
        assert (Hm : Zpos m <= 2 ^ (prec - 1) * 2 ^ (E - e)).
        { apply (Q2_le_inv _ _ e). rewrite Q2_shift, Q2_pow by lia.
          replace (prec - 1 + (e + (E - e))) with (prec + E - 1) by lia.
          apply Qle_trans with (Q2 N ec); assumption. }
        apply HUB in Hm.
        apply Qle_trans with (Q2 (2 ^ (prec - 1)) E); [apply Q2_le; exact Hm|].
        rewrite Q2_pow by lia. replace (prec - 1 + E) with (prec + E - 1) by lia.
        apply Qle_trans with (Q2 (Zpos m) e); assumption.
      * apply Qle_trans with (pow2 (prec + E - 1)); assumption.
  - intros N ec HN Hec. rewrite Hval.
    assert (Hr : (Q2 (rne mrs) E == Q2 (rne mrs * 2 ^ (E - e)) e)%Q).
    { rewrite Q2_shift by lia. replace (e + (E - e)) with E by lia. reflexivity. }
    (* against the multiples of the unit of the result *)
    assert (Hgrid : forall N',
      ((Q2 (N' * 2 ^ (E - e)) e <= Q2 (Zpos m) e)%Q -> (Q2 (Zpos m) e <= Q2 (rne mrs) E)%Q ->
       (Q2 (rne mrs) E - Q2 (Zpos m) e <= Q2 (Zpos m) e - Q2 (N' * 2 ^ (E - e)) e)%Q) /\
      ((Q2 (Zpos m) e <= Q2 (N' * 2 ^ (E - e)) e)%Q -> (Q2 (rne mrs) E <= Q2 (Zpos m) e)%Q ->
       (Q2 (Zpos m) e - Q2 (rne mrs) E <= Q2 (N' * 2 ^ (E - e)) e - Q2 (Zpos m) e)%Q)).
    { intros N'. rewrite Hr. rewrite <- !Q2_minus.
      destruct (rne_nearest (Zpos m) (E - e) mrs N' Hk Hinv) as [Hn1 Hn2].
      split; intros Ha Hb; apply Q2_le_inv in Ha; apply Q2_le_inv in Hb; apply Q2_le.
      - apply Hn1; assumption.
      - apply Hn2; assumption. }
    destruct (Z_le_gt_dec E ec) as [Hle | Hgt].
    + assert (Hc : (Q2 N ec == Q2 (N * 2 ^ (ec - E) * 2 ^ (E - e)) e)%Q).
      { rewrite !Q2_shift by lia. replace (e + (E - e) + (ec - E)) with ec by lia.
        reflexivity. }
      rewrite Hc. apply Hgrid.
    + assert (Hn : emin < E) by lia. specialize (Hlow Hn).
      assert (HEd : E = d + e - prec) by (unfold SpecFloat.emin in Hn; lia).
      assert (HNle : (Q2 N ec <= pow2 (prec + E - 1))%Q).
      { apply Qle_trans with (Q2 (2 ^ prec) ec).
        - apply Q2_le. lia.
        - rewrite Q2_pow by lia. apply pow2_le. lia. }
      assert (Hmge : (pow2 (prec + E - 1) <= Q2 (Zpos m) e)%Q).
      { replace (prec + E - 1) with (d - 1 + e) by lia. rewrite <- Q2_pow by lia.
        apply Q2_le. exact Hdl. }
      assert (Hrge : (pow2 (prec + E - 1) <= Q2 (rne mrs) E)%Q).
      { replace (prec + E - 1) with (prec - 1 + E) by lia. rewrite <- Q2_pow by lia.
        apply Q2_le. exact Hlow. }
      assert (Hp : (pow2 (prec + E - 1) == Q2 (2 ^ (prec - 1) * 2 ^ (E - e)) e)%Q).
      { rewrite Q2_shift, Q2_pow by lia. f_equiv. lia. }
      destruct (Hgrid (2 ^ (prec - 1))) as [Hg1 _]. rewrite <- Hp in Hg1.
      split; intros Ha Hb.
      * specialize (Hg1 Hmge Hb). lra.
      * lra.
Qed.

(** [binary_round] first brings the exponent down to the target. *)
Lemma round_core (m : positive) (e : Z) :
  exists M E,
    (forall s, binary_round prec emax s m e = round_result prec emax s M E) /\
    0 <= M < 2 ^ prec /\ emin <= E /\
    (0 < M -> fexp (Zdigits2 M + E) = E) /\
    (forall N ec, fmt_rep prec emax N ec ->
       ((Q2 (Zpos m) e <= Q2 N ec)%Q -> (Q2 M E <= Q2 N ec)%Q) /\
       ((Q2 N ec <= Q2 (Zpos m) e)%Q -> (Q2 N ec <= Q2 M E)%Q)) /\
    (forall N ec, fmt_rep prec emax N ec ->
       ((Q2 N ec <= Q2 (Zpos m) e)%Q -> (Q2 (Zpos m) e <= Q2 M E)%Q ->
        (Q2 M E - Q2 (Zpos m) e <= Q2 (Zpos m) e - Q2 N ec)%Q) /\
       ((Q2 (Zpos m) e <= Q2 N ec)%Q -> (Q2 M E <= Q2 (Zpos m) e)%Q ->
        (Q2 (Zpos m) e - Q2 M E <= Q2 N ec - Q2 (Zpos m) e)%Q)).
Proof.
  pose proof (digits2_pos_bounds m) as [Hl Hu].
  set (d := Zpos (digits2_pos m)) in *.
  destruct (Z_lt_le_dec (fexp (d + e)) e) as [Hlt | Hle].
  - (* the mantissa is shifted left *)
    assert (Hal : exists k, fexp (d + e) - e = Zneg k).
    { destruct (fexp (d + e) - e) as [|k|k] eqn:E0; try lia. exists k. reflexivity. }
    destruct Hal as (k & Hk).
    assert (Hmk : Zpos (Pos.iter xO m k) = Zpos m * 2 ^ (e - fexp (d + e))).
    { rewrite Zpos_iter_xO. f_equal. f_equal. lia. }
    assert (Hdk : Zpos (digits2_pos (Pos.iter xO m k)) = d + (e - fexp (d + e))).
    { apply digits2_pos_unique. rewrite Hmk.
      replace (d + (e - fexp (d + e)) - 1) with (d - 1 + (e - fexp (d + e))) by lia.
      rewrite !Z.pow_add_r by lia.
      assert (0 < 2 ^ (e - fexp (d + e))) by (apply Z.pow_pos_nonneg; lia). nia. }
    destruct (round_aux_core (Pos.iter xO m k) (fexp (d + e)))
      as (M & E & Hr & HM & HE & Hcan & Hb & Hn).
    { rewrite Hdk. replace (d + (e - fexp (d + e)) + fexp (d + e)) with (d + e) by lia. lia. }
    assert (Hv : (Q2 (Zpos (Pos.iter xO m k)) (fexp (d + e)) == Q2 (Zpos m) e)%Q).
    { rewrite Hmk, Q2_shift by lia.
      replace (fexp (d + e) + (e - fexp (d + e))) with e by lia. reflexivity. }
    exists M, E.
    split; [|split; [exact HM | split; [exact HE | split; [exact Hcan | split]]]].
    + intros s. unfold binary_round, shl_align. fold d. rewrite Hk. apply Hr.
    + intros N ec HN. rewrite <- Hv. apply Hb; apply HN.
    + intros N ec HN. rewrite <- Hv. apply Hn; apply HN.
  - destruct (round_aux_core m e Hle)
      as (M & E & Hr & HM & HE & Hcan & Hb & Hn).
    exists M, E.
    split; [|split; [exact HM | split; [exact HE | split; [exact Hcan | split]]]].
    + intros s. unfold binary_round, shl_align. fold d.
      destruct (fexp (d + e) - e) as [|k|k] eqn:E0; try lia; apply Hr.
    + intros N ec HN. apply Hb; apply HN.
    + intros N ec HN. apply Hn; apply HN.
Qed.

Lemma pow2_emax_pos : (0 < pow2 emax)%Q.
Proof. apply pow2_pos. Qed.

(** A positive rounding result: a datum of the format, bracketed like
    the exact value by the representable numbers. *)
Lemma round_pos_bounds (m : positive) (e : Z) :
  let r := binary_round prec emax false m e in
  valid_binary prec emax r = true /\ is_nan r = false /\
  (0 <= B r <= pow2 emax)%Q /\
  (forall N ec, fmt_rep prec emax N ec ->
     ((Q2 (Zpos m) e <= Q2 N ec)%Q -> (B r <= Q2 N ec)%Q) /\
     ((Q2 N ec <= Q2 (Zpos m) e)%Q -> (Q2 N ec <= pow2 emax)%Q -> (Q2 N ec <= B r)%Q)).
Proof.
  destruct (round_core m e) as (M & E & Hr & HM & HE & Hcan & Hb & _).
  intros r. subst r. rewrite Hr. clear Hr. unfold SpecFloat.emin in HE.
  destruct M as [|p|p]; [| |lia]; cbn [round_result].
  - split; [reflexivity|]. split; [reflexivity|]. split.
    + simpl. split; [apply Qle_refl | apply Qlt_le_weak, pow2_pos].
    + intros N ec HN. specialize (Hb N ec HN). rewrite Q2_0 in Hb. exact (conj (proj1 Hb) (fun H _ => proj2 Hb H)).
  - specialize (Hcan ltac:(lia)). cbn [Zdigits2] in Hcan.
    pose proof (digits2_pos_bounds p) as [Hpl Hpu].
    destruct (E <=? emax - prec) eqn:Ele.
    + apply Z.leb_le in Ele. split.
      { cbn [valid_binary]. unfold bounded, canonical_mantissa.
        rewrite Hcan, Z.eqb_refl. simpl. apply Z.leb_le. exact Ele. }
      split; [reflexivity|]. split.
      { cbn [Bval cond_Zopp]. split; [apply Q2_nonneg; lia|].
        apply Qle_trans with (Q2 (2 ^ prec) E); [apply Q2_le; lia|].
        rewrite Q2_pow by lia. apply pow2_le. lia. }
      intros N ec HN. specialize (Hb N ec HN). cbn [Bval cond_Zopp].
      exact (conj (proj1 Hb) (fun H _ => proj2 Hb H)).
    + apply Z.leb_gt in Ele. split; [reflexivity|]. split; [reflexivity|]. split.
      { cbn [Bval]. split; [apply Qlt_le_weak, pow2_pos | apply Qle_refl]. }
      intros N ec HN. specialize (Hb N ec HN). cbn [Bval]. split.
      * intros H. apply Qle_trans with (Q2 (Zpos p) E); [|apply Hb, H].
        rewrite fexp_spec in Hcan.
        assert (Hd : Zpos (digits2_pos p) = prec) by lia. rewrite Hd in Hpl.
        apply Qle_trans with (Q2 (2 ^ (prec - 1)) E); [|apply Q2_le; exact Hpl].
        rewrite Q2_pow by lia. apply pow2_le. lia.
      * intros _ H. exact H.
Qed.

(** The sign of [binary_round] only shows in the final datum. *)
Lemma binary_round_opp (s : bool) (m : positive) (e : Z) :
  binary_round prec emax (negb s) m e = SFopp (binary_round prec emax s m e).
Proof.
  destruct (round_core m e) as (M & E & Hr & _). rewrite !Hr.
  destruct M as [|p|p]; cbn [round_result]; try reflexivity.
  destruct (E <=? emax - prec); reflexivity.
Qed.

Lemma B_opp (x : spec_float) : (B (SFopp x) == - B x)%Q.
Proof.
  destruct x as [s|s| |s m e]; cbn [SFopp Bval]; try ring.
  - destruct s; simpl; ring.
  - destruct s; cbn [negb cond_Zopp]; rewrite ?Q2_opp; ring.
Qed.

Lemma valid_opp (x : spec_float) :
  valid_binary prec emax (SFopp x) = valid_binary prec emax x.
Proof. destruct x; reflexivity. Qed.

Lemma is_nan_opp (x : spec_float) : is_nan (SFopp x) = is_nan x.
Proof. destruct x; reflexivity. Qed.

(** ** The numbers of the format *)

Lemma valid_finite (s : bool) (m : positive) (e : Z) :
  valid_binary prec emax (S754_finite s m e) = true ->
  fexp (Zpos (digits2_pos m) + e) = e /\ e <= emax - prec /\
  fmt_rep prec emax (Zpos m) e /\ Zpos m < 2 ^ prec /\ (Q2 (Zpos m) e < pow2 emax)%Q.
Proof.
  cbn [valid_binary]. unfold bounded, canonical_mantissa. intros H.
  apply andb_prop in H as [Hc Hb]. apply Z.eqb_eq in Hc. apply Z.leb_le in Hb.
  pose proof (digits2_pos_bounds m) as [Hl Hu].
  assert (Hd : Zpos (digits2_pos m) <= prec) by (rewrite fexp_spec in Hc; lia).
  assert (Hm : Zpos m < 2 ^ prec).
  { assert (2 ^ Zpos (digits2_pos m) <= 2 ^ prec) by (apply Z.pow_le_mono_r; lia). lia. }
  split; [exact Hc|]. split; [exact Hb|]. split.
  - unfold fmt_rep, SpecFloat.emin. rewrite fexp_spec in Hc. lia.
  - split; [exact Hm|].
    apply Qlt_le_trans with (Q2 (2 ^ prec) e); [apply Q2_lt; exact Hm|].
    rewrite Q2_pow by lia. apply pow2_le. lia.
Qed.

(** Among canonical numbers the exponent decides first. *)
Lemma canonical_exp_lt (m1 m2 : positive) (e1 e2 : Z) :
  fexp (Zpos (digits2_pos m1) + e1) = e1 ->
  fexp (Zpos (digits2_pos m2) + e2) = e2 ->
  e1 < e2 -> (Q2 (Zpos m1) e1 < Q2 (Zpos m2) e2)%Q.
Proof.
  rewrite !fexp_spec. intros H1 H2 Hlt.
  pose proof (digits2_pos_bounds m1) as [_ Hu1].
  pose proof (digits2_pos_bounds m2) as [Hl2 _].
  assert (Hd2 : Zpos (digits2_pos m2) = prec) by lia. rewrite Hd2 in Hl2.
  assert (Hm1 : Zpos m1 < 2 ^ prec).
  { assert (2 ^ Zpos (digits2_pos m1) <= 2 ^ prec) by (apply Z.pow_le_mono_r; lia). lia. }
  apply Qlt_le_trans with (Q2 (2 ^ prec) e1); [apply Q2_lt; exact Hm1|].
  apply Qle_trans with (Q2 (2 ^ (prec - 1)) e2); [|apply Q2_le; exact Hl2].
  rewrite !Q2_pow by lia. apply pow2_le. lia.
Qed.

Lemma Qcompare_Lt (a b : Q) : (a < b)%Q -> (a ?= b)%Q = Lt.
Proof. intros H. apply Qlt_alt. exact H. Qed.

Lemma Qcompare_Gt (a b : Q) : (b < a)%Q -> (a ?= b)%Q = Gt.
Proof. intros H. apply Qgt_alt. exact H. Qed.

Lemma Qcompare_Eq (a b : Q) : (a == b)%Q -> (a ?= b)%Q = Eq.
Proof. intros H. apply Qeq_alt. exact H. Qed.

(** Comparison of positive numbers of the format. *)
Lemma compare_pos (m1 m2 : positive) (e1 e2 : Z) :
  fexp (Zpos (digits2_pos m1) + e1) = e1 ->
  fexp (Zpos (digits2_pos m2) + e2) = e2 ->
  match e1 ?= e2 with
  | Lt => Lt
  | Gt => Gt
  | Eq => Pos.compare_cont Eq m1 m2
  end = (Q2 (Zpos m1) e1 ?= Q2 (Zpos m2) e2)%Q.
Proof.
  intros H1 H2. destruct (Z.compare_spec e1 e2) as [-> | Hlt | Hgt].
  - change (Pos.compare_cont Eq m1 m2) with (Pos.compare m1 m2).
    destruct (Pos.compare_spec m1 m2) as [-> | Hm | Hm]; symmetry.
    + apply Qcompare_Eq. reflexivity.
    + apply Qcompare_Lt, Q2_lt. lia.
    + apply Qcompare_Gt, Q2_lt. lia.
  - symmetry. apply Qcompare_Lt, canonical_exp_lt; assumption.
  - symmetry. apply Qcompare_Gt, canonical_exp_lt; assumption.
Qed.

Lemma Qcompare_opp (a b : Q) : (- a ?= - b)%Q = CompOpp (a ?= b)%Q.
Proof.
  destruct (Qcompare_spec a b) as [H | H | H]; cbn [CompOpp].
  - apply Qcompare_Eq. rewrite H. reflexivity.
  - apply Qcompare_Gt. lra.
  - apply Qcompare_Lt. lra.
Qed.

(** [SFcompare] on data of the format compares their values. *)
Lemma SFcompare_B (x y : spec_float) :
  valid_binary prec emax x = true -> valid_binary prec emax y = true ->
  is_nan x = false -> is_nan y = false ->
  SFcompare x y = Some (B x ?= B y)%Q.
Proof.
  intros Vx Vy Nx Ny. pose proof pow2_emax_pos as Hinf.
  destruct x as [sx|sx| |sx mx ex]; [| |discriminate|];
  (destruct y as [sy|sy| |sy my ey]; [| |discriminate|]);
  cbn [SFcompare Bval].
  - reflexivity.
  - f_equal. symmetry. destruct sy; [apply Qcompare_Gt | apply Qcompare_Lt]; lra.
  - f_equal. symmetry.
    pose proof (Q2_pos (Zpos my) ey ltac:(lia)) as Hp.
    destruct sy; cbn [cond_Zopp]; [apply Qcompare_Gt | apply Qcompare_Lt].
    + change (Z.opp (Zpos my)) with (- Zpos my). rewrite Q2_opp. lra.
    + exact Hp.
  - f_equal. symmetry. destruct sx; [apply Qcompare_Lt | apply Qcompare_Gt]; lra.
  - f_equal. symmetry.
    destruct sx, sy; try (apply Qcompare_Eq; reflexivity);
      [apply Qcompare_Lt | apply Qcompare_Gt]; lra.
  - f_equal. symmetry.
    destruct (valid_finite _ _ _ Vy) as (_ & _ & _ & _ & Hy).
    pose proof (Q2_pos (Zpos my) ey ltac:(lia)) as Hp.
    assert (Hn : (Q2 (cond_Zopp sy (Zpos my)) ey < pow2 emax /\
                  - pow2 emax < Q2 (cond_Zopp sy (Zpos my)) ey)%Q).
    { destruct sy; cbn [cond_Zopp];
        [change (Z.opp (Zpos my)) with (- Zpos my); rewrite Q2_opp|]; split; lra. }
    destruct sx; [apply Qcompare_Lt | apply Qcompare_Gt]; lra.
  - f_equal. symmetry.
    pose proof (Q2_pos (Zpos mx) ex ltac:(lia)) as Hp.
    destruct sx; cbn [cond_Zopp]; [apply Qcompare_Lt | apply Qcompare_Gt].
    + change (Z.opp (Zpos mx)) with (- Zpos mx). rewrite Q2_opp. lra.
    + exact Hp.
  - f_equal. symmetry.
    destruct (valid_finite _ _ _ Vx) as (_ & _ & _ & _ & Hx).
    pose proof (Q2_pos (Zpos mx) ex ltac:(lia)) as Hp.
    assert (Hn : (Q2 (cond_Zopp sx (Zpos mx)) ex < pow2 emax /\
                  - pow2 emax < Q2 (cond_Zopp sx (Zpos mx)) ex)%Q).
    { destruct sx; cbn [cond_Zopp];
        [change (Z.opp (Zpos mx)) with (- Zpos mx); rewrite Q2_opp|]; split; lra. }
    destruct sy; [apply Qcompare_Gt | apply Qcompare_Lt]; lra.
  - f_equal.
    destruct (valid_finite _ _ _ Vx) as (Hcx & _).
    destruct (valid_finite _ _ _ Vy) as (Hcy & _).
    pose proof (Q2_pos (Zpos mx) ex ltac:(lia)) as Hpx.
    pose proof (Q2_pos (Zpos my) ey ltac:(lia)) as Hpy.
    destruct sx, sy; cbn [cond_Zopp].
    + change (Z.opp (Zpos mx)) with (- Zpos mx). change (Z.opp (Zpos my)) with (- Zpos my).
      rewrite !Q2_opp, Qcompare_opp, <- (compare_pos _ _ _ _ Hcx Hcy).
      destruct (ex ?= ey); reflexivity.
    + change (Z.opp (Zpos mx)) with (- Zpos mx). rewrite Q2_opp.
      symmetry. apply Qcompare_Lt. lra.
    + change (Z.opp (Zpos my)) with (- Zpos my). rewrite Q2_opp.
      symmetry. apply Qcompare_Gt. lra.
    + apply compare_pos; assumption.
Qed.

(** ** Correct rounding, stated by brackets *)

Lemma repQ_opp (c : Q) : fmt_repQ prec emax c -> fmt_repQ prec emax (- c).
Proof.
  intros (N & ec & HN & Hle & [Hc | Hc]); exists N, ec; (split; [exact HN|]);
    (split; [exact Hle|]); [right | left]; rewrite Hc; ring.
Qed.

Lemma repQ_B (c : spec_float) :
  valid_binary prec emax c = true -> is_nan c = false -> fmt_repQ prec emax (B c).
Proof.
  intros V Nn. destruct c as [s|s| |s m e]; [| |discriminate|]; cbn [Bval].
  - exists 0, emin. split; [split; [split; [lia | apply Z.pow_nonneg; lia] | lia]|].
    rewrite Q2_0. split; [apply Qlt_le_weak, pow2_pos | left; reflexivity].
  - exists (2 ^ (prec - 1)), (emax - prec + 1).
    assert (Hv : (Q2 (2 ^ (prec - 1)) (emax - prec + 1) == pow2 emax)%Q).
    { rewrite Q2_pow by lia. replace (prec - 1 + (emax - prec + 1)) with emax by lia.
      reflexivity. }
    split.
    + split; [|unfold SpecFloat.emin; lia].
      split; [apply Z.pow_nonneg; lia | apply Z.pow_le_mono_r; lia].
    + rewrite Hv. split; [apply Qle_refl|]. destruct s; [right | left]; reflexivity.
  - destruct (valid_finite _ _ _ V) as (_ & _ & Hrep & _ & Hlt).
    exists (Zpos m), e. split; [exact Hrep|]. split; [apply Qlt_le_weak, Hlt|].
    destruct s; cbn [cond_Zopp]; [right | left]; [|reflexivity].
    change (Z.opp (Zpos m)) with (- Zpos m). apply Q2_opp.
Qed.

Lemma Rounded_eq (v v' : Q) (r : spec_float) : (v == v')%Q -> Rounded prec emax v r -> Rounded prec emax v' r.
Proof.
  intros E (V & Nn & H). split; [exact V|]. split; [exact Nn|].
  intros c Hc. rewrite <- E. apply H, Hc.
Qed.

(** A datum of the format rounds its own value. *)
Lemma Rounded_exact (v : Q) (r : spec_float) :
  valid_binary prec emax r = true -> is_nan r = false -> (v == B r)%Q -> Rounded prec emax v r.
Proof.
  intros V Nn E. split; [exact V|]. split; [exact Nn|].
  intros c _. rewrite E. split; intros H; exact H.
Qed.

Lemma Rounded_opp (v : Q) (r : spec_float) : Rounded prec emax v r -> Rounded prec emax (- v) (SFopp r).
Proof.
  intros (V & Nn & H). split; [rewrite valid_opp; exact V|].
  split; [rewrite is_nan_opp; exact Nn|].
  intros c Hc. rewrite B_opp. destruct (H (- c)%Q (repQ_opp c Hc)) as [H1 H2].
  split; intros Hv.
  - assert (- c <= B r)%Q by (apply H2; lra). lra.
  - assert (B r <= - c)%Q by (apply H1; lra). lra.
Qed.

(** [binary_round] rounds. *)
Lemma round_Rounded (s : bool) (m : positive) (e : Z) :
  Rounded prec emax (Q2 (cond_Zopp s (Zpos m)) e) (binary_round prec emax s m e).
Proof.
  assert (Hpos : Rounded prec emax (Q2 (Zpos m) e) (binary_round prec emax false m e)).
  { destruct (round_pos_bounds m e) as (V & Nn & [H0 _] & Hb).
    split; [exact V|]. split; [exact Nn|].
    pose proof (Q2_pos (Zpos m) e ltac:(lia)) as Hp.
    intros c (N & ec & HN & Hle & [Hc | Hc]); rewrite Hc.
    - destruct (Hb N ec HN) as [H1 H2]. split; [exact H1|]. intros Hv. apply H2; assumption.
    - assert (0 <= Q2 N ec)%Q by (apply Q2_nonneg; apply HN).
      split; intros Hv; lra. }
  destruct s; cbn [cond_Zopp].
  - change true with (negb false). rewrite binary_round_opp.
    change (Z.opp (Zpos m)) with (- Zpos m).
    apply Rounded_eq with (- Q2 (Zpos m) e)%Q; [symmetry; apply Q2_opp|].
    apply Rounded_opp, Hpos.
  - exact Hpos.
Qed.

(** [binary_normalize] rounds an integer mantissa of either sign. *)
Lemma normalize_Rounded (z e : Z) : Rounded prec emax (Q2 z e) (binary_normalize prec emax z e false).
Proof.
  destruct z as [|p|p]; cbn [binary_normalize].
  - apply Rounded_exact; [reflexivity | reflexivity | apply Q2_0].
  - apply (round_Rounded false).
  - apply (round_Rounded true).
Qed.

(** *** Rounding to nearest *)

Lemma Nearest_eq (v v' : Q) (r : spec_float) :
  (v == v')%Q -> Nearest prec emax v r -> Nearest prec emax v' r.
Proof. intros E H c Hc. rewrite <- E. apply H, Hc. Qed.

Lemma Nearest_exact (v : Q) (r : spec_float) : (v == B r)%Q -> Nearest prec emax v r.
Proof. intros E c _. rewrite E. split; intros; lra. Qed.

Lemma Nearest_opp (v : Q) (r : spec_float) :
  Nearest prec emax v r -> Nearest prec emax (- v) (SFopp r).
Proof.
  intros H c Hc. rewrite B_opp. destruct (H (- c)%Q (repQ_opp c Hc)) as [H1 H2].
  split; intros Ha Hb.
  - assert (v - B r <= - c - v)%Q by (apply H2; lra). lra.
  - assert (B r - v <= v - - c)%Q by (apply H1; lra). lra.
Qed.

Lemma round_pos_nearest (m : positive) (e : Z) :
  Nearest prec emax (Q2 (Zpos m) e) (binary_round prec emax false m e).
Proof.
  destruct (round_core m e) as (M & E & Hr & HM & HE & Hcan & Hb & Hn).
  rewrite Hr. clear Hr. unfold SpecFloat.emin in HE.
  pose proof (Q2_pos (Zpos m) e ltac:(lia)) as Hx.
  assert (Hzero : fmt_rep prec emax 0 emin).
  { split; [split; [lia | apply Z.pow_nonneg; lia] | lia]. }
  assert (Hpos : forall N ec, fmt_rep prec emax N ec -> (Q2 N ec <= pow2 emax)%Q ->
    ((Q2 N ec <= Q2 (Zpos m) e)%Q -> (Q2 (Zpos m) e <= B (round_result prec emax false M E))%Q ->
     (B (round_result prec emax false M E) - Q2 (Zpos m) e <= Q2 (Zpos m) e - Q2 N ec)%Q) /\
    ((Q2 (Zpos m) e <= Q2 N ec)%Q -> (B (round_result prec emax false M E) <= Q2 (Zpos m) e)%Q ->
     (Q2 (Zpos m) e - B (round_result prec emax false M E) <= Q2 N ec - Q2 (Zpos m) e)%Q)).
  { intros N ec HN Hle. specialize (Hn N ec HN).
    destruct M as [|p|p]; [| |lia]; cbn [round_result].
    - cbn [Bval]. rewrite Q2_0 in Hn. exact Hn.
    - destruct (E <=? emax - prec) eqn:Ele.
      + cbn [Bval cond_Zopp]. exact Hn.
      + apply Z.leb_gt in Ele. cbn [Bval].
        specialize (Hcan ltac:(lia)). cbn [Zdigits2] in Hcan.
        pose proof (digits2_pos_bounds p) as [Hpl Hpu].
        assert (Hbig : (pow2 emax <= Q2 (Zpos p) E)%Q).
        { rewrite fexp_spec in Hcan.
          assert (Hd : Zpos (digits2_pos p) = prec) by lia. rewrite Hd in Hpl.
          apply Qle_trans with (Q2 (2 ^ (prec - 1)) E); [|apply Q2_le; exact Hpl].
          rewrite Q2_pow by lia. apply pow2_le. lia. }
        destruct Hn as [Hn1 Hn2]. split; intros Ha Hb'.
        * assert (Q2 (Zpos p) E - Q2 (Zpos m) e <= Q2 (Zpos m) e - Q2 N ec)%Q
            by (apply Hn1; lra). lra.
        * lra. }
  intros c (N & ec & HN & Hle & [Hc | Hc]); rewrite Hc.
  - apply Hpos; assumption.
  - assert (0 <= Q2 N ec)%Q by (apply Q2_nonneg; apply HN).
    destruct (Hpos 0 emin Hzero) as [Hz _].
    { rewrite Q2_0. apply Qlt_le_weak, pow2_pos. }
    rewrite Q2_0 in Hz. split; intros Ha Hb'.
    + assert (B (round_result prec emax false M E) - Q2 (Zpos m) e <= Q2 (Zpos m) e - 0)%Q
        by (apply Hz; lra). lra.
    + lra.
Qed.

(** [binary_round] rounds to nearest. *)
Lemma round_Nearest (s : bool) (m : positive) (e : Z) :
  Nearest prec emax (Q2 (cond_Zopp s (Zpos m)) e) (binary_round prec emax s m e).
Proof.
  destruct s; cbn [cond_Zopp].
  - change true with (negb false). rewrite binary_round_opp.
    change (Z.opp (Zpos m)) with (- Zpos m).
    apply Nearest_eq with (- Q2 (Zpos m) e)%Q; [symmetry; apply Q2_opp|].
    apply Nearest_opp, round_pos_nearest.
  - apply round_pos_nearest.
Qed.

Lemma normalize_Nearest (z e : Z) :
  Nearest prec emax (Q2 z e) (binary_normalize prec emax z e false).
Proof.
  destruct z as [|p|p]; cbn [binary_normalize].
  - apply Nearest_exact. apply Q2_0.
  - apply (round_Nearest false).
  - apply (round_Nearest true).
Qed.

(** *** What a rounding is good for *)

Lemma leb_B (x y : spec_float) :
  valid_binary prec emax x = true -> valid_binary prec emax y = true ->
  is_nan x = false -> is_nan y = false ->
  (SFleb x y = true <-> (B x <= B y)%Q).
Proof.
  intros Vx Vy Nx Ny. unfold SFleb. rewrite (SFcompare_B x y Vx Vy Nx Ny).
  rewrite Qle_alt. destruct (B x ?= B y)%Q; split; intros H; try reflexivity;
    try discriminate; try (intros C; discriminate C). exfalso. apply H. reflexivity.
Qed.

Lemma ltb_B (x y : spec_float) :
  valid_binary prec emax x = true -> valid_binary prec emax y = true ->
  is_nan x = false -> is_nan y = false ->
  (SFltb x y = true <-> (B x < B y)%Q).
Proof.
  intros Vx Vy Nx Ny. unfold SFltb. rewrite (SFcompare_B x y Vx Vy Nx Ny).
  rewrite Qlt_alt. destruct (B x ?= B y)%Q; split; intros H; try reflexivity;
    discriminate.
Qed.

Lemma ltb_false_B (x y : spec_float) :
  valid_binary prec emax x = true -> valid_binary prec emax y = true ->
  is_nan x = false -> is_nan y = false ->
  (SFltb x y = false <-> (B y <= B x)%Q).
Proof.
  intros Vx Vy Nx Ny. pose proof (ltb_B x y Vx Vy Nx Ny) as H.
  destruct (SFltb x y); split; intros H'; try reflexivity; try discriminate.
  - assert (B x < B y)%Q by (apply H; reflexivity). lra.
  - destruct (Qlt_le_dec (B x) (B y)) as [Hlt | Hle]; [|exact Hle].
    apply H in Hlt. discriminate.
Qed.

Lemma leb_false_B (x y : spec_float) :
  valid_binary prec emax x = true -> valid_binary prec emax y = true ->
  is_nan x = false -> is_nan y = false ->
  (SFleb x y = false <-> (B y < B x)%Q).
Proof.
  intros Vx Vy Nx Ny. pose proof (leb_B x y Vx Vy Nx Ny) as H.
  destruct (SFleb x y); split; intros H'; try reflexivity; try discriminate.
  - assert (B x <= B y)%Q by (apply H; reflexivity). lra.
  - destruct (Qlt_le_dec (B y) (B x)) as [Hlt | Hle]; [exact Hlt|].
    apply H in Hle. discriminate.
Qed.

(** A datum of the format strictly inside the infinities is finite. *)
Lemma finite_B (r : spec_float) :
  is_nan r = false -> (- pow2 emax < B r < pow2 emax)%Q -> is_finite r = true.
Proof.
  destruct r as [s|s| |s m e]; try reflexivity; try discriminate.
  intros _. cbn [Bval]. destruct s; lra.
Qed.

Lemma Rounded_upper (v : Q) (r c : spec_float) :
  Rounded prec emax v r -> valid_binary prec emax c = true -> is_nan c = false ->
  (v <= B c)%Q -> (B r <= B c)%Q.
Proof. intros (_ & _ & H) V Nn Hv. apply (H (B c) (repQ_B c V Nn)), Hv. Qed.

Lemma Rounded_lower (v : Q) (r c : spec_float) :
  Rounded prec emax v r -> valid_binary prec emax c = true -> is_nan c = false ->
  (B c <= v)%Q -> (B c <= B r)%Q.
Proof. intros (_ & _ & H) V Nn Hv. apply (H (B c) (repQ_B c V Nn)), Hv. Qed.

(** ** The operations round *)

Lemma Q2_mult (a b e f : Z) : (Q2 (a * b) (e + f) == Q2 a e * Q2 b f)%Q.
Proof. unfold Q2. rewrite inject_Z_mult, pow2_add. ring. Qed.

Lemma shl_align_val (m : positive) (ex ez : Z) :
  ez <= ex -> (Q2 (Zpos (fst (shl_align m ex ez))) ez == Q2 (Zpos m) ex)%Q.
Proof.
  intros H. unfold shl_align. destruct (ez - ex) as [|d|d] eqn:E; cbn [fst]; try lia.
  - replace ez with ex by lia. reflexivity.
  - rewrite Zpos_iter_xO, Q2_shift by lia. replace (ez + Zpos d) with ex by lia.
    reflexivity.
Qed.

Lemma B_finite (s : bool) (m : positive) (e : Z) :
  (B (S754_finite s m e) == (if s then - Q2 (Zpos m) e else Q2 (Zpos m) e))%Q.
Proof.
  cbn [Bval]. destruct s; cbn [cond_Zopp]; [|reflexivity].
  change (Z.opp (Zpos m)) with (- Zpos m). apply Q2_opp.
Qed.

Lemma Q2_cond_Zopp (s : bool) (n e : Z) :
  (Q2 (cond_Zopp s n) e == (if s then - Q2 n e else Q2 n e))%Q.
Proof. destruct s; cbn [cond_Zopp]; [apply Q2_opp | reflexivity]. Qed.

Lemma add_Rounded (x y : spec_float) :
  valid_binary prec emax x = true -> valid_binary prec emax y = true ->
  is_finite x = true -> is_finite y = true ->
  Rounded prec emax (B x + B y) (SFadd prec emax x y).
Proof.
  intros Vx Vy Fx Fy.
  destruct x as [sx|sx| |sx mx ex]; try discriminate;
  destruct y as [sy|sy| |sy my ey]; try discriminate; cbn [SFadd].
  - destruct sx, sy; apply Rounded_exact; try reflexivity.
  - apply Rounded_exact; [exact Vy | reflexivity |]. cbn [Bval]. ring.
  - apply Rounded_exact; [exact Vx | reflexivity |]. cbn [Bval]. ring.
  - eapply Rounded_eq; [|apply normalize_Rounded].
    change (IntDef.Z.min ex ey) with (Z.min ex ey).
    rewrite Q2_plus, !Q2_cond_Zopp, !B_finite.
    pose proof (shl_align_val mx ex (Z.min ex ey) ltac:(lia)) as Hx.
    pose proof (shl_align_val my ey (Z.min ex ey) ltac:(lia)) as Hy.
    destruct sx, sy; rewrite Hx, Hy; reflexivity.
Qed.

(** The sum is the number of the format nearest to the exact sum. *)
Lemma add_Nearest (x y : spec_float) :
  valid_binary prec emax x = true -> valid_binary prec emax y = true ->
  is_finite x = true -> is_finite y = true ->
  Nearest prec emax (B x + B y) (SFadd prec emax x y).
Proof.
  intros Vx Vy Fx Fy.
  destruct x as [sx|sx| |sx mx ex]; try discriminate;
  destruct y as [sy|sy| |sy my ey]; try discriminate; cbn [SFadd].
  - destruct sx, sy; apply Nearest_exact; reflexivity.
  - apply Nearest_exact. cbn [Bval]. ring.
  - apply Nearest_exact. cbn [Bval]. ring.
  - eapply Nearest_eq; [|apply normalize_Nearest].
    change (IntDef.Z.min ex ey) with (Z.min ex ey).
    rewrite Q2_plus, !Q2_cond_Zopp, !B_finite.
    pose proof (shl_align_val mx ex (Z.min ex ey) ltac:(lia)) as Hx.
    pose proof (shl_align_val my ey (Z.min ex ey) ltac:(lia)) as Hy.
    destruct sx, sy; rewrite Hx, Hy; reflexivity.
Qed.

Lemma sub_Rounded (x y : spec_float) :
  valid_binary prec emax x = true -> valid_binary prec emax y = true ->
  is_finite x = true -> is_finite y = true ->
  Rounded prec emax (B x - B y) (SFsub prec emax x y).
Proof.
  intros Vx Vy Fx Fy.
  destruct x as [sx|sx| |sx mx ex]; try discriminate;
  destruct y as [sy|sy| |sy my ey]; try discriminate; cbn [SFsub].
  - destruct sx, sy; apply Rounded_exact; try reflexivity.
  - apply Rounded_exact; [exact Vy | reflexivity |].
    rewrite !B_finite. cbn [Bval]. destruct sy; cbn [negb]; ring.
  - apply Rounded_exact; [exact Vx | reflexivity |]. cbn [Bval]. ring.
  - eapply Rounded_eq; [|apply normalize_Rounded].
    change (IntDef.Z.min ex ey) with (Z.min ex ey).
    rewrite Q2_minus, !Q2_cond_Zopp, !B_finite.
    pose proof (shl_align_val mx ex (Z.min ex ey) ltac:(lia)) as Hx.
    pose proof (shl_align_val my ey (Z.min ex ey) ltac:(lia)) as Hy.
    destruct sx, sy; rewrite Hx, Hy; reflexivity.
Qed.

(** On canonical data [binary_round_aux] starts at or below the target
    exponent, like [binary_round]. *)
Lemma round_aux_is_round (s : bool) (m : positive) (e : Z) :
  e <= fexp (Zpos (digits2_pos m) + e) ->
  binary_round_aux prec emax s (Zpos m) e loc_Exact = binary_round prec emax s m e.
Proof.
  intros H. unfold binary_round, shl_align.
  destruct (fexp (Zpos (digits2_pos m) + e) - e) as [|k|k] eqn:E; try reflexivity. lia.
Qed.

Lemma digits2_pos_mul (a b : positive) :
  Zpos (digits2_pos a) + Zpos (digits2_pos b) - 1 <= Zpos (digits2_pos (a * b)).
Proof.
  pose proof (digits2_pos_bounds a) as [Ha _].
  pose proof (digits2_pos_bounds b) as [Hb _].
  pose proof (digits2_pos_bounds (a * b)) as [_ Hab].
  set (da := Zpos (digits2_pos a)) in *. set (db := Zpos (digits2_pos b)) in *.
  set (dab := Zpos (digits2_pos (a * b))) in *.
  assert (0 < da) by (unfold da; lia). assert (0 < db) by (unfold db; lia).
  assert (0 < dab) by (unfold dab; lia).
  destruct (Z_le_gt_dec (da + db - 1) dab) as [|Hgt]; [assumption|].
  assert (H2 : 2 ^ dab <= 2 ^ (da - 1 + (db - 1))) by (apply Z.pow_le_mono_r; lia).
  rewrite Z.pow_add_r in H2 by lia. rewrite Pos2Z.inj_mul in Hab.
  assert (0 < 2 ^ (da - 1)) by (apply Z.pow_pos_nonneg; lia).
  assert (0 < 2 ^ (db - 1)) by (apply Z.pow_pos_nonneg; lia).
  nia.
Qed.

Lemma mul_Rounded (x y : spec_float) :
  valid_binary prec emax x = true -> valid_binary prec emax y = true ->
  is_finite x = true -> is_finite y = true ->
  Rounded prec emax (B x * B y) (SFmul prec emax x y).
Proof.
  intros Vx Vy Fx Fy.
  destruct x as [sx|sx| |sx mx ex]; try discriminate;
  destruct y as [sy|sy| |sy my ey]; try discriminate; cbn [SFmul].
  - apply Rounded_exact; [reflexivity | reflexivity | cbn [Bval]; ring].
  - apply Rounded_exact; [reflexivity | reflexivity | cbn [Bval]; ring].
  - apply Rounded_exact; [reflexivity | reflexivity | cbn [Bval]; ring].
  - destruct (valid_finite _ _ _ Vx) as (Hcx & _).
    destruct (valid_finite _ _ _ Vy) as (Hcy & _).
    rewrite round_aux_is_round.
    + eapply Rounded_eq; [|apply round_Rounded].
      assert (Hm : (Q2 (Zpos (mx * my)) (ex + ey) == Q2 (Zpos mx) ex * Q2 (Zpos my) ey)%Q).
      { rewrite <- Q2_mult. reflexivity. }
      rewrite !B_finite.
      destruct sx, sy; cbn [xorb cond_Zopp];
        try (change (Z.opp (Zpos (mx * my))) with (- Zpos (mx * my)); rewrite Q2_opp);
        rewrite Hm; ring.
    + pose proof (digits2_pos_mul mx my) as Hd. rewrite fexp_spec in *.
      pose proof (Pos2Z.is_pos (digits2_pos mx)).
      pose proof (Pos2Z.is_pos (digits2_pos my)). lia.
Qed.

(** A datum between two finite data is finite. *)
Lemma finite_between (lo x hi : spec_float) :
  valid_binary prec emax lo = true -> valid_binary prec emax x = true ->
  valid_binary prec emax hi = true ->
  is_finite lo = true -> is_finite hi = true ->
  SFleb lo x = true -> SFleb x hi = true ->
  is_nan x = false /\ is_finite x = true /\ (B lo <= B x <= B hi)%Q.
Proof.
  intros Vlo Vx Vhi Flo Fhi Hlo Hhi.
  assert (Nx : is_nan x = false) by (apply (leb_not_nan_l x hi), Hhi).
  assert (Nlo : is_nan lo = false) by (destruct lo; try reflexivity; discriminate).
  assert (Nhi : is_nan hi = false) by (destruct hi; try reflexivity; discriminate).
  apply (leb_B lo x Vlo Vx Nlo Nx) in Hlo.
  apply (leb_B x hi Vx Vhi Nx Nhi) in Hhi.
  split; [exact Nx|]. split; [|split; assumption].
  destruct x as [s|s| |s m e]; try reflexivity; try discriminate.
  exfalso. pose proof (pow2_pos emax) as Hp.
  destruct s; cbn [Bval] in *.
  - destruct lo as [s'|s'| |s' m' e']; try discriminate; cbn [Bval] in Hlo.
    + lra.
    + destruct (valid_finite s' m' e' Vlo) as (_ & _ & _ & _ & Hlt).
      rewrite Q2_cond_Zopp in Hlo. pose proof (Q2_pos (Zpos m') e' ltac:(lia)).
      destruct s'; lra.
  - destruct hi as [s'|s'| |s' m' e']; try discriminate; cbn [Bval] in Hhi.
    + lra.
    + destruct (valid_finite s' m' e' Vhi) as (_ & _ & _ & _ & Hlt).
      rewrite Q2_cond_Zopp in Hhi. pose proof (Q2_pos (Zpos m') e' ltac:(lia)).
      destruct s'; lra.
Qed.

(** A rounding between two finite data is finite and lies between
    them. *)
Lemma Rounded_between (v : Q) (r lo hi : spec_float) :
  Rounded prec emax v r ->
  valid_binary prec emax lo = true -> valid_binary prec emax hi = true ->
  is_finite lo = true -> is_finite hi = true ->
  (B lo <= v <= B hi)%Q ->
  valid_binary prec emax r = true /\ is_nan r = false /\ is_finite r = true /\
  (B lo <= B r <= B hi)%Q /\ SFleb lo r = true /\ SFleb r hi = true.
Proof.
  intros HR Vlo Vhi Flo Fhi [Hl Hh].
  assert (Nlo : is_nan lo = false) by (destruct lo; try reflexivity; discriminate).
  assert (Nhi : is_nan hi = false) by (destruct hi; try reflexivity; discriminate).
  pose proof (Rounded_upper v r hi HR Vhi Nhi Hh) as Hu.
  pose proof (Rounded_lower v r lo HR Vlo Nlo Hl) as Hd.
  destruct HR as (Vr & Nr & _).
  assert (Hlo : SFleb lo r = true) by (apply leb_B; assumption).
  assert (Hhi : SFleb r hi = true) by (apply leb_B; assumption).
  destruct (finite_between lo r hi Vlo Vr Vhi Flo Fhi Hlo Hhi) as (_ & Fr & _).
  repeat (split; try assumption).
Qed.
End Round.

(** ** The two formats of the program *)

Lemma fmt32 : 0 < F32.prec < F32.emax.
Proof. split; reflexivity. Qed.

Lemma fmt64 : 0 < F64.prec < F64.emax.
Proof. split; reflexivity. Qed.

(** The value of a finite datum does not depend on the format. *)
Lemma Bval_finite (emax emax' : Z) (x : spec_float) :
  is_finite x = true -> Bval emax x = Bval emax' x.
Proof. destruct x; try discriminate; reflexivity. Qed.

(** A finite [float] is a number of the [double] format. *)
Lemma float_repQ_double (x : spec_float) :
  F32.valid x = true -> is_finite x = true -> fmt_repQ F64.prec F64.emax (Bval F64.emax x).
Proof.
  intros V Fx. destruct x as [s|s| |s m e]; try discriminate.
  - apply (repQ_B _ _ fmt64); reflexivity.
  - destruct (valid_finite F32.prec F32.emax fmt32 s m e V) as (_ & _ & [Hm He] & Hm' & Hlt).
    exists (Zpos m), e. split; [|split].
    + split; [|revert He; unfold SpecFloat.emin, F32.prec, F32.emax, F64.prec, F64.emax; lia].
      split; [lia|]. apply Z.le_trans with (2 ^ F32.prec); [lia|].
      apply Z.pow_le_mono_r; unfold F32.prec, F64.prec; lia.
    + apply Qle_trans with (pow2 F32.emax); [apply Qlt_le_weak, Hlt|].
      apply pow2_le. unfold F32.emax, F64.emax. lia.
    + cbn [Bval]. destruct s; cbn [cond_Zopp]; [right | left]; [|reflexivity].
      change (Z.opp (Zpos m)) with (- Zpos m). apply Q2_opp.
Qed.

(** Promotion to [double] is exact. *)
Lemma of_float_exact (x : spec_float) :
  F32.valid x = true -> is_finite x = true ->
  F64.valid (F64.of_float x) = true /\ is_finite (F64.of_float x) = true /\
  (Bval F64.emax (F64.of_float x) == Bval F32.emax x)%Q.
Proof.
  intros V Fx. pose proof (float_repQ_double x V Fx) as Hrep.
  destruct x as [s|s| |s m e]; try discriminate.
  - repeat split; reflexivity.
  - cbn [F64.of_float].
    destruct (round_Rounded _ _ fmt64 s m e) as (Vr & Nr & Hb).
    destruct (Hb _ Hrep) as [H1 H2].
    assert (E : (Bval F64.emax (binary_round F64.prec F64.emax s m e) ==
                 Bval F64.emax (S754_finite s m e))%Q).
    { apply Qle_antisym; [apply H1 | apply H2]; apply Qle_refl. }
    split; [exact Vr|]. split; [|exact E].
    apply (finite_B F64.emax); [exact Nr|]. rewrite E.
    destruct (valid_finite F32.prec F32.emax fmt32 s m e V) as (_ & _ & _ & _ & Hlt).
    assert (pow2 F32.emax <= pow2 F64.emax)%Q by (apply pow2_le; unfold F32.emax, F64.emax; lia).
    pose proof (Q2_pos (Zpos m) e ltac:(lia)).
    rewrite B_finite. destruct s; split; lra.
Qed.

(** Conversion of a finite [double] to [float] rounds. *)
Lemma of_double_Rounded (x : spec_float) :
  is_finite x = true ->
  Rounded F32.prec F32.emax (Bval F64.emax x) (F32.of_double x).
Proof.
  intros Fx. destruct x as [s|s| |s m e]; try discriminate.
  - apply Rounded_exact; reflexivity.
  - cbn [F32.of_double Bval]. apply (round_Rounded _ _ fmt32).
Qed.

Ltac qle := apply Qle_bool_iff; vm_compute; reflexivity.
Ltac qlt := apply Qlt_alt; vm_compute; reflexivity.

Lemma pow2_128_big : (4 < pow2 F32.emax)%Q.
Proof. qlt. Qed.

(** ** Roundings against a grid *)

(** The numbers [n * 2^g] with [|n| <= 2^24] belong to the format. *)
Lemma grid_repQ (n g : Z) :
  - 2 ^ 24 <= n <= 2 ^ 24 -> - 149 <= g <= 104 ->
  fmt_repQ F32.prec F32.emax (Q2 n g).
Proof.
  intros Hn Hg. exists (Z.abs n), g. split; [|split].
  - split; [change F32.prec with 24; lia|]. change (SpecFloat.emin F32.prec F32.emax) with (-149). lia.
  - apply Qle_trans with (Q2 (2 ^ 24) g); [apply Q2_le; lia|].
    rewrite Q2_pow by lia. apply pow2_le. change F32.emax with 128. lia.
  - destruct (Z_le_gt_dec 0 n) as [H|H].
    + left. rewrite Z.abs_eq by lia. reflexivity.
    + right. rewrite <- Q2_opp. replace (- Z.abs n) with n by lia. reflexivity.
Qed.

Lemma Rounded_grid (v : Q) (r : f32) (n g : Z) :
  Rounded F32.prec F32.emax v r ->
  - 2 ^ 24 <= n <= 2 ^ 24 -> - 149 <= g <= 104 ->
  ((v <= Q2 n g)%Q -> (B32 r <= Q2 n g)%Q) /\ ((Q2 n g <= v)%Q -> (Q2 n g <= B32 r)%Q).
Proof.
  intros (_ & _ & H) Hn Hg. apply (H _ (grid_repQ n g Hn Hg)).
Qed.

Lemma within_finite (r : f32) (M : Q) :
  F32.valid r = true -> is_nan r = false ->
  (- M <= B32 r <= M)%Q -> (M < pow2 F32.emax)%Q -> within M r.
Proof.
  intros V Nn Hb HM. split; [exact V|]. split; [|exact Hb].
  apply (finite_B F32.emax); [exact Nn|]. fold (B32 r). lra.
Qed.

(** A rounding of a value up to [n], an integer, is up to [n]. *)
Lemma Rounded_within (v : Q) (r : f32) (n : Z) :
  Rounded F32.prec F32.emax v r -> 0 <= n <= 2 ^ 24 ->
  (- inject_Z n <= v <= inject_Z n)%Q -> within (inject_Z n) r.
Proof.
  intros HR Hn [Hl Hu].
  assert (E : forall k, (Q2 k 0 == inject_Z k)%Q).
  { intros k. unfold Q2. change (pow2 0) with 1%Q. ring. }
  destruct (Rounded_grid v r n 0 HR ltac:(lia) ltac:(lia)) as [H1 _].
  destruct (Rounded_grid v r (- n) 0 HR ltac:(lia) ltac:(lia)) as [_ H2].
  rewrite E in H1. rewrite E, inject_Z_opp in H2.
  destruct HR as (V & Nn & _).
  apply within_finite; [exact V | exact Nn | split; [apply H2, Hl | apply H1, Hu] |].
  apply Qle_lt_trans with (inject_Z (2 ^ 24)).
  - rewrite <- Zle_Qle. lia.
  - apply Qlt_alt. vm_compute. reflexivity.
Qed.

(** A rounding of a value up to 4 is off by at most [eps]. *)
Lemma Rounded_near (v : Q) (r : f32) :
  Rounded F32.prec F32.emax v r -> (- (4) <= v <= 4)%Q ->
  F32.valid r = true /\ is_finite r = true /\ (v - eps <= B32 r <= v + eps)%Q.
Proof.
  intros HR [Hl Hu].
  assert (E : forall k, (Q2 k (-22) == inject_Z k * eps)%Q).
  { intros k. unfold Q2. assert (pow2 (-22) == eps)%Q by (vm_compute; reflexivity).
    rewrite H. reflexivity. }
  set (x := (v * inject_Z (2 ^ 22))%Q).
  assert (Hx : (v == x * eps)%Q).
  { unfold x, eps. change (inject_Z (2 ^ 22)) with (4194304 # 1). field. }
  assert (Hxl : (inject_Z (- 2 ^ 24) <= x)%Q).
  { unfold x. change (inject_Z (- 2 ^ 24)) with (- (4) * inject_Z (2 ^ 22))%Q.
    apply Qmult_le_compat_r; [exact Hl | discriminate]. }
  assert (Hxu : (x <= inject_Z (2 ^ 24))%Q).
  { unfold x. change (inject_Z (2 ^ 24)) with (4 * inject_Z (2 ^ 22))%Q.
    apply Qmult_le_compat_r; [exact Hu | discriminate]. }
  assert (He : (0 < eps)%Q) by reflexivity.
  (* the grid point above *)
  pose proof (Qle_ceiling x) as Hc1. pose proof (Qceiling_lt x) as Hc2.
  assert (Hcu : Qceiling x <= 2 ^ 24).
  { rewrite <- (Qceiling_Z (2 ^ 24)). apply Qceiling_resp_le, Hxu. }
  assert (Hcl : - 2 ^ 24 <= Qceiling x).
  { rewrite <- (Qceiling_Z (- 2 ^ 24)). apply Qceiling_resp_le, Hxl. }
  pose proof (Qfloor_le x) as Hf1. pose proof (Qlt_floor x) as Hf2.
  assert (Hfu : Qfloor x <= 2 ^ 24).
  { rewrite <- (Qfloor_Z (2 ^ 24)). apply Qfloor_resp_le, Hxu. }
  assert (Hfl : - 2 ^ 24 <= Qfloor x).
  { rewrite <- (Qfloor_Z (- 2 ^ 24)). apply Qfloor_resp_le, Hxl. }
  destruct (Rounded_grid v r (Qceiling x) (-22) HR ltac:(lia) ltac:(lia)) as [H1 _].
  destruct (Rounded_grid v r (Qfloor x) (-22) HR ltac:(lia) ltac:(lia)) as [_ H2].
  rewrite E in H1, H2.
  rewrite inject_Z_plus in Hf2. unfold Z.sub in Hc2. rewrite inject_Z_plus, inject_Z_opp in Hc2.
  change (inject_Z 1) with 1%Q in Hf2, Hc2.
  set (c := inject_Z (Qceiling x)) in *. set (f := inject_Z (Qfloor x)) in *.
  assert (Hup : (B32 r <= c * eps)%Q).
  { apply H1. rewrite Hx. apply Qmult_le_compat_r; [exact Hc1 | discriminate]. }
  assert (Hdn : (f * eps <= B32 r)%Q).
  { apply H2. rewrite Hx. apply Qmult_le_compat_r; [exact Hf1 | discriminate]. }
  assert (Hc3 : (c * eps <= x * eps + eps)%Q).
  { setoid_replace (x * eps + eps)%Q with ((x + 1) * eps)%Q by ring.
    apply Qmult_le_compat_r; [lra | discriminate]. }
  assert (Hf3 : (x * eps - eps <= f * eps)%Q).
  { setoid_replace (x * eps - eps)%Q with ((x - 1) * eps)%Q by ring.
    apply Qmult_le_compat_r; [lra | discriminate]. }
  assert (Hb : (v - eps <= B32 r <= v + eps)%Q).
  { clearbody x c f. clear - Hx Hup Hdn Hc3 Hf3. split; lra. }
  destruct HR as (V & Nn & _). split; [exact V|]. split; [|exact Hb].
  apply (finite_B F32.emax); [exact Nn|]. fold (B32 r).
  assert (Hbig : (8 < pow2 F32.emax)%Q) by qlt. clear - Hb Hl Hu Hbig. unfold eps in *.
  split; lra.
Qed.

(** Products against a bound. *)
Lemma Qmult_bound (x y M : Q) :
  (- M <= x <= M)%Q -> (0 <= y)%Q -> (- (M * y) <= x * y <= M * y)%Q.
Proof.
  intros [H1 H2] Hy. split.
  - setoid_replace (- (M * y))%Q with ((- M) * y)%Q by ring.
    apply Qmult_le_compat_r; assumption.
  - apply Qmult_le_compat_r; assumption.
Qed.

(** ** The reverb stays bounded *)

Lemma add32 (x y : f32) :
  F32.valid x = true -> F32.valid y = true -> is_finite x = true -> is_finite y = true ->
  Rounded F32.prec F32.emax (B32 x + B32 y) (F32.add x y).
Proof. exact (add_Rounded _ _ fmt32 x y). Qed.

Lemma sub32 (x y : f32) :
  F32.valid x = true -> F32.valid y = true -> is_finite x = true -> is_finite y = true ->
  Rounded F32.prec F32.emax (B32 x - B32 y) (F32.sub x y).
Proof. exact (sub_Rounded _ _ fmt32 x y). Qed.

Lemma mul32 (x y : f32) :
  F32.valid x = true -> F32.valid y = true -> is_finite x = true -> is_finite y = true ->
  Rounded F32.prec F32.emax (B32 x * B32 y) (F32.mul x y).
Proof. exact (mul_Rounded _ _ fmt32 x y). Qed.

Lemma Rounded_nonneg (v : Q) (r : f32) :
  Rounded F32.prec F32.emax v r -> (0 <= v)%Q -> (0 <= B32 r)%Q.
Proof.
  intros HR Hv. destruct (Rounded_grid v r 0 0 HR ltac:(lia) ltac:(lia)) as [_ H].
  rewrite Q2_0 in H. apply H, Hv.
Qed.

Lemma within_zero (M : Q) : (0 <= M)%Q -> within M F32.zero.
Proof.
  intros H. split; [reflexivity|]. split; [reflexivity|].
  change (B32 F32.zero) with 0%Q. split; lra.
Qed.

Lemma within_le (M M' : Q) (v : f32) : within M v -> (M <= M')%Q -> within M' v.
Proof. intros (V & F & H) HM. split; [exact V|]. split; [exact F|]. split; lra. Qed.

Lemma Forall_nth_default {A : Type} (P : A -> Prop) (l : list A) (i : nat) (d : A) :
  Forall P l -> P d -> P (nth i l d).
Proof.
  intros Hl Hd. revert i. induction Hl as [|a r Ha Hr IH]; intros [|i]; cbn [nth]; auto.
Qed.

Lemma Forall_store {A : Type} (P : A -> Prop) (l : list A) (i : nat) (x : A) :
  Forall P l -> P x -> Forall P (store l i x).
Proof.
  intros Hl Hx. revert i. induction Hl as [|a r Ha Hr IH]; intros [|i]; cbn [store];
    constructor; auto.
Qed.

Lemma unit_range_B (v : f32) :
  unit_range v -> F32.valid v = true /\ is_finite v = true /\ (0 <= B32 v <= 1)%Q.
Proof.
  intros (V & H0 & H1).
  destruct (finite_between _ _ fmt32 F32.zero v F32.one) as (_ & F & H);
    try reflexivity; try assumption.
  split; [exact V|]. split; [exact F|].
  assert (E1 : (Bval F32.emax F32.one == 1)%Q) by (vm_compute; reflexivity).
  change (Bval F32.emax F32.zero) with 0%Q in H. rewrite E1 in H. exact H.
Qed.

Lemma sample_range_B (v : f32) :
  sample_range v -> F32.valid v = true /\ is_finite v = true /\ (- (1) <= B32 v <= 1)%Q.
Proof.
  intros (V & H0 & H1).
  destruct (finite_between _ _ fmt32 (F32.of_int (-1)) v F32.one) as (_ & F & H);
    try reflexivity; try assumption.
  split; [exact V|]. split; [exact F|].
  assert (E1 : (Bval F32.emax F32.one == 1)%Q) by (vm_compute; reflexivity).
  assert (E2 : (Bval F32.emax (F32.of_int (-1)) == - (1))%Q) by (vm_compute; reflexivity).
  rewrite E1, E2 in H. exact H.
Qed.

(** One comb filter: with the scaled input within 0.0301, the feedback
    up to 0.9801 and the damping up to 0.401, the delay line and the
    low-pass state keep their bounds. *)
Lemma Comb_process_bounded (c : Freeverb.Comb) (x g d : f32) :
  Comb_inv c -> within (301 # 10000) x ->
  F32.valid g = true -> is_finite g = true -> (0 <= B32 g <= 9801 # 10000)%Q ->
  F32.valid d = true -> is_finite d = true -> (0 <= B32 d <= 401 # 1000)%Q ->
  within 2 (fst (Freeverb.Comb_process c x g d)) /\
  Comb_inv (snd (Freeverb.Comb_process c x g d)).
Proof.
  intros [Hbuf (Vp & Fp & Hp)] (Vx & Fx & Hx) Vg Fg Hg Vd Fd Hd.
  unfold Freeverb.Comb_process. cbn [fst snd].
  set (o := nth (Freeverb.comb_position c) (Freeverb.comb_buffer c) F32.zero).
  assert (Ho : within 2 o) by (apply Forall_nth_default; [exact Hbuf | apply within_zero; lra]).
  destruct Ho as (Vo & Fo & Ho).
  set (p := Freeverb.comb_previous c) in *.
  assert (Hone : (B32 F32.one == 1)%Q) by (vm_compute; reflexivity).
  (* 1.f - damp *)
  destruct (Rounded_near _ _ (sub32 F32.one d eq_refl Vd eq_refl Fd)) as (Va & Fa & Ha).
  { rewrite Hone. split; lra. }
  rewrite Hone in Ha. set (a := F32.sub F32.one d) in *.
  (* output * (1.f - damp) *)
  assert (Ha0 : (0 <= B32 a)%Q) by (unfold eps in Ha; lra).
  pose proof (Qmult_bound (B32 o) (B32 a) 2 Ho Ha0) as Hoa.
  destruct (Rounded_near _ _ (mul32 o a Vo Va Fo Fa)) as (V1 & F1 & H1).
  { unfold eps in *. split; lra. }
  set (t1 := F32.mul o a) in *.
  (* previous * damp *)
  pose proof (Qmult_bound (B32 p) (B32 d) _ Hp (proj1 Hd)) as Hpd.
  destruct (Rounded_near _ _ (mul32 p d Vp Vd Fp Fd)) as (V2 & F2 & H2).
  { unfold eps in *. split; lra. }
  set (t2 := F32.mul p d) in *.
  (* filtered *)
  destruct (Rounded_near _ _ (add32 t1 t2 V1 V2 F1 F2)) as (Vf & Ff & Hf).
  { unfold eps in *. split; lra. }
  set (f := F32.add t1 t2) in *.
  assert (Hfb : (- (2 + (1 # 262144)) <= B32 f <= 2 + (1 # 262144))%Q).
  { unfold eps in *. split; lra. }
  (* filtered * feedback *)
  pose proof (Qmult_bound (B32 f) (B32 g) _ Hfb (proj1 Hg)) as Hfg.
  destruct (Rounded_near _ _ (mul32 f g Vf Vg Ff Fg)) as (Vu & Fu & Hu).
  { unfold eps in *. split; lra. }
  set (u := F32.mul f g) in *.
  (* input + filtered * feedback *)
  assert (Hb : within 2 (F32.add x u)).
  { apply (Rounded_within _ _ 2 (add32 x u Vx Vu Fx Fu)); [lia|].
    change (inject_Z 2) with 2%Q. unfold eps in *. split; lra. }
  split; [split; [exact Vo | split; [exact Fo | exact Ho]]|].
  split; cbn [Freeverb.comb_buffer Freeverb.comb_previous].
  - apply Forall_store; assumption.
  - split; [exact Vf | split; [exact Ff | exact Hfb]].
Qed.

(** The comb filters in parallel: each adds at most 2 to the sum. *)
Lemma combs_process_bounded (cs : list Freeverb.Comb) (x g d : f32) :
  within (301 # 10000) x ->
  F32.valid g = true -> is_finite g = true -> (0 <= B32 g <= 9801 # 10000)%Q ->
  F32.valid d = true -> is_finite d = true -> (0 <= B32 d <= 401 # 1000)%Q ->
  forall (R : Z) (res : f32),
    0 <= R -> R + 2 * Z.of_nat (List.length cs) <= 2 ^ 24 ->
    Forall Comb_inv cs -> within (inject_Z R) res ->
    within (inject_Z (R + 2 * Z.of_nat (List.length cs)))
      (fst (Freeverb.combs_process cs x g d res)) /\
    Forall Comb_inv (snd (Freeverb.combs_process cs x g d res)) /\
    List.length (snd (Freeverb.combs_process cs x g d res)) = List.length cs.
Proof.
  intros Hx Vg Fg Hg Vd Fd Hd.
  induction cs as [|c r IH]; intros R res HR Hlen Hcs Hres.
  - cbn [Freeverb.combs_process fst snd List.length]. rewrite Z.add_0_r.
    split; [exact Hres|]. split; [constructor | reflexivity].
  - inversion Hcs as [|c' r' Hc Hr]; subst c' r'.
    cbn [List.length] in Hlen |- *. rewrite Nat2Z.inj_succ in Hlen |- *.
    cbn [Freeverb.combs_process].
    destruct (Comb_process_bounded c x g d Hc Hx Vg Fg Hg Vd Fd Hd) as [Ho Hc'].
    destruct (Freeverb.Comb_process c x g d) as [o c'] eqn:Ec. cbn [fst snd] in Ho, Hc'.
    assert (Hsum : within (inject_Z (R + 2)) (F32.add res o)).
    { destruct Hres as (Vr & Fr & Hr'). destruct Ho as (Vo & Fo & Ho).
      apply (Rounded_within _ _ (R + 2) (add32 res o Vr Vo Fr Fo)); [lia|].
      rewrite inject_Z_plus. change (inject_Z 2) with 2%Q. split; lra. }
    specialize (IH (R + 2) (F32.add res o) ltac:(lia) ltac:(lia) Hr Hsum).
    destruct (Freeverb.combs_process r x g d (F32.add res o)) as [res' r''] eqn:Er.
    cbn [fst snd] in IH |- *. destruct IH as (H1 & H2 & H3).
    split; [|split].
    + replace (R + 2 * Z.succ (Z.of_nat (List.length r)))
        with (R + 2 + 2 * Z.of_nat (List.length r)) by lia. exact H1.
    + constructor; assumption.
    + cbn [List.length]. rewrite H3. reflexivity.
Qed.

(** One all-pass filter: with the input within [I] and the delay line
    within [2 I], the output is within [3 I] and the delay line stays
    within [2 I]. *)
Lemma AllPass_process_bounded (a : Freeverb.AllPass) (x : f32) (I : Z) :
  0 <= I -> 3 * I <= 2 ^ 24 ->
  Forall (within (inject_Z (2 * I))) (Freeverb.allpass_buffer a) ->
  within (inject_Z I) x ->
  within (inject_Z (3 * I)) (fst (Freeverb.AllPass_process a x)) /\
  Forall (within (inject_Z (2 * I))) (Freeverb.allpass_buffer (snd (Freeverb.AllPass_process a x))).
Proof.
  intros HI HI3 Hbuf (Vx & Fx & Hx).
  unfold Freeverb.AllPass_process. cbn [fst snd Freeverb.allpass_buffer].
  set (o := nth (Freeverb.allpass_position a) (Freeverb.allpass_buffer a) F32.zero).
  assert (Ho : within (inject_Z (2 * I)) o).
  { apply Forall_nth_default; [exact Hbuf | apply within_zero].
    change 0%Q with (inject_Z 0). rewrite <- Zle_Qle. lia. }
  destruct Ho as (Vo & Fo & Ho).
  assert (Hi : (0 <= inject_Z I)%Q) by (change 0%Q with (inject_Z 0); rewrite <- Zle_Qle; lia).
  rewrite inject_Z_mult in Ho. change (inject_Z 2) with 2%Q in Ho.
  assert (Hhalf : (B32 (F32.dec 5 10) == 1 # 2)%Q) by (vm_compute; reflexivity).
  split.
  - apply (Rounded_within _ _ (3 * I) (sub32 o x Vo Vx Fo Fx)); [lia|].
    rewrite inject_Z_mult. change (inject_Z 3) with 3%Q. split; lra.
  - apply Forall_store; [exact Hbuf|].
    assert (Hh : within (inject_Z I) (F32.mul o (F32.dec 5 10))).
    { apply (Rounded_within _ _ I (mul32 o (F32.dec 5 10) Vo eq_refl Fo eq_refl)); [lia|].
      rewrite Hhalf. split; lra. }
    destruct Hh as (Vh & Fh & Hh).
    apply (Rounded_within _ _ (2 * I) (add32 x _ Vx Vh Fx Fh)); [lia|].
    rewrite inject_Z_mult. change (inject_Z 2) with 2%Q. split; lra.
Qed.

(** The all-pass filters in series: each triples the bound. *)
Lemma all_passes_process_bounded (l : list Freeverb.AllPass) :
  forall (I : Z) (x : f32),
    0 <= I -> 3 ^ Z.of_nat (List.length l) * I <= 2 ^ 24 ->
    AllPasses_inv I l -> within (inject_Z I) x ->
    within (inject_Z (3 ^ Z.of_nat (List.length l) * I))
      (fst (Freeverb.all_passes_process l x)) /\
    AllPasses_inv I (snd (Freeverb.all_passes_process l x)) /\
    List.length (snd (Freeverb.all_passes_process l x)) = List.length l.
Proof.
  induction l as [|a r IH]; intros I x HI Hlen Hinv Hx.
  - cbn [Freeverb.all_passes_process fst snd List.length]. change (3 ^ Z.of_nat 0) with 1.
    rewrite Z.mul_1_l. split; [exact Hx|]. split; [exact Logic.I | reflexivity].
  - destruct Hinv as [Hbuf Hr].
    cbn [List.length] in Hlen |- *. rewrite Nat2Z.inj_succ, Z.pow_succ_r in Hlen |- * by lia.
    assert (Hpow : 1 <= 3 ^ Z.of_nat (List.length r)).
    { pose proof (Z.pow_pos_nonneg 3 (Z.of_nat (List.length r)) ltac:(lia) ltac:(lia)). lia. }
    assert (HI3 : 3 * I <= 2 ^ 24) by nia.
    cbn [Freeverb.all_passes_process].
    destruct (AllPass_process_bounded a x I HI HI3 Hbuf Hx) as [Ho Hbuf'].
    destruct (Freeverb.AllPass_process a x) as [o a'] eqn:Ea. cbn [fst snd] in Ho, Hbuf'.
    specialize (IH (3 * I) o ltac:(lia) ltac:(lia) Hr Ho).
    destruct (Freeverb.all_passes_process r o) as [res r'] eqn:Er.
    cbn [fst snd] in IH |- *. destruct IH as (H1 & H2 & H3).
    split; [|split].
    + replace (3 * 3 ^ Z.of_nat (List.length r) * I)
        with (3 ^ Z.of_nat (List.length r) * (3 * I)) by lia. exact H1.
    + split; assumption.
    + cbn [List.length]. rewrite H3. reflexivity.
Qed.

(** One channel: its output stays within 16 * 81 = 1296. *)
Lemma Channel_process_bounded (ch : Freeverb.Channel) (x g d : f32) :
  Channel_inv ch -> within (301 # 10000) x ->
  F32.valid g = true -> is_finite g = true -> (0 <= B32 g <= 9801 # 10000)%Q ->
  F32.valid d = true -> is_finite d = true -> (0 <= B32 d <= 401 # 1000)%Q ->
  within 1296 (fst (Freeverb.Channel_process ch x g d)) /\
  Channel_inv (snd (Freeverb.Channel_process ch x g d)).
Proof.
  intros (Hcs & Lcs & Hap & Lap) Hx Vg Fg Hg Vd Fd Hd.
  unfold Freeverb.Channel_process.
  destruct (combs_process_bounded (Freeverb.combs ch) x g d Hx Vg Fg Hg Vd Fd Hd 0 F32.zero)
    as (H1 & H2 & H3); try assumption.
  - lia.
  - rewrite Lcs. vm_compute. discriminate.
  - apply within_zero. apply Qle_refl.
  - rewrite Lcs in H1. change (inject_Z (0 + 2 * Z.of_nat 8)) with (inject_Z 16) in H1.
    destruct (Freeverb.combs_process (Freeverb.combs ch) x g d F32.zero) as [res cs'] eqn:Ec.
    cbn [fst snd] in H1, H2, H3.
    destruct (all_passes_process_bounded (Freeverb.all_passes ch) 16 res)
      as (H4 & H5 & H6); try assumption.
    + lia.
    + rewrite Lap. vm_compute. discriminate.
    + rewrite Lap in H4. change (inject_Z (3 ^ Z.of_nat 4 * 16)) with 1296%Q in H4.
      destruct (Freeverb.all_passes_process (Freeverb.all_passes ch) res) as [out aps'] eqn:Ea.
      cbn [fst snd] in H4, H5, H6 |- *.
      split; [exact H4|]. unfold Channel_inv. cbn [Freeverb.combs Freeverb.all_passes].
      split; [exact H2|]. split; [rewrite H3; exact Lcs|].
      split; [exact H5 | rewrite H6; exact Lap].
Qed.

Lemma mul_within (n m : Z) (x y : f32) :
  0 <= n -> 0 <= m -> n * m <= 2 ^ 24 ->
  within (inject_Z n) x -> upto m y -> within (inject_Z (n * m)) (F32.mul x y).
Proof.
  intros Hn Hm Hnm (Vx & Fx & Hx) (Vy & Fy & Hy).
  apply (Rounded_within _ _ (n * m) (mul32 x y Vx Vy Fx Fy)); [lia|].
  pose proof (Qmult_bound _ _ _ Hx (proj1 Hy)) as Hxy.
  assert (Hi : (0 <= inject_Z n)%Q) by (change 0%Q with (inject_Z 0); rewrite <- Zle_Qle; lia).
  assert (Hle : (inject_Z n * B32 y <= inject_Z n * inject_Z m)%Q).
  { rewrite !(Qmult_comm (inject_Z n)). apply Qmult_le_compat_r; [apply Hy | exact Hi]. }
  rewrite inject_Z_mult. split; lra.
Qed.

Lemma add_within (n m : Z) (x y : f32) :
  0 <= n -> 0 <= m -> n + m <= 2 ^ 24 ->
  within (inject_Z n) x -> within (inject_Z m) y -> within (inject_Z (n + m)) (F32.add x y).
Proof.
  intros Hn Hm Hnm (Vx & Fx & Hx) (Vy & Fy & Hy).
  apply (Rounded_within _ _ (n + m) (add32 x y Vx Vy Fx Fy)); [lia|].
  rewrite inject_Z_plus. split; lra.
Qed.

(** A parameter scaled by a constant [k] stays between 0 and [k]. *)
Lemma scaled_upto (k : Z) (v c : f32) :
  0 <= k <= 2 ^ 24 -> unit_range v ->
  F32.valid c = true -> is_finite c = true -> (0 <= B32 c <= inject_Z k)%Q ->
  upto k (F32.mul v c).
Proof.
  intros Hk Hv Vc Fc Hc. destruct (unit_range_B v Hv) as (Vv & Fv & Hvb).
  pose proof (mul32 v c Vv Vc Fv Fc) as HR.
  pose proof (Qmult_unit_bounds (B32 v) (B32 c) Hvb (proj1 Hc)) as Hp.
  destruct (Rounded_within _ _ k HR Hk) as (V & F & Hb); [split; lra|].
  split; [exact V|]. split; [exact F|].
  split; [apply (Rounded_nonneg _ _ HR); lra | apply Hb].
Qed.

Lemma repeat_zero_bounded (M : Q) (N : nat) : (0 <= M)%Q -> Forall (within M) (repeat F32.zero N).
Proof.
  intros H. apply Forall_forall. intros x Hx. apply repeat_spec in Hx. subst x.
  apply within_zero, H.
Qed.

Lemma Comb_new_inv (N : nat) : Comb_inv (Freeverb.Comb_new N).
Proof.
  split; cbn [Freeverb.Comb_new Freeverb.comb_buffer Freeverb.comb_previous].
  - apply repeat_zero_bounded. lra.
  - apply within_zero. lra.
Qed.

Lemma Channel_new_inv (S : nat) : Channel_inv (Freeverb.Channel_new S).
Proof.
  unfold Channel_inv, Freeverb.Channel_new. cbn [Freeverb.combs Freeverb.all_passes].
  split; [|split; [reflexivity|split; [|reflexivity]]].
  - apply Forall_forall. intros c Hc. apply in_map_iff in Hc as (n & <- & _).
    apply Comb_new_inv.
  - cbn [map AllPasses_inv Freeverb.AllPass_new Freeverb.allpass_buffer].
    repeat split; apply repeat_zero_bounded; discriminate.
Qed.

Lemma Freeverb_init_inv : Freeverb_inv Freeverb.init.
Proof. split; apply Channel_new_inv. Qed.

(** One call of [process]: with the input in [-1, 1] and the parameters
    in [0, 1], both channels of the result are within 7778 and the
    filters keep their bounds. *)
Lemma Freeverb_process_bounded (r : Freeverb.state) (c : FreeverbCall) :
  Freeverb_inv r -> Freeverb_in_range c ->
  (within 7778 (left (fst (Freeverb.process r (fv_input c) (fv_room_size c) (fv_damp c)
                                (fv_wet c) (fv_dry c) (fv_width c)))) /\
   within 7778 (right (fst (Freeverb.process r (fv_input c) (fv_room_size c) (fv_damp c)
                                 (fv_wet c) (fv_dry c) (fv_width c))))) /\
  Freeverb_inv (snd (Freeverb.process r (fv_input c) (fv_room_size c) (fv_damp c)
                       (fv_wet c) (fv_dry c) (fv_width c))).
Proof.
  intros [Hc1 Hc2] (Hin & Hroom & Hdamp & Hwet & Hdry & Hwidth).
  destruct c as [input room damp wet dry width]. cbn [fv_input fv_room_size fv_damp fv_wet fv_dry fv_width] in *.
  destruct (sample_range_B input Hin) as (Vi & Fi & Hi).
  destruct (unit_range_B room Hroom) as (Vr & Fr & Hr).
  destruct (unit_range_B damp Hdamp) as (Vd & Fd & Hd).
  unfold Freeverb.process.
  (* input * .03f *)
  assert (Hx : within (301 # 10000) (F32.mul input (F32.dec 3 100))).
  { assert (Hk : (0 <= B32 (F32.dec 3 100) <= 3 # 100)%Q) by (split; qle).
    pose proof (Qmult_bound _ _ _ Hi (proj1 Hk)) as Hp.
    destruct (Rounded_near _ _ (mul32 input (F32.dec 3 100) Vi eq_refl Fi eq_refl))
      as (V & F & H); [split; lra|].
    split; [exact V|]. split; [exact F|]. unfold eps in *. split; lra. }
  set (x := F32.mul input (F32.dec 3 100)) in *.
  (* room_size * .28f + .7f *)
  assert (Hg : F32.valid (Freeverb.feedback room) = true /\
               is_finite (Freeverb.feedback room) = true /\
               (0 <= B32 (Freeverb.feedback room) <= 9801 # 10000)%Q).
  { unfold Freeverb.feedback.
    assert (Ha : (0 <= B32 (F32.dec 28 100) <= 28001 # 100000)%Q) by (split; qle).
    assert (Hb : (69 # 100 <= B32 (F32.dec 7 10) <= 70001 # 100000)%Q) by (split; qle).
    pose proof (Qmult_unit_bounds _ _ Hr (proj1 Ha)) as Hp.
    destruct (Rounded_near _ _ (mul32 room (F32.dec 28 100) Vr eq_refl Fr eq_refl))
      as (Vp & Fp & Hpb); [split; lra|].
    destruct (Rounded_near _ _ (add32 _ (F32.dec 7 10) Vp eq_refl Fp eq_refl))
      as (V & F & H); [unfold eps in *; split; lra|].
    split; [exact V|]. split; [exact F|]. unfold eps in *. split; lra. }
  destruct Hg as (Vg & Fg & Hg). set (g := Freeverb.feedback room) in *.
  (* damp * .4f *)
  assert (Hdd : F32.valid (F32.mul damp (F32.dec 4 10)) = true /\
                is_finite (F32.mul damp (F32.dec 4 10)) = true /\
                (0 <= B32 (F32.mul damp (F32.dec 4 10)) <= 401 # 1000)%Q).
  { assert (Hk : (0 <= B32 (F32.dec 4 10) <= 4001 # 10000)%Q) by (split; qle).
    pose proof (Qmult_unit_bounds _ _ Hd (proj1 Hk)) as Hp.
    pose proof (mul32 damp (F32.dec 4 10) Vd eq_refl Fd eq_refl) as HR.
    destruct (Rounded_near _ _ HR) as (V & F & H); [split; lra|].
    split; [exact V|]. split; [exact F|].
    split; [apply (Rounded_nonneg _ _ HR); lra | unfold eps in *; lra]. }
  destruct Hdd as (Vdd & Fdd & Hdd). set (d := F32.mul damp (F32.dec 4 10)) in *.
  (* the two channels *)
  destruct (Channel_process_bounded _ x g d Hc1 Hx Vg Fg Hg Vdd Fdd Hdd) as [Ho1 Hc1'].
  destruct (Channel_process_bounded _ x g d Hc2 Hx Vg Fg Hg Vdd Fdd Hdd) as [Ho2 Hc2'].
  destruct (Freeverb.Channel_process (Freeverb.channel1 r) x g d) as [o1 c1] eqn:E1.
  destruct (Freeverb.Channel_process (Freeverb.channel2 r) x g d) as [o2 c2] eqn:E2.
  cbn [fst snd] in *.
  split; [|split; assumption].
  (* the mix *)
  assert (Hw3 : upto 3 (F32.mul wet (F32.of_int 3))).
  { apply scaled_upto; [lia | exact Hwet | reflexivity | reflexivity | split; qle]. }
  assert (Hd2 : upto 2 (F32.mul dry (F32.of_int 2))).
  { apply scaled_upto; [lia | exact Hdry | reflexivity | reflexivity | split; qle]. }
  assert (Hw5 : upto 1 (F32.mul width (F32.dec 5 10)) /\
                (B32 (F32.mul width (F32.dec 5 10)) <= 1 # 2)%Q).
  { split; [apply scaled_upto; [lia | exact Hwidth | reflexivity | reflexivity | split; qle]|].
    destruct (unit_range_B width Hwidth) as (Vw & Fw & Hw).
    assert (Hhalf : (B32 (F32.dec 5 10) == 1 # 2)%Q) by (vm_compute; reflexivity).
    rewrite <- Hhalf.
    apply (Rounded_upper _ _ fmt32 _ _ (F32.dec 5 10)
             (mul32 width (F32.dec 5 10) Vw eq_refl Fw eq_refl)); try reflexivity.
    fold (B32 (F32.dec 5 10)). rewrite Hhalf. lra. }
  destruct Hw5 as [(Vw5 & Fw5 & Hw5) Hw5'].
  set (w5 := F32.mul width (F32.dec 5 10)) in *.
  assert (Hhalf : (B32 (F32.dec 5 10) == 1 # 2)%Q) by (vm_compute; reflexivity).
  assert (Hs1 : upto 1 (F32.add (F32.dec 5 10) w5)).
  { pose proof (add32 (F32.dec 5 10) w5 eq_refl Vw5 eq_refl Fw5) as HR.
    destruct (Rounded_within _ _ 1 HR) as (V & F & H);
      [lia | change (inject_Z 1) with 1%Q in *; rewrite Hhalf; split; lra |].
    split; [exact V|]. split; [exact F|].
    split; [apply (Rounded_nonneg _ _ HR); rewrite Hhalf; lra | apply H]. }
  assert (Hs2 : upto 1 (F32.sub (F32.dec 5 10) w5)).
  { pose proof (sub32 (F32.dec 5 10) w5 eq_refl Vw5 eq_refl Fw5) as HR.
    destruct (Rounded_within _ _ 1 HR) as (V & F & H);
      [lia | change (inject_Z 1) with 1%Q in *; rewrite Hhalf; split; lra |].
    split; [exact V|]. split; [exact F|].
    split; [apply (Rounded_nonneg _ _ HR); rewrite Hhalf; lra | apply H]. }
  set (s1 := F32.add (F32.dec 5 10) w5) in *. set (s2 := F32.sub (F32.dec 5 10) w5) in *.
  assert (Hi1 : within (inject_Z 1) input) by (split; [exact Vi | split; [exact Fi | exact Hi]]).
  assert (Hdry' : within (inject_Z (1 * 2)) (F32.mul input (F32.mul dry (F32.of_int 2)))).
  { apply mul_within; try assumption; lia. }
  unfold Width.process, SampleOps.add, SampleOps.scale, SampleOps.of_float.
  cbn [left right].
  assert (mix : forall a b, within 1296 a -> within 1296 b ->
            within 7778 (F32.add (F32.mul (F32.add (F32.mul a s1) (F32.mul b s2))
                                     (F32.mul wet (F32.of_int 3)))
                            (F32.mul input (F32.mul dry (F32.of_int 2))))).
  { intros a b Ha Hb.
    apply (add_within ((1296 * 1 + 1296 * 1) * 3) (1 * 2)); try lia; [|exact Hdry'].
    apply mul_within; try lia; [|exact Hw3].
    apply add_within; try lia; apply mul_within; try lia; assumption. }
  split; apply mix; assumption.
Qed.

(** However long the reverb runs on inputs in range, every sample it
    answers is within 7778. *)
Lemma Freeverb_run_bounded (calls : list FreeverbCall) :
  forall r, Freeverb_inv r -> Forall Freeverb_in_range calls ->
    Forall (fun s => within 7778 (left s) /\ within 7778 (right s))
      (fst (Freeverb_run r calls)).
Proof.
  induction calls as [|c rest IH]; intros r Hr Hcalls; cbn [Freeverb_run].
  - constructor.
  - inversion Hcalls as [|c' rest' Hc Hrest]; subst c' rest'.
    destruct (Freeverb_process_bounded r c Hr Hc) as [Hs Hr'].
    destruct (Freeverb.process r (fv_input c) (fv_room_size c) (fv_damp c) (fv_wet c)
                (fv_dry c) (fv_width c)) as [s r1].
    cbn [fst snd] in Hs, Hr'. specialize (IH r1 Hr' Hrest).
    destruct (Freeverb_run r1 rest) as [ss r2]. cbn [fst] in *.
    constructor; assumption.
Qed.

(** ** The reverb feedback coefficient *)

(** The coefficient [room_size * .28f + .7f] for a room size in [0, 1]
    lies in [.7f, 1 - 2^-24]. *)
Lemma Freeverb_coefficient_range (room_size : f32) :
  unit_range room_size ->
  F32.valid (F32.add (F32.mul room_size (F32.dec 28 100)) (F32.dec 7 10)) = true /\
  is_finite (F32.add (F32.mul room_size (F32.dec 28 100)) (F32.dec 7 10)) = true /\
  (B32 (F32.dec 7 10) <= B32 (F32.add (F32.mul room_size (F32.dec 28 100)) (F32.dec 7 10))
   <= B32 (S754_finite false 16777215 (-24)))%Q.
Proof.
  intros (V & H0 & H1).
  destruct (finite_between _ _ fmt32 F32.zero room_size F32.one) as (Nr & Fr & Hr0 & Hr1);
    try reflexivity; try assumption.
  set (a := F32.dec 28 100). set (b := F32.dec 7 10).
  set (c := S754_finite false 16777215 (-24)).
  assert (Va : F32.valid a = true) by reflexivity.
  assert (Vb : F32.valid b = true) by reflexivity.
  assert (Vc : F32.valid c = true) by reflexivity.
  assert (Fa : is_finite a = true) by reflexivity.
  assert (Fb : is_finite b = true) by reflexivity.
  assert (Fc : is_finite c = true) by reflexivity.
  assert (Ha : (0 <= B32 a)%Q) by qle.
  assert (Hab : (B32 a + B32 b <= B32 c)%Q) by qle.
  assert (Hone : (B32 F32.one == 1)%Q) by (vm_compute; reflexivity).
  assert (Hzero : (B32 F32.zero == 0)%Q) by (vm_compute; reflexivity).
  clearbody a b c. rewrite Hone, Hzero in *.
  pose proof (mul_Rounded _ _ fmt32 room_size a V Va Fr Fa) as Hp.
  destruct (Rounded_between _ _ fmt32 _ _ F32.zero a Hp) as (Vp & Np & Fp & [Hp0 Hp1] & _);
    try reflexivity; try assumption.
  { rewrite Hzero. apply Qmult_unit_bounds; [split|]; assumption. }
  rewrite Hzero in Hp0.
  pose proof (add_Rounded _ _ fmt32 (F32.mul room_size a) b Vp Vb Fp Fb) as Hs.
  destruct (Rounded_between _ _ fmt32 _ _ b c Hs)
    as (Vs & Ns & Fs & Hb & _); try assumption.
  { unfold B32, F32.mul in *. split; lra. }
  split; [exact Vs|]. split; [exact Fs | exact Hb].
Qed.

(** One call with the input in [-1, 1] and the room size and the
    damping in [0, 1]: both channels answer within 1296 and keep their
    bounds, whatever the wet and dry levels and the width. *)
Lemma Freeverb_network_step (r : Freeverb.state) (input room_size damp : f32) :
  Freeverb_inv r -> sample_range input -> unit_range room_size -> unit_range damp ->
  (within 1296
     (fst (Freeverb.Channel_process (Freeverb.channel1 r) (F32.mul input (F32.dec 3 100))
             (F32.add (F32.mul room_size (F32.dec 28 100)) (F32.dec 7 10))
             (F32.mul damp (F32.dec 4 10)))) /\
   Channel_inv
     (snd (Freeverb.Channel_process (Freeverb.channel1 r) (F32.mul input (F32.dec 3 100))
             (F32.add (F32.mul room_size (F32.dec 28 100)) (F32.dec 7 10))
             (F32.mul damp (F32.dec 4 10))))) /\
  (within 1296
     (fst (Freeverb.Channel_process (Freeverb.channel2 r) (F32.mul input (F32.dec 3 100))
             (F32.add (F32.mul room_size (F32.dec 28 100)) (F32.dec 7 10))
             (F32.mul damp (F32.dec 4 10)))) /\
   Channel_inv
     (snd (Freeverb.Channel_process (Freeverb.channel2 r) (F32.mul input (F32.dec 3 100))
             (F32.add (F32.mul room_size (F32.dec 28 100)) (F32.dec 7 10))
             (F32.mul damp (F32.dec 4 10))))).
Proof.
  intros [Hc1 Hc2] Hin Hroom Hdamp.
  destruct (sample_range_B input Hin) as (Vi & Fi & Hi).
  destruct (unit_range_B damp Hdamp) as (Vd & Fd & Hd).
  assert (Hx : within (301 # 10000) (F32.mul input (F32.dec 3 100))).
  { assert (Hk : (0 <= B32 (F32.dec 3 100) <= 3 # 100)%Q) by (split; qle).
    pose proof (Qmult_bound _ _ _ Hi (proj1 Hk)) as Hp.
    destruct (Rounded_near _ _ (mul32 input (F32.dec 3 100) Vi eq_refl Fi eq_refl))
      as (V & F & H); [split; lra|].
    split; [exact V|]. split; [exact F|]. unfold eps in *. split; lra. }
  destruct (Freeverb_coefficient_range room_size Hroom) as (Vg & Fg & Hg0 & Hg1).
  assert (Hg : (0 <= B32 (F32.add (F32.mul room_size (F32.dec 28 100)) (F32.dec 7 10))
                <= 9801 # 10000)%Q).
  { assert (Hb : (0 <= B32 (F32.dec 7 10))%Q) by qle.
    assert (Hc : (B32 (S754_finite false 16777215 (-24)) <= 1)%Q) by qle.
    split; [lra|].
    assert (Ha : (0 <= B32 (F32.dec 28 100) <= 28001 # 100000)%Q) by (split; qle).
    assert (Hb' : (B32 (F32.dec 7 10) <= 70001 # 100000)%Q) by qle.
    destruct (unit_range_B room_size Hroom) as (Vr & Fr & Hr).
    pose proof (Qmult_unit_bounds _ _ Hr (proj1 Ha)) as Hp.
    destruct (Rounded_near _ _ (mul32 room_size (F32.dec 28 100) Vr eq_refl Fr eq_refl))
      as (Vp & Fp & Hpb); [split; lra|].
    destruct (Rounded_near _ _ (add32 _ (F32.dec 7 10) Vp eq_refl Fp eq_refl))
      as (_ & _ & H); [unfold eps in *; split; lra|].
    unfold eps in *. lra. }
  assert (Hdd : F32.valid (F32.mul damp (F32.dec 4 10)) = true /\
                is_finite (F32.mul damp (F32.dec 4 10)) = true /\
                (0 <= B32 (F32.mul damp (F32.dec 4 10)) <= 401 # 1000)%Q).
  { assert (Hk : (0 <= B32 (F32.dec 4 10) <= 4001 # 10000)%Q) by (split; qle).
    pose proof (Qmult_unit_bounds _ _ Hd (proj1 Hk)) as Hp.
    pose proof (mul32 damp (F32.dec 4 10) Vd eq_refl Fd eq_refl) as HR.
    destruct (Rounded_near _ _ HR) as (V & F & H); [split; lra|].
    split; [exact V|]. split; [exact F|].
    split; [apply (Rounded_nonneg _ _ HR); lra | unfold eps in *; lra]. }
  destruct Hdd as (Vdd & Fdd & Hdd).
  split; apply Channel_process_bounded; assumption.
Qed.

(** [process] hands its two channels the coefficient
    [room_size * .28f + .7f] and mixes what they answer. *)
Lemma Freeverb_process_unfold (r : Freeverb.state) (input room_size damp wet dry width : f32) :
  Freeverb.process r input room_size damp wet dry width =
    (SampleOps.add
       (SampleOps.scale
          (Width.process
             (mkSample
                (fst (Freeverb.Channel_process (Freeverb.channel1 r)
                        (F32.mul input (F32.dec 3 100))
                        (F32.add (F32.mul room_size (F32.dec 28 100)) (F32.dec 7 10))
                        (F32.mul damp (F32.dec 4 10))))
                (fst (Freeverb.Channel_process (Freeverb.channel2 r)
                        (F32.mul input (F32.dec 3 100))
                        (F32.add (F32.mul room_size (F32.dec 28 100)) (F32.dec 7 10))
                        (F32.mul damp (F32.dec 4 10)))))
             width)
          (F32.mul wet (F32.of_int 3)))
       (SampleOps.scale (SampleOps.of_float input) (F32.mul dry (F32.of_int 2))),
     Freeverb.mk
       (snd (Freeverb.Channel_process (Freeverb.channel1 r)
               (F32.mul input (F32.dec 3 100))
               (F32.add (F32.mul room_size (F32.dec 28 100)) (F32.dec 7 10))
               (F32.mul damp (F32.dec 4 10))))
       (snd (Freeverb.Channel_process (Freeverb.channel2 r)
               (F32.mul input (F32.dec 3 100))
               (F32.add (F32.mul room_size (F32.dec 28 100)) (F32.dec 7 10))
               (F32.mul damp (F32.dec 4 10))))).
Proof.
  unfold Freeverb.process, Freeverb.feedback.
  destruct (Freeverb.Channel_process (Freeverb.channel1 r) _ _ _) as [o1 c1].
  destruct (Freeverb.Channel_process (Freeverb.channel2 r) _ _ _) as [o2 c2].
  reflexivity.
Qed.

Lemma Freeverb_run_network (calls : list FreeverbCall) :
  forall r, Freeverb_inv r -> Forall Freeverb_network_range calls ->
    Freeverb_inv (snd (Freeverb_run r calls)).
Proof.
  induction calls as [|c rest IH]; intros r Hr Hcalls; cbn [Freeverb_run]; [exact Hr|].
  inversion Hcalls as [|c' rest' (Hin & Hroom & Hdamp) Hrest]; subst c' rest'.
  destruct (Freeverb_network_step r _ _ _ Hr Hin Hroom Hdamp) as [[_ H1] [_ H2]].
  rewrite Freeverb_process_unfold.
  assert (Hinv : Freeverb_inv
            (Freeverb.mk
               (snd (Freeverb.Channel_process (Freeverb.channel1 r)
                       (F32.mul (fv_input c) (F32.dec 3 100))
                       (F32.add (F32.mul (fv_room_size c) (F32.dec 28 100)) (F32.dec 7 10))
                       (F32.mul (fv_damp c) (F32.dec 4 10))))
               (snd (Freeverb.Channel_process (Freeverb.channel2 r)
                       (F32.mul (fv_input c) (F32.dec 3 100))
                       (F32.add (F32.mul (fv_room_size c) (F32.dec 28 100)) (F32.dec 7 10))
                       (F32.mul (fv_damp c) (F32.dec 4 10))))))
    by exact (conj H1 H2).
  specialize (IH _ Hinv Hrest). cbn [snd].
  destruct (Freeverb_run _ rest) as [ss r2]. exact IH.
Qed.

(** C9, as amended.  Inside [process] both channels are handed the
    coefficient [room_size * .28f + .7f], and the result is the mix of
    what they answer; for every [room_size] in [0, 1] the coefficient
    lies in [.7f, 1): strictly below 1.  With the damping in [0, 1] as
    well the reverb network does not grow unbounded: after any run from
    the initial state on inputs in [-1, 1], a unit impulse followed by
    silence among them, every comb filter keeps its delay line within 2
    and its low-pass state within 2 + 2^-18, the all-pass filters keep
    theirs within 32, 96, 288 and 864, and the next call has both
    channels answer within 1296, whatever the wet and dry levels and
    the width are; with these in [0, 1] too, every sample [process]
    returns in such a run is within 7778 in both channels. *)
Theorem Freeverb_feedback_below_one :
  (forall (r : Freeverb.state) (input room_size damp wet dry width : f32),
     Freeverb.process r input room_size damp wet dry width =
       (SampleOps.add
          (SampleOps.scale
             (Width.process
                (mkSample
                   (fst (Freeverb.Channel_process (Freeverb.channel1 r)
                           (F32.mul input (F32.dec 3 100))
                           (F32.add (F32.mul room_size (F32.dec 28 100)) (F32.dec 7 10))
                           (F32.mul damp (F32.dec 4 10))))
                   (fst (Freeverb.Channel_process (Freeverb.channel2 r)
                           (F32.mul input (F32.dec 3 100))
                           (F32.add (F32.mul room_size (F32.dec 28 100)) (F32.dec 7 10))
                           (F32.mul damp (F32.dec 4 10)))))
                width)
             (F32.mul wet (F32.of_int 3)))
          (SampleOps.scale (SampleOps.of_float input) (F32.mul dry (F32.of_int 2))),
        Freeverb.mk
          (snd (Freeverb.Channel_process (Freeverb.channel1 r)
                  (F32.mul input (F32.dec 3 100))
                  (F32.add (F32.mul room_size (F32.dec 28 100)) (F32.dec 7 10))
                  (F32.mul damp (F32.dec 4 10))))
          (snd (Freeverb.Channel_process (Freeverb.channel2 r)
                  (F32.mul input (F32.dec 3 100))
                  (F32.add (F32.mul room_size (F32.dec 28 100)) (F32.dec 7 10))
                  (F32.mul damp (F32.dec 4 10)))))) /\
  (forall room_size : f32,
     F32.valid room_size = true ->
     F32.leb F32.zero room_size = true -> F32.leb room_size F32.one = true ->
     F32.leb (F32.dec 7 10)
       (F32.add (F32.mul room_size (F32.dec 28 100)) (F32.dec 7 10)) = true /\
     F32.ltb (F32.add (F32.mul room_size (F32.dec 28 100)) (F32.dec 7 10)) F32.one = true) /\
  (forall calls : list FreeverbCall,
     Forall Freeverb_network_range calls ->
     Freeverb_inv (snd (Freeverb_run Freeverb.init calls)) /\
     forall input room_size damp : f32,
       sample_range input -> unit_range room_size -> unit_range damp ->
       within 1296
         (fst (Freeverb.Channel_process
                 (Freeverb.channel1 (snd (Freeverb_run Freeverb.init calls)))
                 (F32.mul input (F32.dec 3 100))
                 (F32.add (F32.mul room_size (F32.dec 28 100)) (F32.dec 7 10))
                 (F32.mul damp (F32.dec 4 10)))) /\
       within 1296
         (fst (Freeverb.Channel_process
                 (Freeverb.channel2 (snd (Freeverb_run Freeverb.init calls)))
                 (F32.mul input (F32.dec 3 100))
                 (F32.add (F32.mul room_size (F32.dec 28 100)) (F32.dec 7 10))
                 (F32.mul damp (F32.dec 4 10))))) /\
  (forall calls : list FreeverbCall,
     Forall Freeverb_in_range calls ->
     Forall (fun s => within 7778 (left s) /\ within 7778 (right s))
       (fst (Freeverb_run Freeverb.init calls))).
Proof.
  split; [exact Freeverb_process_unfold|]. split; [|split].
  - intros room_size V H0 H1.
    destruct (Freeverb_coefficient_range room_size (conj V (conj H0 H1)))
      as (Vs & Fs & Hlo & Hhi).
    assert (Ns : is_nan (F32.add (F32.mul room_size (F32.dec 28 100)) (F32.dec 7 10)) = false).
    { destruct (F32.add (F32.mul room_size (F32.dec 28 100)) (F32.dec 7 10));
        try reflexivity; discriminate. }
    split.
    + apply (leb_B _ _ fmt32); try assumption; reflexivity.
    + apply (ltb_B _ _ fmt32); try assumption; try reflexivity.
      assert (Hc : (B32 (S754_finite false 16777215 (-24)) < B32 F32.one)%Q) by qlt.
      unfold B32 in *. lra.
  - intros calls Hcalls.
    pose proof (Freeverb_run_network calls Freeverb.init Freeverb_init_inv Hcalls) as Hinv.
    split; [exact Hinv|].
    intros input room_size damp Hin Hroom Hdamp.
    destruct (Freeverb_network_step _ input room_size damp Hinv Hin Hroom Hdamp)
      as [[H1 _] [H2 _]].
    split; assumption.
  - intros calls Hcalls.
    exact (Freeverb_run_bounded calls Freeverb.init Freeverb_init_inv Hcalls).
Qed.

Lemma Freeverb_feedback_below_one_witness :
  (F32.leb (F32.dec 7 10)
     (F32.add (F32.mul F32.one (F32.dec 28 100)) (F32.dec 7 10)) = true /\
   F32.ltb (F32.add (F32.mul F32.one (F32.dec 28 100)) (F32.dec 7 10)) F32.one = true) /\
  Freeverb_inv (snd (Freeverb_run Freeverb.init (Freeverb_impulse 2000))) /\
  within 1296
    (fst (Freeverb.Channel_process
            (Freeverb.channel1 (snd (Freeverb_run Freeverb.init (Freeverb_impulse 2000))))
            (F32.mul F32.zero (F32.dec 3 100))
            (F32.add (F32.mul F32.one (F32.dec 28 100)) (F32.dec 7 10))
            (F32.mul F32.one (F32.dec 4 10)))) /\
  within 1296
    (fst (Freeverb.Channel_process
            (Freeverb.channel2 (snd (Freeverb_run Freeverb.init (Freeverb_impulse 2000))))
            (F32.mul F32.zero (F32.dec 3 100))
            (F32.add (F32.mul F32.one (F32.dec 28 100)) (F32.dec 7 10))
            (F32.mul F32.one (F32.dec 4 10)))) /\
  Forall (fun s => within 7778 (left s) /\ within 7778 (right s))
    (fst (Freeverb_run Freeverb.init (Freeverb_impulse 2000))).
Proof.
  destruct Freeverb_feedback_below_one as (_ & H2 & H3 & H4).
  split; [apply (H2 F32.one); reflexivity|].
  assert (Hc : Forall Freeverb_in_range (Freeverb_impulse 2000)).
  { unfold Freeverb_impulse. constructor; [repeat split|].
    apply Forall_forall. intros c Hc. apply repeat_spec in Hc. subst c. repeat split. }
  assert (Hn : Forall Freeverb_network_range (Freeverb_impulse 2000)).
  { revert Hc. apply Forall_impl. intros c (Hi & Hr & Hd & _). exact (conj Hi (conj Hr Hd)). }
  destruct (H3 (Freeverb_impulse 2000) Hn) as [Hinv Hout].
  split; [exact Hinv|].
  assert (Hz : sample_range F32.zero) by (repeat split).
  assert (Hu : unit_range F32.one) by (repeat split).
  destruct (Hout F32.zero F32.one F32.one Hz Hu Hu) as [Ha Hb].
  split; [exact Ha|]. split; [exact Hb|].
  exact (H4 (Freeverb_impulse 2000) Hc).
Defined.

(** C9 as stated fails outside the range of the damping: with the room
    size at 1 and the coefficient below 1, but the damping at 10, the
    answer to a unit impulse is multiplied by 4 from one call to the
    next after the second reflection (call 2233) and is minus infinity
    at call 2298.  With the damping at 1 the first reflection of the
    impulse is answered at call 1117. *)
Lemma Freeverb_as_stated_fails :
  F32.ltb (Freeverb.feedback F32.one) F32.one = true /\
  map left (firstn 4 (skipn 2232 (fst (Freeverb_run Freeverb.init (Freeverb_overdamped 2297))))) =
    [S754_finite true 8878502 (-25); S754_finite true 8878502 (-23);
     S754_finite true 8878502 (-21); S754_finite true 8878502 (-19)] /\
  left (nth 2297 (fst (Freeverb_run Freeverb.init (Freeverb_overdamped 2297)))
          SampleOps.default) = S754_infinity true /\
  left (nth 1116 (fst (Freeverb_run Freeverb.init (Freeverb_impulse 1116)))
          SampleOps.default) = S754_finite false 12079595 (-27).
Proof.
  split; [reflexivity|]. split; [vm_compute; reflexivity|].
  split; vm_compute; reflexivity.
Qed.


(** ** The oscillators *)

Lemma Saw_step (v f : f32) :
  Saw_inv v ->
  F32.valid f = true -> F32.leb F32.zero f = true -> F32.leb f (F32.of_int 44100) = true ->
  Saw_inv (fst (Saw.process (Saw.mk v) f)) /\
  snd (Saw.process (Saw.mk v) f) = Saw.mk (fst (Saw.process (Saw.mk v) f)).
Proof.
  intros (Vv & Hv0 & Hv1) Vf Hf0 Hf1. split; [|reflexivity].
  unfold Saw.process, Saw_inv. cbn [Saw.value fst].
  destruct (finite_between _ _ fmt32 (F32.of_int (-1)) v F32.one) as (Nv & Fv & Hvl & Hvh);
    try reflexivity; try assumption.
  destruct (finite_between _ _ fmt32 F32.zero f (F32.of_int 44100)) as (Nf & Ff & Hfl & Hfh);
    try reflexivity; try assumption.
  destruct (of_float_exact v Vv Fv) as (Vv' & Fv' & Ev).
  destruct (of_float_exact f Vf Ff) as (Vf' & Ff' & Ef).
  set (k := F64.mul (F64.of_int 2) (F64.of_float DT)).
  set (z64 := S754_zero false). set (two64 := F64.of_int 2).
  set (m64 := F64.of_int (-1)). set (three64 := F64.of_int 3).
  set (m32 := F32.of_int (-1)) in *. set (three32 := F32.of_int 3).
  set (two32 := F32.of_int 2) in *. set (one32 := F32.one) in *.
  set (c32 := F32.of_int 44100) in *.
  assert (Vk : F64.valid k = true) by reflexivity.
  assert (Fk : is_finite k = true) by reflexivity.
  assert (Hk0 : (0 <= Bval F64.emax k)%Q) by qle.
  assert (Hk1 : (Bval F32.emax c32 * Bval F64.emax k <= Bval F64.emax two64)%Q) by qle.
  assert (Hz64 : (Bval F64.emax z64 == 0)%Q) by reflexivity.
  assert (Hz32 : (Bval F32.emax F32.zero == 0)%Q) by reflexivity.
  assert (H2 : (Bval F64.emax two64 == 2)%Q) by (vm_compute; reflexivity).
  assert (Hm64 : (Bval F64.emax m64 == -1)%Q) by (vm_compute; reflexivity).
  assert (H364 : (Bval F64.emax three64 == 3)%Q) by (vm_compute; reflexivity).
  assert (Hm32 : (Bval F32.emax m32 == -1)%Q) by (vm_compute; reflexivity).
  assert (H332 : (Bval F32.emax three32 == 3)%Q) by (vm_compute; reflexivity).
  assert (H232 : (Bval F32.emax two32 == 2)%Q) by (vm_compute; reflexivity).
  assert (H132 : (Bval F32.emax one32 == 1)%Q) by (vm_compute; reflexivity).
  assert (Vz64 : F64.valid z64 = true) by reflexivity.
  assert (V264 : F64.valid two64 = true) by reflexivity.
  assert (Vm64 : F64.valid m64 = true) by reflexivity.
  assert (V364 : F64.valid three64 = true) by reflexivity.
  assert (Vm32 : F32.valid m32 = true) by reflexivity.
  assert (V332 : F32.valid three32 = true) by reflexivity.
  assert (V232 : F32.valid two32 = true) by reflexivity.
  assert (V132 : F32.valid one32 = true) by reflexivity.
  assert (Fz64 : is_finite z64 = true) by reflexivity.
  assert (F264 : is_finite two64 = true) by reflexivity.
  assert (Fm64 : is_finite m64 = true) by reflexivity.
  assert (F364 : is_finite three64 = true) by reflexivity.
  assert (Fm32 : is_finite m32 = true) by reflexivity.
  assert (F332 : is_finite three32 = true) by reflexivity.
  assert (F232 : is_finite two32 = true) by reflexivity.
  assert (F132 : is_finite one32 = true) by reflexivity.
  clearbody k z64 two64 m64 three64 m32 three32 two32 one32 c32.
  unfold B32, F64.valid, F32.valid, F64.mul, F64.add, F32.sub, F32.ltb, F32.leb in *.
  rewrite Hz32 in Hfl. rewrite Hm32 in Hvl. rewrite H132 in Hvh.
  (* the step lies in [0, 2] *)
  pose proof (mul_Rounded _ _ fmt64 (F64.of_float f) k Vf' Vk Ff' Fk) as Rs.
  destruct (Rounded_between _ _ fmt64 _ _ z64 two64 Rs)
    as (Vs & Ns & Fs & [Hs0 Hs1] & _); try assumption.
  { rewrite Hz64, Ef. split.
    - apply Qmult_le_0_compat; assumption.
    - apply Qle_trans with (Bval F32.emax c32 * Bval F64.emax k)%Q; [|exact Hk1].
      apply Qmult_le_compat_r; assumption. }
  rewrite Hz64 in Hs0. rewrite H2 in Hs1.
  (* the sum lies in [-1, 3], in double and back in float *)
  pose proof (add_Rounded _ _ fmt64 (F64.of_float v) _ Vv' Vs Fv' Fs) as Ra.
  destruct (Rounded_between _ _ fmt64 _ _ m64 three64 Ra)
    as (Va & Na & Fa & [Ha0 Ha1] & _); try assumption.
  { rewrite Hm64, H364, Ev. split; lra. }
  rewrite Hm64 in Ha0. rewrite H364 in Ha1.
  pose proof (of_double_Rounded _ Fa) as Rc.
  destruct (Rounded_between _ _ fmt32 _ _ m32 three32 Rc)
    as (Vc & Nc & Fc & [Hc0 Hc1] & Hcl & _); try assumption.
  { rewrite Hm32, H332. split; [exact Ha0 | exact Ha1]. }
  rewrite Hm32 in Hc0. rewrite H332 in Hc1.
  set (w := F32.of_double
              (SFadd F64.prec F64.emax (F64.of_float v)
                 (SFmul F64.prec F64.emax (F64.of_float f) k))) in *.
  clearbody w.
  destruct (SFltb one32 w) eqn:Hlt.
  - (* wrapped: w in (1, 3], so w - 2 in (-1, 1] *)
    apply (ltb_B _ _ fmt32) in Hlt; try assumption;
      [|destruct one32; try reflexivity; discriminate].
    rewrite H132 in Hlt.
    pose proof (sub_Rounded _ _ fmt32 w two32 Vc V232 Fc F232) as Rw.
    destruct (Rounded_between _ _ fmt32 _ _ m32 one32 Rw)
      as (Vw & _ & _ & _ & Hwl & Hwh); try assumption.
    { rewrite Hm32, H132, H232. split; lra. }
    split; [exact Vw|]. split; assumption.
  - apply (ltb_false_B _ _ fmt32) in Hlt; try assumption;
      [|destruct one32; try reflexivity; discriminate].
    split; [exact Vc|]. split; [exact Hcl|].
    apply (leb_B _ _ fmt32); try assumption.
    destruct one32; try reflexivity; discriminate.
Qed.

Lemma ltb_leb (x y : spec_float) : SFltb x y = true -> SFleb x y = true.
Proof. unfold SFltb, SFleb. destruct (SFcompare x y) as [[]|]; auto; discriminate. Qed.

Lemma Saw_run_range (fs : list f32) (s : Saw.state) :
  Saw_inv (Saw.value s) -> Forall audio_frequency fs ->
  Forall (fun o => F32.leb (F32.of_int (-1)) o = true /\ F32.leb o F32.one = true)
         (Saw_run s fs).
Proof.
  revert s. induction fs as [|f r IH]; intros s Hs Hf; cbn [Saw_run].
  - constructor.
  - inversion Hf as [|? ? (Vf & Hf0 & Hf1) Hr]; subst.
    destruct s as [v]. cbn [Saw.value] in Hs.
    destruct (Saw_step v f Hs Vf (ltb_leb _ _ Hf0) (ltb_leb _ _ Hf1)) as [Hi Hst].
    destruct (Saw.process (Saw.mk v) f) as [o s1]. cbn [fst snd] in *. subst s1.
    constructor.
    + destruct Hi as (_ & H0 & H1). split; assumption.
    + apply IH; [exact Hi | exact Hr].
Qed.

Lemma Square_run_range (fs : list f32) (s : Square.state) :
  Forall (fun o => o = F32.one \/ o = SFopp F32.one) (Square_run s fs).
Proof.
  revert s. induction fs as [|f r IH]; intros s; cbn [Square_run].
  - constructor.
  - unfold Square.process.
    constructor; [|apply IH].
    destruct (F32.ltb (F32.dec 5 10) _); [left | right]; reflexivity.
Qed.

(** C7: whatever the sequence of frequency inputs, each a [float] above
    0 and below the sample rate 44100, every output of the saw
    oscillator started in its initial state lies in [-1, 1], and every
    output of the square oscillator is exactly 1 or -1. *)
Theorem oscillator_ranges (fs : list f32) :
  Forall audio_frequency fs ->
  Forall (fun o => F32.leb (F32.of_int (-1)) o = true /\ F32.leb o F32.one = true)
         (Saw_run Saw.init fs) /\
  Forall (fun o => o = F32.one \/ o = SFopp F32.one) (Square_run Square.init fs) /\
  List.length (Saw_run Saw.init fs) = List.length fs /\
  List.length (Square_run Square.init fs) = List.length fs.
Proof.
  intros Hf. split; [|split; [|split]].
  - apply Saw_run_range; [|exact Hf]. repeat split.
  - apply Square_run_range.
  - generalize Saw.init. induction fs as [|f r IH]; intros s; cbn [Saw_run]; [reflexivity|].
    destruct (Saw.process s f). simpl. f_equal. apply IH.
    inversion Hf; assumption.
  - generalize Square.init. induction fs as [|f r IH]; intros s; cbn [Square_run]; [reflexivity|].
    destruct (Square.process s f). simpl. f_equal. apply IH.
    inversion Hf; assumption.
Qed.

Lemma oscillator_ranges_witness :
  Forall (fun o => F32.leb (F32.of_int (-1)) o = true /\ F32.leb o F32.one = true)
         (Saw_run Saw.init [F32.of_int 440; F32.of_int 22050; F32.of_int 44099]) /\
  Forall (fun o => o = F32.one \/ o = SFopp F32.one)
         (Square_run Square.init [F32.of_int 440; F32.of_int 22050; F32.of_int 44099]) /\
  List.length (Saw_run Saw.init [F32.of_int 440; F32.of_int 22050; F32.of_int 44099]) = 3%nat /\
  List.length (Square_run Square.init [F32.of_int 440; F32.of_int 22050; F32.of_int 44099]) = 3%nat.
Proof.
  apply (oscillator_ranges [F32.of_int 440; F32.of_int 22050; F32.of_int 44099]).
  repeat constructor.
Defined.

(** ** The envelope *)

Lemma Q2_lt_inv (m n e : Z) : (Q2 m e < Q2 n e)%Q -> m < n.
Proof.
  intros H. destruct (Z_lt_le_dec m n) as [|Hle]; [assumption|].
  apply (Q2_le _ _ e) in Hle. lra.
Qed.

Lemma grid32_B (v : spec_float) :
  F32.valid v = true -> is_finite v = true -> (0 <= B32 v)%Q ->
  (B32 v == Q2 (grid32 v) (-149))%Q.
Proof.
  intros V F H0. destruct v as [s|s| |s m e]; try discriminate.
  - unfold B32. cbn [Bval grid32]. rewrite Q2_0. reflexivity.
  - destruct (valid_finite F32.prec F32.emax fmt32 s m e V) as (_ & _ & [_ He] & _).
    unfold SpecFloat.emin, F32.prec, F32.emax in He.
    unfold B32 in *. cbn [Bval] in *. destruct s; cbn [cond_Zopp grid32] in *.
    + exfalso. change (Z.opp (Zpos m)) with (- Zpos m) in H0. rewrite Q2_opp in H0.
      pose proof (Q2_pos (Zpos m) e ltac:(lia)). lra.
    + rewrite Q2_shift by lia. replace (-149 + (e + 149)) with e by lia. reflexivity.
Qed.

(** A positive [float] below 1 has an exponent of at most -24. *)
Lemma below_one_exponent (m : positive) (e : Z) :
  F32.valid (S754_finite false m e) = true -> (Q2 (Zpos m) e < 1)%Q -> e <= -24.
Proof.
  intros V H1.
  destruct (valid_finite F32.prec F32.emax fmt32 false m e V) as (Hc & _).
  rewrite fexp_spec in Hc. unfold F32.prec, F32.emax in Hc.
  pose proof (digits2_pos_bounds m) as [Hl _].
  destruct (Z_le_gt_dec e (-24)) as [|Hgt]; [assumption|]. exfalso.
  assert (Hd : Zpos (digits2_pos m) = 24) by lia. rewrite Hd in Hl.
  assert (H : (pow2 0 <= Q2 (Zpos m) e)%Q).
  { apply Qle_trans with (Q2 (2 ^ 23) e); [|apply Q2_le; exact Hl].
    rewrite Q2_pow by lia. apply pow2_le. lia. }
  change (pow2 0) with 1%Q in H. lra.
Qed.

(** One more step of at least 2^-24 on a value in [0, 1): the sum reaches
    1 or is a [float] strictly above the value. *)
Lemma attack_progress (v st : f32) :
  F32.valid v = true -> is_finite v = true -> (0 <= B32 v < 1)%Q ->
  F32.valid st = true -> F32.leb least_step st = true ->
  F32.leb F32.one (F32.add v st) = true \/
  (F32.leb F32.one (F32.add v st) = false /\
   F32.valid (F32.add v st) = true /\ is_finite (F32.add v st) = true /\
   (B32 v < B32 (F32.add v st) < 1)%Q).
Proof.
  intros Vv Fv [Hv0 Hv1] Vs Hs.
  assert (Ns : is_nan st = false) by (apply (leb_not_nan_r least_step st), Hs).
  apply (leb_B _ _ fmt32) in Hs; try assumption; try reflexivity.
  assert (Hl : (Bval F32.emax least_step == pow2 (-24))%Q) by (vm_compute; reflexivity).
  assert (Hlp : (0 < pow2 (-24))%Q) by apply pow2_pos.
  assert (H1 : (Bval F32.emax F32.one == 1)%Q) by (vm_compute; reflexivity).
  rewrite Hl in Hs. unfold B32, F32.leb, F32.add, F32.valid in *.
  destruct (is_finite st) eqn:Fs.
  2:{ left. destruct st as [s|s| |s m e]; try discriminate.
      destruct s; [cbn [Bval] in Hs; pose proof (pow2_pos F32.emax); lra|].
      destruct v as [s'|s'| |s' m' e']; try discriminate; reflexivity. }
  pose proof (add_Rounded _ _ fmt32 v st Vv Vs Fv Fs) as HR.
  destruct (SFleb F32.one (SFadd F32.prec F32.emax v st)) eqn:Hone; [left; reflexivity|].
  right. split; [reflexivity|].
  pose proof HR as (Vr & Nr & Hb).
  apply (leb_false_B _ _ fmt32) in Hone; try assumption; try reflexivity.
  rewrite H1 in Hone.
  assert (Hup : (Bval F32.emax v < Bval F32.emax (SFadd F32.prec F32.emax v st))%Q).
  { destruct v as [s|s| |s m e]; try discriminate.
    - (* from zero the sum is the step itself *)
      assert (Hst : (Bval F32.emax st <= Bval F32.emax (SFadd F32.prec F32.emax (S754_zero s) st))%Q).
      { apply (Rounded_lower _ _ fmt32 _ _ st HR Vs Ns). cbn [Bval]. lra. }
      cbn [Bval] in *. lra.
    - (* the next number of the grid is at most 2^-24 away *)
      destruct s.
      { exfalso. cbn [Bval cond_Zopp] in Hv0.
        change (Z.opp (Zpos m)) with (- Zpos m) in Hv0. rewrite Q2_opp in Hv0.
        pose proof (Q2_pos (Zpos m) e ltac:(lia)). lra. }
      cbn [Bval cond_Zopp] in *.
      destruct (valid_finite F32.prec F32.emax fmt32 false m e Vv)
        as (_ & He & [_ Hmin] & Hm & _).
      pose proof (below_one_exponent m e Vv Hv1) as He24.
      assert (Hnext : (Q2 (Zpos m + 1) e == Q2 (Zpos m) e + pow2 e)%Q).
      { rewrite Q2_plus, <- pow2_Q2. reflexivity. }
      assert (Hrep : fmt_repQ F32.prec F32.emax (Q2 (Zpos m + 1) e)).
      { exists (Zpos m + 1), e. split; [split; [lia | exact Hmin]|].
        split; [|left; reflexivity].
        apply Qle_trans with (Q2 (2 ^ F32.prec) e); [apply Q2_le; lia|].
        rewrite Q2_pow by (unfold F32.prec; lia). apply pow2_le. lia. }
      assert (Hpe : (pow2 e <= pow2 (-24))%Q) by (apply pow2_le; lia).
      destruct (Hb _ Hrep) as [_ Hlow].
      assert (Q2 (Zpos m + 1) e <= Bval F32.emax (SFadd F32.prec F32.emax (S754_finite false m e) st))%Q.
      { apply Hlow. cbn [Bval cond_Zopp]. rewrite Hnext. lra. }
      pose proof (pow2_pos e). lra. }
  split; [exact Vr|]. split; [|split; [exact Hup | exact Hone]].
  apply (finite_B F32.emax); [exact Nr|].
  pose proof pow2_128_big. split; lra.
Qed.

(** A [float] below 1 is at most 1 - 2^-24. *)
Lemma below_one_le (v : f32) :
  F32.valid v = true -> is_finite v = true -> (B32 v < 1)%Q ->
  (B32 v <= 1 - pow2 (-24))%Q.
Proof.
  intros Vv Fv Hv1. pose proof (pow2_pos (-24)) as Hp.
  assert (Hp1 : (pow2 (-24) <= 1 # 2)%Q) by qle.
  destruct v as [s|s| |s m e]; [unfold B32; cbn [Bval]; lra | discriminate | discriminate |].
  - unfold B32 in *. cbn [Bval] in *. destruct s; cbn [cond_Zopp] in *.
    + change (Z.opp (Zpos m)) with (- Zpos m). rewrite Q2_opp.
      pose proof (Q2_pos (Zpos m) e ltac:(lia)). lra.
    + destruct (valid_finite F32.prec F32.emax fmt32 false m e Vv)
        as (_ & _ & _ & Hm & _).
      pose proof (below_one_exponent m e Vv Hv1) as He24.
      unfold F32.prec in Hm.
      destruct (Z_le_gt_dec e (-25)) as [He | He].
      * apply Qle_trans with (Q2 (2 ^ 24) e); [apply Q2_le; lia|].
        rewrite Q2_pow by lia.
        apply Qle_trans with (pow2 (-1)); [apply pow2_le; lia|].
        assert (pow2 (-1) == 1 # 2)%Q by reflexivity. lra.
      * assert (e = -24) by lia. subst e.
        apply Qle_trans with (Q2 (2 ^ 24 - 1) (-24)); [apply Q2_le; lia|].
        rewrite Q2_minus, Q2_pow, <- pow2_Q2 by lia.
        assert (pow2 (24 + -24) == 1)%Q by reflexivity. lra.
Qed.

(** One more step above 2^-25 on a value in [0, 1): the sum reaches 1 or
    is a [float] strictly above the value.  Below 0.5 the next [float]
    is at most 2^-25 away; from 0.5 on the sum lies past the middle of
    the value and the next [float]. *)
Lemma attack_progress_half (v st : f32) :
  F32.valid v = true -> is_finite v = true -> (0 <= B32 v < 1)%Q ->
  F32.valid st = true -> F32.ltb half_step st = true ->
  F32.leb F32.one (F32.add v st) = true \/
  (F32.leb F32.one (F32.add v st) = false /\
   F32.valid (F32.add v st) = true /\ is_finite (F32.add v st) = true /\
   (B32 v < B32 (F32.add v st) < 1)%Q).
Proof.
  intros Vv Fv [Hv0 Hv1] Vs Hs.
  destruct (F32.leb least_step st) eqn:Hl.
  { apply attack_progress; try assumption. split; assumption. }
  assert (Ns : is_nan st = false) by (apply (ltb_not_nan_r half_step st), Hs).
  apply (ltb_B _ _ fmt32) in Hs; try assumption; try reflexivity.
  apply (leb_false_B _ _ fmt32) in Hl; try assumption; try reflexivity.
  assert (Eh : (Bval F32.emax half_step == pow2 (-25))%Q) by (vm_compute; reflexivity).
  assert (El : (Bval F32.emax least_step == pow2 (-24))%Q) by (vm_compute; reflexivity).
  assert (E2 : (pow2 (-24) == 2 * pow2 (-25))%Q) by (vm_compute; reflexivity).
  assert (Hlp : (0 < pow2 (-25))%Q) by apply pow2_pos.
  assert (Hl1 : (pow2 (-24) <= 1)%Q) by qle.
  assert (H1 : (Bval F32.emax F32.one == 1)%Q) by (vm_compute; reflexivity).
  rewrite Eh in Hs. rewrite El in Hl.
  unfold B32, F32.leb, F32.add, F32.valid in *.
  assert (Fs : is_finite st = true).
  { apply (finite_B F32.emax); [exact Ns|]. pose proof pow2_128_big. split; lra. }
  pose proof (add_Rounded _ _ fmt32 v st Vv Vs Fv Fs) as HR.
  pose proof (add_Nearest _ _ fmt32 v st Vv Vs Fv Fs) as HN.
  destruct (SFleb F32.one (SFadd F32.prec F32.emax v st)) eqn:Hone; [left; reflexivity|].
  right. split; [reflexivity|].
  pose proof HR as (Vr & Nr & Hb).
  apply (leb_false_B _ _ fmt32) in Hone; try assumption; try reflexivity.
  rewrite H1 in Hone.
  assert (Hup : (Bval F32.emax v < Bval F32.emax (SFadd F32.prec F32.emax v st))%Q).
  { destruct v as [s|s| |s m e]; try discriminate.
    - assert (Hst : (Bval F32.emax st <= Bval F32.emax (SFadd F32.prec F32.emax (S754_zero s) st))%Q).
      { apply (Rounded_lower _ _ fmt32 _ _ st HR Vs Ns). cbn [Bval]. lra. }
      cbn [Bval] in *. lra.
    - destruct s.
      { exfalso. cbn [Bval cond_Zopp] in Hv0.
        change (Z.opp (Zpos m)) with (- Zpos m) in Hv0. rewrite Q2_opp in Hv0.
        pose proof (Q2_pos (Zpos m) e ltac:(lia)). lra. }
      cbn [Bval cond_Zopp] in *.
      destruct (valid_finite F32.prec F32.emax fmt32 false m e Vv)
        as (_ & He & [_ Hmin] & Hm & _).
      pose proof (below_one_exponent m e Vv Hv1) as He24.
      assert (Hnext : (Q2 (Zpos m + 1) e == Q2 (Zpos m) e + pow2 e)%Q).
      { rewrite Q2_plus, <- pow2_Q2. reflexivity. }
      assert (Hrep : fmt_repQ F32.prec F32.emax (Q2 (Zpos m + 1) e)).
      { exists (Zpos m + 1), e. split; [split; [lia | exact Hmin]|].
        split; [|left; reflexivity].
        apply Qle_trans with (Q2 (2 ^ F32.prec) e); [apply Q2_le; lia|].
        rewrite Q2_pow by (unfold F32.prec; lia). apply pow2_le. lia. }
      pose proof (pow2_pos e) as Hpe.
      destruct (Z_le_gt_dec e (-25)) as [He25 | He25].
      + (* the next number of the grid is at most 2^-25 away *)
        assert (Hle : (pow2 e <= pow2 (-25))%Q) by (apply pow2_le; lia).
        destruct (Hb _ Hrep) as [_ Hlow].
        assert (Q2 (Zpos m + 1) e <= Bval F32.emax (SFadd F32.prec F32.emax (S754_finite false m e) st))%Q.
        { apply Hlow. cbn [Bval cond_Zopp]. rewrite Hnext. lra. }
        lra.
      + (* the sum is past the middle of the value and the next number *)
        assert (e = -24) by lia. subst e.
        destruct (Qlt_le_dec (Q2 (Zpos m) (-24))
                    (Bval F32.emax (SFadd F32.prec F32.emax (S754_finite false m (-24)) st)))
          as [Hlt | Hge]; [exact Hlt | exfalso].
        destruct (HN _ Hrep) as [_ Hnear]. cbn [Bval cond_Zopp] in Hnear.
        assert (Q2 (Zpos m) (-24) + Bval F32.emax st -
                Bval F32.emax (SFadd F32.prec F32.emax (S754_finite false m (-24)) st)
                <= Q2 (Zpos m + 1) (-24) - (Q2 (Zpos m) (-24) + Bval F32.emax st))%Q.
        { apply Hnear; rewrite ?Hnext; lra. }
        rewrite Hnext in *. lra. }
  split; [exact Vr|]. split; [|split; [exact Hup | exact Hone]].
  apply (finite_B F32.emax); [exact Nr|].
  pose proof pow2_128_big. split; lra.
Qed.

(** One more step below 2^-25 on a value in [0, 1): the sum is a [float]
    below 1 again, as 1 - 2^-24 is nearer to it than 1.0 is. *)
Lemma attack_stall (v st : f32) :
  F32.valid v = true -> is_finite v = true -> (0 <= B32 v < 1)%Q ->
  F32.valid st = true -> F32.leb F32.zero st = true -> F32.ltb st half_step = true ->
  F32.leb F32.one (F32.add v st) = false /\
  F32.valid (F32.add v st) = true /\ is_finite (F32.add v st) = true /\
  (0 <= B32 (F32.add v st) < 1)%Q.
Proof.
  intros Vv Fv [Hv0 Hv1] Vs Hs0 Hs.
  assert (Ns : is_nan st = false) by (apply (ltb_not_nan_l st half_step), Hs).
  apply (ltb_B _ _ fmt32) in Hs; try assumption; try reflexivity.
  apply (leb_B _ _ fmt32) in Hs0; try assumption; try reflexivity.
  pose proof (below_one_le v Vv Fv Hv1) as Hvc.
  set (c := S754_finite false 16777215 (-24)).
  assert (Vc : valid_binary F32.prec F32.emax c = true) by reflexivity.
  assert (Nc : is_nan c = false) by reflexivity.
  assert (Ec : (Bval F32.emax c == 1 - pow2 (-24))%Q) by (vm_compute; reflexivity).
  assert (Eh : (Bval F32.emax half_step == pow2 (-25))%Q) by (vm_compute; reflexivity).
  assert (E0 : (Bval F32.emax F32.zero == 0)%Q) by (vm_compute; reflexivity).
  assert (E1 : (Bval F32.emax F32.one == 1)%Q) by (vm_compute; reflexivity).
  assert (E2 : (pow2 (-24) == 2 * pow2 (-25))%Q) by (vm_compute; reflexivity).
  assert (Hlp : (0 < pow2 (-25))%Q) by apply pow2_pos.
  rewrite Eh in Hs. rewrite E0 in Hs0. clearbody c.
  unfold B32, F32.leb, F32.add, F32.valid in *.
  assert (Fs : is_finite st = true).
  { apply (finite_B F32.emax); [exact Ns|]. pose proof pow2_128_big.
    assert (pow2 (-25) <= 1)%Q by qle. split; lra. }
  pose proof (add_Rounded _ _ fmt32 v st Vv Vs Fv Fs) as HR.
  pose proof (add_Nearest _ _ fmt32 v st Vv Vs Fv Fs) as HN.
  pose proof HR as (Vr & Nr & _).
  set (r := SFadd F32.prec F32.emax v st) in *.
  assert (Hr0 : (0 <= Bval F32.emax r)%Q).
  { rewrite <- E0. apply (Rounded_lower _ _ fmt32 _ _ F32.zero HR); try reflexivity.
    rewrite E0. lra. }
  assert (Hr1 : (Bval F32.emax r < 1)%Q).
  { destruct (Qlt_le_dec (Bval F32.emax r) (Bval F32.emax v + Bval F32.emax st))
      as [Hlt | Hge]; [lra|].
    destruct (Qlt_le_dec (Bval F32.emax c) (Bval F32.emax v + Bval F32.emax st))
      as [Hcx | Hxc].
    - destruct (HN _ (repQ_B _ _ fmt32 c Vc Nc)) as [Hnear _].
      assert (Bval F32.emax r - (Bval F32.emax v + Bval F32.emax st)
              <= Bval F32.emax v + Bval F32.emax st - Bval F32.emax c)%Q
        by (apply Hnear; lra).
      lra.
    - assert (Bval F32.emax r <= Bval F32.emax c)%Q
        by (apply (Rounded_upper _ _ fmt32 _ _ c HR Vc Nc); exact Hxc).
      lra. }
  split; [|split; [exact Vr | split; [|split; assumption]]].
  - apply (leb_false_B _ _ fmt32); try assumption; try reflexivity. rewrite E1. exact Hr1.
  - apply (finite_B F32.emax); [exact Nr|]. pose proof pow2_128_big. split; lra.
Qed.

Lemma grid32_lt (v w : spec_float) :
  F32.valid v = true -> is_finite v = true -> (0 <= B32 v)%Q ->
  F32.valid w = true -> is_finite w = true -> (B32 v < B32 w)%Q ->
  grid32 v < grid32 w.
Proof.
  intros Vv Fv Hv Vw Fw Hlt.
  apply (Q2_lt_inv _ _ (-149)).
  rewrite <- (grid32_B v Vv Fv Hv), <- (grid32_B w Vw Fw); [exact Hlt | lra].
Qed.

Lemma grid32_below_one (v : spec_float) :
  F32.valid v = true -> is_finite v = true -> (0 <= B32 v < 1)%Q ->
  grid32 v < 2 ^ 149.
Proof.
  intros V F [H0 H1]. apply (Q2_lt_inv _ _ (-149)).
  rewrite <- (grid32_B v V F H0), Q2_pow by lia. exact H1.
Qed.

Section ADSRFacts.
Variable pow : f32 -> f32 -> f32.
Variables attack decay sustain release : f32.

Local Abbreviation process := (fun a e => ADSR.process pow a e attack decay sustain release).
Local Abbreviation run := (fun a es => ADSR.run pow a es attack decay sustain release).

Lemma quiet_empty : quiet MIDI.empty.
Proof. split; reflexivity. Qed.

Lemma process_attack_quiet (v : f32) (note : Z) (e : MIDIEvent) :
  quiet e ->
  process (ADSR.mk ADSR.Attack v note) e =
  if F32.leb F32.one (F32.add v (ADSR.attack_step attack))
  then (F32.one, ADSR.mk ADSR.Decay F32.one note)
  else (F32.add v (ADSR.attack_step attack),
        ADSR.mk ADSR.Attack (F32.add v (ADSR.attack_step attack)) note).
Proof.
  intros [Hon Hoff]. unfold ADSR.process. rewrite Hon, Hoff. reflexivity.
Qed.

Lemma process_sustain_quiet (v : f32) (note : Z) (e : MIDIEvent) :
  quiet e ->
  process (ADSR.mk ADSR.Sustain v note) e = (v, ADSR.mk ADSR.Sustain v note).
Proof.
  intros [Hon Hoff]. unfold ADSR.process. rewrite Hon, Hoff. reflexivity.
Qed.

(** From rest a note-on acts like a tick of the attack phase entered at
    value 0 with the new note. *)
Lemma process_note_on_rest (e : MIDIEvent) :
  MIDI.is_note_on e = true ->
  process ADSR.init e = process (ADSR.mk ADSR.Attack F32.zero (data1 e)) MIDI.empty.
Proof.
  intros Hon. unfold ADSR.process. rewrite Hon. reflexivity.
Qed.

(** While a note with a non-zero number is held, a note-on only replaces
    the note number: the state and the value move as on a tick without
    event. *)
Lemma process_note_on_held (a : ADSR.state) (e : MIDIEvent) :
  MIDI.is_note_on e = true -> ADSR.note a <> 0 ->
  process a e =
  (fst (process a MIDI.empty),
   ADSR.mk (ADSR.current (snd (process a MIDI.empty)))
           (ADSR.value (snd (process a MIDI.empty))) (data1 e)).
Proof.
  intros Hon Hn. unfold ADSR.process. rewrite Hon.
  apply Z.eqb_neq in Hn. rewrite Hn. cbn [negb].
  change (MIDI.is_note_on MIDI.empty) with false.
  change (MIDI.is_note_off MIDI.empty) with false. cbn [andb].
  destruct (ADSR.current a).
  - destruct (F32.leb F32.one _); reflexivity.
  - reflexivity.
  - reflexivity.
  - destruct (F32.leb _ F32.zero); reflexivity.
Qed.

Lemma run_rest (events : list MIDIEvent) :
  Forall quiet events ->
  run ADSR.init events = (repeat F32.zero (List.length events), ADSR.init).
Proof.
  induction events as [|e r IH]; intros H; cbn [ADSR.run].
  - reflexivity.
  - inversion H as [|? ? He Hr]; subst.
    unfold ADSR.init at 1. rewrite (process_sustain_quiet _ _ e He).
    fold ADSR.init. rewrite (IH Hr). reflexivity.
Qed.

(** The attack phase runs to completion when every step from a value in
    [0, 1) reaches 1 or a [float] above the value: the values rise
    strictly, the last one is exactly 1 and leaves the envelope in
    [Decay]; before that it is in [Attack]. *)
Lemma attack_loop_rising (k : nat) (v : f32) (note : Z) :
  (forall v : f32,
     F32.valid v = true -> is_finite v = true -> (0 <= B32 v < 1)%Q ->
     F32.leb F32.one (F32.add v (ADSR.attack_step attack)) = true \/
     (F32.leb F32.one (F32.add v (ADSR.attack_step attack)) = false /\
      F32.valid (F32.add v (ADSR.attack_step attack)) = true /\
      is_finite (F32.add v (ADSR.attack_step attack)) = true /\
      (B32 v < B32 (F32.add v (ADSR.attack_step attack)) < 1)%Q)) ->
  F32.valid v = true -> is_finite v = true -> (0 <= B32 v < 1)%Q ->
  2 ^ 149 - grid32 v <= Z.of_nat k ->
  exists n vs,
    run (ADSR.mk ADSR.Attack v note) (repeat MIDI.empty (Datatypes.S n)) =
      (vs, ADSR.mk ADSR.Decay F32.one note) /\
    ascending v vs /\ last vs F32.zero = F32.one /\
    forall j, (j <= n)%nat ->
      ADSR.current (snd (run (ADSR.mk ADSR.Attack v note) (repeat MIDI.empty j))) = ADSR.Attack.
Proof.
  intros Hstep. revert v. induction k as [|k IH]; intros v Vv Fv Hv Hk.
  - pose proof (grid32_below_one v Vv Fv Hv). lia.
  - destruct (Hstep v Vv Fv Hv) as [H1 | (H1 & Vw & Fw & Hlt & Hw1)].
    + exists O, [F32.one]. cbn [repeat ADSR.run].
      rewrite (process_attack_quiet v note _ quiet_empty), H1.
      split; [reflexivity|]. split; [|split; [reflexivity|]].
      * cbn [ascending]. split; [|exact I].
        apply (ltb_B _ _ fmt32); try assumption; try reflexivity.
        { destruct v; try reflexivity; discriminate. }
        assert (E1 : (Bval F32.emax F32.one == 1)%Q) by (vm_compute; reflexivity).
        rewrite E1. apply Hv.
      * intros j Hj. assert (j = O) by lia. subst j. reflexivity.
    + set (w := F32.add v (ADSR.attack_step attack)) in *.
      assert (Hg : grid32 v < grid32 w).
      { apply grid32_lt; try assumption. apply Hv. }
      destruct (IH w Vw Fw) as (n & vs & Hrun & Hasc & Hlast & Hst).
      { split; [|exact Hw1]. apply Qle_trans with (B32 v); [apply Hv | apply Qlt_le_weak, Hlt]. }
      { lia. }
      exists (Datatypes.S n), (w :: vs).
      assert (Hp : process (ADSR.mk ADSR.Attack v note) MIDI.empty =
                   (w, ADSR.mk ADSR.Attack w note)).
      { rewrite (process_attack_quiet v note _ quiet_empty). fold w. rewrite H1. reflexivity. }
      split; [|split; [|split]].
      * change (repeat MIDI.empty (Datatypes.S (Datatypes.S n)))
          with (MIDI.empty :: repeat MIDI.empty (Datatypes.S n)).
        cbn [ADSR.run]. rewrite Hp.
        change (MIDI.empty :: repeat MIDI.empty n) with (repeat MIDI.empty (Datatypes.S n)).
        rewrite Hrun. reflexivity.
      * cbn [ascending]. split; [|exact Hasc].
        apply (ltb_B _ _ fmt32); try assumption.
        { destruct v; try reflexivity; discriminate. }
        { destruct w; try reflexivity; discriminate. }
      * destruct vs as [|x r]; [|exact Hlast].
        cbn [repeat ADSR.run] in Hrun.
        destruct (ADSR.process pow (ADSR.mk ADSR.Attack w note) MIDI.empty
                    attack decay sustain release) as [x a1].
        destruct (ADSR.run pow a1 (repeat MIDI.empty n) attack decay sustain release)
          as [r a2].
        discriminate Hrun.
      * intros j Hj. destruct j as [|j]; [reflexivity|].
        cbn [repeat ADSR.run]. rewrite Hp.
        specialize (Hst j ltac:(lia)).
        destruct (ADSR.run pow (ADSR.mk ADSR.Attack w note) (repeat MIDI.empty j)
                    attack decay sustain release) as [vs' a'].
        exact Hst.
Qed.

Lemma attack_loop (k : nat) (v : f32) (note : Z) :
  F32.valid (ADSR.attack_step attack) = true ->
  F32.leb least_step (ADSR.attack_step attack) = true ->
  F32.valid v = true -> is_finite v = true -> (0 <= B32 v < 1)%Q ->
  2 ^ 149 - grid32 v <= Z.of_nat k ->
  exists n vs,
    run (ADSR.mk ADSR.Attack v note) (repeat MIDI.empty (Datatypes.S n)) =
      (vs, ADSR.mk ADSR.Decay F32.one note) /\
    ascending v vs /\ last vs F32.zero = F32.one /\
    forall j, (j <= n)%nat ->
      ADSR.current (snd (run (ADSR.mk ADSR.Attack v note) (repeat MIDI.empty j))) = ADSR.Attack.
Proof.
  intros Vs Hs. apply attack_loop_rising.
  intros w Vw Fw Hw. apply attack_progress; assumption.
Qed.

Lemma attack_loop_half (k : nat) (v : f32) (note : Z) :
  F32.valid (ADSR.attack_step attack) = true ->
  F32.ltb half_step (ADSR.attack_step attack) = true ->
  F32.valid v = true -> is_finite v = true -> (0 <= B32 v < 1)%Q ->
  2 ^ 149 - grid32 v <= Z.of_nat k ->
  exists n vs,
    run (ADSR.mk ADSR.Attack v note) (repeat MIDI.empty (Datatypes.S n)) =
      (vs, ADSR.mk ADSR.Decay F32.one note) /\
    ascending v vs /\ last vs F32.zero = F32.one /\
    forall j, (j <= n)%nat ->
      ADSR.current (snd (run (ADSR.mk ADSR.Attack v note) (repeat MIDI.empty j))) = ADSR.Attack.
Proof.
  intros Vs Hs. apply attack_loop_rising.
  intros w Vw Fw Hw. apply attack_progress_half; assumption.
Qed.

(** With a step below 2^-25 the attack phase never ends: every value
    stays below 1 and the envelope in [Attack]. *)
Lemma attack_stalls (n : nat) (v : f32) (note : Z) :
  F32.valid (ADSR.attack_step attack) = true ->
  F32.leb F32.zero (ADSR.attack_step attack) = true ->
  F32.ltb (ADSR.attack_step attack) half_step = true ->
  F32.valid v = true -> is_finite v = true -> (0 <= B32 v < 1)%Q ->
  ADSR.current (snd (run (ADSR.mk ADSR.Attack v note) (repeat MIDI.empty n))) = ADSR.Attack /\
  Forall (fun x => F32.ltb x F32.one = true)
    (fst (run (ADSR.mk ADSR.Attack v note) (repeat MIDI.empty n))).
Proof.
  intros Vs Hs0 Hs. revert v. induction n as [|n IH]; intros v Vv Fv Hv.
  - split; [reflexivity | constructor].
  - destruct (attack_stall v _ Vv Fv Hv Vs Hs0 Hs) as (H1 & Vw & Fw & Hw).
    cbn [repeat ADSR.run].
    rewrite (process_attack_quiet v note _ quiet_empty), H1.
    destruct (IH _ Vw Fw Hw) as [Hc Hall].
    destruct (ADSR.run pow (ADSR.mk ADSR.Attack (F32.add v (ADSR.attack_step attack)) note)
                (repeat MIDI.empty n) attack decay sustain release) as [vs a'].
    cbn [fst snd] in *. split; [exact Hc|]. constructor; [|exact Hall].
    apply (ltb_B _ _ fmt32); try assumption; try reflexivity.
    + destruct (F32.add v (ADSR.attack_step attack)); try reflexivity; discriminate.
    + assert (E1 : (Bval F32.emax F32.one == 1)%Q) by (vm_compute; reflexivity).
      rewrite E1. apply Hw.
Qed.

(** So it is after a note-on from rest. *)
Lemma attack_stalls_from_rest (e : MIDIEvent) (n : nat) :
  MIDI.is_note_on e = true ->
  F32.valid (ADSR.attack_step attack) = true ->
  F32.leb F32.zero (ADSR.attack_step attack) = true ->
  F32.ltb (ADSR.attack_step attack) half_step = true ->
  ADSR.current (snd (run ADSR.init (e :: repeat MIDI.empty n))) = ADSR.Attack /\
  Forall (fun x => F32.ltb x F32.one = true) (fst (run ADSR.init (e :: repeat MIDI.empty n))).
Proof.
  intros Hon Vs Hs0 Hs.
  assert (Hv : (0 <= B32 F32.zero < 1)%Q) by (split; [apply Qle_refl | reflexivity]).
  pose proof (attack_stalls (Datatypes.S n) F32.zero (data1 e) Vs Hs0 Hs eq_refl eq_refl Hv)
    as H.
  cbn [repeat ADSR.run] in H. cbn [ADSR.run].
  rewrite (process_note_on_rest e Hon). exact H.
Qed.
End ADSRFacts.

(** C6, as amended.  From the initial state (Sustain, value 0, no note):
    (1) events that are neither note-on nor note-off are answered by 0
    and leave the envelope at rest; (2) when the per-tick attack step
    [1000.f / attack * DT] is a [float] above 2^-25 (+infinity
    included), a note-on followed by empty events is answered by values
    that rise strictly from 0 until one of them is exactly 1.0, the
    envelope being in [Attack] after every earlier tick and in [Decay]
    after that one; (3) while a note with a non-zero number is held, a
    note-on only replaces the note number, the state and the value move
    as on a tick without event. *)
Theorem ADSR_envelope (pow : f32 -> f32 -> f32) (attack decay sustain release : f32) :
  (forall events, Forall quiet events ->
     ADSR.run pow ADSR.init events attack decay sustain release =
       (repeat F32.zero (List.length events), ADSR.init)) /\
  (forall e, MIDI.is_note_on e = true ->
     F32.valid (ADSR.attack_step attack) = true ->
     F32.ltb half_step (ADSR.attack_step attack) = true ->
     exists n vs,
       ADSR.run pow ADSR.init (e :: repeat MIDI.empty n) attack decay sustain release =
         (vs, ADSR.mk ADSR.Decay F32.one (data1 e)) /\
       ascending F32.zero vs /\ last vs F32.zero = F32.one /\
       forall j, (j < n)%nat ->
         ADSR.current
           (snd (ADSR.run pow ADSR.init (e :: repeat MIDI.empty j)
                   attack decay sustain release)) = ADSR.Attack) /\
  (forall a e, MIDI.is_note_on e = true -> ADSR.note a <> 0 ->
     ADSR.process pow a e attack decay sustain release =
       (fst (ADSR.process pow a MIDI.empty attack decay sustain release),
        ADSR.mk
          (ADSR.current (snd (ADSR.process pow a MIDI.empty attack decay sustain release)))
          (ADSR.value (snd (ADSR.process pow a MIDI.empty attack decay sustain release)))
          (data1 e))).
Proof.
  split; [|split].
  - apply run_rest.
  - intros e Hon Vs Hs.
    assert (Hv : (0 <= B32 F32.zero < 1)%Q) by (split; [apply Qle_refl | reflexivity]).
    assert (Hk : 2 ^ 149 - grid32 F32.zero <= Z.of_nat (Z.to_nat (2 ^ 149))).
    { rewrite Z2Nat.id by (apply Z.pow_nonneg; lia). change (grid32 F32.zero) with 0. lia. }
    destruct (attack_loop_half pow attack decay sustain release (Z.to_nat (2 ^ 149))
                F32.zero (data1 e) Vs Hs eq_refl eq_refl Hv Hk)
      as (n & vs & Hrun & Hasc & Hlast & Hst).
    exists n, vs.
    assert (Hfirst : forall r,
      ADSR.run pow ADSR.init (e :: r) attack decay sustain release =
      ADSR.run pow (ADSR.mk ADSR.Attack F32.zero (data1 e)) (MIDI.empty :: r)
        attack decay sustain release).
    { intros r. cbn [ADSR.run]. rewrite (process_note_on_rest pow attack decay sustain release e Hon).
      reflexivity. }
    split; [|split; [exact Hasc | split; [exact Hlast|]]].
    + rewrite Hfirst. exact Hrun.
    + intros j Hj. rewrite Hfirst. apply (Hst (Datatypes.S j)). lia.
  - apply process_note_on_held.
Qed.

Lemma ADSR_envelope_witness :
  (F32.ltb half_step (ADSR.attack_step (F32.of_int 500000)) = true /\
   F32.ltb (ADSR.attack_step (F32.of_int 500000)) least_step = true) /\
  (exists n vs,
    ADSR.run (fun _ _ => F32.zero) ADSR.init
      (MIDI.create_note_on 60 100 0 :: repeat MIDI.empty n)
      (F32.of_int 500000) (F32.of_int 100) (F32.dec 5 10) (F32.of_int 200) =
      (vs, ADSR.mk ADSR.Decay F32.one (data1 (MIDI.create_note_on 60 100 0))) /\
    ascending F32.zero vs /\ last vs F32.zero = F32.one /\
    forall j, (j < n)%nat ->
      ADSR.current
        (snd (ADSR.run (fun _ _ => F32.zero) ADSR.init
                (MIDI.create_note_on 60 100 0 :: repeat MIDI.empty j)
                (F32.of_int 500000) (F32.of_int 100) (F32.dec 5 10) (F32.of_int 200))) =
      ADSR.Attack) /\
  ADSR.process (fun _ _ => F32.zero) (ADSR.mk ADSR.Decay F32.one 60)
    (MIDI.create_note_on 64 100 0)
    (F32.of_int 500000) (F32.of_int 100) (F32.dec 5 10) (F32.of_int 200) =
  (F32.dec 5 10, ADSR.mk ADSR.Decay (F32.dec 5 10) 64).
Proof.
  split; [split; reflexivity|]. split.
  - apply (proj1 (proj2 (ADSR_envelope (fun _ _ => F32.zero)
                           (F32.of_int 500000) (F32.of_int 100) (F32.dec 5 10)
                           (F32.of_int 200))));
      reflexivity.
  - rewrite (proj2 (proj2 (ADSR_envelope (fun _ _ => F32.zero)
                             (F32.of_int 500000) (F32.of_int 100) (F32.dec 5 10)
                             (F32.of_int 200)))
               (ADSR.mk ADSR.Decay F32.one 60) (MIDI.create_note_on 64 100 0)
               eq_refl ltac:(discriminate)).
    reflexivity.
Defined.

(** With an infinite attack time the step [1000.f / attack * DT] is 0: the
    envelope enters [Attack] and the value stays 0 for ever. *)
Lemma ADSR_infinite_attack (pow : f32 -> f32 -> f32) (decay sustain release : f32)
    (e : MIDIEvent) (n : nat) :
  MIDI.is_note_on e = true ->
  ADSR.run pow ADSR.init (e :: repeat MIDI.empty n)
    (S754_infinity false) decay sustain release =
  (repeat F32.zero (Datatypes.S n), ADSR.mk ADSR.Attack F32.zero (data1 e)).
Proof.
  intros Hon.
  assert (Hstep :
    ADSR.process pow (ADSR.mk ADSR.Attack F32.zero (data1 e)) MIDI.empty
      (S754_infinity false) decay sustain release =
    (F32.zero, ADSR.mk ADSR.Attack F32.zero (data1 e))).
  { rewrite (process_attack_quiet pow (S754_infinity false) decay sustain release
               F32.zero (data1 e) MIDI.empty quiet_empty).
    reflexivity. }
  assert (Hloop : forall k,
    ADSR.run pow (ADSR.mk ADSR.Attack F32.zero (data1 e)) (repeat MIDI.empty k)
      (S754_infinity false) decay sustain release =
    (repeat F32.zero k, ADSR.mk ADSR.Attack F32.zero (data1 e))).
  { induction k as [|k IH]; [reflexivity|].
    cbn [repeat ADSR.run]. rewrite Hstep, IH. reflexivity. }
  cbn [ADSR.run]. rewrite (process_note_on_rest pow _ decay sustain release e Hon).
  rewrite Hstep, Hloop. reflexivity.
Qed.

(** C6 as stated fails in three ways.  The attack time +infinity is
    above 0, and after the note-on the value is 0 at every tick instead
    of rising to 1.0.  So it is with finite attack times: whenever the
    step [1000.f / attack * DT] is a [float] from 0 to below 2^-25, as
    it is for an attack of 1000000, the envelope stays in [Attack] for
    ever and no value reaches 1.0.  And a held note with the number 0
    counts as no note: with note 0 held and the envelope in [Decay], a
    note-on puts it back into [Attack]. *)
Lemma ADSR_attack_as_stated_fails :
  (F32.ltb F32.zero (S754_infinity false) = true /\
   (forall n,
      ADSR.run (fun _ _ => F32.zero) ADSR.init
        (MIDI.create_note_on 60 100 0 :: repeat MIDI.empty n)
        (S754_infinity false) (F32.of_int 100) (F32.dec 5 10) (F32.of_int 200) =
      (repeat F32.zero (Datatypes.S n), ADSR.mk ADSR.Attack F32.zero 60)) /\
   ~ ascending F32.zero (repeat F32.zero 3)) /\
  (forall pow attack decay sustain release e n,
     MIDI.is_note_on e = true ->
     F32.valid (ADSR.attack_step attack) = true ->
     F32.leb F32.zero (ADSR.attack_step attack) = true ->
     F32.ltb (ADSR.attack_step attack) half_step = true ->
     ADSR.current
       (snd (ADSR.run pow ADSR.init (e :: repeat MIDI.empty n)
               attack decay sustain release)) = ADSR.Attack /\
     Forall (fun x => F32.ltb x F32.one = true)
       (fst (ADSR.run pow ADSR.init (e :: repeat MIDI.empty n)
               attack decay sustain release))) /\
  (F32.ltb F32.zero (F32.of_int 1000000) = true /\
   is_finite (F32.of_int 1000000) = true /\
   forall n,
     ADSR.current
       (snd (ADSR.run (fun _ _ => F32.zero) ADSR.init
               (MIDI.create_note_on 60 100 0 :: repeat MIDI.empty n)
               (F32.of_int 1000000) (F32.of_int 100) (F32.dec 5 10) (F32.of_int 200))) =
     ADSR.Attack /\
     Forall (fun x => F32.ltb x F32.one = true)
       (fst (ADSR.run (fun _ _ => F32.zero) ADSR.init
               (MIDI.create_note_on 60 100 0 :: repeat MIDI.empty n)
               (F32.of_int 1000000) (F32.of_int 100) (F32.dec 5 10) (F32.of_int 200)))) /\
  (snd (ADSR.run (fun _ _ => F32.zero) ADSR.init
          (MIDI.create_note_on 0 100 0 :: repeat MIDI.empty 50)
          (F32.of_int 1) (F32.of_int 100) (F32.dec 5 10) (F32.of_int 200)) =
   ADSR.mk ADSR.Decay (F32.dec 5 10) 0 /\
   ADSR.current
     (snd (ADSR.process (fun _ _ => F32.zero) (ADSR.mk ADSR.Decay (F32.dec 5 10) 0)
             (MIDI.create_note_on 64 100 0)
             (F32.of_int 1) (F32.of_int 100) (F32.dec 5 10) (F32.of_int 200))) =
   ADSR.Attack).
Proof.
  split; [|split; [|split]].
  - split; [reflexivity|]. split.
    + intros n. apply (ADSR_infinite_attack _ _ _ _ (MIDI.create_note_on 60 100 0) n).
      reflexivity.
    + cbn [repeat ascending]. intros [H _]. discriminate H.
  - intros pow attack decay sustain release e n Hon Vs Hs0 Hs.
    apply attack_stalls_from_rest; assumption.
  - split; [reflexivity|]. split; [reflexivity|]. intros n.
    apply attack_stalls_from_rest; reflexivity.
  - split; vm_compute; reflexivity.
Qed.

(** ** Clipping *)

Lemma SFcompare_antisym (x y : spec_float) :
  SFcompare y x = option_map CompOpp (SFcompare x y).
Proof.
  destruct x as [sx|sx| |sx mx ex], y as [sy|sy| |sy my ey]; cbn [SFcompare option_map];
    try reflexivity;
    try (destruct sx; reflexivity); try (destruct sy; reflexivity);
    try (destruct sx, sy; reflexivity).
  rewrite (Z.compare_antisym ex ey).
  change (Pos.compare_cont Eq my mx) with (Pos.compare my mx).
  change (Pos.compare_cont Eq mx my) with (Pos.compare mx my).
  rewrite (Pos.compare_antisym mx my).
  destruct sx, sy; try reflexivity;
    destruct (ex ?= ey); cbn [CompOpp]; try reflexivity;
    destruct (mx ?= my)%positive; reflexivity.
Qed.

Lemma SFcompare_some (x y : spec_float) :
  is_nan x = false -> is_nan y = false -> exists c, SFcompare x y = Some c.
Proof.
  intros Hx Hy. destruct x, y; try discriminate; cbn [SFcompare]; eexists; reflexivity.
Qed.

(** Without NaN the order is total. *)
Lemma ltb_false_leb (x y : spec_float) :
  is_nan x = false -> is_nan y = false -> SFltb x y = false -> SFleb y x = true.
Proof.
  intros Hx Hy. unfold SFltb, SFleb. rewrite (SFcompare_antisym x y).
  destruct (SFcompare_some x y Hx Hy) as (c & ->). destruct c; cbn; congruence.
Qed.

Lemma leb_ltb_false (x y : spec_float) : SFleb x y = true -> SFltb y x = false.
Proof.
  unfold SFltb, SFleb. rewrite (SFcompare_antisym x y).
  destruct (SFcompare x y) as [[]|]; cbn; congruence.
Qed.

(** C8, as amended: for every input that is not NaN, [Clip::process]
    answers a value in [-.9f, .9f], and it answers the input itself
    whenever that lies in [-.9f, .9f]. *)
Theorem Clip_bound (x : f32) :
  is_nan x = false ->
  (F32.leb (SFopp (F32.dec 9 10)) (Clip.process x) = true /\
   F32.leb (Clip.process x) (F32.dec 9 10) = true) /\
  (F32.leb (SFopp (F32.dec 9 10)) x = true -> F32.leb x (F32.dec 9 10) = true ->
   Clip.process x = x).
Proof.
  intros Hx. unfold Clip.process, F32.leb, F32.ltb. split.
  - destruct (SFltb (F32.dec 9 10) x) eqn:H1; [split; reflexivity|].
    destruct (SFltb x (SFopp (F32.dec 9 10))) eqn:H2; [split; reflexivity|].
    split; apply ltb_false_leb; try assumption; reflexivity.
  - intros Hlo Hhi. rewrite (leb_ltb_false _ _ Hhi), (leb_ltb_false _ _ Hlo). reflexivity.
Qed.

Lemma Clip_bound_witness :
  (F32.leb (SFopp (F32.dec 9 10)) (Clip.process (F32.of_int 2)) = true /\
   F32.leb (Clip.process (F32.of_int 2)) (F32.dec 9 10) = true) /\
  (F32.leb (SFopp (F32.dec 9 10)) (F32.of_int 2) = true ->
   F32.leb (F32.of_int 2) (F32.dec 9 10) = true ->
   Clip.process (F32.of_int 2) = F32.of_int 2).
Proof. apply (Clip_bound (F32.of_int 2)). reflexivity. Defined.

(** C8 as stated fails on NaN, which no comparison clips. *)
Lemma Clip_nan_unbounded :
  Clip.process S754_nan = S754_nan /\
  F32.leb (Clip.process S754_nan) (F32.dec 9 10) = false /\
  F32.leb (SFopp (F32.dec 9 10)) (Clip.process S754_nan) = false.
Proof. repeat split. Qed.

(** ** WAV output *)

Lemma SF2Q_Q2 (s : bool) (m : positive) (e : Z) :
  SF2Q (S754_finite s m e) = Q2 (cond_Zopp s (Zpos m)) e.
Proof. reflexivity. Qed.

(** Truncation of a positive mantissa is the integer part of the value. *)
Lemma shiftl_floor (m : positive) (e : Z) :
  Z.shiftl (Zpos m) e = Qfloor (Q2 (Zpos m) e).
Proof.
  destruct (Z_le_gt_dec 0 e) as [He | He].
  - rewrite Z.shiftl_mul_pow2 by lia.
    assert (E : (Q2 (Zpos m) e == inject_Z (Zpos m * 2 ^ e))%Q).
    { unfold Q2. rewrite (pow2_Z e He), inject_Z_mult. reflexivity. }
    rewrite E, Qfloor_Z. reflexivity.
  - rewrite Z.shiftl_div_pow2 by lia.
    assert (E : (Q2 (Zpos m) e == inject_Z (Zpos m) / inject_Z (2 ^ (- e)))%Q).
    { unfold Q2, Qdiv. apply Qmult_comp; [reflexivity|].
      rewrite <- (pow2_Z (- e)) by lia. unfold pow2.
      rewrite <- Qpower_opp, Z.opp_involutive. reflexivity. }
    rewrite E. apply Zdiv_Qdiv.
Qed.

Lemma wrap32_range (n : Z) : - 2 ^ 31 <= wrap32 n < 2 ^ 31.
Proof.
  unfold wrap32. pose proof (Z.mod_pos_bound (n + 2 ^ 31) (2 ^ 32) ltac:(lia)). lia.
Qed.

(** The loop leaves after [count] pulls when the counter does not
    wrap. *)
Lemma frames_loop_pulled {W : Type} (input : Output W Sample) (count : nat) :
  forall (t frames : Z) (w : W),
    - 2 ^ 31 <= t -> frames < 2 ^ 31 - 1 -> Z.of_nat count = Z.max 0 (frames - t + 1) ->
    WAVOutput.frames_loop input (Datatypes.S count) t frames w =
    match frames_bytes (fst (pulled input count t w)) with
    | Some data => Some (data, snd (pulled input count t w))
    | None => None
    end.
Proof.
  induction count as [|k IH]; intros t frames w Ht Hf Hc.
  - cbn [WAVOutput.frames_loop pulled fst snd frames_bytes].
    assert (E : (t <=? frames) = false) by (apply Z.leb_gt; lia).
    rewrite E. reflexivity.
  - assert (E : (t <=? frames) = true) by (apply Z.leb_le; lia).
    change (WAVOutput.frames_loop input (Datatypes.S (Datatypes.S k)) t frames w)
      with (if t <=? frames then
              let '(sample, w1) := input t w in
              match WAVOutput.quantize (left sample), WAVOutput.quantize (right sample) with
              | Some l, Some r =>
                  match WAVOutput.frames_loop input (Datatypes.S k) (wrap32 (t + 1)) frames w1 with
                  | Some (bytes, w2) =>
                      Some (WAVOutput.write 2 l ++ WAVOutput.write 2 r ++ bytes, w2)
                  | None => None
                  end
              | _, _ => None
              end
            else Some ([], w)).
    rewrite E. cbn [pulled]. destruct (input t w) as [s w1].
    rewrite (wrap32_small (t + 1)) by lia.
    rewrite (IH (t + 1) frames w1) by lia.
    destruct (pulled input k (t + 1) w1) as [r w2]. cbn [fst snd frames_bytes].
    unfold frame_bytes.
    destruct (WAVOutput.quantize (left s)) as [l|]; [|reflexivity].
    destruct (WAVOutput.quantize (right s)) as [r'|]; [|reflexivity].
    destruct (frames_bytes r) as [bs|]; [|reflexivity].
    rewrite <- app_assoc. reflexivity.
Qed.

(** More fuel does not change the outcome of a loop that leaves. *)
Lemma frames_loop_fuel {W : Type} (input : Output W Sample) (fuel : nat) :
  forall (t frames : Z) (w : W) (res : list Z * W),
    WAVOutput.frames_loop input fuel t frames w = Some res ->
    WAVOutput.frames_loop input (Datatypes.S fuel) t frames w = Some res.
Proof.
  induction fuel as [|k IH]; intros t frames w res H; [discriminate|].
  change (WAVOutput.frames_loop input (Datatypes.S (Datatypes.S k)) t frames w)
    with (if t <=? frames then
            let '(sample, w1) := input t w in
            match WAVOutput.quantize (left sample), WAVOutput.quantize (right sample) with
            | Some l, Some r =>
                match WAVOutput.frames_loop input (Datatypes.S k) (wrap32 (t + 1)) frames w1 with
                | Some (bytes, w2) =>
                    Some (WAVOutput.write 2 l ++ WAVOutput.write 2 r ++ bytes, w2)
                | None => None
                end
            | _, _ => None
            end
          else Some ([], w)).
  cbn [WAVOutput.frames_loop] in H.
  destruct (t <=? frames); [|exact H].
  destruct (input t w) as [s w1].
  destruct (WAVOutput.quantize (left s)) as [l|]; [|discriminate].
  destruct (WAVOutput.quantize (right s)) as [r|]; [|discriminate].
  destruct (WAVOutput.frames_loop input k (wrap32 (t + 1)) frames w1) as [[bytes w2]|] eqn:E;
    [|discriminate].
  rewrite (IH _ _ _ _ E). exact H.
Qed.

(** With [frames] at the largest [int] the test [t <= frames] never
    fails: the loop does not leave, whatever the fuel. *)
Lemma frames_loop_never_leaves {W : Type} (input : Output W Sample) (fuel : nat) :
  forall (t : Z) (w : W),
    - 2 ^ 31 <= t < 2 ^ 31 ->
    WAVOutput.frames_loop input fuel t (2 ^ 31 - 1) w = None.
Proof.
  induction fuel as [|k IH]; intros t w Ht; [reflexivity|].
  cbn [WAVOutput.frames_loop].
  assert (E : (t <=? 2 ^ 31 - 1) = true) by (apply Z.leb_le; lia).
  rewrite E. destruct (input t w) as [s w1].
  destruct (WAVOutput.quantize (left s)) as [l|]; [|reflexivity].
  destruct (WAVOutput.quantize (right s)) as [r|]; [|reflexivity].
  rewrite (IH (wrap32 (t + 1)) w1 (wrap32_range _)). reflexivity.
Qed.

(** [run] for a frame count below the largest [int]. *)
Lemma run_pulled {W : Type} (input : Output W Sample) (frames : Z) (w : W) :
  frames < 2 ^ 31 - 1 ->
  WAVOutput.run input frames w =
  match frames_bytes (fst (pulled input (Z.to_nat frames) 1 w)) with
  | Some data => Some (WAVOutput.header frames ++ data, snd (pulled input (Z.to_nat frames) 1 w))
  | None => None
  end.
Proof.
  intros Hf. unfold WAVOutput.run.
  rewrite frames_loop_pulled by lia.
  destruct (frames_bytes (fst (pulled input (Z.to_nat frames) 1 w))); reflexivity.
Qed.

Lemma pulled_logged {W : Type} (input : Output W Sample) (count : nat) (t : Z)
    (w : W) (log : list Z) :
  pulled (logged input) count t (w, log) =
  (fst (pulled input count t w), (snd (pulled input count t w), log ++ times_from t count)).
Proof.
  revert t w log. induction count as [|k IH]; intros t w log; cbn [pulled times_from].
  - rewrite app_nil_r. reflexivity.
  - unfold logged at 1. cbn [fst snd]. destruct (input t w) as [s w1].
    rewrite IH. destruct (pulled input k (t + 1) w1) as [r w2]. cbn [fst snd].
    rewrite <- app_assoc. reflexivity.
Qed.

(** The [float] whose conversion is written is a datum of the format. *)
Lemma quantize_arg_valid (x : f32) :
  F32.valid x = true ->
  F32.valid (F32.add (F32.mul x (F32.of_int 32767)) (F32.dec 5 10)) = true.
Proof.
  intros V. destruct x as [s|s| |s m e].
  - destruct s; reflexivity.
  - destruct s; reflexivity.
  - reflexivity.
  - pose proof (mul32 (S754_finite s m e) (F32.of_int 32767) V eq_refl eq_refl eq_refl)
      as (V1 & N1 & _).
    destruct (F32.mul (S754_finite s m e) (F32.of_int 32767)) as [s'|s'| |s' m' e'].
    + destruct s'; reflexivity.
    + destruct s'; reflexivity.
    + discriminate N1.
    + apply (add32 (S754_finite s' m' e') (F32.dec 5 10) V1 eq_refl eq_refl eq_refl).
Qed.

(** C2, as amended.  For a frame count below the largest [int], [run]
    pulls its input exactly at the times 1, 2, ..., [frames], in this
    order and once each, and writes the header followed by four bytes
    per frame, provided every channel value converts to [int16_t].  A
    channel [x] whose [float] [x * 32767.f + .5f] is not negative and
    below 32768 converts, to the integer part of that [float]; nothing
    clamps: from 32768 on there is no conversion, and the run has no
    outcome. *)
Theorem WAVOutput_run_pulls_and_quantizes :
  (forall (W : Type) (input : Output W Sample) (frames : Z) (w : W) (log : list Z),
     frames < 2 ^ 31 - 1 ->
     WAVOutput.run (logged input) frames (w, log) =
     match frames_bytes (fst (pulled input (Z.to_nat frames) 1 w)) with
     | Some data =>
         Some (WAVOutput.header frames ++ data,
               (snd (pulled input (Z.to_nat frames) 1 w),
                log ++ times_from 1 (Z.to_nat frames)))
     | None => None
     end) /\
  (forall x : f32, F32.valid x = true ->
     F32.leb F32.zero (F32.add (F32.mul x (F32.of_int 32767)) (F32.dec 5 10)) = true ->
     F32.ltb (F32.add (F32.mul x (F32.of_int 32767)) (F32.dec 5 10)) (F32.of_int 32768) = true ->
     WAVOutput.quantize x =
       Some (Qfloor (SF2Q (F32.add (F32.mul x (F32.of_int 32767)) (F32.dec 5 10))))) /\
  (forall x : f32, F32.valid x = true ->
     F32.leb (F32.of_int 32768) (F32.add (F32.mul x (F32.of_int 32767)) (F32.dec 5 10)) = true ->
     WAVOutput.quantize x = None).
Proof.
  assert (E8 : (Bval F32.emax (F32.of_int 32768) == inject_Z 32768)%Q)
    by (vm_compute; reflexivity).
  split; [|split].
  - intros W input frames w log Hf.
    rewrite run_pulled by exact Hf. rewrite pulled_logged. cbn [fst snd].
    destruct (frames_bytes (fst (pulled input (Z.to_nat frames) 1 w))); reflexivity.
  - intros x V H0 H1. pose proof (quantize_arg_valid x V) as Vy.
    unfold WAVOutput.quantize, F32.to_sint.
    set (y := F32.add (F32.mul x (F32.of_int 32767)) (F32.dec 5 10)) in *. clearbody y.
    assert (Ny : is_nan y = false) by (apply (leb_not_nan_r F32.zero y), H0).
    apply (ltb_B _ _ fmt32) in H1; try assumption; try reflexivity. rewrite E8 in H1.
    destruct y as [s|s| |s m e]; try discriminate.
    + reflexivity.
    + destruct s; [discriminate H0|].
      exfalso. cbn [Bval] in H1. assert (inject_Z 32768 < pow2 F32.emax)%Q by qlt. lra.
    + destruct s; [vm_compute in H0; discriminate H0|].
      cbn [SFtrunc cond_Zopp]. rewrite shiftl_floor, SF2Q_Q2. cbn [cond_Zopp].
      cbn [Bval cond_Zopp] in H1.
      pose proof (Qfloor_le (Q2 (Zpos m) e)) as Hf.
      assert (Hn : 0 <= Qfloor (Q2 (Zpos m) e)).
      { change 0 with (Qfloor 0). apply Qfloor_resp_le, Qlt_le_weak, Q2_pos. lia. }
      assert (Hu : Qfloor (Q2 (Zpos m) e) < 32768).
      { rewrite Zlt_Qlt. apply Qle_lt_trans with (Q2 (Zpos m) e); assumption. }
      assert (Hc : (- 2 ^ (16 - 1) <=? Qfloor (Q2 (Zpos m) e))
                   && (Qfloor (Q2 (Zpos m) e) <? 2 ^ (16 - 1)) = true).
      { change (2 ^ (16 - 1)) with 32768.
        apply andb_true_iff. split; [apply Z.leb_le | apply Z.ltb_lt]; lia. }
      rewrite Hc. reflexivity.
  - intros x V H0. pose proof (quantize_arg_valid x V) as Vy.
    unfold WAVOutput.quantize, F32.to_sint.
    set (y := F32.add (F32.mul x (F32.of_int 32767)) (F32.dec 5 10)) in *. clearbody y.
    assert (Ny : is_nan y = false) by (apply (leb_not_nan_r (F32.of_int 32768) y), H0).
    apply (leb_B _ _ fmt32) in H0; try assumption; try reflexivity. rewrite E8 in H0.
    destruct y as [s|s| |s m e]; try discriminate.
    + exfalso. cbn [Bval] in H0. revert H0. apply Qlt_not_le. reflexivity.
    + reflexivity.
    + destruct s.
      { exfalso. cbn [Bval cond_Zopp] in H0.
        change (Z.opp (Zpos m)) with (- Zpos m) in H0. rewrite Q2_opp in H0.
        pose proof (Q2_pos (Zpos m) e ltac:(lia)).
        assert (0 < inject_Z 32768)%Q by reflexivity. lra. }
      cbn [SFtrunc cond_Zopp]. rewrite shiftl_floor. cbn [Bval cond_Zopp] in H0.
      assert (Hl : 32768 <= Qfloor (Q2 (Zpos m) e)).
      { change 32768 with (Qfloor (inject_Z 32768)). apply Qfloor_resp_le, H0. }
      assert (Hc : (- 2 ^ (16 - 1) <=? Qfloor (Q2 (Zpos m) e))
                   && (Qfloor (Q2 (Zpos m) e) <? 2 ^ (16 - 1)) = false).
      { change (2 ^ (16 - 1)) with 32768.
        apply andb_false_iff. right. apply Z.ltb_ge. lia. }
      rewrite Hc. reflexivity.
Qed.

Lemma WAVOutput_run_pulls_and_quantizes_witness :
  WAVOutput.run (logged (Value_get (mkSample F32.one F32.zero))) 2 (tt, []) =
    match frames_bytes (fst (pulled (Value_get (mkSample F32.one F32.zero)) (Z.to_nat 2) 1 tt)) with
    | Some data =>
        Some (WAVOutput.header 2 ++ data,
              (snd (pulled (Value_get (mkSample F32.one F32.zero)) (Z.to_nat 2) 1 tt),
               [] ++ times_from 1 (Z.to_nat 2)))
    | None => None
    end /\
  WAVOutput.quantize F32.one =
    Some (Qfloor (SF2Q (F32.add (F32.mul F32.one (F32.of_int 32767)) (F32.dec 5 10)))) /\
  WAVOutput.quantize (F32.of_int 2) = None.
Proof.
  destruct WAVOutput_run_pulls_and_quantizes as (H1 & H2 & H3).
  split; [apply (H1 unit (Value_get (mkSample F32.one F32.zero)) 2 tt []); lia|].
  split; [apply (H2 F32.one); reflexivity | apply (H3 (F32.of_int 2)); reflexivity].
Defined.

(** C2 as stated fails on the quantization: full-scale -1.0 is written as
    -32766 where rounding gives -32767, and 2.0 is not clamped to 32767
    but left without a defined conversion.  It fails on the times at
    the largest [int]: the test [t <= frames] never fails there and the
    loop does not leave, whatever the input. *)
Lemma WAVOutput_quantize_as_stated_fails :
  (WAVOutput.quantize (F32.of_int (-1)) = Some (-32766) /\
   quantize_spec (F32.of_int (-1)) = -32767 /\
   WAVOutput.run (Value_get (mkSample (F32.of_int (-1)) (F32.of_int (-1)))) 1 tt =
     Some (WAVOutput.header 1 ++ [2; 128; 2; 128], tt) /\
   WAVOutput.quantize (F32.of_int 2) = None /\
   quantize_spec (F32.of_int 2) = 32767 /\
   WAVOutput.run (Value_get (mkSample (F32.of_int 2) (F32.of_int 2))) 1 tt = None) /\
  (forall (W : Type) (input : Output W Sample) (w : W),
     (forall fuel, WAVOutput.frames_loop input fuel 1 (2 ^ 31 - 1) w = None) /\
     WAVOutput.run input (2 ^ 31 - 1) w = None).
Proof.
  split; [repeat split; vm_compute; reflexivity|].
  intros W input w.
  assert (H : forall fuel, WAVOutput.frames_loop input fuel 1 (2 ^ 31 - 1) w = None).
  { intros fuel. apply frames_loop_never_leaves. lia. }
  split; [exact H|]. unfold WAVOutput.run. rewrite H. reflexivity.
Qed.

(** The scenario of four frames of silence: 60 bytes, the data all zero. *)
Lemma WAVOutput_silence :
  exists bytes,
    WAVOutput.run (Value_get SampleOps.default) 4 tt = Some (bytes, tt) /\
    List.length bytes = 60%nat /\ skipn 44 bytes = repeat 0 16.
Proof. eexists. split; [vm_compute; reflexivity|]. split; reflexivity. Qed.

(** * Further properties of the code *)

(** ** Ring buffer and queue *)

Lemma size_t_small (n : Z) : 0 <= n < 2 ^ 64 -> size_t n = n.
Proof. intros H. unfold size_t. apply Z.mod_small, H. Qed.

Lemma store_length {A : Type} (l : list A) (i : nat) (x : A) :
  List.length (store l i x) = List.length l.
Proof.
  revert i. induction l as [|a r IH]; intros [|i]; cbn [store List.length]; auto.
Qed.

Lemma nth_store_same {A : Type} (l : list A) (i : nat) (x d : A) :
  (i < List.length l)%nat -> nth i (store l i x) d = x.
Proof.
  revert i. induction l as [|a r IH]; intros [|i] H; cbn [store nth List.length] in *;
    try lia; auto. apply IH. lia.
Qed.

Lemma nth_store_other {A : Type} (l : list A) (i j : nat) (x d : A) :
  i <> j -> nth j (store l i x) d = nth j l d.
Proof.
  revert i j. induction l as [|a r IH]; intros [|i] [|j] H; cbn [store nth]; auto;
    try congruence.
Qed.

Section RingFacts.
Context {T : Type}.
Variable T0 : T.
Implicit Types r : RingBuffer.state T.

Lemma RingBuffer_index_spec r (i : Z) :
  RingBuffer_wf r -> 0 <= i -> i + RingBuffer.ring_N r <= 2 ^ 64 ->
  Z.of_nat (RingBuffer.index r i) = (RingBuffer.start r + i) mod RingBuffer.ring_N r /\
  (RingBuffer.index r i < List.length (RingBuffer.data r))%nat.
Proof.
  intros (HN & HL & HS) Hi Hw. unfold RingBuffer.index.
  rewrite size_t_small by lia.
  pose proof (Z.mod_pos_bound (RingBuffer.start r + i) (RingBuffer.ring_N r) ltac:(lia)).
  split; [lia|]. rewrite HL. lia.
Qed.

Lemma RingBuffer_set_wf r (i : Z) (x : T) :
  RingBuffer_wf r -> RingBuffer_wf (RingBuffer.set r i x).
Proof.
  intros (HN & HL & HS). unfold RingBuffer_wf, RingBuffer.set.
  cbn [RingBuffer.ring_N RingBuffer.data RingBuffer.start]. rewrite store_length. auto.
Qed.

Lemma RingBuffer_inc_wf r : RingBuffer_wf r -> RingBuffer_wf (RingBuffer.inc r).
Proof.
  intros (HN & HL & HS). unfold RingBuffer_wf, RingBuffer.inc.
  cbn [RingBuffer.ring_N RingBuffer.data RingBuffer.start].
  split; [exact HN|]. split; [exact HL|]. apply Z.mod_pos_bound. lia.
Qed.

Lemma RingBuffer_dec_wf r : RingBuffer_wf r -> RingBuffer_wf (RingBuffer.dec r).
Proof.
  intros (HN & HL & HS). unfold RingBuffer_wf, RingBuffer.dec.
  cbn [RingBuffer.ring_N RingBuffer.data RingBuffer.start].
  split; [exact HN|]. split; [exact HL|]. apply Z.mod_pos_bound. lia.
Qed.

Lemma RingBuffer_get_set_same r (i : Z) (x : T) :
  RingBuffer_wf r -> 0 <= i -> i + RingBuffer.ring_N r <= 2 ^ 64 ->
  RingBuffer.get T0 (RingBuffer.set r i x) i = x.
Proof.
  intros W Hi Hw. destruct (RingBuffer_index_spec r i W Hi Hw) as [_ Hlt].
  unfold RingBuffer.get.
  change (RingBuffer.index (RingBuffer.set r i x) i) with (RingBuffer.index r i).
  cbn [RingBuffer.set RingBuffer.data]. apply nth_store_same, Hlt.
Qed.

Lemma RingBuffer_get_set_other r (i j : Z) (x : T) :
  RingBuffer_wf r -> 0 <= i -> i + RingBuffer.ring_N r <= 2 ^ 64 ->
  0 <= j -> j + RingBuffer.ring_N r <= 2 ^ 64 ->
  i mod RingBuffer.ring_N r <> j mod RingBuffer.ring_N r ->
  RingBuffer.get T0 (RingBuffer.set r i x) j = RingBuffer.get T0 r j.
Proof.
  intros W Hi Hwi Hj Hwj Hne.
  destruct (RingBuffer_index_spec r i W Hi Hwi) as [Ei _].
  destruct (RingBuffer_index_spec r j W Hj Hwj) as [Ej _].
  unfold RingBuffer.get.
  change (RingBuffer.index (RingBuffer.set r i x) j) with (RingBuffer.index r j).
  cbn [RingBuffer.set RingBuffer.data]. apply nth_store_other.
  intros E. apply Hne. rewrite E in Ei. rewrite Ei in Ej.
  destruct W as (HN & _ & _).
  assert (H : (RingBuffer.start r + i - (RingBuffer.start r + j)) mod RingBuffer.ring_N r = 0).
  { rewrite Zminus_mod, Ej, Z.sub_diag. apply Z.mod_0_l. lia. }
  replace (RingBuffer.start r + i - (RingBuffer.start r + j)) with (i - j) in H by lia.
  rewrite Zminus_mod in H.
  pose proof (Z.mod_pos_bound i (RingBuffer.ring_N r) ltac:(lia)).
  pose proof (Z.mod_pos_bound j (RingBuffer.ring_N r) ltac:(lia)).
  set (a := i mod RingBuffer.ring_N r) in *. set (b := j mod RingBuffer.ring_N r) in *.
  destruct (Z_lt_le_dec a b).
  - replace (a - b) with (a - b + 1 * RingBuffer.ring_N r - 1 * RingBuffer.ring_N r) in H by lia.
    unfold Z.sub at 1 in H. rewrite <- Z.mul_opp_l in H. rewrite Z.mod_add in H by lia.
    rewrite Z.mod_small in H by lia. lia.
  - rewrite Z.mod_small in H by lia. lia.
Qed.

Lemma RingBuffer_get_inc r (i : Z) :
  RingBuffer_wf r -> 0 <= i -> i + 1 + RingBuffer.ring_N r <= 2 ^ 64 ->
  RingBuffer.get T0 (RingBuffer.inc r) i = RingBuffer.get T0 r (i + 1).
Proof.
  intros W Hi Hw.
  destruct (RingBuffer_index_spec r (i + 1) W ltac:(lia) Hw) as [E1 _].
  destruct (RingBuffer_index_spec (RingBuffer.inc r) i (RingBuffer_inc_wf r W) Hi) as [E2 _].
  { cbn [RingBuffer.inc RingBuffer.ring_N]. lia. }
  unfold RingBuffer.get. cbn [RingBuffer.inc RingBuffer.data].
  f_equal. apply Nat2Z.inj. rewrite E1, E2.
  destruct W as (HN & _ & HS). cbn [RingBuffer.inc RingBuffer.ring_N RingBuffer.start].
  rewrite size_t_small by lia. rewrite Zplus_mod_idemp_l. f_equal. lia.
Qed.

Lemma RingBuffer_dec_inc r : RingBuffer_wf r -> RingBuffer.dec (RingBuffer.inc r) = r.
Proof.
  intros (HN & HL & HS). destruct r as [N d s].
  cbn [RingBuffer.ring_N RingBuffer.data RingBuffer.start] in *.
  unfold RingBuffer.dec, RingBuffer.inc.
  cbn [RingBuffer.ring_N RingBuffer.data RingBuffer.start]. f_equal.
  rewrite (size_t_small (s + 1)) by lia. rewrite (size_t_small (N - 1)) by lia.
  pose proof (Z.mod_pos_bound (s + 1) N ltac:(lia)).
  rewrite size_t_small by lia. rewrite Zplus_mod_idemp_l.
  replace (s + 1 + (N - 1)) with (s + 1 * N) by lia.
  rewrite Z.mod_add by lia. apply Z.mod_small. lia.
Qed.

Lemma RingBuffer_inc_dec r : RingBuffer_wf r -> RingBuffer.inc (RingBuffer.dec r) = r.
Proof.
  intros (HN & HL & HS). destruct r as [N d s].
  cbn [RingBuffer.ring_N RingBuffer.data RingBuffer.start] in *.
  unfold RingBuffer.dec, RingBuffer.inc.
  cbn [RingBuffer.ring_N RingBuffer.data RingBuffer.start]. f_equal.
  rewrite (size_t_small (N - 1)) by lia. rewrite (size_t_small (s + (N - 1))) by lia.
  pose proof (Z.mod_pos_bound (s + (N - 1)) N ltac:(lia)).
  rewrite size_t_small by lia. rewrite Zplus_mod_idemp_l.
  replace (s + (N - 1) + 1) with (s + 1 * N) by lia.
  rewrite Z.mod_add by lia. apply Z.mod_small. lia.
Qed.

Lemma RingBuffer_incs_start (k : nat) r :
  RingBuffer_wf r ->
  RingBuffer_incs k r =
    RingBuffer.mk (RingBuffer.ring_N r) (RingBuffer.data r)
      ((RingBuffer.start r + Z.of_nat k) mod RingBuffer.ring_N r).
Proof.
  revert r. induction k as [|k IH]; intros r W.
  - destruct W as (HN & HL & HS). destruct r as [N d s]. cbn in *.
    rewrite Z.add_0_r, Z.mod_small by lia. reflexivity.
  - cbn [RingBuffer_incs]. rewrite (IH _ (RingBuffer_inc_wf r W)).
    destruct W as (HN & HL & HS).
    cbn [RingBuffer.inc RingBuffer.ring_N RingBuffer.data RingBuffer.start]. f_equal.
    rewrite size_t_small by lia. rewrite Zplus_mod_idemp_l. f_equal. lia.
Qed.
End RingFacts.

Section QueueFacts.
Context {T : Type}.
Variable T0 : T.
Implicit Types q : Queue.state T.

Lemma RingBuffer_index_congr (r : RingBuffer.state T) (i j : Z) :
  RingBuffer_wf r -> 0 <= i -> i + RingBuffer.ring_N r <= 2 ^ 64 ->
  0 <= j -> j + RingBuffer.ring_N r <= 2 ^ 64 ->
  i mod RingBuffer.ring_N r = j mod RingBuffer.ring_N r ->
  RingBuffer.index r i = RingBuffer.index r j.
Proof.
  intros W Hi Hwi Hj Hwj E.
  destruct (RingBuffer_index_spec r i W Hi Hwi) as [Ei _].
  destruct (RingBuffer_index_spec r j W Hj Hwj) as [Ej _].
  apply Nat2Z.inj. rewrite Ei, Ej.
  rewrite (Zplus_mod _ i), (Zplus_mod _ j), E. reflexivity.
Qed.

Lemma Queue_contents_length q :
  List.length (Queue_contents T0 q) = Z.to_nat (Queue.size q).
Proof. unfold Queue_contents. rewrite length_map, length_seq. reflexivity. Qed.

Lemma Queue_put_contents q (x : T) :
  Queue_wf q -> Queue.size q < RingBuffer.ring_N (Queue.buffer q) ->
  Queue_contents T0 (Queue.put q x) = Queue_contents T0 q ++ [x] /\
  Queue_wf (Queue.put q x) /\ Queue.size (Queue.put q x) = Queue.size q + 1.
Proof.
  intros [W [Hs0 Hs1]] Hlt. pose proof W as (HN & HL & HS).
  assert (Esize : size_t (Queue.size q + 1) = Queue.size q + 1) by (apply size_t_small; lia).
  split; [|split].
  - unfold Queue_contents, Queue.put. cbn [Queue.buffer Queue.size]. rewrite Esize.
    replace (Z.to_nat (Queue.size q + 1)) with (S (Z.to_nat (Queue.size q))) by lia.
    rewrite seq_S, map_app. cbn [map Nat.add]. f_equal.
    + apply map_ext_in. intros i Hi. apply in_seq in Hi.
      apply RingBuffer_get_set_other; try assumption; try lia.
      rewrite !Z.mod_small by lia. lia.
    + rewrite Z2Nat.id by lia. f_equal.
      apply RingBuffer_get_set_same; try assumption; lia.
  - split; [apply RingBuffer_set_wf, W|]. cbn [Queue.put Queue.buffer Queue.size].
    rewrite Esize. cbn [RingBuffer.set RingBuffer.ring_N]. lia.
  - cbn [Queue.put Queue.size]. exact Esize.
Qed.

Lemma Queue_take_contents q :
  Queue_wf q -> 0 < Queue.size q ->
  Queue_contents T0 q = fst (Queue.take T0 q) :: Queue_contents T0 (snd (Queue.take T0 q)) /\
  Queue_wf (snd (Queue.take T0 q)) /\
  Queue.size (snd (Queue.take T0 q)) = Queue.size q - 1.
Proof.
  intros [W [Hs0 Hs1]] Hpos. pose proof W as (HN & HL & HS).
  assert (Esize : size_t (Queue.size q - 1) = Queue.size q - 1) by (apply size_t_small; lia).
  unfold Queue.take. cbn [fst snd]. split; [|split].
  - unfold Queue_contents. cbn [Queue.buffer Queue.size]. rewrite Esize.
    replace (Z.to_nat (Queue.size q)) with (S (Z.to_nat (Queue.size q - 1))) by lia.
    cbn [seq map]. f_equal. rewrite <- seq_shift, map_map.
    apply map_ext_in. intros i Hi. apply in_seq in Hi.
    rewrite RingBuffer_get_inc; try assumption; try lia. f_equal. lia.
  - split; [apply RingBuffer_inc_wf, W|]. cbn [Queue.buffer Queue.size].
    rewrite Esize. cbn [RingBuffer.inc RingBuffer.ring_N]. lia.
  - cbn [Queue.size]. exact Esize.
Qed.

Lemma Queue_puts_contents (xs : list T) :
  forall q, Queue_wf q ->
    Queue.size q + Z.of_nat (List.length xs) <= RingBuffer.ring_N (Queue.buffer q) ->
    Queue_contents T0 (Queue_puts q xs) = Queue_contents T0 q ++ xs /\
    Queue_wf (Queue_puts q xs) /\
    Queue.size (Queue_puts q xs) = Queue.size q + Z.of_nat (List.length xs) /\
    RingBuffer.ring_N (Queue.buffer (Queue_puts q xs)) = RingBuffer.ring_N (Queue.buffer q).
Proof.
  induction xs as [|x r IH]; intros q W Hlen.
  - cbn [Queue_puts fold_left List.length]. rewrite app_nil_r, Z.add_0_r. auto.
  - cbn [List.length] in Hlen. rewrite Nat2Z.inj_succ in Hlen.
    destruct (Queue_put_contents q x W ltac:(lia)) as (Hc & W' & Hs).
    unfold Queue_puts. cbn [fold_left]. fold (Queue_puts (Queue.put q x) r).
    assert (HN : RingBuffer.ring_N (Queue.buffer (Queue.put q x)) =
                 RingBuffer.ring_N (Queue.buffer q)) by reflexivity.
    destruct (IH (Queue.put q x) W' ltac:(rewrite HN, Hs; lia)) as (H1 & H2 & H3 & H4).
    rewrite H1, Hc, <- app_assoc. cbn [app List.length].
    split; [reflexivity|]. split; [exact H2|]. split; [rewrite H3, Hs; lia|].
    rewrite H4. exact HN.
Qed.

Lemma Queue_takes_contents (k : nat) :
  forall q, Queue_wf q -> Z.of_nat k <= Queue.size q ->
    Queue_contents T0 q =
      fst (Queue_takes T0 k q) ++ Queue_contents T0 (snd (Queue_takes T0 k q)) /\
    Queue_wf (snd (Queue_takes T0 k q)) /\
    Queue.size (snd (Queue_takes T0 k q)) = Queue.size q - Z.of_nat k /\
    List.length (fst (Queue_takes T0 k q)) = k.
Proof.
  induction k as [|k IH]; intros q W Hk.
  - cbn [Queue_takes fst snd app List.length]. rewrite Z.sub_0_r. auto.
  - rewrite Nat2Z.inj_succ in Hk.
    destruct (Queue_take_contents q W ltac:(lia)) as (Hc & W' & Hs).
    cbn [Queue_takes]. destruct (Queue.take T0 q) as [x q1]. cbn [fst snd] in Hc, W', Hs.
    destruct (IH q1 W' ltac:(lia)) as (H1 & H2 & H3 & H4).
    destruct (Queue_takes T0 k q1) as [xs q2]. cbn [fst snd] in *.
    rewrite Hc, H1. cbn [app List.length].
    split; [reflexivity|]. split; [exact H2|]. split; [lia|]. rewrite H4. reflexivity.
Qed.

Lemma Queue_init_wf (N : Z) : 0 < N <= 2 ^ 63 -> Queue_wf (Queue.init T0 N).
Proof.
  intros H. unfold Queue_wf, RingBuffer_wf, Queue.init, RingBuffer.init.
  cbn [Queue.buffer Queue.size RingBuffer.ring_N RingBuffer.data RingBuffer.start].
  rewrite repeat_length. lia.
Qed.
End QueueFacts.

Lemma RingBuffer_init_wf {T : Type} (T0 : T) (N : Z) :
  0 < N <= 2 ^ 63 -> RingBuffer_wf (RingBuffer.init T0 N).
Proof.
  intros H. unfold RingBuffer_wf, RingBuffer.init.
  cbn [RingBuffer.ring_N RingBuffer.data RingBuffer.start]. rewrite repeat_length. lia.
Qed.

Lemma RingBuffer_index_lt {T : Type} (r : RingBuffer.state T) (i : Z) :
  RingBuffer_wf r -> (RingBuffer.index r i < List.length (RingBuffer.data r))%nat.
Proof.
  intros (HN & HL & HS). unfold RingBuffer.index. rewrite HL.
  pose proof (Z.mod_pos_bound (size_t (RingBuffer.start r + i)) (RingBuffer.ring_N r)
                ltac:(lia)).
  lia.
Qed.

(** An index that wraps: in a ring of 3 elements with [start] at 2,
    [buffer[2^64 - 1]] and [buffer[2]] are the same element, although
    [2^64 - 1] and [2] differ modulo 3. *)
Lemma RingBuffer_wrapping_index :
  RingBuffer.index (RingBuffer.mk 3 [0; 0; 0] 2) (2 ^ 64 - 1) =
  RingBuffer.index (RingBuffer.mk 3 [0; 0; 0] 2) 2 /\
  (2 ^ 64 - 1) mod 3 <> 2 mod 3.
Proof. split; [reflexivity | discriminate]. Qed.

(** X1: in a ring of [N] elements, after [buffer[i] = x] a read of
    [buffer[j]] gives [x] when [j] designates the element [i] designates,
    [data[(start + i) % N]] with the sum taken in [size_t], and what it
    gave before otherwise, for all indices.  For indices from 0 to
    [2^64 - N], where [start + i] does not wrap, [i] and [j] designate
    the same element exactly when they are equal modulo [N]. *)
Theorem RingBuffer_write_read {T : Type} (T0 : T) (r : RingBuffer.state T) (i j : Z) (x : T) :
  RingBuffer_wf r ->
  RingBuffer.get T0 (RingBuffer.set r i x) j =
    (if Nat.eqb (RingBuffer.index r i) (RingBuffer.index r j) then x
     else RingBuffer.get T0 r j) /\
  (0 <= i -> i + RingBuffer.ring_N r <= 2 ^ 64 ->
   0 <= j -> j + RingBuffer.ring_N r <= 2 ^ 64 ->
   (RingBuffer.index r i = RingBuffer.index r j <->
    i mod RingBuffer.ring_N r = j mod RingBuffer.ring_N r)).
Proof.
  intros W. split.
  - unfold RingBuffer.get.
    change (RingBuffer.index (RingBuffer.set r i x) j) with (RingBuffer.index r j).
    cbn [RingBuffer.set RingBuffer.data].
    destruct (Nat.eqb (RingBuffer.index r i) (RingBuffer.index r j)) eqn:E.
    + apply Nat.eqb_eq in E. rewrite <- E. apply nth_store_same, RingBuffer_index_lt, W.
    + apply Nat.eqb_neq in E. apply nth_store_other, E.
  - intros Hi Hwi Hj Hwj.
    destruct (RingBuffer_index_spec r i W Hi Hwi) as [Ei _].
    destruct (RingBuffer_index_spec r j W Hj Hwj) as [Ej _].
    pose proof W as (HN & _ & _).
    split; intros E.
    + rewrite E in Ei. rewrite Ei in Ej.
      assert (H : (RingBuffer.start r + i - (RingBuffer.start r + j))
                    mod RingBuffer.ring_N r = 0).
      { rewrite Zminus_mod, Ej, Z.sub_diag. apply Z.mod_0_l. lia. }
      replace (RingBuffer.start r + i - (RingBuffer.start r + j)) with (i - j) in H by lia.
      rewrite Zminus_mod in H.
      pose proof (Z.mod_pos_bound i (RingBuffer.ring_N r) ltac:(lia)) as Bi.
      pose proof (Z.mod_pos_bound j (RingBuffer.ring_N r) ltac:(lia)) as Bj.
      destruct (Z.eq_dec (i mod RingBuffer.ring_N r) (j mod RingBuffer.ring_N r))
        as [|Hne]; [assumption|].
      exfalso.
      destruct (Z_lt_le_dec (i mod RingBuffer.ring_N r) (j mod RingBuffer.ring_N r)).
      * rewrite <- (Z.mod_add _ 1) in H by lia. rewrite Z.mod_small in H by lia. lia.
      * rewrite Z.mod_small in H by lia. lia.
    + apply RingBuffer_index_congr; assumption.
Qed.

Lemma RingBuffer_write_read_witness :
  RingBuffer.get 0 (RingBuffer.set (RingBuffer.init 0 4) 5 7) 1 =
    (if Nat.eqb (RingBuffer.index (RingBuffer.init 0 4) 5)
                (RingBuffer.index (RingBuffer.init 0 4) 1)
     then 7 else RingBuffer.get 0 (RingBuffer.init 0 4) 1) /\
  (RingBuffer.index (RingBuffer.init 0 4) 5 = RingBuffer.index (RingBuffer.init 0 4) 1 <->
   5 mod RingBuffer.ring_N (RingBuffer.init 0 4) = 1 mod RingBuffer.ring_N (RingBuffer.init 0 4)).
Proof.
  destruct (RingBuffer_write_read 0 (RingBuffer.init 0 4) 5 1 7
              (RingBuffer_init_wf 0 4 ltac:(lia))) as [H1 H2].
  split; [exact H1|].
  apply H2; cbn [RingBuffer.init RingBuffer.ring_N]; lia.
Defined.

(** X2: [++] moves the window of a ring by one element: what was
    [buffer[i + 1]] is [buffer[i]] afterwards; [--] undoes [++] and [++]
    undoes [--]; and [N] times [++] brings the ring back to where it
    was. *)
Theorem RingBuffer_rotation {T : Type} (T0 : T) (r : RingBuffer.state T) :
  RingBuffer_wf r ->
  (forall i, 0 <= i -> i + 1 + RingBuffer.ring_N r <= 2 ^ 64 ->
     RingBuffer.get T0 (RingBuffer.inc r) i = RingBuffer.get T0 r (i + 1)) /\
  RingBuffer.dec (RingBuffer.inc r) = r /\
  RingBuffer.inc (RingBuffer.dec r) = r /\
  RingBuffer_incs (Z.to_nat (RingBuffer.ring_N r)) r = r.
Proof.
  intros W. split; [|split; [|split]].
  - intros i Hi Hw. apply RingBuffer_get_inc; assumption.
  - apply RingBuffer_dec_inc, W.
  - apply RingBuffer_inc_dec, W.
  - rewrite RingBuffer_incs_start by exact W. destruct W as (HN & HL & HS).
    destruct r as [N d s]. cbn [RingBuffer.ring_N RingBuffer.data RingBuffer.start] in *.
    f_equal. rewrite Z2Nat.id by lia. replace (s + N) with (s + 1 * N) by lia.
    rewrite Z.mod_add by lia. apply Z.mod_small. lia.
Qed.

Lemma RingBuffer_rotation_witness :
  RingBuffer.dec (RingBuffer.inc (RingBuffer.init 0 4)) = RingBuffer.init 0 4.
Proof.
  apply (RingBuffer_rotation 0 (RingBuffer.init 0 4)). apply RingBuffer_init_wf. lia.
Defined.

(** X3: a queue that holds at most [N] elements is a first-in first-out
    list: [put] appends to what it holds when there is room, [take]
    answers and removes the oldest element when there is one, and
    [is_empty] tells whether it holds nothing. *)
Theorem Queue_fifo {T : Type} (T0 : T) (q : Queue.state T) :
  Queue_wf q ->
  (forall x, Queue.size q < RingBuffer.ring_N (Queue.buffer q) ->
     Queue_contents T0 (Queue.put q x) = Queue_contents T0 q ++ [x] /\
     Queue_wf (Queue.put q x)) /\
  (forall x rest, Queue_contents T0 q = x :: rest ->
     fst (Queue.take T0 q) = x /\
     Queue_contents T0 (snd (Queue.take T0 q)) = rest /\
     Queue_wf (snd (Queue.take T0 q))) /\
  (Queue.is_empty q = true <-> Queue_contents T0 q = []).
Proof.
  intros W. split; [|split].
  - intros x Hlt. destruct (Queue_put_contents T0 q x W Hlt) as (H1 & H2 & _). auto.
  - intros x rest Hc.
    assert (Hpos : 0 < Queue.size q).
    { pose proof (Queue_contents_length T0 q) as HL. rewrite Hc in HL. cbn in HL.
      destruct W as [_ [H0 _]]. lia. }
    destruct (Queue_take_contents T0 q W Hpos) as (H1 & H2 & _).
    rewrite Hc in H1. injection H1 as E1 E2. auto.
  - pose proof (Queue_contents_length T0 q) as HL. destruct W as [_ [H0 _]].
    unfold Queue.is_empty. rewrite Z.eqb_eq. split; intros H.
    + apply length_zero_iff_nil. rewrite HL, H. reflexivity.
    + rewrite H in HL. cbn in HL. lia.
Qed.

Lemma Queue_fifo_witness :
  (Queue_contents 0 (Queue.put (Queue_puts (Queue.init 0 4) [5; 6]) 7) =
     Queue_contents 0 (Queue_puts (Queue.init 0 4) [5; 6]) ++ [7] /\
   Queue_wf (Queue.put (Queue_puts (Queue.init 0 4) [5; 6]) 7)) /\
  (fst (Queue.take 0 (Queue_puts (Queue.init 0 4) [5; 6])) = 5 /\
   Queue_contents 0 (snd (Queue.take 0 (Queue_puts (Queue.init 0 4) [5; 6]))) = [6] /\
   Queue_wf (snd (Queue.take 0 (Queue_puts (Queue.init 0 4) [5; 6])))) /\
  (Queue.is_empty (Queue_puts (Queue.init 0 4) [5; 6]) = true <->
   Queue_contents 0 (Queue_puts (Queue.init 0 4) [5; 6]) = []).
Proof.
  assert (W : Queue_wf (Queue_puts (Queue.init 0 4) [5; 6])).
  { apply (Queue_puts_contents 0 [5; 6] (Queue.init 0 4) (Queue_init_wf 0 4 ltac:(lia))).
    cbn. lia. }
  destruct (Queue_fifo 0 (Queue_puts (Queue.init 0 4) [5; 6]) W) as (H1 & H2 & H3).
  split; [apply H1; cbn; lia|]. split; [apply (H2 5 [6]); reflexivity | exact H3].
Defined.

(** X4: what is put into an empty queue of capacity [N], up to [N]
    elements, is taken out in the same order, and the queue is empty
    again. *)
Theorem Queue_round_trip {T : Type} (T0 : T) (N : Z) (xs : list T) :
  0 < N <= 2 ^ 63 -> Z.of_nat (List.length xs) <= N ->
  fst (Queue_takes T0 (List.length xs) (Queue_puts (Queue.init T0 N) xs)) = xs /\
  Queue.is_empty (snd (Queue_takes T0 (List.length xs) (Queue_puts (Queue.init T0 N) xs))) = true.
Proof.
  intros HN Hlen.
  destruct (Queue_puts_contents T0 xs (Queue.init T0 N) (Queue_init_wf T0 N HN))
    as (H1 & H2 & H3 & _).
  { cbn [Queue.init Queue.size Queue.buffer RingBuffer.init RingBuffer.ring_N]. lia. }
  cbn [Queue.init Queue.size] in H3. rewrite Z.add_0_l in H3.
  change (Queue_contents T0 (Queue.init T0 N)) with (@nil T) in H1. cbn [app] in H1.
  destruct (Queue_takes_contents T0 (List.length xs) _ H2 ltac:(lia)) as (H4 & H5 & H6 & H7).
  set (r := Queue_takes T0 (List.length xs) (Queue_puts (Queue.init T0 N) xs)) in *.
  rewrite H3, Z.sub_diag in H6.
  assert (E : Queue_contents T0 (snd r) = []).
  { apply length_zero_iff_nil. rewrite Queue_contents_length, H6. reflexivity. }
  rewrite E, app_nil_r, H1 in H4. split; [symmetry; exact H4|].
  unfold Queue.is_empty. rewrite H6. reflexivity.
Qed.

Lemma Queue_round_trip_witness :
  fst (Queue_takes 0 3 (Queue_puts (Queue.init 0 4) [5; 6; 7])) = [5; 6; 7] /\
  Queue.is_empty (snd (Queue_takes 0 3 (Queue_puts (Queue.init 0 4) [5; 6; 7]))) = true.
Proof. apply (Queue_round_trip 0 4 [5; 6; 7]); cbn; lia. Defined.

(** X5: the queue checks neither bound.  [put] on a full queue
    overwrites the oldest element, which the next [take] then answers in
    its place, and counts [N + 1] elements; [take] on an empty queue
    wraps the count to 2^64 - 1, after which [is_empty] answers false. *)
Theorem Queue_unchecked {T : Type} (T0 : T) (q : Queue.state T) :
  Queue_wf q ->
  (forall x, Queue.size q = RingBuffer.ring_N (Queue.buffer q) ->
     fst (Queue.take T0 (Queue.put q x)) = x /\
     Queue.size (Queue.put q x) = RingBuffer.ring_N (Queue.buffer q) + 1) /\
  (Queue.size q = 0 ->
     Queue.size (snd (Queue.take T0 q)) = 2 ^ 64 - 1 /\
     Queue.is_empty (snd (Queue.take T0 q)) = false).
Proof.
  intros [W [Hs0 Hs1]]. pose proof W as (HN & HL & HS). split.
  - intros x Hfull. split.
    + unfold Queue.take, Queue.put. cbn [fst Queue.buffer Queue.size].
      unfold RingBuffer.get.
      change (RingBuffer.index (RingBuffer.set (Queue.buffer q) (Queue.size q) x) 0)
        with (RingBuffer.index (Queue.buffer q) 0).
      rewrite (RingBuffer_index_congr (Queue.buffer q) 0 (Queue.size q)); try assumption; try lia.
      * cbn [RingBuffer.set RingBuffer.data]. apply nth_store_same.
        apply (RingBuffer_index_spec (Queue.buffer q) (Queue.size q)); try assumption; lia.
      * rewrite Hfull, Z.mod_same, Z.mod_0_l by lia. reflexivity.
    + cbn [Queue.put Queue.size]. rewrite size_t_small by lia. lia.
  - intros Hz. unfold Queue.take, Queue.is_empty. cbn [snd Queue.size]. rewrite Hz.
    split; reflexivity.
Qed.

Lemma Queue_unchecked_witness :
  Queue.size (snd (Queue.take 0 (Queue.init 0 2))) = 2 ^ 64 - 1 /\
  Queue.is_empty (snd (Queue.take 0 (Queue.init 0 2))) = false.
Proof.
  apply (Queue_unchecked 0 (Queue.init 0 2)); [apply Queue_init_wf; lia | reflexivity].
Defined.

(** ** MIDI events *)

Lemma land_F0_80 (s : Z) : Z.land s 0xF0 = 0x90 -> Z.land s 0x80 = 0x80.
Proof.
  intros H. replace 0x80 with (Z.land 0xF0 0x80) at 1 by reflexivity.
  rewrite Z.land_assoc, H. reflexivity.
Qed.

Lemma land_F0_80' (s : Z) : Z.land s 0xF0 = 0x80 -> Z.land s 0x80 = 0x80.
Proof.
  intros H. replace 0x80 with (Z.land 0xF0 0x80) at 1 by reflexivity.
  rewrite Z.land_assoc, H. reflexivity.
Qed.

Lemma channel_cases (c : Z) :
  0 <= c < 16 ->
  In c [0; 1; 2; 3; 4; 5; 6; 7; 8; 9; 10; 11; 12; 13; 14; 15].
Proof. intros H. cbn [In]. lia. Qed.

Lemma note_status (c : Z) :
  0 <= c < 16 ->
  (Z.land (to_uchar (Z.lor 0x90 (to_uchar c))) 0xF0 = 0x90 /\
   Z.land (to_uchar (Z.lor 0x90 (to_uchar c))) 0x0F = c) /\
  (Z.land (to_uchar (Z.lor 0x80 (to_uchar c))) 0xF0 = 0x80 /\
   Z.land (to_uchar (Z.lor 0x80 (to_uchar c))) 0x0F = c).
Proof.
  intros H. apply channel_cases in H. cbn [In] in H.
  repeat (destruct H as [<- | H]; [repeat split; reflexivity|]). contradiction.
Qed.

(** X6: a note-on built for a note, a velocity and a channel below 16
    is recognised as a note-on and not as a note-off, converts to true,
    and gives back its channel, note and velocity; likewise a note-off;
    and no event at all is both, while every note-on and every note-off
    converts to true. *)
Theorem MIDIEvent_round_trip (note velocity channel : Z) :
  0 <= note < 256 -> 0 <= velocity < 256 -> 0 <= channel < 16 ->
  (let e := MIDI.create_note_on note velocity channel in
   MIDI.is_note_on e = true /\ MIDI.is_note_off e = false /\ MIDI.to_bool e = true /\
   MIDI.get_channel e = channel /\ data1 e = note /\ data2 e = velocity) /\
  (let e := MIDI.create_note_off note velocity channel in
   MIDI.is_note_off e = true /\ MIDI.is_note_on e = false /\ MIDI.to_bool e = true /\
   MIDI.get_channel e = channel /\ data1 e = note /\ data2 e = velocity) /\
  (forall e, MIDI.is_note_on e = true ->
     MIDI.is_note_off e = false /\ MIDI.to_bool e = true) /\
  (forall e, MIDI.is_note_off e = true ->
     MIDI.is_note_on e = false /\ MIDI.to_bool e = true).
Proof.
  intros Hn Hv Hc. destruct (note_status channel Hc) as [[On1 On2] [Off1 Off2]].
  split; [|split; [|split]].
  - cbv zeta. unfold MIDI.is_note_on, MIDI.is_note_off, MIDI.to_bool, MIDI.get_channel,
      MIDI.create_note_on, MIDI.make. cbn [status data1 data2].
    rewrite On1, On2, (land_F0_80 _ On1), !(to_uchar_small note Hn), !(to_uchar_small velocity Hv).
    repeat split.
  - cbv zeta. unfold MIDI.is_note_on, MIDI.is_note_off, MIDI.to_bool, MIDI.get_channel,
      MIDI.create_note_off, MIDI.make. cbn [status data1 data2].
    rewrite Off1, Off2, (land_F0_80' _ Off1), !(to_uchar_small note Hn),
      !(to_uchar_small velocity Hv).
    repeat split.
  - intros e H. unfold MIDI.is_note_on, MIDI.is_note_off, MIDI.to_bool in *.
    apply Z.eqb_eq in H. rewrite H, (land_F0_80 _ H). split; reflexivity.
  - intros e H. unfold MIDI.is_note_on, MIDI.is_note_off, MIDI.to_bool in *.
    apply Z.eqb_eq in H. rewrite H, (land_F0_80' _ H). split; reflexivity.
Qed.

Lemma MIDIEvent_round_trip_witness :
  let e := MIDI.create_note_on 60 100 9 in
  MIDI.is_note_on e = true /\ MIDI.is_note_off e = false /\ MIDI.to_bool e = true /\
  MIDI.get_channel e = 9 /\ data1 e = 60 /\ data2 e = 100.
Proof. apply (MIDIEvent_round_trip 60 100 9); lia. Defined.

(** ** Patterns behind a queue *)

Lemma patterns_process_events (ps : list NotePattern.state) (clock : MIDIEvent) :
  forall q,
    Pattern.patterns_process ps clock q =
    match Pattern_events ps clock with
    | Some (es, ps') => Some (ps', Queue_puts q (filter MIDI.to_bool es))
    | None => None
    end.
Proof.
  induction ps as [|p r IH]; intros q; cbn [Pattern.patterns_process Pattern_events].
  - reflexivity.
  - destruct (NotePattern.process p clock) as [[e p']|]; [|reflexivity].
    rewrite IH. destruct (Pattern_events r clock) as [[es r']|]; [|reflexivity].
    cbn [filter]. destruct (MIDI.to_bool e); reflexivity.
Qed.

Lemma Pattern_process_pending (s : Pattern.state) (clock : MIDIEvent)
    (es : list MIDIEvent) (ps' : list NotePattern.state) :
  Queue_wf (Pattern.queue s) ->
  Pattern_events (Pattern.patterns s) clock = Some (es, ps') ->
  Z.of_nat (List.length (Queue_contents MIDI.empty (Pattern.queue s) ++ filter MIDI.to_bool es))
    <= RingBuffer.ring_N (Queue.buffer (Pattern.queue s)) ->
  exists s',
    Pattern.process s clock =
      Some (hd MIDI.empty (Queue_contents MIDI.empty (Pattern.queue s) ++ filter MIDI.to_bool es),
            s') /\
    Pattern.patterns s' = ps' /\
    Queue_contents MIDI.empty (Pattern.queue s') =
      tl (Queue_contents MIDI.empty (Pattern.queue s) ++ filter MIDI.to_bool es) /\
    Queue_wf (Pattern.queue s') /\
    RingBuffer.ring_N (Queue.buffer (Pattern.queue s')) =
      RingBuffer.ring_N (Queue.buffer (Pattern.queue s)).
Proof.
  intros W He Hlen. unfold Pattern.process. rewrite patterns_process_events, He.
  set (q := Pattern.queue s) in *. set (evs := filter MIDI.to_bool es) in *.
  rewrite length_app, Nat2Z.inj_add, Queue_contents_length in Hlen.
  destruct W as [Wr [Hs0 Hs1]].
  destruct (Queue_puts_contents MIDI.empty evs q (conj Wr (conj Hs0 Hs1)) ltac:(lia))
    as (Hc & W' & Hsz & HN).
  set (q1 := Queue_puts q evs) in *. rewrite <- Hc.
  destruct (Queue.is_empty q1) eqn:Eempty; cbn [negb].
  - exists (Pattern.mk ps' q1).
    assert (E : Queue_contents MIDI.empty q1 = []).
    { apply length_zero_iff_nil. rewrite Queue_contents_length.
      unfold Queue.is_empty in Eempty. apply Z.eqb_eq in Eempty. rewrite Eempty. reflexivity. }
    rewrite E. cbn [hd tl Pattern.patterns Pattern.queue]. rewrite E. auto.
  - assert (Hpos : 0 < Queue.size q1).
    { unfold Queue.is_empty in Eempty. apply Z.eqb_neq in Eempty. destruct W' as [_ [H0 _]]. lia. }
    destruct (Queue_take_contents MIDI.empty q1 W' Hpos) as (H1 & H2 & H3).
    destruct (Queue.take MIDI.empty q1) as [e q2] eqn:Et. cbn [fst snd] in H1, H2, H3.
    exists (Pattern.mk ps' q2). rewrite H1. cbn [hd tl Pattern.patterns Pattern.queue].
    split; [reflexivity|]. split; [reflexivity|]. split; [reflexivity|]. split; [exact H2|].
    rewrite <- HN. unfold Queue.take in Et. injection Et as _ <-. reflexivity.
Qed.

Lemma Pattern_process_undefined (s : Pattern.state) (clock : MIDIEvent) :
  Pattern_events (Pattern.patterns s) clock = None -> Pattern.process s clock = None.
Proof.
  intros He. unfold Pattern.process. rewrite patterns_process_events, He. reflexivity.
Qed.

(** X7: [Pattern] delivers the events of its patterns first in, first
    out, one per call.  With the events still queued followed by those
    the patterns answer to this clock input ([operator bool] holding of
    them), in the order of the patterns, and no more than [N] in all, the
    call answers the first of them, or [MIDIEvent()] when there is none,
    and keeps the others queued in order. *)
Theorem Pattern_delivers_in_order (s : Pattern.state) (clock : MIDIEvent)
    (es : list MIDIEvent) (ps' : list NotePattern.state) :
  Queue_wf (Pattern.queue s) ->
  Pattern_events (Pattern.patterns s) clock = Some (es, ps') ->
  Z.of_nat (List.length (Queue_contents MIDI.empty (Pattern.queue s) ++ filter MIDI.to_bool es))
    <= RingBuffer.ring_N (Queue.buffer (Pattern.queue s)) ->
  exists s',
    Pattern.process s clock =
      Some (hd MIDI.empty (Queue_contents MIDI.empty (Pattern.queue s) ++ filter MIDI.to_bool es),
            s') /\
    Pattern.patterns s' = ps' /\
    Queue_contents MIDI.empty (Pattern.queue s') =
      tl (Queue_contents MIDI.empty (Pattern.queue s) ++ filter MIDI.to_bool es) /\
    Queue_wf (Pattern.queue s').
Proof.
  intros W He Hlen.
  destruct (Pattern_process_pending s clock es ps' W He Hlen) as (s' & H1 & H2 & H3 & H4 & _).
  exists s'. auto.
Qed.

Lemma NotePattern_event_kind (p : NotePattern.state) (clock e : MIDIEvent)
    (p' : NotePattern.state) :
  NotePattern.process p clock = Some (e, p') -> e = MIDI.empty \/ MIDI.to_bool e = true.
Proof.
  unfold NotePattern.process. intros H.
  destruct (status clock =? 248); [|injection H as <- _; left; reflexivity].
  destruct (Z.rem (NotePattern.t p) 6 =? 0).
  - destruct (char_at _ _) as [c|]; [|discriminate]. injection H as <- _.
    destruct (andb _ _); [right; reflexivity | left; reflexivity].
  - destruct (Z.rem (NotePattern.t p) 6 =? 5).
    + destruct (char_at _ _) as [prev|]; [|discriminate].
      destruct (char_at _ _) as [c|]; [|discriminate].
      destruct (char_at _ _) as [next|]; [|discriminate]. injection H as <- _.
      destruct (andb _ _); [right; reflexivity | left; reflexivity].
    + injection H as <- _. left; reflexivity.
Qed.

Lemma Pattern_single_step (s : Pattern.state) (p : NotePattern.state) (clock : MIDIEvent) :
  Pattern.patterns s = [p] -> Queue_wf (Pattern.queue s) ->
  RingBuffer.ring_N (Queue.buffer (Pattern.queue s)) = 1 -> Queue.size (Pattern.queue s) = 0 ->
  match NotePattern.process p clock with
  | Some (e, p') =>
      exists s', Pattern.process s clock = Some (e, s') /\
        Pattern.patterns s' = [p'] /\ Queue_wf (Pattern.queue s') /\
        RingBuffer.ring_N (Queue.buffer (Pattern.queue s')) = 1 /\
        Queue.size (Pattern.queue s') = 0
  | None => Pattern.process s clock = None
  end.
Proof.
  intros Hp W HN Hs.
  destruct (NotePattern.process p clock) as [[e p']|] eqn:Ep.
  - assert (He : Pattern_events (Pattern.patterns s) clock = Some ([e], [p'])).
    { rewrite Hp. cbn [Pattern_events]. rewrite Ep. reflexivity. }
    assert (Hq : Queue_contents MIDI.empty (Pattern.queue s) = []).
    { apply length_zero_iff_nil. rewrite Queue_contents_length, Hs. reflexivity. }
    destruct (Pattern_process_pending s clock [e] [p'] W He) as (s' & H1 & H2 & H3 & H4 & H5).
    { rewrite Hq, HN. cbn [app filter]. destruct (MIDI.to_bool e); cbn; lia. }
    exists s'. rewrite Hq in H1, H3. cbn [app filter] in H1, H3.
    assert (Hhd : hd MIDI.empty (if MIDI.to_bool e then [e] else []) = e).
    { destruct (NotePattern_event_kind p clock e p' Ep) as [-> | Ht]; [reflexivity|].
      rewrite Ht. reflexivity. }
    assert (Htl : tl (if MIDI.to_bool e then [e] else []) = []).
    { destruct (MIDI.to_bool e); reflexivity. }
    rewrite Hhd in H1. rewrite Htl in H3.
    split; [exact H1|]. split; [exact H2|]. split; [exact H4|]. split; [rewrite H5; exact HN|].
    pose proof (Queue_contents_length MIDI.empty (Pattern.queue s')) as HL.
    rewrite H3 in HL. cbn [List.length] in HL. destruct H4 as [_ [H0 _]]. lia.
  - apply Pattern_process_undefined. rewrite Hp. cbn [Pattern_events]. rewrite Ep. reflexivity.
Qed.

Lemma Pattern_single_run (clocks : list MIDIEvent) :
  forall (s : Pattern.state) (p : NotePattern.state),
    Pattern.patterns s = [p] -> Queue_wf (Pattern.queue s) ->
    RingBuffer.ring_N (Queue.buffer (Pattern.queue s)) = 1 -> Queue.size (Pattern.queue s) = 0 ->
    option_map fst (Pattern.run s clocks) = option_map fst (NotePattern.run p clocks).
Proof.
  induction clocks as [|c r IH]; intros s p Hp W HN Hs; cbn [Pattern.run NotePattern.run].
  - reflexivity.
  - pose proof (Pattern_single_step s p c Hp W HN Hs) as Hstep.
    destruct (NotePattern.process p c) as [[e p']|].
    + destruct Hstep as (s' & H1 & H2 & H3 & H4 & H5). rewrite H1.
      specialize (IH s' p' H2 H3 H4 H5).
      destruct (Pattern.run s' r) as [[es s2]|]; destruct (NotePattern.run p' r) as [[es' p2]|];
        cbn [option_map fst] in *; congruence.
    + rewrite Hstep. reflexivity.
Qed.

(** X8: a [Pattern] over a single note pattern answers every sequence
    of clock inputs exactly as the note pattern alone does. *)
Theorem Pattern_single_transparent (note : Z) (pattern : string) (clocks : list MIDIEvent) :
  option_map fst (Pattern.run (Pattern.init [NotePattern.init note pattern]) clocks) =
  option_map fst (NotePattern.run (NotePattern.init note pattern) clocks).
Proof.
  apply Pattern_single_run.
  - reflexivity.
  - apply Queue_init_wf. cbn. lia.
  - reflexivity.
  - reflexivity.
Qed.

Lemma Pattern_delivers_in_order_witness :
  exists s',
    Pattern.process (Pattern.init [NotePattern.init 60 "5"%string; NotePattern.init 64 "7"%string]) MIDI.clock =
      Some (hd MIDI.empty
              (Queue_contents MIDI.empty
                 (Pattern.queue (Pattern.init [NotePattern.init 60 "5"%string; NotePattern.init 64 "7"%string]))
               ++ filter MIDI.to_bool
                    [MIDI.create_note_on 60 75 0; MIDI.create_note_on 64 105 0]), s') /\
    Pattern.patterns s' = [NotePattern.mk 60 "5"%string 1; NotePattern.mk 64 "7"%string 1] /\
    Queue_contents MIDI.empty (Pattern.queue s') =
      tl (Queue_contents MIDI.empty
            (Pattern.queue (Pattern.init [NotePattern.init 60 "5"%string; NotePattern.init 64 "7"%string]))
          ++ filter MIDI.to_bool [MIDI.create_note_on 60 75 0; MIDI.create_note_on 64 105 0]) /\
    Queue_wf (Pattern.queue s').
Proof.
  apply (Pattern_delivers_in_order
           (Pattern.init [NotePattern.init 60 "5"%string; NotePattern.init 64 "7"%string]) MIDI.clock
           [MIDI.create_note_on 60 75 0; MIDI.create_note_on 64 105 0]
           [NotePattern.mk 60 "5"%string 1; NotePattern.mk 64 "7"%string 1]).
  - apply Queue_init_wf. cbn. lia.
  - reflexivity.
  - cbn. lia.
Defined.

(** ** The step pattern stays inside its text *)

Lemma string_get_some (s : string) (n : nat) :
  (n < String.length s)%nat -> exists c, String.get n s = Some c.
Proof.
  revert n. induction s as [|a s IH]; intros n H; cbn [String.length] in H; [lia|].
  destruct n as [|n]; cbn [String.get]; [eexists; reflexivity|]. apply IH. lia.
Qed.

Lemma string_get_none (s : string) (n : nat) :
  (String.length s <= n)%nat -> String.get n s = None.
Proof.
  revert n. induction s as [|a s IH]; intros n H; cbn [String.length] in H.
  - destruct n; reflexivity.
  - destruct n as [|n]; [lia|]. cbn [String.get]. apply IH. lia.
Qed.

Lemma char_at_inside (s : string) (i : Z) :
  0 <= i < Z.of_nat (String.length s) ->
  exists c, char_at s i = Some c /\ String.get (Z.to_nat i) s = Some c.
Proof.
  intros H. unfold char_at. destruct (i <? 0) eqn:E; [apply Z.ltb_lt in E; lia|].
  destruct (string_get_some s (Z.to_nat i) ltac:(lia)) as [c Hc]. rewrite Hc. eauto.
Qed.

Lemma char_at_end (s : string) : char_at s (Z.of_nat (String.length s)) = Some NUL.
Proof.
  unfold char_at. destruct (_ <? 0) eqn:E; [apply Z.ltb_lt in E; lia|].
  rewrite Nat2Z.id, string_get_none, Z.eqb_refl by lia. reflexivity.
Qed.

Lemma NotePattern_step (p : NotePattern.state) (clock : MIDIEvent) (L : Z) :
  L = Z.of_nat (String.length (NotePattern.pattern p)) -> 1 <= L -> 6 * L < 2 ^ 31 ->
  0 <= NotePattern.t p < 6 * L ->
  exists e t',
    NotePattern.process p clock =
      Some (e, NotePattern.mk (NotePattern.note p) (NotePattern.pattern p) t') /\
    0 <= t' < 6 * L /\
    (status clock <> 0xF8 -> t' = NotePattern.t p) /\
    (status clock = 0xF8 -> c_string (NotePattern.pattern p) ->
     t' = (NotePattern.t p + 1) mod (6 * L)).
Proof.
  intros HL H1 Hmax Ht. destruct p as [note pattern t].
  cbn [NotePattern.note NotePattern.pattern NotePattern.t] in *.
  unfold NotePattern.process. cbn [NotePattern.note NotePattern.pattern NotePattern.t].
  destruct (status clock =? 248) eqn:Ec.
  2:{ apply Z.eqb_neq in Ec. exists MIDI.empty, t. repeat split; try lia; congruence. }
  apply Z.eqb_eq in Ec.
  rewrite Z.rem_mod_nonneg, Z.quot_div_nonneg by lia.
  assert (Hw : wrap32 (t + 1) = t + 1) by (apply wrap32_small; lia).
  pose proof (Z.div_mod t 6 ltac:(lia)) as Hdm.
  pose proof (Z.mod_pos_bound t 6 ltac:(lia)) as Hm.
  assert (Hq : 0 <= t / 6 < L) by (split; [apply Z.div_pos; lia | apply Z.div_lt_upper_bound; lia]).
  destruct (char_at_inside pattern (t / 6) ltac:(lia)) as (c0 & Hc0 & _).
  rewrite Hw.
  destruct (t mod 6 =? 0) eqn:E0.
  - apply Z.eqb_eq in E0. rewrite Hc0. eexists _, (t + 1).
    split; [reflexivity|]. split; [lia|]. split; [congruence|].
    intros _ _. rewrite Z.mod_small by lia. reflexivity.
  - apply Z.eqb_neq in E0. destruct (t mod 6 =? 5) eqn:E5.
    + apply Z.eqb_eq in E5. rewrite Hc0.
      rewrite Z.quot_div_nonneg by lia.
      assert (Hq1 : (t + 1) / 6 = t / 6 + 1).
      { symmetry. apply (Z.div_unique (t + 1) 6 (t / 6 + 1) 0); lia. }
      rewrite Hq1.
      destruct (Z_lt_le_dec (t / 6 + 1) L) as [Hin | Hend].
      * destruct (char_at_inside pattern (t / 6 + 1) ltac:(lia)) as (c1 & Hc1 & Hg1).
        rewrite Hc1. destruct (Ascii.eqb c1 NUL) eqn:En.
        -- change (Z.quot 0 6) with 0.
           destruct (char_at_inside pattern 0 ltac:(lia)) as (c2 & Hc2 & _). rewrite Hc2.
           eexists _, 0. split; [reflexivity|]. split; [lia|]. split; [congruence|].
           intros _ Hcs. apply Ascii.eqb_eq in En. exfalso. exact (Hcs _ _ Hg1 En).
        -- rewrite Z.quot_div_nonneg, Hq1, Hc1 by lia.
           eexists _, (t + 1). split; [reflexivity|]. split; [lia|]. split; [congruence|].
           intros _ _. rewrite Z.mod_small by lia. reflexivity.
      * assert (Eend : t / 6 + 1 = L) by lia. rewrite Eend.
        replace (char_at pattern L) with (Some NUL) by (rewrite HL; symmetry; apply char_at_end).
        change (Ascii.eqb NUL NUL) with true. cbv iota. change (Z.quot 0 6) with 0.
        destruct (char_at_inside pattern 0 ltac:(lia)) as (c2 & Hc2 & _). rewrite Hc2.
        eexists _, 0. split; [reflexivity|]. split; [lia|]. split; [congruence|].
        intros _ _. replace (t + 1) with (1 * (6 * L)) by lia.
        rewrite Z.mod_mul by lia. reflexivity.
    + apply Z.eqb_neq in E5. eexists _, (t + 1).
      split; [reflexivity|]. split; [lia|]. split; [congruence|].
      intros _ _. rewrite Z.mod_small by lia. reflexivity.
Qed.

Lemma NotePattern_run_app (a b : list MIDIEvent) :
  forall p,
    NotePattern.run p (a ++ b) =
    match NotePattern.run p a with
    | Some (es, p1) =>
        match NotePattern.run p1 b with
        | Some (es', p2) => Some (es ++ es', p2)
        | None => None
        end
    | None => None
    end.
Proof.
  induction a as [|c r IH]; intros p; cbn [app NotePattern.run].
  - destruct (NotePattern.run p b) as [[es' p2]|]; reflexivity.
  - destruct (NotePattern.process p c) as [[e p1]|]; [|reflexivity].
    rewrite IH. destruct (NotePattern.run p1 r) as [[es p2]|]; [|reflexivity].
    destruct (NotePattern.run p2 b) as [[es' p3]|]; reflexivity.
Qed.

Lemma NotePattern_run_defined (clocks : list MIDIEvent) :
  forall (note : Z) (pattern : string) (t : Z),
    1 <= Z.of_nat (String.length pattern) -> 6 * Z.of_nat (String.length pattern) < 2 ^ 31 ->
    0 <= t < 6 * Z.of_nat (String.length pattern) ->
    exists es t',
      NotePattern.run (NotePattern.mk note pattern t) clocks =
        Some (es, NotePattern.mk note pattern t') /\
      List.length es = List.length clocks /\
      0 <= t' < 6 * Z.of_nat (String.length pattern).
Proof.
  induction clocks as [|c r IH]; intros note pattern t H1 Hmax Ht; cbn [NotePattern.run].
  - exists [], t. auto.
  - destruct (NotePattern_step (NotePattern.mk note pattern t) c _ eq_refl H1 Hmax Ht)
      as (e & t1 & Hp & Ht1 & _).
    cbn [NotePattern.note NotePattern.pattern] in Hp. rewrite Hp.
    destruct (IH note pattern t1 H1 Hmax Ht1) as (es & t' & Hr & Hlen & Ht').
    rewrite Hr. exists (e :: es), t'. cbn [List.length]. auto.
Qed.

Lemma NotePattern_run_clocks (k : nat) :
  forall (note : Z) (pattern : string) (t : Z),
    c_string pattern ->
    1 <= Z.of_nat (String.length pattern) -> 6 * Z.of_nat (String.length pattern) < 2 ^ 31 ->
    0 <= t < 6 * Z.of_nat (String.length pattern) ->
    exists es,
      NotePattern.run (NotePattern.mk note pattern t) (repeat MIDI.clock k) =
        Some (es, NotePattern.mk note pattern
                    ((t + Z.of_nat k) mod (6 * Z.of_nat (String.length pattern)))) /\
      List.length es = k.
Proof.
  induction k as [|k IH]; intros note pattern t Hcs H1 Hmax Ht; cbn [repeat NotePattern.run].
  - exists []. rewrite Z.add_0_r, Z.mod_small by lia. auto.
  - destruct (NotePattern_step (NotePattern.mk note pattern t) MIDI.clock _ eq_refl H1 Hmax Ht)
      as (e & t1 & Hp & Ht1 & _ & Hclk).
    cbn [NotePattern.note NotePattern.pattern NotePattern.t] in Hp, Hclk. rewrite Hp.
    specialize (Hclk eq_refl Hcs).
    destruct (IH note pattern t1 Hcs H1 Hmax Ht1) as (es & Hr & Hlen).
    rewrite Hr. exists (e :: es). cbn [List.length]. split; [|lia].
    do 3 f_equal. rewrite Hclk, Zplus_mod_idemp_l. f_equal. lia.
Qed.

(** X9: a note pattern with a text of at least one character never
    reads its text past the terminator: whatever the events it is fed,
    every call has a defined answer and leaves the position [t] inside
    the text.  With the empty text the sixth clock tick reads
    [pattern[1]], the character after the terminator. *)
Theorem NotePattern_in_bounds (note : Z) :
  (forall (pattern : string) (clocks : list MIDIEvent),
     1 <= Z.of_nat (String.length pattern) ->
     6 * Z.of_nat (String.length pattern) < 2 ^ 31 ->
     exists es p',
       NotePattern.run (NotePattern.init note pattern) clocks = Some (es, p') /\
       List.length es = List.length clocks /\
       0 <= NotePattern.t p' < 6 * Z.of_nat (String.length pattern)) /\
  NotePattern.run (NotePattern.init note EmptyString) (repeat MIDI.clock 5) =
    Some (repeat MIDI.empty 5, NotePattern.mk (to_uchar note) EmptyString 5) /\
  NotePattern.process (NotePattern.mk (to_uchar note) EmptyString 5) MIDI.clock = None.
Proof.
  split; [|split; reflexivity].
  intros pattern clocks H1 Hmax.
  destruct (NotePattern_run_defined clocks (to_uchar note) pattern 0 H1 Hmax ltac:(lia))
    as (es & t' & Hr & Hlen & Ht').
  exists es, (NotePattern.mk (to_uchar note) pattern t'). auto.
Qed.

Lemma NotePattern_in_bounds_witness :
  exists es p',
    NotePattern.run (NotePattern.init 60 "5--"%string) (repeat MIDI.clock 40) = Some (es, p') /\
    List.length es = List.length (repeat MIDI.clock 40) /\
    0 <= NotePattern.t p' < 6 * Z.of_nat (String.length "5--"%string).
Proof.
  apply (proj1 (NotePattern_in_bounds 60) "5--"%string (repeat MIDI.clock 40)); cbn; lia.
Defined.

(** X10: a note pattern loops.  Fed clock ticks only, its position after
    [k] ticks is [k] modulo six times the length of the text, so after
    six ticks per character it is back in its initial state, and the
    events of any later tick repeat those one period earlier. *)
Theorem NotePattern_loops (note : Z) (pattern : string) (k : nat) :
  c_string pattern ->
  1 <= Z.of_nat (String.length pattern) -> 6 * Z.of_nat (String.length pattern) < 2 ^ 31 ->
  exists period es,
    NotePattern.run (NotePattern.init note pattern)
      (repeat MIDI.clock (6 * String.length pattern)) =
      Some (period, NotePattern.init note pattern) /\
    List.length period = (6 * String.length pattern)%nat /\
    NotePattern.run (NotePattern.init note pattern) (repeat MIDI.clock k) =
      Some (es, NotePattern.mk (to_uchar note) pattern
                  (Z.of_nat k mod (6 * Z.of_nat (String.length pattern)))) /\
    NotePattern.run (NotePattern.init note pattern)
      (repeat MIDI.clock (6 * String.length pattern + k)) =
      Some (period ++ es,
            NotePattern.mk (to_uchar note) pattern
              (Z.of_nat k mod (6 * Z.of_nat (String.length pattern)))).
Proof.
  intros Hcs H1 Hmax.
  destruct (NotePattern_run_clocks (6 * String.length pattern) (to_uchar note) pattern 0
              Hcs H1 Hmax ltac:(lia)) as (period & Hp & Hlp).
  destruct (NotePattern_run_clocks k (to_uchar note) pattern 0 Hcs H1 Hmax ltac:(lia))
    as (es & He & Hle).
  rewrite Z.add_0_l in Hp, He.
  replace (Z.of_nat (6 * String.length pattern)) with (1 * (6 * Z.of_nat (String.length pattern)))
    in Hp by lia.
  rewrite Z.mod_mul in Hp by lia.
  exists period, es. unfold NotePattern.init.
  split; [exact Hp|]. split; [exact Hlp|]. split; [exact He|].
  rewrite repeat_app, NotePattern_run_app, Hp, He. reflexivity.
Qed.

Lemma NotePattern_loops_witness :
  exists period es,
    NotePattern.run (NotePattern.init 60 "5--"%string) (repeat MIDI.clock (6 * String.length "5--"%string)) =
      Some (period, NotePattern.init 60 "5--"%string) /\
    List.length period = (6 * String.length "5--"%string)%nat /\
    NotePattern.run (NotePattern.init 60 "5--"%string) (repeat MIDI.clock 7) =
      Some (es, NotePattern.mk (to_uchar 60) "5--"%string
                  (Z.of_nat 7 mod (6 * Z.of_nat (String.length "5--"%string)))) /\
    NotePattern.run (NotePattern.init 60 "5--"%string) (repeat MIDI.clock (6 * String.length "5--"%string + 7)) =
      Some (period ++ es,
            NotePattern.mk (to_uchar 60) "5--"%string
              (Z.of_nat 7 mod (6 * Z.of_nat (String.length "5--"%string)))).
Proof.
  apply (NotePattern_loops 60 "5--"%string 7); [|cbn; lia|cbn; lia].
  intros i c H. destruct i as [|[|[|i]]]; cbn in H; try discriminate;
    injection H as <-; discriminate.
Defined.

(** ** The random number generator *)

Lemma uint64_land (n : Z) : uint64 n = Z.land n (Z.ones 64).
Proof. unfold uint64. rewrite Z.land_ones by lia. reflexivity. Qed.

Lemma lxor_below (a b n : Z) :
  0 < n -> 0 <= a < 2 ^ n -> 0 <= b < 2 ^ n -> 0 <= Z.lxor a b < 2 ^ n.
Proof.
  intros Hn Ha Hb.
  assert (H0 : 0 <= Z.lxor a b) by (apply Z.lxor_nonneg; lia).
  split; [exact H0|].
  destruct (Z.eq_dec (Z.lxor a b) 0) as [E | E]; [rewrite E; apply Z.pow_pos_nonneg; lia|].
  apply Z.log2_lt_pow2; [lia|].
  eapply Z.le_lt_trans; [apply Z.log2_lxor; lia|].
  apply Z.max_lub_lt.
  - destruct (Z.eq_dec a 0) as [-> | Na]; [cbn; lia|]. apply Z.log2_lt_pow2; lia.
  - destruct (Z.eq_dec b 0) as [-> | Nb]; [cbn; lia|]. apply Z.log2_lt_pow2; lia.
Qed.

Lemma shiftr_below (a n k : Z) : 0 <= k -> 0 <= a < 2 ^ n -> 0 <= Z.shiftr a k < 2 ^ n.
Proof.
  intros Hk Ha. rewrite Z.shiftr_div_pow2 by lia.
  assert (0 < 2 ^ k) by (apply Z.pow_pos_nonneg; lia).
  split; [apply Z.div_pos; lia|].
  eapply Z.le_lt_trans; [|apply Ha]. apply Z.div_le_upper_bound; [lia|]. nia.
Qed.

Lemma Xorshift_get_next_wf (g : Xorshift128plus.state) :
  Xorshift_wf g -> Xorshift_wf (snd (Xorshift128plus.get_next g)) /\
  0 <= fst (Xorshift128plus.get_next g) < 2 ^ 64.
Proof.
  intros [H0 H1]. unfold Xorshift128plus.get_next.
  cbn [fst snd]. unfold Xorshift_wf. cbn [Xorshift128plus.s0 Xorshift128plus.s1].
  assert (Hu : forall n, 0 <= uint64 n < 2 ^ 64) by (intros n; apply Z.mod_pos_bound; lia).
  split; [|apply Hu]. split; [exact H1|].
  assert (Hx : 0 <= Z.lxor (Xorshift128plus.s0 g) (uint64 (Z.shiftl (Xorshift128plus.s0 g) 23))
               < 2 ^ 64) by (apply lxor_below; [lia | exact H0 | apply Hu]).
  apply lxor_below;
    [lia
    | apply lxor_below;
        [lia | apply lxor_below; [lia | exact Hx | exact H1]
             | apply shiftr_below; [lia | exact Hx]]
    | apply shiftr_below; [lia | exact H1]].
Qed.

Ltac xor_bits :=
  apply Z.bits_inj'; intros ?n ?Hn; rewrite ?Z.lxor_spec, ?Z.land_spec, ?Z.lxor_spec, ?Z.bits_0;
  repeat match goal with |- context [Z.testbit ?x ?n] => destruct (Z.testbit x n) end;
  reflexivity.

Lemma uint64_lxor (a b : Z) : uint64 (Z.lxor a b) = Z.lxor (uint64 a) (uint64 b).
Proof. rewrite !uint64_land. xor_bits. Qed.

(** [y ^ (y >> k)] determines [y]. *)
Lemma lxor_shiftr_zero (d k : Z) : 0 <= d -> 0 < k -> Z.lxor d (Z.shiftr d k) = 0 -> d = 0.
Proof.
  intros Hd Hk H. apply Z.lxor_eq in H. rewrite Z.shiftr_div_pow2 in H by lia.
  destruct (Z.eq_dec d 0) as [E | E]; [exact E|].
  assert (1 < 2 ^ k) by (apply Z.pow_gt_1; lia).
  assert (d / 2 ^ k < d) by (apply Z.div_lt; lia). lia.
Qed.

(** [s ^ (s << 23)] on 64 bits determines [s]. *)
Lemma lxor_shiftl_zero (d : Z) :
  0 <= d < 2 ^ 64 -> Z.lxor d (uint64 (Z.shiftl d 23)) = 0 -> d = 0.
Proof.
  intros Hd H. apply Z.lxor_eq in H. unfold uint64 in H. rewrite Z.shiftl_mul_pow2 in H by lia.
  assert (Hdiv : (2 ^ 64 | d * (2 ^ 23 - 1))).
  { exists (d * 2 ^ 23 / 2 ^ 64).
    pose proof (Z.div_mod (d * 2 ^ 23) (2 ^ 64) ltac:(lia)) as Hdm. lia. }
  assert (Hg : Z.gcd (2 ^ 64) (2 ^ 23 - 1) = 1) by reflexivity.
  rewrite Z.mul_comm in Hdiv. apply (Z.gauss _ _ _ Hdiv) in Hg.
  destruct Hg as [q Hq]. assert (q = 0) by lia. lia.
Qed.

Lemma Xorshift_step_injective (g g' : Xorshift128plus.state) :
  Xorshift_wf g -> Xorshift_wf g' ->
  snd (Xorshift128plus.get_next g) = snd (Xorshift128plus.get_next g') -> g = g'.
Proof.
  intros [H0 H1] [H0' H1'] E. destruct g as [a b], g' as [a' b'].
  unfold Xorshift128plus.get_next in E.
  cbn [snd Xorshift128plus.s0 Xorshift128plus.s1] in *.
  injection E as Eb Ex. subst b'. f_equal.
  set (x := Z.lxor a (uint64 (Z.shiftl a 23))) in *.
  set (x' := Z.lxor a' (uint64 (Z.shiftl a' 23))) in *.
  (* cancel the terms in [b] *)
  assert (Ey : Z.lxor x (Z.shiftr x 18) = Z.lxor x' (Z.shiftr x' 18)).
  { apply (f_equal (fun z => Z.lxor (Z.lxor z (Z.shiftr b 5)) b)) in Ex.
    cbv beta in Ex.
    assert (C : forall u v, Z.lxor (Z.lxor (Z.lxor (Z.lxor (Z.lxor u b) v) (Z.shiftr b 5))
                                     (Z.shiftr b 5)) b = Z.lxor u v).
    { intros u v. xor_bits. }
    rewrite !C in Ex. exact Ex. }
  assert (Hu : forall n, 0 <= uint64 n < 2 ^ 64) by (intros n; apply Z.mod_pos_bound; lia).
  assert (Hx : 0 <= x < 2 ^ 64) by (apply lxor_below; [lia | exact H0 | apply Hu]).
  assert (Hx' : 0 <= x' < 2 ^ 64) by (apply lxor_below; [lia | exact H0' | apply Hu]).
  assert (Exx : x = x').
  { apply Z.lxor_eq. apply (lxor_shiftr_zero _ 18); [apply Z.lxor_nonneg; lia | lia |].
    rewrite Z.shiftr_lxor.
    replace (Z.lxor (Z.lxor x x') (Z.lxor (Z.shiftr x 18) (Z.shiftr x' 18)))
      with (Z.lxor (Z.lxor x (Z.shiftr x 18)) (Z.lxor x' (Z.shiftr x' 18))) by xor_bits.
    rewrite Ey. apply Z.lxor_nilpotent. }
  apply Z.lxor_eq. apply lxor_shiftl_zero; [apply lxor_below; lia|].
  rewrite Z.shiftl_lxor, uint64_lxor.
  unfold x, x' in Exx.
  replace (Z.lxor (Z.lxor a a') (Z.lxor (uint64 (Z.shiftl a 23)) (uint64 (Z.shiftl a' 23))))
    with (Z.lxor (Z.lxor a (uint64 (Z.shiftl a 23))) (Z.lxor a' (uint64 (Z.shiftl a' 23))))
    by xor_bits.
  rewrite Exx. apply Z.lxor_nilpotent.
Qed.

Lemma Xorshift_zero_fixed :
  Xorshift128plus.get_next (Xorshift128plus.mk 0 0) = (0, Xorshift128plus.mk 0 0).
Proof. reflexivity. Qed.

Lemma Xorshift_after_nonzero (n : nat) :
  forall g, Xorshift_wf g -> g <> Xorshift128plus.mk 0 0 ->
    Xorshift_wf (Xorshift_after n g) /\ Xorshift_after n g <> Xorshift128plus.mk 0 0.
Proof.
  induction n as [|n IH]; intros g W Hg; cbn [Xorshift_after]; [auto|].
  apply IH; [apply Xorshift_get_next_wf, W|].
  intros E. apply Hg. apply Xorshift_step_injective; [exact W | split; cbn; lia |].
  rewrite E. reflexivity.
Qed.

(** X11: the step of the generator is one-to-one on its 64-bit states and
    leaves the all-zero state, from which every number drawn is 0, where
    it is; so the generator, seeded as the constructor seeds it, never
    reaches the all-zero state, and each number it draws is a 64-bit
    value. *)
Theorem Xorshift_never_degenerates (n : nat) :
  (forall g g', Xorshift_wf g -> Xorshift_wf g' ->
     snd (Xorshift128plus.get_next g) = snd (Xorshift128plus.get_next g') -> g = g') /\
  Xorshift128plus.get_next (Xorshift128plus.mk 0 0) = (0, Xorshift128plus.mk 0 0) /\
  Xorshift_after n Xorshift128plus.init <> Xorshift128plus.mk 0 0 /\
  0 <= fst (Xorshift128plus.get_next (Xorshift_after n Xorshift128plus.init)) < 2 ^ 64.
Proof.
  assert (W : Xorshift_wf Xorshift128plus.init) by (split; cbn; lia).
  assert (Hi : Xorshift128plus.init <> Xorshift128plus.mk 0 0) by discriminate.
  destruct (Xorshift_after_nonzero n _ W Hi) as [Wn Hn].
  split; [exact Xorshift_step_injective|]. split; [reflexivity|]. split; [exact Hn|].
  apply Xorshift_get_next_wf, Wn.
Qed.

Lemma Xorshift_never_degenerates_witness :
  Xorshift_after 3 Xorshift128plus.init <> Xorshift128plus.mk 0 0 /\
  0 <= fst (Xorshift128plus.get_next (Xorshift_after 3 Xorshift128plus.init)) < 2 ^ 64.
Proof. apply (Xorshift_never_degenerates 3). Defined.

(** ** Division rounds *)

Lemma shr_two (q : Z) (l : location) :
  0 <= q ->
  shr_1 (shr_1 (Build_shr_record (4 * q + loc_code l) false false)) = shr_record_of_loc q l.
Proof.
  intros H. destruct q as [|p|p]; [| |lia]; destruct l as [|[| |]]; reflexivity.
Qed.

Lemma digits_four (q : Z) (l : location) :
  0 < q -> Zdigits2 (4 * q + loc_code l) = Zdigits2 q + 2.
Proof.
  intros H. destruct q as [|p|p]; try lia.
  destruct l as [|[| |]]; cbn [loc_code Z.mul Pos.mul Z.add Pos.add Zdigits2 digits2_pos];
    rewrite ?Pos.mul_1_l; cbn [Pos.add Zdigits2 digits2_pos]; lia.
Qed.

Lemma loc_code_range (l : location) : 0 <= loc_code l <= 3.
Proof. destruct l as [|[| |]]; cbn; lia. Qed.

Lemma new_location_code (n k : Z) : loc_code (new_location n k) = 0 <-> k = 0.
Proof.
  unfold new_location, new_location_even, new_location_odd.
  destruct (Z.even n); destruct (k =? 0) eqn:E.
  - apply Z.eqb_eq in E. cbn. tauto.
  - apply Z.eqb_neq in E. destruct (2 * k ?= n); cbn; lia.
  - apply Z.eqb_eq in E. cbn. tauto.
  - apply Z.eqb_neq in E. destruct (2 * k + 1 ?= n); cbn; lia.
Qed.

Lemma inject_Z_pos (z : Z) : 0 < z -> (0 < inject_Z z)%Q.
Proof. intros H. change 0%Q with (inject_Z 0). rewrite <- Zlt_Qlt. exact H. Qed.

Lemma inject_Z_nonneg (z : Z) : 0 <= z -> (0 <= inject_Z z)%Q.
Proof. intros H. change 0%Q with (inject_Z 0). rewrite <- Zle_Qle. exact H. Qed.

Section Division.
Variables prec emax : Z.
Hypothesis Hfmt : 0 < prec < emax.

Local Abbreviation emin := (SpecFloat.emin prec emax).
Local Abbreviation fexp := (SpecFloat.fexp prec emax).
Local Abbreviation B := (Bval emax).

(** Rounding a mantissa with a location is rounding the exact mantissa
    that carries the location in two more bits. *)
Lemma round_aux_loc (s : bool) (q e : Z) (l : location) :
  0 <= q -> 0 <= fexp (Zdigits2 q + e) - e ->
  fexp (Zdigits2 (4 * q + loc_code l) + (e - 2)) = fexp (Zdigits2 q + e) ->
  binary_round_aux prec emax s q e l =
  binary_round_aux prec emax s (4 * q + loc_code l) (e - 2) loc_Exact.
Proof.
  intros Hq Hn Hd. unfold binary_round_aux, shr_fexp. rewrite Hd, !shr_nat.
  set (n := fexp (Zdigits2 q + e) - e) in *.
  replace (fexp (Zdigits2 q + e) - (e - 2)) with (n + 2) by (unfold n; lia).
  replace (Z.to_nat (n + 2)) with (S (S (Z.to_nat n))) by lia.
  rewrite !Nat.iter_succ_r.
  change (shr_record_of_loc (4 * q + loc_code l) loc_Exact)
    with (Build_shr_record (4 * q + loc_code l) false false).
  rewrite (shr_two q l Hq).
  replace (e - 2 + Z.max 0 (n + 2)) with (e + Z.max 0 n) by lia. reflexivity.
Qed.

Lemma Rounded_cut (v v' : Q) (r : spec_float) :
  Rounded prec emax v' r ->
  (forall c, fmt_repQ prec emax c ->
     ((v <= c)%Q <-> (v' <= c)%Q) /\ ((c <= v)%Q <-> (c <= v')%Q)) ->
  Rounded prec emax v r.
Proof.
  intros (V & Nn & H) Hcut. split; [exact V|]. split; [exact Nn|].
  intros c Hc. destruct (H c Hc) as [H1 H2]. destruct (Hcut c Hc) as [C1 C2].
  split; intros Hv; [apply H1, C1, Hv | apply H2, C2, Hv].
Qed.

(** No number of the format lies strictly between two neighbours
    [q * 2^e] and [(q + 1) * 2^e] of a grid that is at least as fine as
    the format there. *)
Lemma no_rep_between (q e N ec : Z) :
  0 <= q -> (e <= emin \/ 2 ^ (prec - 1) <= q) ->
  fmt_rep prec emax N ec ->
  (Q2 N ec <= Q2 q e)%Q \/ (Q2 (q + 1) e <= Q2 N ec)%Q.
Proof.
  intros Hq Hfine [[HN0 HN1] Hec].
  destruct (Z_le_gt_dec e ec) as [Hle | Hgt].
  - assert (Hc : (Q2 N ec == Q2 (N * 2 ^ (ec - e)) e)%Q).
    { rewrite Q2_shift by lia. replace (e + (ec - e)) with ec by lia. reflexivity. }
    rewrite Hc. destruct (Z_le_gt_dec (N * 2 ^ (ec - e)) q).
    + left. apply Q2_le. assumption.
    + right. apply Q2_le. lia.
  - left. destruct Hfine as [He | Hq']; [lia|].
    apply Qle_trans with (Q2 (2 ^ prec) ec); [apply Q2_le; lia|].
    apply Qle_trans with (Q2 (2 ^ (prec - 1)) e); [|apply Q2_le; lia].
    rewrite !Q2_pow by lia. apply pow2_le. lia.
Qed.

(** What [SFdiv_core_binary] computes: the quotient of the mantissas on a
    grid at least as fine as the format, and whether it is exact. *)
Lemma div_core_spec (m1 m2 : positive) (e1 e2 : Z) :
  exists q e' l r,
    SFdiv_core_binary prec emax (Zpos m1) e1 (Zpos m2) e2 = (q, e', l) /\
    0 <= q /\ 0 <= r < Zpos m2 /\ (loc_code l = 0 <-> r = 0) /\
    (0 < q \/ 0 < r) /\
    (e' <= emin \/ 2 ^ (prec - 1) <= q) /\
    (Q2 (Zpos m1) e1 / Q2 (Zpos m2) e2 ==
     Q2 q e' + (inject_Z r / inject_Z (Zpos m2)) * pow2 e')%Q.
Proof.
  unfold SFdiv_core_binary. cbn [Zdigits2].
  pose proof (digits2_pos_bounds m1) as [Hl1 Hu1].
  pose proof (digits2_pos_bounds m2) as [Hl2 Hu2].
  set (d1 := Zpos (digits2_pos m1)) in *. set (d2 := Zpos (digits2_pos m2)) in *.
  assert (Hd1 : 0 < d1) by (unfold d1; lia). assert (Hd2 : 0 < d2) by (unfold d2; lia).
  set (e' := Z.min (fexp (d1 + e1 - (d2 + e2))) (e1 - e2)).
  assert (He' : e' <= e1 - e2) by (unfold e'; lia).
  assert (Hfx : e' <= fexp (d1 + e1 - (d2 + e2))) by (unfold e'; lia).
  rewrite fexp_spec in Hfx. clearbody e'.
  set (s := e1 - e2 - e') in *.
  assert (Hs : 0 <= s) by (unfold s; lia).
  set (m' := match s with Z.pos _ => Z.shiftl (Z.pos m1) s | 0 => Z.pos m1 | Z.neg _ => 0 end).
  assert (Hm' : m' = Zpos m1 * 2 ^ s).
  { unfold m'. destruct s as [|p|p] eqn:Es; [lia | | lia].
    rewrite Z.shiftl_mul_pow2 by lia. reflexivity. }
  clearbody m'.
  assert (Hps : 0 < 2 ^ s) by (apply Z.pow_pos_nonneg; lia).
  pose proof (Z_div_mod m' (Zpos m2) ltac:(lia)) as Hdm.
  destruct (Z.div_eucl m' (Z.pos m2)) as [q r]. destruct Hdm as [Hdm Hr].
  assert (Hq : 0 <= q) by nia.
  exists q, e', (new_location (Zpos m2) r), r.
  split; [reflexivity|]. split; [exact Hq|]. split; [exact Hr|].
  split; [apply new_location_code|]. split; [nia|]. split.
  - destruct (Z_le_gt_dec e' (3 - emax - prec)) as [Hle | Hgt];
      [left; unfold SpecFloat.emin; lia|]. right.
    assert (Hs' : prec + d2 - d1 <= s) by (unfold s; lia).
    assert (Hbig : 2 ^ (prec + d2 - 1) <= m').
    { rewrite Hm'.
      assert (H1 : 2 ^ (prec + d2 - 1) <= 2 ^ (d1 - 1 + s)) by (apply Z.pow_le_mono_r; lia).
      rewrite Z.pow_add_r in H1 by lia.
      assert (0 < 2 ^ (d1 - 1)) by (apply Z.pow_pos_nonneg; lia). nia. }
    replace (prec + d2 - 1) with (prec - 1 + d2) in Hbig by lia.
    rewrite Z.pow_add_r in Hbig by lia.
    assert (0 < 2 ^ (prec - 1)) by (apply Z.pow_pos_nonneg; lia).
    destruct (Z_le_gt_dec (2 ^ (prec - 1)) q) as [|Hlt]; [assumption|]. exfalso. nia.
  - unfold Q2. replace e1 with (s + (e' + e2)) by (unfold s; lia).
    rewrite !pow2_add, (pow2_Z s Hs).
    assert (E : (inject_Z (Zpos m1) * inject_Z (2 ^ s) == inject_Z (Zpos m2 * q + r))%Q).
    { rewrite <- inject_Z_mult, <- Hm', Hdm. reflexivity. }
    rewrite inject_Z_plus, inject_Z_mult in E.
    pose proof (pow2_pos e2) as Hp2. pose proof (pow2_pos e') as Hp'.
    assert (Hm2 : ~ (inject_Z (Zpos m2) == 0)%Q).
    { intros C. assert (0 < inject_Z (Zpos m2))%Q by (apply inject_Z_pos; lia). lra. }
    assert (Hp2' : ~ (pow2 e2 == 0)%Q) by lra.
    setoid_replace (inject_Z (Z.pos m1) * (inject_Z (2 ^ s) * (pow2 e' * pow2 e2)))%Q
      with ((inject_Z (Z.pos m1) * inject_Z (2 ^ s)) * (pow2 e' * pow2 e2))%Q by ring.
    rewrite E. field. split; assumption.
Qed.

Lemma cut_opp (v v' : Q) :
  (forall c, fmt_repQ prec emax c ->
     ((v <= c)%Q <-> (v' <= c)%Q) /\ ((c <= v)%Q <-> (c <= v')%Q)) ->
  forall c, fmt_repQ prec emax c ->
     ((- v <= c)%Q <-> (- v' <= c)%Q) /\ ((c <= - v)%Q <-> (c <= - v')%Q).
Proof.
  intros H c Hc. destruct (H (- c)%Q (repQ_opp prec emax c Hc)) as [[A1 A2] [B1 B2]].
  split; split; intros Hv.
  - assert (- c <= v')%Q by (apply B1; lra). lra.
  - assert (- c <= v)%Q by (apply B2; lra). lra.
  - assert (v' <= - c)%Q by (apply A1; lra). lra.
  - assert (v <= - c)%Q by (apply A2; lra). lra.
Qed.

(** The quotient of two finite non-zero data is rounded. *)
Lemma div_finite_Rounded (sx sy : bool) (mx my : positive) (ex ey : Z) :
  Rounded prec emax (B (S754_finite sx mx ex) / B (S754_finite sy my ey))
    (SFdiv prec emax (S754_finite sx mx ex) (S754_finite sy my ey)).
Proof.
  cbn [SFdiv].
  destruct (div_core_spec mx my ex ey)
    as (q & e' & l & r & Hc & Hq & Hr & Hcode & Hpos & Hfine & Hval).
  rewrite Hc.
  pose proof (loc_code_range l) as Hlr.
  assert (Hpos' : 0 < 4 * q + loc_code l).
  { destruct Hpos as [H | H]; [lia|]. assert (loc_code l <> 0) by (rewrite Hcode; lia). lia. }
  (* the digits of the mantissa that carries the location *)
  assert (Hn : 0 <= fexp (Zdigits2 q + e') - e').
  { rewrite fexp_spec. unfold SpecFloat.emin in Hfine. destruct Hfine as [He | Hq']; [lia|].
    assert (Hq0 : 0 < q) by (assert (0 < 2 ^ (prec - 1)) by (apply Z.pow_pos_nonneg; lia); lia).
    pose proof (Zdigits2_bounds q Hq0) as [_ Hu].
    assert (prec <= Zdigits2 q).
    { destruct (Z_le_gt_dec prec (Zdigits2 q)) as [|Hgt]; [assumption|]. exfalso.
      assert (2 ^ Zdigits2 q <= 2 ^ (prec - 1)) by (apply Z.pow_le_mono_r; lia). lia. }
    lia. }
  assert (Hd : fexp (Zdigits2 (4 * q + loc_code l) + (e' - 2)) = fexp (Zdigits2 q + e')).
  { destruct (Z.eq_dec q 0) as [-> | Hq0].
    - assert (He : e' <= emin).
      { destruct Hfine as [He | Hq']; [exact He|].
        assert (0 < 2 ^ (prec - 1)) by (apply Z.pow_pos_nonneg; lia). lia. }
      unfold SpecFloat.emin in He. rewrite !fexp_spec. cbn [Zdigits2].
      assert (Zdigits2 (4 * 0 + loc_code l) <= 2).
      { destruct l as [|[| |]]; cbn; lia. }
      lia.
    - rewrite digits_four by lia. f_equal. lia. }
  rewrite (round_aux_loc _ q e' l Hq Hn Hd).
  destruct (4 * q + loc_code l) as [|p|p] eqn:Ep; try lia.
  rewrite (round_aux_is_round prec emax).
  2:{ cbn [Zdigits2] in Hd. rewrite Hd. lia. }
  pose proof (round_Rounded prec emax Hfmt (xorb sx sy) p (e' - 2)) as HR.
  (* the exact quotient and the mantissa that stands for it *)
  set (P := pow2 e') in *. pose proof (pow2_pos e') as HP. fold P in HP.
  set (a := Q2 q e') in *.
  set (v0 := (Q2 (Zpos mx) ex / Q2 (Zpos my) ey)%Q) in *.
  assert (Ht : (0 <= inject_Z r / inject_Z (Zpos my) < 1)%Q).
  { assert (0 < inject_Z (Zpos my))%Q by (apply inject_Z_pos; lia).
    split.
    - apply Qle_shift_div_l; [assumption|]. rewrite Qmult_0_l. apply inject_Z_nonneg. lia.
    - apply Qlt_shift_div_r; [assumption|]. rewrite Qmult_1_l, <- Zlt_Qlt. lia. }
  set (t := (inject_Z r / inject_Z (Zpos my))%Q) in *.
  assert (Ht0 : r = 0 -> (t == 0)%Q).
  { intros ->. unfold t. unfold Qdiv. rewrite Qmult_0_l. reflexivity. }
  assert (Ht1 : r <> 0 -> (0 < t)%Q).
  { intros Hr0. unfold t. apply Qlt_shift_div_l.
    - apply inject_Z_pos. lia.
    - rewrite Qmult_0_l. apply inject_Z_pos. lia. }
  assert (HP4 : (P == pow2 (e' - 2) * 4)%Q).
  { unfold P. replace e' with (e' - 2 + 2) at 1 by lia. rewrite pow2_add. reflexivity. }
  assert (Hv' : (Q2 (Zpos p) (e' - 2) == a + inject_Z (loc_code l) * (1 # 4) * P)%Q).
  { rewrite <- Ep, Q2_plus, (Z.mul_comm 4 q).
    change 4 with (2 ^ 2). rewrite Q2_shift by lia. replace (e' - 2 + 2) with e' by lia.
    fold a. rewrite HP4. unfold Q2. ring. }
  assert (HtP : (t * P < P)%Q).
  { setoid_replace P with (1 * P)%Q at 2 by ring. apply Qmult_lt_compat_r; [exact HP | apply Ht]. }
  assert (HtP0 : (0 <= t * P)%Q) by (apply Qmult_le_0_compat; [apply Ht | lra]).
  assert (Hb : (Q2 (q + 1) e' == a + P)%Q).
  { rewrite Q2_plus. unfold a, P. rewrite <- pow2_Q2. reflexivity. }
  assert (Hcut : forall c, fmt_repQ prec emax c ->
            ((v0 <= c)%Q <-> (Q2 (Zpos p) (e' - 2) <= c)%Q) /\
            ((c <= v0)%Q <-> (c <= Q2 (Zpos p) (e' - 2))%Q)).
  { intros c (N & ec & HN & _ & Hcs).
    pose proof (no_rep_between q e' N ec Hq Hfine HN) as Hnb. fold a in Hnb. rewrite Hb in Hnb.
    assert (HN0 : (0 <= Q2 N ec)%Q) by (apply Q2_nonneg; apply HN).
    assert (Ha0 : (0 <= a)%Q) by (apply Q2_nonneg; exact Hq).
    rewrite Hv', Hval. fold t P.
    destruct (Z.eq_dec r 0) as [Hr0 | Hr0].
    - assert (Hc0 : loc_code l = 0) by (apply Hcode; exact Hr0).
      rewrite Hc0, (Ht0 Hr0). change (inject_Z 0) with 0%Q.
      split; split; intros H; lra.
    - assert (Hc0 : 1 <= loc_code l) by (assert (loc_code l <> 0) by (rewrite Hcode; lia); lia).
      specialize (Ht1 Hr0).
      assert (HtP1 : (0 < t * P)%Q) by (apply Qmult_lt_0_compat; assumption).
      assert (Hk : (1 <= inject_Z (loc_code l) <= 3)%Q).
      { change 1%Q with (inject_Z 1). change 3%Q with (inject_Z 3).
        rewrite <- !Zle_Qle. lia. }
      set (k := inject_Z (loc_code l)) in *.
      assert (Hk1 : (0 < k * (1 # 4) * P)%Q).
      { apply Qmult_lt_0_compat; [lra | exact HP]. }
      assert (Hk2 : (k * (1 # 4) * P < P)%Q).
      { setoid_replace P with (1 * P)%Q at 2 by ring.
        apply Qmult_lt_compat_r; [exact HP | lra]. }
      destruct Hcs as [Hcs | Hcs]; rewrite Hcs; split; split; intros H;
        destruct Hnb as [Hnb | Hnb]; lra. }
  assert (Hsign : (B (S754_finite sx mx ex) / B (S754_finite sy my ey) ==
                   if xorb sx sy then - v0 else v0)%Q).
  { rewrite !B_finite. unfold v0.
    assert (~ (Q2 (Zpos my) ey == 0)%Q).
    { pose proof (Q2_pos (Zpos my) ey ltac:(lia)). lra. }
    destruct sx, sy; cbn [xorb]; field; assumption. }
  eapply Rounded_eq; [symmetry; exact Hsign|].
  apply (Rounded_cut _ (Q2 (cond_Zopp (xorb sx sy) (Zpos p)) (e' - 2))); [exact HR|].
  destruct (xorb sx sy); cbn [cond_Zopp].
  - change (Z.opp (Zpos p)) with (- Zpos p).
    intros c Hc'. rewrite Q2_opp. apply (cut_opp _ _ Hcut c Hc').
  - exact Hcut.
Qed.

(** Division of finite data by a finite non-zero datum rounds. *)
Lemma div_Rounded (x y : spec_float) :
  is_finite x = true -> is_finite y = true -> ~ (B y == 0)%Q ->
  Rounded prec emax (B x / B y) (SFdiv prec emax x y).
Proof.
  intros Fx Fy Hy.
  destruct y as [sy|sy| |sy my ey]; try discriminate; [exfalso; apply Hy; reflexivity|].
  destruct x as [sx|sx| |sx mx ex]; try discriminate.
  - cbn [SFdiv]. apply Rounded_exact; [reflexivity | reflexivity |].
    cbn [Bval]. unfold Qdiv. ring.
  - apply div_finite_Rounded.
Qed.
End Division.

(** ** Exact results *)

Lemma div32 (x y : f32) :
  is_finite x = true -> is_finite y = true -> ~ (B32 y == 0)%Q ->
  Rounded F32.prec F32.emax (B32 x / B32 y) (F32.div x y).
Proof. exact (div_Rounded _ _ fmt32 x y). Qed.

Lemma of_int32 (n : Z) : Rounded F32.prec F32.emax (inject_Z n) (F32.of_int n).
Proof.
  eapply Rounded_eq; [|apply (normalize_Rounded _ _ fmt32 n 0)].
  unfold Q2. change (pow2 0) with 1%Q. ring.
Qed.

(** A rounding of a number of the format is that number. *)
Lemma Rounded_value (v : Q) (r : f32) :
  Rounded F32.prec F32.emax v r -> fmt_repQ F32.prec F32.emax v -> (B32 r == v)%Q.
Proof.
  intros (_ & _ & H) Hv. destruct (H v Hv) as [H1 H2].
  apply Qle_antisym; [apply H1 | apply H2]; apply Qle_refl.
Qed.

Lemma finite_zero_B (x : f32) :
  F32.valid x = true -> is_finite x = true -> ((B32 x == 0)%Q <-> is_zero x = true).
Proof.
  intros V F. destruct x as [s|s| |s m e]; try discriminate; cbn [is_zero].
  - split; reflexivity.
  - split; [|discriminate]. unfold B32. rewrite (B_finite F32.emax).
    pose proof (Q2_pos (Zpos m) e ltac:(lia)) as Hp. destruct s; intros H; lra.
Qed.

(** Two finite data of the format with the same non-zero value are the
    same datum. *)
Lemma B32_inj (x y : f32) :
  F32.valid x = true -> F32.valid y = true -> is_finite x = true -> is_finite y = true ->
  (B32 x == B32 y)%Q -> is_zero x = false -> x = y.
Proof.
  intros Vx Vy Fx Fy E Hz.
  assert (Nx : is_nan x = false) by (destruct x; try reflexivity; discriminate).
  assert (Ny : is_nan y = false) by (destruct y; try reflexivity; discriminate).
  pose proof (SFcompare_B _ _ fmt32 x y Vx Vy Nx Ny) as Hc.
  fold (B32 x) (B32 y) in Hc. rewrite (Qcompare_Eq _ _ E) in Hc.
  destruct x as [sx|sx| |sx mx ex]; try discriminate.
  destruct y as [sy|sy| |sy my ey]; try discriminate; cbn [SFcompare] in Hc.
  - destruct sx; discriminate.
  - injection Hc as Hc.
    destruct sx, sy; try discriminate; destruct (ex ?= ey) eqn:Ee; try discriminate;
      apply Z.compare_eq in Ee; subst ey.
    + destruct (Pos.compare_cont Eq mx my) eqn:Em; try discriminate.
      apply Pos.compare_eq in Em. subst. reflexivity.
    + apply Pos.compare_eq in Hc. subst. reflexivity.
Qed.

(** A rounding of the value of a non-zero finite datum is that datum. *)
Lemma Rounded_same (x r : f32) :
  F32.valid x = true -> is_finite x = true -> is_zero x = false ->
  Rounded F32.prec F32.emax (B32 x) r -> r = x.
Proof.
  intros V F Hz HR.
  assert (Nx : is_nan x = false) by (destruct x; try reflexivity; discriminate).
  pose proof (Rounded_value _ _ HR (repQ_B _ _ fmt32 x V Nx)) as E.
  pose proof HR as (Vr & Nr & _).
  assert (Fr : is_finite r = true).
  { apply (finite_B F32.emax); [exact Nr|]. fold (B32 r). rewrite E.
    destruct x as [s|s| |s m e]; try discriminate.
    destruct (valid_finite _ _ fmt32 s m e V) as (_ & _ & _ & _ & Hlt).
    unfold B32. rewrite (B_finite F32.emax).
    pose proof (Q2_pos (Zpos m) e ltac:(lia)). destruct s; split; lra. }
  symmetry. apply B32_inj; try assumption. symmetry. exact E.
Qed.

Lemma B32_one : (B32 F32.one == 1)%Q.
Proof. vm_compute. reflexivity. Qed.

(** [x * 1.f] is [x]. *)
Lemma mul_one (x : f32) : F32.valid x = true -> F32.mul x F32.one = x.
Proof.
  intros V. destruct x as [s|s| |s m e].
  - destruct s; reflexivity.
  - destruct s; reflexivity.
  - reflexivity.
  - apply Rounded_same; [exact V | reflexivity | reflexivity |].
    eapply Rounded_eq;
      [|apply (mul32 (S754_finite s m e) F32.one V eq_refl eq_refl eq_refl)].
    rewrite B32_one. ring.
Qed.

(** ** Random numbers as [float] *)

Lemma Rounded_unit (v : Q) (r : f32) (lo hi : f32) :
  Rounded F32.prec F32.emax v r ->
  F32.valid lo = true -> F32.valid hi = true -> is_finite lo = true -> is_finite hi = true ->
  (B32 lo <= v <= B32 hi)%Q ->
  F32.valid r = true /\ is_finite r = true /\ (B32 lo <= B32 r <= B32 hi)%Q /\
  F32.leb lo r = true /\ F32.leb r hi = true.
Proof.
  intros HR Vlo Vhi Flo Fhi Hv.
  destruct (Rounded_between _ _ fmt32 v r lo hi HR Vlo Vhi Flo Fhi Hv)
    as (V & _ & F & Hb & H1 & H2).
  auto.
Qed.

Lemma get_float_range (n : Z) :
  0 <= n < 2 ^ 64 ->
  let u := F32.div (F32.of_int n) (F32.of_int 0xFFFFFFFFFFFFFFFF) in
  F32.valid u = true /\ is_finite u = true /\ (0 <= B32 u <= 1)%Q /\
  F32.leb F32.zero u = true /\ F32.leb u F32.one = true.
Proof.
  intros Hn u. subst u.
  set (top := F32.of_int 0xFFFFFFFFFFFFFFFF).
  assert (Etop : (B32 top == inject_Z (2 ^ 64))%Q) by (vm_compute; reflexivity).
  assert (Vtop : F32.valid top = true) by reflexivity.
  assert (Ftop : is_finite top = true) by reflexivity.
  clearbody top.
  destruct (Rounded_unit _ _ F32.zero top (of_int32 n)) as (Vx & Fx & Hx & _);
    try reflexivity; try assumption.
  { rewrite Etop. change (B32 F32.zero) with 0%Q.
    split; [apply inject_Z_nonneg; lia | rewrite <- Zle_Qle; lia]. }
  change (B32 F32.zero) with 0%Q in Hx. rewrite Etop in Hx.
  assert (Hpos : (0 < inject_Z (2 ^ 64))%Q) by (apply inject_Z_pos; lia).
  assert (HR : Rounded F32.prec F32.emax (B32 (F32.of_int n) / B32 top) (F32.div (F32.of_int n) top)).
  { apply div32; try assumption. rewrite Etop. lra. }
  destruct (Rounded_unit _ _ F32.zero F32.one HR) as (V & F & Hb & H0 & H1);
    try reflexivity.
  { change (B32 F32.zero) with 0%Q. rewrite B32_one, Etop. split.
    - apply Qle_shift_div_l; [exact Hpos | lra].
    - apply Qle_shift_div_r; [exact Hpos | lra]. }
  change (B32 F32.zero) with 0%Q in Hb. rewrite B32_one in Hb. auto.
Qed.

(** X12: [Random::get_float] answers a [float] in the closed interval
    [0, 1], the end 1.0 included: a draw of 2^64 - 1 gives exactly 1.0;
    and [Noise::process] answers a [float] in [-1, 1]. *)
Theorem Random_float_range (g : Xorshift128plus.state) :
  Xorshift_wf g ->
  (F32.leb F32.zero (fst (Random.get_float g)) = true /\
   F32.leb (fst (Random.get_float g)) F32.one = true) /\
  (F32.leb (F32.of_int (-1)) (fst (Noise.process g)) = true /\
   F32.leb (fst (Noise.process g)) F32.one = true) /\
  fst (Random.get_float (Xorshift128plus.mk (2 ^ 64 - 1) 0)) = F32.one.
Proof.
  intros W. destruct (Xorshift_get_next_wf g W) as [_ Hn].
  unfold Noise.process, Random.get_float, Random.get.
  destruct (Xorshift128plus.get_next g) as [n g']. cbn [fst] in *.
  destruct (get_float_range n Hn) as (V & F & Hb & H0 & H1).
  split; [split; assumption|]. split; [|vm_compute; reflexivity].
  set (u := F32.div (F32.of_int n) (F32.of_int 18446744073709551615)) in *.
  assert (E2 : (B32 (F32.of_int 2) == 2)%Q) by (vm_compute; reflexivity).
  assert (Em : (B32 (F32.of_int (-1)) == - (1))%Q) by (vm_compute; reflexivity).
  destruct (Rounded_unit _ _ F32.zero (F32.of_int 2) (mul32 u (F32.of_int 2) V eq_refl F eq_refl))
    as (Vy & Fy & Hy & _); try reflexivity.
  { change (B32 F32.zero) with 0%Q. rewrite E2. split; lra. }
  change (B32 F32.zero) with 0%Q in Hy. rewrite E2 in Hy.
  destruct (Rounded_unit _ _ (F32.of_int (-1)) F32.one
              (sub32 _ F32.one Vy eq_refl Fy eq_refl)) as (_ & _ & _ & Hz0 & Hz1);
    try reflexivity.
  { rewrite Em, B32_one. split; lra. }
  split; assumption.
Qed.

Lemma Random_float_range_witness :
  F32.leb F32.zero (fst (Random.get_float Xorshift128plus.init)) = true /\
  F32.leb (fst (Random.get_float Xorshift128plus.init)) F32.one = true.
Proof.
  apply (Random_float_range Xorshift128plus.init). split; cbn; lia.
Defined.

(** ** The envelope follows its times *)

Lemma ltb_zero_pos (p hi : f32) :
  F32.valid p = true -> F32.valid hi = true -> is_finite hi = true ->
  F32.ltb F32.zero p = true -> F32.leb p hi = true ->
  is_finite p = true /\ (0 < B32 p <= B32 hi)%Q.
Proof.
  intros V Vhi Fhi H0 H1.
  assert (Np : is_nan p = false) by (apply (ltb_not_nan_r F32.zero p), H0).
  assert (Nhi : is_nan hi = false) by (destruct hi; try reflexivity; discriminate).
  apply (ltb_B _ _ fmt32) in H0; try assumption; try reflexivity.
  apply (leb_B _ _ fmt32) in H1; try assumption.
  change (Bval F32.emax F32.zero) with 0%Q in H0. fold (B32 p) (B32 hi) in *.
  split; [|split; assumption].
  apply (finite_B F32.emax); [exact Np|]. fold (B32 p).
  assert (B32 hi < pow2 F32.emax)%Q.
  { destruct hi as [s|s| |s m e]; try discriminate.
    - pose proof (pow2_pos F32.emax). change (B32 (S754_zero s)) with 0%Q. lra.
    - destruct (valid_finite _ _ fmt32 s m e Vhi) as (_ & _ & _ & _ & Hlt).
      unfold B32. rewrite (B_finite F32.emax).
      pose proof (Q2_pos (Zpos m) e ltac:(lia)). destruct s; lra. }
  pose proof (pow2_pos F32.emax). split; lra.
Qed.

(** For a time of at most 262144 ms the step per tick is a [float] of at
    least 2^-24 (+infinity for the shortest times). *)
Lemma ADSR_step_ok (p : f32) :
  ADSR_time p ->
  F32.valid (ADSR.attack_step p) = true /\ F32.leb least_step (ADSR.attack_step p) = true.
Proof.
  intros (V & H0 & H1).
  destruct (ltb_zero_pos p (F32.of_int 262144) V eq_refl eq_refl H0 H1) as (F & Hp0 & Hp1).
  assert (E18 : (B32 (F32.of_int 262144) == inject_Z 262144)%Q) by (vm_compute; reflexivity).
  assert (E1000 : (B32 (F32.of_int 1000) == inject_Z 1000)%Q) by (vm_compute; reflexivity).
  rewrite E18 in Hp1.
  unfold ADSR.attack_step.
  assert (HR : Rounded F32.prec F32.emax (B32 (F32.of_int 1000) / B32 p)
                 (F32.div (F32.of_int 1000) p)).
  { apply div32; [reflexivity | exact F | lra]. }
  set (a := F32.div (F32.of_int 1000) p) in *.
  set (c1 := S754_finite false 16384000 (-32)).
  assert (Ec1 : (B32 c1 == 1000 # 262144)%Q) by (vm_compute; reflexivity).
  assert (Hquot : (B32 c1 <= B32 (F32.of_int 1000) / B32 p)%Q).
  { rewrite Ec1, E1000. apply Qle_shift_div_l; [exact Hp0|].
    change (inject_Z 262144) with (262144 # 1) in Hp1. change (inject_Z 1000) with (1000 # 1).
    assert ((1000 # 262144) * B32 p <= (1000 # 262144) * (262144 # 1))%Q.
    { rewrite !(Qmult_comm (1000 # 262144)). apply Qmult_le_compat_r; [exact Hp1 | discriminate]. }
    assert (((1000 # 262144) * (262144 # 1) == 1000 # 1)%Q) by reflexivity. lra. }
  pose proof (Rounded_lower _ _ fmt32 _ _ c1 HR eq_refl eq_refl Hquot) as Ha.
  fold (B32 a) (B32 c1) in Ha.
  pose proof HR as (Va & Na & _).
  assert (EDT : (9 # 400000 <= B32 DT)%Q) by qle.
  assert (Els : (B32 least_step == 1 # 16777216)%Q) by (vm_compute; reflexivity).
  destruct (is_finite a) eqn:Fa.
  - pose proof (mul32 a DT Va eq_refl Fa eq_refl) as HM.
    split; [apply HM|].
    apply (proj2 (leb_B _ _ fmt32 least_step _ eq_refl (proj1 HM) eq_refl (proj1 (proj2 HM)))).
    apply (Rounded_lower _ _ fmt32 _ _ least_step HM eq_refl eq_refl).
    fold (B32 least_step) (B32 a) (B32 DT). rewrite Els.
    assert (Hprod : ((1000 # 262144) * (9 # 400000) <= B32 a * B32 DT)%Q).
    { apply Qle_trans with ((1000 # 262144) * B32 DT)%Q.
      - rewrite !(Qmult_comm (1000 # 262144)). apply Qmult_le_compat_r; [exact EDT | discriminate].
      - apply Qmult_le_compat_r; [lra | lra]. }
    assert ((1 # 16777216) <= (1000 # 262144) * (9 # 400000))%Q by (apply Qle_bool_iff; reflexivity).
    lra.
  - destruct a as [s|s| |s m e]; try discriminate.
    destruct s; [exfalso; rewrite Ec1 in Ha; unfold B32 in Ha; cbn [Bval] in Ha;
                 pose proof (pow2_pos F32.emax) as Hpp; clearbody c1;
                 assert (0 < 1000 # 262144)%Q by reflexivity; lra|].
    split; reflexivity.
Qed.

(** One more step of at least 2^-24 down from a value in (0, 1]: the
    difference is at most 0 or a [float] strictly between 0 and the
    value. *)
Lemma release_progress (v st : f32) :
  F32.valid v = true -> is_finite v = true -> (0 < B32 v <= 1)%Q ->
  F32.valid st = true -> F32.leb least_step st = true ->
  F32.leb (F32.sub v st) F32.zero = true \/
  (F32.leb (F32.sub v st) F32.zero = false /\
   F32.valid (F32.sub v st) = true /\ is_finite (F32.sub v st) = true /\
   (0 < B32 (F32.sub v st) < B32 v)%Q).
Proof.
  intros Vv Fv [Hv0 Hv1] Vs Hs.
  assert (Ns : is_nan st = false) by (apply (leb_not_nan_r least_step st), Hs).
  apply (leb_B _ _ fmt32) in Hs; try assumption; try reflexivity.
  assert (Hl : (Bval F32.emax least_step == pow2 (-24))%Q) by (vm_compute; reflexivity).
  assert (Hlp : (0 < pow2 (-24))%Q) by apply pow2_pos.
  rewrite Hl in Hs. fold (B32 st) in Hs.
  destruct (is_finite st) eqn:Fs.
  2:{ left. destruct st as [s|s| |s m e]; try discriminate.
      destruct s; [unfold B32 in Hs; cbn [Bval] in Hs; pose proof (pow2_pos F32.emax); lra|].
      destruct v as [s'|s'| |s' m' e']; try discriminate; reflexivity. }
  pose proof (sub32 v st Vv Vs Fv Fs) as HR.
  destruct (F32.leb (F32.sub v st) F32.zero) eqn:Hz; [left; reflexivity|].
  right. split; [reflexivity|].
  pose proof HR as (Vr & Nr & Hb).
  apply (leb_false_B _ _ fmt32) in Hz; try assumption; try reflexivity.
  change (Bval F32.emax F32.zero) with 0%Q in Hz. fold (B32 (F32.sub v st)) in Hz.
  assert (Hdown : (B32 (F32.sub v st) < B32 v)%Q).
  { destruct v as [s|s| |s m e]; try discriminate.
    destruct s.
    { exfalso. unfold B32 in Hv0. rewrite (B_finite F32.emax) in Hv0. cbv iota in Hv0.
      pose proof (Q2_pos (Zpos m) e ltac:(lia)). lra. }
    assert (Ev : (B32 (S754_finite false m e) == Q2 (Zpos m) e)%Q) by reflexivity.
    rewrite Ev in *.
    destruct (valid_finite F32.prec F32.emax fmt32 false m e Vv)
      as (_ & He & [_ Hmin] & Hm & _).
    destruct (Qlt_le_dec (Q2 (Zpos m) e) 1) as [Hlt1 | Hge1].
    - (* below 1 the grid is at most 2^-24 wide *)
      pose proof (below_one_exponent m e Vv Hlt1) as He24.
      assert (Hprev : (Q2 (Zpos m - 1) e == Q2 (Zpos m) e - pow2 e)%Q).
      { rewrite Q2_minus, <- pow2_Q2. reflexivity. }
      assert (Hrep : fmt_repQ F32.prec F32.emax (Q2 (Zpos m - 1) e)).
      { exists (Zpos m - 1), e. split; [split; [lia | exact Hmin]|].
        split; [|left; reflexivity].
        apply Qle_trans with (Q2 (2 ^ F32.prec) e); [apply Q2_le; lia|].
        rewrite Q2_pow by (unfold F32.prec; lia). apply pow2_le. lia. }
      assert (Hpe : (pow2 e <= pow2 (-24))%Q) by (apply pow2_le; lia).
      destruct (Hb _ Hrep) as [Hup _].
      assert (B32 (F32.sub (S754_finite false m e) st) <= Q2 (Zpos m - 1) e)%Q.
      { apply Hup. rewrite Ev, Hprev. lra. }
      pose proof (pow2_pos e). lra.
    - (* at 1 the number below is 1 - 2^-24 *)
      assert (Hrep : fmt_repQ F32.prec F32.emax (Q2 (2 ^ 24 - 1) (-24))).
      { apply grid_repQ; lia. }
      assert (Hc : (Q2 (2 ^ 24 - 1) (-24) == 1 - pow2 (-24))%Q) by (vm_compute; reflexivity).
      destruct (Hb _ Hrep) as [Hup _].
      assert (B32 (F32.sub (S754_finite false m e) st) <= Q2 (2 ^ 24 - 1) (-24))%Q.
      { apply Hup. rewrite Ev, Hc. lra. }
      lra. }
  split; [exact Vr|]. split; [|split; assumption].
  apply (finite_B F32.emax); [exact Nr|]. fold (B32 (F32.sub v st)).
  pose proof pow2_128_big. split; lra.
Qed.

Section ADSRRelease.
Variable pow : f32 -> f32 -> f32.
Variables attack decay sustain release : f32.

Local Abbreviation process := (fun a e => ADSR.process pow a e attack decay sustain release).
Local Abbreviation run := (fun a es => ADSR.run pow a es attack decay sustain release).

Lemma process_release_quiet (v : f32) (note : Z) (e : MIDIEvent) :
  quiet e ->
  process (ADSR.mk ADSR.Release v note) e =
  if F32.leb (F32.sub v (ADSR.attack_step release)) F32.zero
  then (F32.zero, ADSR.mk ADSR.Sustain F32.zero note)
  else (F32.sub v (ADSR.attack_step release),
        ADSR.mk ADSR.Release (F32.sub v (ADSR.attack_step release)) note).
Proof.
  intros [Hon Hoff]. unfold ADSR.process. rewrite Hon, Hoff. reflexivity.
Qed.

(** A note-off for the note held acts like a tick of the release phase
    entered with no note. *)
Lemma process_note_off_held (a : ADSR.state) (e : MIDIEvent) :
  MIDI.is_note_off e = true -> data1 e = ADSR.note a ->
  process a e = process (ADSR.mk ADSR.Release (ADSR.value a) 0) MIDI.empty.
Proof.
  intros Hoff Hn. unfold ADSR.process.
  assert (Hon : MIDI.is_note_on e = false).
  { unfold MIDI.is_note_on, MIDI.is_note_off in *. apply Z.eqb_eq in Hoff. rewrite Hoff.
    reflexivity. }
  rewrite Hon, Hoff, Hn, Z.eqb_refl. reflexivity.
Qed.

(** A note-off for another note is answered like an empty event. *)
Lemma process_note_off_other (a : ADSR.state) (e : MIDIEvent) :
  MIDI.is_note_off e = true -> data1 e <> ADSR.note a ->
  process a e = process a MIDI.empty.
Proof.
  intros Hoff Hn. unfold ADSR.process.
  assert (Hon : MIDI.is_note_on e = false).
  { unfold MIDI.is_note_on, MIDI.is_note_off in *. apply Z.eqb_eq in Hoff. rewrite Hoff.
    reflexivity. }
  apply Z.eqb_neq in Hn. rewrite Hon, Hoff, Hn. reflexivity.
Qed.

(** The release phase runs to completion: the values fall strictly, the
    last one is exactly 0 and leaves the envelope in [Sustain]. *)
Lemma release_loop (k : nat) (v : f32) (note : Z) :
  F32.valid (ADSR.attack_step release) = true ->
  F32.leb least_step (ADSR.attack_step release) = true ->
  F32.valid v = true -> is_finite v = true -> (0 < B32 v <= 1)%Q ->
  grid32 v <= Z.of_nat k ->
  exists n vs,
    run (ADSR.mk ADSR.Release v note) (repeat MIDI.empty (Datatypes.S n)) =
      (vs, ADSR.mk ADSR.Sustain F32.zero note) /\
    descending v vs /\ last vs F32.one = F32.zero.
Proof.
  intros Vs Hs. revert v. induction k as [|k IH]; intros v Vv Fv Hv Hk.
  - exfalso. assert (Hg : grid32 F32.zero < grid32 v).
    { apply grid32_lt; try reflexivity; try assumption; [apply Qle_refl | apply Hv]. }
    change (grid32 F32.zero) with 0 in Hg. lia.
  - assert (Nv : is_nan v = false) by (destruct v; try reflexivity; discriminate).
    destruct (release_progress v _ Vv Fv Hv Vs Hs) as [H1 | (H1 & Vw & Fw & Hw0 & Hlt)].
    + exists O, [F32.zero]. cbn [repeat ADSR.run].
      rewrite (process_release_quiet v note _ (quiet_empty)), H1.
      split; [reflexivity|]. split; [|reflexivity].
      cbn [descending]. split; [|exact I].
      apply (ltb_B _ _ fmt32); try assumption; try reflexivity. apply Hv.
    + set (w := F32.sub v (ADSR.attack_step release)) in *.
      assert (Hg : grid32 w < grid32 v).
      { apply grid32_lt; try assumption. apply Qlt_le_weak, Hw0. }
      destruct (IH w Vw Fw) as (n & vs & Hrun & Hdesc & Hlast).
      { split; [exact Hw0|]. apply Qle_trans with (B32 v); [apply Qlt_le_weak, Hlt | apply Hv]. }
      { lia. }
      exists (Datatypes.S n), (w :: vs).
      assert (Hp : process (ADSR.mk ADSR.Release v note) MIDI.empty =
                   (w, ADSR.mk ADSR.Release w note)).
      { rewrite (process_release_quiet v note _ quiet_empty). fold w. rewrite H1. reflexivity. }
      split; [|split].
      * change (repeat MIDI.empty (Datatypes.S (Datatypes.S n)))
          with (MIDI.empty :: repeat MIDI.empty (Datatypes.S n)).
        cbn [ADSR.run]. rewrite Hp.
        change (MIDI.empty :: repeat MIDI.empty n) with (repeat MIDI.empty (Datatypes.S n)).
        rewrite Hrun. reflexivity.
      * cbn [descending]. split; [|exact Hdesc].
        apply (ltb_B _ _ fmt32); try assumption.
        destruct w; try reflexivity; discriminate.
      * destruct vs as [|x r]; [|exact Hlast].
        cbn [repeat ADSR.run] in Hrun.
        destruct (ADSR.process pow (ADSR.mk ADSR.Release w note) MIDI.empty
                    attack decay sustain release) as [x a1].
        destruct (ADSR.run pow a1 (repeat MIDI.empty n) attack decay sustain release)
          as [r a2].
        discriminate Hrun.
Qed.
End ADSRRelease.

(** X13: the release phase always ends.  For a release time above 0 and
    of at most 262144 ms, and an envelope in any phase whose value is
    above 0 and at most 1, a note-off for the note held followed by
    empty events is answered by values that fall strictly until one of
    them is exactly 0, and that tick leaves the envelope as it was
    constructed (Sustain, value 0, no note).  A note-off for another
    note is answered like an empty event. *)
Theorem ADSR_release_completes (pow : f32 -> f32 -> f32)
    (attack decay sustain release : f32) (a : ADSR.state) :
  (forall e, ADSR_time release -> ADSR_level (ADSR.value a) ->
     MIDI.is_note_off e = true -> data1 e = ADSR.note a ->
     exists n vs,
       ADSR.run pow a (e :: repeat MIDI.empty n) attack decay sustain release =
         (vs, ADSR.init) /\
       descending (ADSR.value a) vs /\ last vs F32.one = F32.zero) /\
  (forall e, MIDI.is_note_off e = true -> data1 e <> ADSR.note a ->
     ADSR.process pow a e attack decay sustain release =
     ADSR.process pow a MIDI.empty attack decay sustain release).
Proof.
  split.
  - intros e Ht (Vv & Hv0 & Hv1) Hoff Hn.
    destruct (ADSR_step_ok release Ht) as [Vs Hs].
    destruct (ltb_zero_pos _ F32.one Vv eq_refl eq_refl Hv0 Hv1) as (Fv & Hv).
    assert (E1 : (B32 F32.one == 1)%Q) by (vm_compute; reflexivity).
    rewrite E1 in Hv.
    assert (Hg : grid32 (ADSR.value a) <= Z.of_nat (Z.to_nat (2 ^ 149))).
    { rewrite Z2Nat.id by (apply Z.pow_nonneg; lia).
      assert (Hd : (0 <= B32 (ADSR.value a))%Q) by (apply Qlt_le_weak, Hv).
      destruct (Qlt_le_dec (B32 (ADSR.value a)) 1) as [Hlt | Hge].
      - pose proof (grid32_below_one (ADSR.value a) Vv Fv (conj Hd Hlt)). lia.
      - assert (Heq : ADSR.value a = F32.one).
        { apply B32_inj; try assumption; try reflexivity.
          - rewrite E1. apply Qle_antisym; [apply Hv | exact Hge].
          - destruct (is_zero (ADSR.value a)) eqn:Hz; [exfalso | reflexivity].
            apply (finite_zero_B _ Vv Fv) in Hz. destruct Hv as [Hv _]. rewrite Hz in Hv.
            exact (Qlt_irrefl 0 Hv). }
        rewrite Heq. vm_compute. discriminate. }
    destruct (release_loop pow attack decay sustain release (Z.to_nat (2 ^ 149))
                (ADSR.value a) 0 Vs Hs Vv Fv Hv Hg) as (n & vs & Hrun & Hdesc & Hlast).
    exists n, vs. split; [|split; assumption].
    cbn [ADSR.run].
    rewrite (process_note_off_held pow attack decay sustain release a e Hoff Hn).
    change (repeat MIDI.empty (Datatypes.S n)) with (MIDI.empty :: repeat MIDI.empty n) in Hrun.
    cbn [ADSR.run] in Hrun. exact Hrun.
  - intros e Hoff Hn. apply process_note_off_other; assumption.
Qed.

Lemma ADSR_release_completes_witness :
  exists n vs,
    ADSR.run (fun _ _ => F32.zero) (ADSR.mk ADSR.Decay (F32.dec 5 10) 60)
      (MIDI.create_note_off 60 0 0 :: repeat MIDI.empty n)
      (F32.of_int 10) (F32.of_int 100) (F32.dec 5 10) (F32.of_int 200) =
      (vs, ADSR.init) /\
    descending (F32.dec 5 10) vs /\ last vs F32.one = F32.zero.
Proof.
  apply (proj1 (ADSR_release_completes (fun _ _ => F32.zero)
                  (F32.of_int 10) (F32.of_int 100) (F32.dec 5 10) (F32.of_int 200)
                  (ADSR.mk ADSR.Decay (F32.dec 5 10) 60)) (MIDI.create_note_off 60 0 0)).
  - repeat split; vm_compute; reflexivity.
  - repeat split; vm_compute; reflexivity.
  - reflexivity.
  - reflexivity.
Defined.

(** X14: the attack phase always ends for a usable attack time.  For an
    attack time above 0 and of at most 262144 ms the step per tick
    [1000.f / attack * DT] is a [float] of at least 2^-24 or +infinity,
    and a note-on at rest followed by empty events is answered by values
    that rise strictly from 0 until one of them is exactly 1, which
    puts the envelope in [Decay] with the note of the event. *)
Theorem ADSR_attack_completes (pow : f32 -> f32 -> f32)
    (attack decay sustain release : f32) (e : MIDIEvent) :
  ADSR_time attack -> MIDI.is_note_on e = true ->
  F32.leb least_step (F32.mul (F32.div (F32.of_int 1000) attack) DT) = true /\
  exists n vs,
    ADSR.run pow ADSR.init (e :: repeat MIDI.empty n) attack decay sustain release =
      (vs, ADSR.mk ADSR.Decay F32.one (data1 e)) /\
    ascending F32.zero vs /\ last vs F32.zero = F32.one.
Proof.
  intros Ht Hon. destruct (ADSR_step_ok attack Ht) as [Vs Hs].
  split; [exact Hs|].
  assert (Hv : (0 <= B32 F32.zero < 1)%Q) by (split; [apply Qle_refl | reflexivity]).
  assert (Hk : 2 ^ 149 - grid32 F32.zero <= Z.of_nat (Z.to_nat (2 ^ 149))).
  { rewrite Z2Nat.id by (apply Z.pow_nonneg; lia). change (grid32 F32.zero) with 0. lia. }
  destruct (attack_loop pow attack decay sustain release (Z.to_nat (2 ^ 149))
              F32.zero (data1 e) Vs Hs eq_refl eq_refl Hv Hk)
    as (n & vs & Hrun & Hasc & Hlast & _).
  exists n, vs. split; [|split; assumption].
  cbn [ADSR.run]. rewrite (process_note_on_rest pow attack decay sustain release e Hon).
  change (repeat MIDI.empty (Datatypes.S n)) with (MIDI.empty :: repeat MIDI.empty n) in Hrun.
  cbn [ADSR.run] in Hrun. exact Hrun.
Qed.

Lemma ADSR_attack_completes_witness :
  F32.leb least_step (F32.mul (F32.div (F32.of_int 1000) (F32.of_int 10)) DT) = true /\
  exists n vs,
    ADSR.run (fun _ _ => F32.zero) ADSR.init
      (MIDI.create_note_on 60 100 0 :: repeat MIDI.empty n)
      (F32.of_int 10) (F32.of_int 100) (F32.dec 5 10) (F32.of_int 200) =
      (vs, ADSR.mk ADSR.Decay F32.one (data1 (MIDI.create_note_on 60 100 0))) /\
    ascending F32.zero vs /\ last vs F32.zero = F32.one.
Proof.
  apply (ADSR_attack_completes (fun _ _ => F32.zero)
           (F32.of_int 10) (F32.of_int 100) (F32.dec 5 10) (F32.of_int 200)
           (MIDI.create_note_on 60 100 0)).
  - repeat split; vm_compute; reflexivity.
  - reflexivity.
Defined.

(** ** The MIDI clock *)

Lemma leb_range (lo x hi : f32) :
  F32.valid lo = true -> F32.valid hi = true -> is_finite lo = true -> is_finite hi = true ->
  F32.valid x = true -> F32.leb lo x = true -> F32.leb x hi = true ->
  is_finite x = true /\ (B32 lo <= B32 x <= B32 hi)%Q.
Proof.
  intros Vlo Vhi Flo Fhi V H0 H1.
  destruct (finite_between _ _ fmt32 lo x hi) as (_ & F & H); try assumption.
  split; [exact F | exact H].
Qed.

Lemma fmt_repQ_eq (c c' : Q) :
  (c == c')%Q -> fmt_repQ F32.prec F32.emax c -> fmt_repQ F32.prec F32.emax c'.
Proof.
  intros E (N & ec & H & Hle & Hc). exists N, ec. split; [exact H|]. split; [exact Hle|].
  destruct Hc as [Hc | Hc]; [left | right]; rewrite <- E; exact Hc.
Qed.

(** A [float] from 1 to 2 is a multiple of 2^-23. *)
Lemma above_one_grid (v : f32) :
  F32.valid v = true -> is_finite v = true -> (1 <= B32 v <= 2)%Q ->
  exists n, 2 ^ 23 <= n <= 2 ^ 24 /\ (B32 v == Q2 n (-23))%Q.
Proof.
  intros V F [H1 H2]. destruct v as [s|s| |s m e]; try discriminate.
  { exfalso. change (B32 (S754_zero s)) with 0%Q in H1. lra. }
  pose proof (B_finite F32.emax s m e) as EB. fold (B32 (S754_finite s m e)) in EB.
  rewrite EB in H1, H2.
  destruct s.
  { exfalso. pose proof (Q2_pos (Zpos m) e ltac:(lia)). lra. }
  destruct (valid_finite F32.prec F32.emax fmt32 false m e V) as (Hc & _).
  rewrite fexp_spec in Hc. unfold F32.prec, F32.emax in Hc.
  pose proof (digits2_pos_bounds m) as [Hl Hu].
  assert (He : -23 <= e).
  { destruct (Z_le_gt_dec (-23) e) as [|Hgt]; [assumption|]. exfalso.
    assert (Hd : Zpos (digits2_pos m) <= 24) by lia.
    assert (Hm : Zpos m < 2 ^ 24).
    { apply Z.lt_le_trans with (2 ^ Zpos (digits2_pos m)); [exact Hu|].
      apply Z.pow_le_mono_r; lia. }
    assert (H : (Q2 (Zpos m) e < pow2 0)%Q).
    { apply Qlt_le_trans with (Q2 (2 ^ 24) e); [apply Q2_lt; exact Hm|].
      rewrite Q2_pow by lia. apply pow2_le. lia. }
    change (pow2 0) with 1%Q in H. lra. }
  exists (Zpos m * 2 ^ (e + 23)).
  assert (E : (Q2 (Zpos m * 2 ^ (e + 23)) (-23) == Q2 (Zpos m) e)%Q).
  { rewrite Q2_shift by lia. replace (-23 + (e + 23)) with e by lia. reflexivity. }
  split; [|rewrite EB; symmetry; exact E].
  split.
  - apply (Q2_le_inv _ _ (-23)). rewrite E, Q2_pow by lia. change (pow2 (23 + -23)) with 1%Q.
    exact H1.
  - apply (Q2_le_inv _ _ (-23)). rewrite E, Q2_pow by lia. change (pow2 (24 + -23)) with 2%Q.
    exact H2.
Qed.

(** The step of a tempo up to 60000 is a [float] from 0 to 1. *)
Lemma MIDIClock_step_range (bpm : f32) :
  MIDIClock_tempo bpm ->
  F32.valid (MIDIClock.step bpm) = true /\ is_finite (MIDIClock.step bpm) = true /\
  (0 <= B32 (MIDIClock.step bpm) <= 1)%Q.
Proof.
  intros (V & H0 & H1).
  destruct (leb_range F32.zero bpm (F32.of_int 60000)) as (F & Hlo & Hhi);
    try reflexivity; try assumption.
  change (B32 F32.zero) with 0%Q in Hlo.
  assert (E6 : (B32 (F32.of_int 60000) == 60000)%Q) by (vm_compute; reflexivity).
  assert (E60 : (B32 (F32.of_int 60) == 60)%Q) by (vm_compute; reflexivity).
  assert (E24 : (B32 (F32.of_int 24) == 24)%Q) by (vm_compute; reflexivity).
  rewrite E6 in Hhi.
  unfold MIDIClock.step.
  (* bpm / 60 *)
  assert (R1 : Rounded F32.prec F32.emax (B32 bpm / B32 (F32.of_int 60))
                 (F32.div bpm (F32.of_int 60))).
  { apply div32; [exact F | reflexivity | rewrite E60; discriminate]. }
  set (a := F32.div bpm (F32.of_int 60)) in *.
  assert (Hq : (0 <= B32 bpm / B32 (F32.of_int 60) <= 1000)%Q).
  { rewrite E60. split.
    - apply Qle_shift_div_l; [reflexivity | lra].
    - apply Qle_shift_div_r; [reflexivity | lra]. }
  destruct (Rounded_within _ _ 1000 R1 ltac:(lia)) as (Va & Fa & _ & Ha1).
  { change (inject_Z 1000) with 1000%Q. lra. }
  change (inject_Z 1000) with 1000%Q in Ha1.
  pose proof (Rounded_nonneg _ _ R1 (proj1 Hq)) as Ha0.
  (* * 24 *)
  pose proof (mul32 a (F32.of_int 24) Va eq_refl Fa eq_refl) as R2.
  set (b := F32.mul a (F32.of_int 24)) in *.
  destruct (Rounded_within _ _ 24000 R2 ltac:(lia)) as (Vb & Fb & _ & Hb1).
  { rewrite E24. change (inject_Z 24000) with 24000%Q. lra. }
  change (inject_Z 24000) with 24000%Q in Hb1.
  assert (Hb0 : (0 <= B32 b)%Q) by (apply (Rounded_nonneg _ _ R2); rewrite E24; lra).
  (* * DT *)
  pose proof (mul32 b DT Vb eq_refl Fb eq_refl) as R3.
  assert (EDT : (0 <= B32 DT <= 1 # 24000)%Q) by (split; qle).
  assert (Hp : (0 <= B32 b * B32 DT <= 1)%Q).
  { split; [apply Qmult_le_0_compat; lra|].
    apply Qle_trans with (24000 * B32 DT)%Q; [apply Qmult_le_compat_r; lra | lra]. }
  destruct (Rounded_within _ _ 1 R3 ltac:(lia)) as (Vc & Fc & _ & Hc1).
  { change (inject_Z 1) with 1%Q. lra. }
  change (inject_Z 1) with 1%Q in Hc1.
  split; [exact Vc|]. split; [exact Fc|]. split; [|exact Hc1].
  apply (Rounded_nonneg _ _ R3), Hp.
Qed.

Lemma ticks_cons (e : MIDIEvent) (es : list MIDIEvent) :
  ticks (e :: es) = (if is_tick e then 1 else 0) + ticks es.
Proof.
  unfold ticks. cbn [filter]. destruct (is_tick e); [|lia].
  cbn [List.length]. lia.
Qed.

(** One call: the value stays from 0 to 1, and value plus tick is the
    old value plus the step up to one rounding. *)
Lemma MIDIClock_process_step (v bpm : f32) :
  MIDIClock_inv v -> MIDIClock_tempo bpm ->
  MIDIClock_inv (snd (MIDIClock.process v bpm)) /\
  (fst (MIDIClock.process v bpm) = MIDI.clock \/ fst (MIDIClock.process v bpm) = MIDI.empty) /\
  (B32 v + B32 (MIDIClock.step bpm) - eps <=
     B32 (snd (MIDIClock.process v bpm)) +
       inject_Z (if is_tick (fst (MIDIClock.process v bpm)) then 1 else 0) <=
   B32 v + B32 (MIDIClock.step bpm) + eps)%Q.
Proof.
  intros (Vv & Fv & Hv0 & Hv1) Ht.
  destruct (MIDIClock_step_range bpm Ht) as (Vs & Fs & Hs0 & Hs1).
  unfold MIDIClock.process.
  set (s := MIDIClock.step bpm) in *.
  pose proof (add32 v s Vv Vs Fv Fs) as HR.
  destruct (Rounded_near _ _ HR) as (V1 & F1 & Hn); [lra|].
  assert (N1 : is_nan (F32.add v s) = false) by apply HR.
  assert (H2 : (B32 (F32.add v s) <= 2)%Q).
  { assert (E2 : (B32 (F32.of_int 2) == 2)%Q) by (vm_compute; reflexivity).
    rewrite <- E2. apply (Rounded_upper _ _ fmt32 _ _ (F32.of_int 2) HR eq_refl eq_refl).
    fold (B32 (F32.of_int 2)). rewrite E2. lra. }
  assert (H0 : (0 <= B32 (F32.add v s))%Q) by (apply (Rounded_nonneg _ _ HR); lra).
  destruct (F32.ltb F32.one (F32.add v s)) eqn:Hcmp; cbn [fst snd].
  - apply (ltb_B _ _ fmt32) in Hcmp; try assumption; try reflexivity.
    fold (B32 F32.one) (B32 (F32.add v s)) in Hcmp. rewrite B32_one in Hcmp.
    destruct (above_one_grid (F32.add v s) V1 F1) as (n & Hn23 & En); [lra|].
    pose proof (sub32 (F32.add v s) F32.one V1 eq_refl F1 eq_refl) as HS.
    assert (ES : (B32 (F32.add v s) - B32 F32.one == Q2 (n - 2 ^ 23) (-23))%Q).
    { rewrite B32_one, En, Q2_minus, (Q2_pow 23 (-23)) by lia.
      change (pow2 (23 + -23)) with 1%Q. reflexivity. }
    assert (Ev : (B32 (F32.sub (F32.add v s) F32.one) == B32 (F32.add v s) - 1)%Q).
    { rewrite <- B32_one. apply Rounded_value; [exact HS|].
      apply (fmt_repQ_eq (Q2 (n - 2 ^ 23) (-23))); [rewrite <- ES; reflexivity|]. apply grid_repQ; lia. }
    split; [|split; [left; reflexivity|]].
    + split; [apply HS|]. split.
      * apply (finite_B F32.emax); [apply HS|].
        fold (B32 (F32.sub (F32.add v s) F32.one)). rewrite Ev.
        pose proof pow2_128_big. split; lra.
      * rewrite Ev. split; lra.
    + change (is_tick MIDI.clock) with true. cbv iota. change (inject_Z 1) with 1%Q.
      rewrite Ev. split; lra.
  - apply (ltb_false_B _ _ fmt32) in Hcmp; try assumption; try reflexivity.
    fold (B32 F32.one) (B32 (F32.add v s)) in Hcmp. rewrite B32_one in Hcmp.
    split; [|split; [right; reflexivity|]].
    + split; [exact V1|]. split; [exact F1|]. split; assumption.
    + change (is_tick MIDI.empty) with false. cbv iota. change (inject_Z 0) with 0%Q.
      split; lra.
Qed.

Lemma MIDIClock_run_steps (bpms : list f32) (v : f32) :
  MIDIClock_inv v -> Forall MIDIClock_tempo bpms ->
  MIDIClock_inv (snd (MIDIClock.run v bpms)) /\
  Forall (fun e => e = MIDI.clock \/ e = MIDI.empty) (fst (MIDIClock.run v bpms)) /\
  List.length (fst (MIDIClock.run v bpms)) = List.length bpms /\
  (B32 v + beats bpms - inject_Z (Z.of_nat (List.length bpms)) * eps <=
     B32 (snd (MIDIClock.run v bpms)) + inject_Z (ticks (fst (MIDIClock.run v bpms))) <=
   B32 v + beats bpms + inject_Z (Z.of_nat (List.length bpms)) * eps)%Q.
Proof.
  intros Hv Hall. revert v Hv. induction Hall as [|bpm r Hb Hr IH]; intros v Hv.
  - cbn [MIDIClock.run fst snd beats fold_right List.length].
    split; [exact Hv|]. split; [constructor|]. split; [reflexivity|].
    change (ticks []) with 0. change (inject_Z (Z.of_nat 0)) with 0%Q.
    change (inject_Z 0) with 0%Q. split; lra.
  - destruct (MIDIClock_process_step v bpm Hv Hb) as (Hi & He & Hq).
    cbn [MIDIClock.run]. destruct (MIDIClock.process v bpm) as [e v1]. cbn [fst snd] in *.
    specialize (IH v1 Hi). destruct (MIDIClock.run v1 r) as [es v2]. cbn [fst snd] in *.
    destruct IH as (Hi2 & Hes & Hlen & Hq2).
    split; [exact Hi2|]. split; [constructor; assumption|].
    split; [cbn [List.length]; rewrite Hlen; reflexivity|].
    rewrite ticks_cons, inject_Z_plus. cbn [beats fold_right List.length]. fold (beats r).
    rewrite Nat2Z.inj_succ. unfold Z.succ. rewrite inject_Z_plus.
    change (inject_Z 1) with 1%Q.
    set (t := inject_Z (if is_tick e then 1 else 0)) in *.
    set (n := inject_Z (Z.of_nat (List.length r))) in *.
    assert (Heps : (eps == 1 # 4194304)%Q) by reflexivity.
    clearbody t n. split; lra.
Qed.

(** From 1 beat per minute on the step is at least 3 * 2^-19. *)
Lemma MIDIClock_step_lower (bpm : f32) :
  F32.valid bpm = true -> F32.leb F32.one bpm = true ->
  F32.leb bpm (F32.of_int 60000) = true ->
  (Q2 3 (-19) <= B32 (MIDIClock.step bpm))%Q.
Proof.
  intros V H0 H1.
  destruct (leb_range F32.one bpm (F32.of_int 60000)) as (F & Hlo & Hhi);
    try reflexivity; try assumption.
  rewrite B32_one in Hlo.
  assert (E60 : (B32 (F32.of_int 60) == 60)%Q) by (vm_compute; reflexivity).
  assert (E24 : (B32 (F32.of_int 24) == 24)%Q) by (vm_compute; reflexivity).
  assert (Ht : MIDIClock_tempo bpm).
  { split; [exact V|]. split; [|exact H1].
    apply (proj2 (leb_B _ _ fmt32 F32.zero bpm eq_refl V eq_refl
                    (leb_not_nan_r _ _ H0))).
    change (Bval F32.emax F32.zero) with 0%Q. fold (B32 bpm). lra. }
  unfold MIDIClock.step.
  assert (R1 : Rounded F32.prec F32.emax (B32 bpm / B32 (F32.of_int 60))
                 (F32.div bpm (F32.of_int 60))).
  { apply div32; [exact F | reflexivity | rewrite E60; discriminate]. }
  set (a := F32.div bpm (F32.of_int 60)) in *.
  assert (Ha : (Q2 1 (-6) <= B32 a)%Q).
  { apply (Rounded_grid _ _ 1 (-6) R1); [lia | lia|].
    rewrite E60. apply Qle_shift_div_l; [reflexivity|].
    assert ((Q2 1 (-6) == 1 # 64)%Q) as -> by (vm_compute; reflexivity). lra. }
  assert (Hq : (0 <= B32 bpm / B32 (F32.of_int 60) <= 1000)%Q).
  { rewrite E60. split.
    - apply Qle_shift_div_l; [reflexivity | lra].
    - apply Qle_shift_div_r; [reflexivity|].
      assert (E6 : (B32 (F32.of_int 60000) == 60000)%Q) by (vm_compute; reflexivity).
      rewrite E6 in Hhi. lra. }
  destruct (Rounded_within _ _ 1000 R1 ltac:(lia)) as (Va & Fa & _ & Ha1).
  { change (inject_Z 1000) with 1000%Q. lra. }
  pose proof (mul32 a (F32.of_int 24) Va eq_refl Fa eq_refl) as R2.
  set (b := F32.mul a (F32.of_int 24)) in *.
  assert (E1 : (Q2 1 (-6) == 1 # 64)%Q) by (vm_compute; reflexivity).
  assert (E2 : (Q2 3 (-3) == 3 # 8)%Q) by (vm_compute; reflexivity).
  assert (E3 : (Q2 3 (-19) == 3 # 524288)%Q) by (vm_compute; reflexivity).
  assert (Hb : (Q2 3 (-3) <= B32 b)%Q).
  { apply (Rounded_grid _ _ 3 (-3) R2); [lia | lia|]. rewrite E24, E2. lra. }
  change (inject_Z 1000) with 1000%Q in Ha1.
  destruct (Rounded_within _ _ 24000 R2 ltac:(lia)) as (Vb & Fb & _).
  { rewrite E24. change (inject_Z 24000) with 24000%Q. lra. }
  pose proof (mul32 b DT Vb eq_refl Fb eq_refl) as R3.
  apply (Rounded_grid _ _ 3 (-19) R3); [lia | lia|].
  assert (EDT : (1 # 65536 <= B32 DT)%Q) by qle.
  rewrite E3. rewrite E2 in Hb.
  apply Qle_trans with ((3 # 8) * B32 DT)%Q; [lra|].
  apply Qmult_le_compat_r; lra.
Qed.

(** X15: the MIDI clock keeps the tempo.  Called with tempos from 0 to
    60000 beats per minute, it answers one event per call, each a clock
    tick (status 0xF8) or the empty event, and the number of ticks
    differs from the sum of the steps [bpm / 60.f * 24.f * DT] by at
    most one tick plus 2^-22 per call: the fraction of a tick is carried
    over, never dropped.  Constructed with value 1.0, the clock ticks
    on its first call for every tempo from 1 beat per minute. *)
Theorem MIDIClock_keeps_tempo :
  (forall bpms : list f32, Forall MIDIClock_tempo bpms ->
     Forall (fun e => e = MIDI.clock \/ e = MIDI.empty)
       (fst (MIDIClock.run MIDIClock.init bpms)) /\
     List.length (fst (MIDIClock.run MIDIClock.init bpms)) = List.length bpms /\
     (beats bpms - inject_Z (Z.of_nat (List.length bpms)) * eps <=
        inject_Z (ticks (fst (MIDIClock.run MIDIClock.init bpms))) <=
      beats bpms + 1 + inject_Z (Z.of_nat (List.length bpms)) * eps)%Q) /\
  (forall bpm : f32, F32.valid bpm = true -> F32.leb F32.one bpm = true ->
     F32.leb bpm (F32.of_int 60000) = true ->
     fst (MIDIClock.process MIDIClock.init bpm) = MIDI.clock).
Proof.
  split.
  - intros bpms Hall.
    change MIDIClock.init with F32.one.
    assert (Hi : MIDIClock_inv F32.one).
    { split; [reflexivity|]. split; [reflexivity|].
      rewrite B32_one. split; discriminate. }
    destruct (MIDIClock_run_steps bpms F32.one Hi Hall)
      as ((_ & _ & Hv0 & Hv1) & Hes & Hlen & Hq).
    split; [exact Hes|]. split; [exact Hlen|].
    rewrite B32_one in Hq.
    set (t := inject_Z (ticks (fst (MIDIClock.run F32.one bpms)))) in *.
    set (w := B32 (snd (MIDIClock.run F32.one bpms))) in *.
    set (n := inject_Z (Z.of_nat (List.length bpms))) in *.
    assert (Heps : (eps == 1 # 4194304)%Q) by reflexivity.
    clearbody t w n. split; lra.
  - intros bpm V H0 H1.
    pose proof (MIDIClock_step_lower bpm V H0 H1) as Hs.
    assert (Ht : MIDIClock_tempo bpm).
    { split; [exact V|]. split; [|exact H1].
      destruct (leb_range F32.one bpm (F32.of_int 60000)) as (F & Hlo & _);
        try reflexivity; try assumption.
      rewrite B32_one in Hlo.
      apply (proj2 (leb_B _ _ fmt32 F32.zero bpm eq_refl V eq_refl
                      (leb_not_nan_r _ _ H0))).
      change (Bval F32.emax F32.zero) with 0%Q. fold (B32 bpm). lra. }
    destruct (MIDIClock_step_range bpm Ht) as (Vs & Fs & Hs0 & Hs1).
    unfold MIDIClock.process, MIDIClock.init.
    pose proof (add32 F32.one (MIDIClock.step bpm) eq_refl Vs eq_refl Fs) as HR.
    assert (Hup : (Q2 (2 ^ 23 + 1) (-23) <= B32 (F32.add F32.one (MIDIClock.step bpm)))%Q).
    { apply (Rounded_grid _ _ (2 ^ 23 + 1) (-23) HR); [lia | lia|].
      rewrite B32_one.
      assert (E1 : (Q2 (2 ^ 23 + 1) (-23) == 1 + (1 # 8388608))%Q) by (vm_compute; reflexivity).
      assert (E3 : (Q2 3 (-19) == 3 # 524288)%Q) by (vm_compute; reflexivity).
      rewrite E1. rewrite E3 in Hs. lra. }
    assert (Hlt : F32.ltb F32.one (F32.add F32.one (MIDIClock.step bpm)) = true).
    { apply (proj2 (ltb_B _ _ fmt32 F32.one _ eq_refl (proj1 HR) eq_refl (proj1 (proj2 HR)))).
      fold (B32 F32.one) (B32 (F32.add F32.one (MIDIClock.step bpm))). rewrite B32_one.
      assert (E1 : (Q2 (2 ^ 23 + 1) (-23) == 1 + (1 # 8388608))%Q) by (vm_compute; reflexivity).
      rewrite E1 in Hup. lra. }
    rewrite Hlt. reflexivity.
Qed.

Lemma MIDIClock_keeps_tempo_witness :
  (beats [F32.of_int 120; F32.of_int 120; F32.of_int 90]
     - inject_Z (Z.of_nat 3) * eps <=
     inject_Z (ticks (fst (MIDIClock.run MIDIClock.init
                             [F32.of_int 120; F32.of_int 120; F32.of_int 90]))) <=
   beats [F32.of_int 120; F32.of_int 120; F32.of_int 90]
     + 1 + inject_Z (Z.of_nat 3) * eps)%Q /\
  fst (MIDIClock.process MIDIClock.init (F32.of_int 120)) = MIDI.clock.
Proof.
  split.
  - apply (proj1 MIDIClock_keeps_tempo [F32.of_int 120; F32.of_int 120; F32.of_int 90]).
    repeat constructor.
  - apply (proj2 MIDIClock_keeps_tempo (F32.of_int 120)); reflexivity.
Defined.

(** ** Velocity and frequency of a note *)

Lemma bytes_all (P : Z -> bool) :
  forallb P bytes = true -> forall d, 0 <= d < 256 -> P d = true.
Proof.
  intros H d Hd. rewrite forallb_forall in H. apply H.
  unfold bytes. apply in_map_iff. exists (Z.to_nat d). split; [lia|].
  apply in_seq. lia.
Qed.

Lemma velocity_of_increasing (d d' : Z) :
  0 <= d -> d < d' -> d' < 256 -> F32.ltb (velocity_of d) (velocity_of d') = true.
Proof.
  intros H0 H1 H2.
  assert (H : forallb (fun a => forallb (fun b => (b <=? a) || F32.ltb (velocity_of a) (velocity_of b)) bytes) bytes = true)
    by (vm_compute; reflexivity).
  pose proof (bytes_all _ H d ltac:(lia)) as Hd. cbv beta in Hd.
  pose proof (bytes_all _ Hd d' ltac:(lia)) as Hd'. cbv beta in Hd'.
  apply orb_true_iff in Hd'. destruct Hd' as [Hle | Hlt]; [|exact Hlt].
  apply Z.leb_le in Hle. lia.
Qed.

Lemma velocity_of_unit (d : Z) :
  0 <= d <= 127 -> unit_range (velocity_of d).
Proof.
  intros Hd.
  assert (H : forallb (fun a => (127 <? a) || (F32.valid (velocity_of a) &&
              (F32.leb F32.zero (velocity_of a) && F32.leb (velocity_of a) F32.one))) bytes = true)
    by (vm_compute; reflexivity).
  pose proof (bytes_all _ H d ltac:(lia)) as Ha. cbv beta in Ha.
  apply orb_true_iff in Ha. destruct Ha as [Hgt | Ha]; [apply Z.ltb_lt in Hgt; lia|].
  apply andb_true_iff in Ha. destruct Ha as [V Ha].
  apply andb_true_iff in Ha. destruct Ha as [H0 H1].
  split; [exact V|]. split; assumption.
Qed.

Lemma Velocity_hold (v : f32) (es : list MIDIEvent) :
  Forall (fun e => MIDI.is_note_on e = false) es ->
  Velocity.run v es = (repeat v (List.length es), v).
Proof.
  induction 1 as [|e r He Hr IH]; [reflexivity|].
  cbn [Velocity.run]. unfold Velocity.process. rewrite He, IH. reflexivity.
Qed.

(** X16: the velocity of a note.  A note-on is answered by its velocity
    byte divided by 127, whatever the object held before (its member
    has no initialiser): a [float] from 0 to 1 for the MIDI velocities 0
    to 127, exactly 0 for 0 and exactly 1 for 127, and strictly larger
    for a larger byte (up to 255).  Every later event that is not a
    note-on, a note-off included, is answered by the same value. *)
Theorem Velocity_scale :
  (forall v0 e es, MIDI.is_note_on e = true -> 0 <= data2 e <= 127 ->
     Forall (fun x => MIDI.is_note_on x = false) es ->
     unit_range (velocity_of (data2 e)) /\
     (data2 e = 0 -> velocity_of (data2 e) = F32.zero) /\
     (data2 e = 127 -> velocity_of (data2 e) = F32.one) /\
     Velocity.run v0 (e :: es) =
       (repeat (velocity_of (data2 e)) (Datatypes.S (List.length es)),
        velocity_of (data2 e))) /\
  (forall v0 v1 e e', MIDI.is_note_on e = true -> MIDI.is_note_on e' = true ->
     0 <= data2 e -> data2 e < data2 e' -> data2 e' < 256 ->
     F32.ltb (fst (Velocity.process v0 e)) (fst (Velocity.process v1 e')) = true).
Proof.
  split.
  - intros v0 e es Hon Hd Hes.
    split; [apply velocity_of_unit, Hd|].
    split; [intros ->; reflexivity|].
    split; [intros ->; vm_compute; reflexivity|].
    cbn [Velocity.run]. unfold Velocity.process at 1. rewrite Hon.
    fold (velocity_of (data2 e)). rewrite (Velocity_hold _ es Hes). reflexivity.
  - intros v0 v1 e e' Hon Hon' H0 H1 H2. unfold Velocity.process. rewrite Hon, Hon'.
    cbn [fst]. apply velocity_of_increasing; assumption.
Qed.

Lemma Velocity_scale_witness :
  Velocity.run F32.zero
    [MIDI.create_note_on 60 100 0; MIDI.empty; MIDI.create_note_off 60 0 0] =
    (repeat (velocity_of 100) 3, velocity_of 100) /\
  F32.ltb (fst (Velocity.process F32.zero (MIDI.create_note_on 60 100 0)))
          (fst (Velocity.process F32.one (MIDI.create_note_on 60 101 0))) = true.
Proof.
  split.
  - apply (proj1 Velocity_scale F32.zero (MIDI.create_note_on 60 100 0)
             [MIDI.empty; MIDI.create_note_off 60 0 0]).
    + reflexivity.
    + vm_compute. split; discriminate.
    + repeat constructor.
  - apply (proj2 Velocity_scale F32.zero F32.one
             (MIDI.create_note_on 60 100 0) (MIDI.create_note_on 60 101 0));
      vm_compute; reflexivity || discriminate.
Defined.

Section FrequencyFacts.
Variable pow : f32 -> f32 -> f32.
Hypothesis pow_valid : forall x y, F32.valid (pow x y) = true.

Lemma pitch_valid (n : Z) : F32.valid (Frequency.pitch pow n) = true.
Proof.
  unfold Frequency.pitch. pose proof (pow_valid (F32.of_int 2)
    (F32.div (F32.of_int (n - 69)) (F32.of_int 12))) as V.
  destruct (pow (F32.of_int 2) (F32.div (F32.of_int (n - 69)) (F32.of_int 12)))
    as [s|s| |s m e] eqn:E; try reflexivity.
  apply (mul32 (F32.of_int 440) (S754_finite s m e) eq_refl V eq_refl eq_refl).
Qed.

Lemma ltb_irrefl (x : f32) : F32.ltb x x = false.
Proof.
  unfold F32.ltb, SFltb. destruct x as [s|s| |s m e]; try (destruct s; reflexivity);
    try reflexivity.
  cbn [SFcompare]. destruct s.
  - rewrite Z.compare_refl, Pos.compare_cont_refl. reflexivity.
  - rewrite Z.compare_refl, Pos.compare_cont_refl. reflexivity.
Qed.

(** With factor 1 the frequency is kept by every event that is not a
    note-on. *)
Lemma Frequency_steady (f t : f32) (n : Z) (e : MIDIEvent) :
  F32.valid f = true -> MIDI.is_note_on e = false ->
  Frequency.process pow (Frequency.mk f t F32.one n) e =
    (f, Frequency.mk f t F32.one
          (if MIDI.is_note_off e && (data1 e =? n) then 0 else n)).
Proof.
  intros V Hon. unfold Frequency.process. rewrite Hon.
  cbn [Frequency.note].
  destruct (MIDI.is_note_off e && (data1 e =? n));
    cbn [Frequency.frequency Frequency.factor Frequency.target_frequency Frequency.note];
    rewrite (mul_one f V), (ltb_irrefl F32.one); reflexivity.
Qed.

Lemma Frequency_hold (f t : f32) (es : list MIDIEvent) (n : Z) :
  F32.valid f = true -> Forall (fun e => MIDI.is_note_on e = false) es ->
  fst (Frequency.run pow (Frequency.mk f t F32.one n) es) = repeat f (List.length es) /\
  Frequency.frequency (snd (Frequency.run pow (Frequency.mk f t F32.one n) es)) = f /\
  Frequency.factor (snd (Frequency.run pow (Frequency.mk f t F32.one n) es)) = F32.one.
Proof.
  intros V Hes. revert n. induction Hes as [|e r He Hr IH]; intros n.
  - cbn. repeat split.
  - cbn [Frequency.run]. rewrite (Frequency_steady f t n e V He).
    specialize (IH (if MIDI.is_note_off e && (data1 e =? n) then 0 else n)).
    destruct (Frequency.run pow _ r) as [vs s2]. cbn [fst snd] in *.
    destruct IH as (-> & H2 & H3). repeat split; assumption.
Qed.
End FrequencyFacts.

(** X17: the pitch of a note played from rest.  When [std::pow] answers
    [float]s, a note-on received while no note is held is answered by
    exactly [440.f * std::pow(2.f, (note-69)/12.f)], whatever the two
    members without initialiser held, and so is every later event that
    is not a note-on: the frequency is kept after the note-off, which
    only clears the note held. *)
Theorem Frequency_note_from_rest (pow : f32 -> f32 -> f32)
    (frequency0 target0 : f32) (e : MIDIEvent) (es : list MIDIEvent) :
  (forall x y, F32.valid (pow x y) = true) ->
  MIDI.is_note_on e = true ->
  Forall (fun x => MIDI.is_note_on x = false) es ->
  fst (Frequency.run pow (Frequency.init frequency0 target0) (e :: es)) =
    repeat (Frequency.pitch pow (data1 e)) (Datatypes.S (List.length es)) /\
  Frequency.frequency
    (snd (Frequency.run pow (Frequency.init frequency0 target0) (e :: es))) =
    Frequency.pitch pow (data1 e) /\
  Frequency.factor
    (snd (Frequency.run pow (Frequency.init frequency0 target0) (e :: es))) = F32.one.
Proof.
  intros Hpow Hon Hes.
  pose proof (pitch_valid pow Hpow (data1 e)) as V.
  assert (Hp : Frequency.process pow (Frequency.init frequency0 target0) e =
               (Frequency.pitch pow (data1 e),
                Frequency.mk (Frequency.pitch pow (data1 e)) (Frequency.pitch pow (data1 e))
                  F32.one (data1 e))).
  { unfold Frequency.process, Frequency.init. rewrite Hon.
    cbn [Frequency.note Z.eqb negb
         Frequency.frequency Frequency.factor Frequency.target_frequency].
    rewrite (mul_one _ V), (ltb_irrefl F32.one). reflexivity. }
  cbn [Frequency.run]. rewrite Hp.
  destruct (Frequency_hold pow (Frequency.pitch pow (data1 e))
              (Frequency.pitch pow (data1 e)) es (data1 e) V Hes) as (H1 & H2 & H3).
  destruct (Frequency.run pow _ es) as [vs s2]. cbn [fst snd] in *.
  rewrite H1. repeat split; assumption.
Qed.

Lemma Frequency_note_from_rest_witness :
  fst (Frequency.run (fun _ _ => F32.one) (Frequency.init F32.zero (S754_infinity true))
         [MIDI.create_note_on 69 100 0; MIDI.empty; MIDI.create_note_off 69 0 0; MIDI.empty]) =
    repeat (F32.of_int 440) 4.
Proof.
  apply (Frequency_note_from_rest (fun _ _ => F32.one) F32.zero (S754_infinity true)
           (MIDI.create_note_on 69 100 0)
           [MIDI.empty; MIDI.create_note_off 69 0 0; MIDI.empty]).
  - intros x y. reflexivity.
  - reflexivity.
  - repeat constructor.
Defined.

(** ** Panning and mixing down *)

Lemma finite_lt_emax (x : f32) :
  F32.valid x = true -> is_finite x = true ->
  (- pow2 F32.emax < B32 x < pow2 F32.emax)%Q.
Proof.
  intros V F. pose proof (pow2_pos F32.emax) as Hp.
  destruct x as [s|s| |s m e]; try discriminate.
  - change (B32 (S754_zero s)) with 0%Q. split; lra.
  - destruct (valid_finite _ _ fmt32 s m e V) as (_ & _ & _ & _ & Hlt).
    pose proof (B_finite F32.emax s m e) as EB. fold (B32 (S754_finite s m e)) in EB.
    rewrite EB. pose proof (Q2_pos (Zpos m) e ltac:(lia)). destruct s; split; lra.
Qed.

Lemma B32_half : (B32 (F32.dec 5 10) == 1 # 2)%Q.
Proof. vm_compute. reflexivity. Qed.

(** A factor from 0 to 1 never amplifies. *)
Lemma mul_attenuates (x g : f32) :
  F32.valid x = true -> is_finite x = true ->
  F32.valid g = true -> is_finite g = true -> (0 <= B32 g <= 1)%Q ->
  attenuated x (F32.mul x g).
Proof.
  intros Vx Fx Vg Fg [Hg0 Hg1].
  pose proof (mul32 x g Vx Vg Fx Fg) as HR.
  assert (Nx : is_nan x = false) by (destruct x; try reflexivity; discriminate).
  assert (Hpos : (0 <= B32 x)%Q -> (0 <= B32 (F32.mul x g) <= B32 x)%Q).
  { intros H0. split.
    - apply (Rounded_nonneg _ _ HR). apply Qmult_le_0_compat; assumption.
    - apply (Rounded_upper _ _ fmt32 _ _ x HR Vx Nx). fold (B32 x).
      rewrite <- (Qmult_1_r (B32 x)) at 2. rewrite !(Qmult_comm (B32 x)).
      apply Qmult_le_compat_r; assumption. }
  assert (Hneg : (B32 x <= 0)%Q -> (B32 x <= B32 (F32.mul x g) <= 0)%Q).
  { intros H0. split.
    - apply (Rounded_lower _ _ fmt32 _ _ x HR Vx Nx). fold (B32 x).
      assert (H : (0 <= (- B32 x) * (1 - B32 g))%Q) by (apply Qmult_le_0_compat; lra).
      ring_simplify in H. lra.
    - destruct (Rounded_grid _ _ 0 0 HR ltac:(lia) ltac:(lia)) as [H _].
      rewrite Q2_0 in H. apply H.
      assert (H' : (0 <= (- B32 x) * B32 g)%Q) by (apply Qmult_le_0_compat; lra).
      ring_simplify in H'. lra. }
  split; [apply HR|]. split; [|split; assumption].
  apply (finite_B F32.emax); [apply HR|]. fold (B32 (F32.mul x g)).
  pose proof (finite_lt_emax x Vx Fx) as [Hl Hu].
  destruct (Qlt_le_dec (B32 x) 0) as [Hn | Hp].
  - specialize (Hneg (Qlt_le_weak _ _ Hn)). pose proof (pow2_pos F32.emax). split; lra.
  - specialize (Hpos Hp). pose proof (pow2_pos F32.emax). split; lra.
Qed.

(** The two gains of a panning from -1 to 1 are [float]s from 0 to 1. *)
Lemma Pan_gains (p : f32) :
  sample_range p ->
  within 1 (F32.sub (F32.dec 5 10) (F32.mul p (F32.dec 5 10))) /\
  (0 <= B32 (F32.sub (F32.dec 5 10) (F32.mul p (F32.dec 5 10))))%Q /\
  within 1 (F32.add (F32.dec 5 10) (F32.mul p (F32.dec 5 10))) /\
  (0 <= B32 (F32.add (F32.dec 5 10) (F32.mul p (F32.dec 5 10))))%Q.
Proof.
  intros Hp. destruct (sample_range_B p Hp) as (V & F & Hp0 & Hp1).
  pose proof (mul32 p (F32.dec 5 10) V eq_refl F eq_refl) as R1.
  set (h := F32.mul p (F32.dec 5 10)) in *.
  assert (E1 : (Q2 1 (-1) == 1 # 2)%Q) by (vm_compute; reflexivity).
  assert (E2 : (Q2 (-1) (-1) == - (1 # 2))%Q) by (vm_compute; reflexivity).
  assert (Hh1 : (B32 h <= 1 # 2)%Q).
  { rewrite <- E1. apply (Rounded_grid _ _ 1 (-1) R1); [lia | lia|].
    rewrite E1, B32_half. lra. }
  assert (Hh0 : (- (1 # 2) <= B32 h)%Q).
  { rewrite <- E2. apply (Rounded_grid _ _ (-1) (-1) R1); [lia | lia|].
    rewrite E2, B32_half. lra. }
  destruct (Rounded_within _ _ 1 R1 ltac:(lia)) as (Vh & Fh & _).
  { rewrite B32_half. change (inject_Z 1) with 1%Q. lra. }
  pose proof (sub32 (F32.dec 5 10) h eq_refl Vh eq_refl Fh) as R2.
  pose proof (add32 (F32.dec 5 10) h eq_refl Vh eq_refl Fh) as R3.
  split; [|split; [|split]].
  - apply (Rounded_within _ _ 1 R2); [lia|].
    rewrite B32_half. change (inject_Z 1) with 1%Q. lra.
  - apply (Rounded_nonneg _ _ R2). rewrite B32_half. lra.
  - apply (Rounded_within _ _ 1 R3); [lia|].
    rewrite B32_half. change (inject_Z 1) with 1%Q. lra.
  - apply (Rounded_nonneg _ _ R3). rewrite B32_half. lra.
Qed.

Lemma mul_zero_is_zero (x : f32) :
  is_finite x = true -> is_zero (F32.mul x F32.zero) = true.
Proof. destruct x as [s|s| |s m e]; try discriminate; destruct s; reflexivity. Qed.

(** X18: panning never amplifies.  For a finite input and a panning
    from -1 to 1, each channel of [Pan::process] is a [float] between
    0 and the input, on the input's side of 0.  Panning 1 puts the
    input unchanged on the right and a zero on the left, panning -1 the
    reverse, and panning 0 puts half the input on both. *)
Theorem Pan_no_gain (input : f32) :
  F32.valid input = true -> is_finite input = true ->
  (forall panning, sample_range panning ->
     attenuated input (left (Pan.process input panning)) /\
     attenuated input (right (Pan.process input panning))) /\
  (right (Pan.process input F32.one) = input /\
   is_zero (left (Pan.process input F32.one)) = true) /\
  (left (Pan.process input (F32.of_int (-1))) = input /\
   is_zero (right (Pan.process input (F32.of_int (-1)))) = true) /\
  Pan.process input F32.zero =
    mkSample (F32.mul input (F32.dec 5 10)) (F32.mul input (F32.dec 5 10)).
Proof.
  intros V F. split; [|split; [|split]].
  - intros p Hp.
    destruct (Pan_gains p Hp) as ((V1 & F1 & _ & H1) & H1' & (V2 & F2 & _ & H2) & H2').
    unfold Pan.process. cbn [left right].
    split; apply mul_attenuates; try assumption; split; assumption.
  - unfold Pan.process. cbn [left right].
    change (F32.add (F32.dec 5 10) (F32.mul F32.one (F32.dec 5 10))) with F32.one.
    change (F32.sub (F32.dec 5 10) (F32.mul F32.one (F32.dec 5 10))) with F32.zero.
    split; [apply mul_one, V | apply mul_zero_is_zero, F].
  - unfold Pan.process. cbn [left right].
    change (F32.sub (F32.dec 5 10) (F32.mul (F32.of_int (-1)) (F32.dec 5 10))) with F32.one.
    change (F32.add (F32.dec 5 10) (F32.mul (F32.of_int (-1)) (F32.dec 5 10))) with F32.zero.
    split; [apply mul_one, V | apply mul_zero_is_zero, F].
  - unfold Pan.process.
    change (F32.sub (F32.dec 5 10) (F32.mul F32.zero (F32.dec 5 10))) with (F32.dec 5 10).
    change (F32.add (F32.dec 5 10) (F32.mul F32.zero (F32.dec 5 10))) with (F32.dec 5 10).
    reflexivity.
Qed.

Lemma Pan_no_gain_witness :
  attenuated (F32.dec 3 4) (left (Pan.process (F32.dec 3 4) (F32.dec 1 4))) /\
  attenuated (F32.dec 3 4) (right (Pan.process (F32.dec 3 4) (F32.dec 1 4))).
Proof.
  apply (proj1 (Pan_no_gain (F32.dec 3 4) eq_refl eq_refl) (F32.dec 1 4)).
  repeat split; vm_compute; reflexivity.
Defined.

(** X19: mixing down.  [Mono::process] of the sample [Sample(x)] that
    carries the same finite [float] of magnitude below 2^127 on both
    channels is [x] again, bit for bit; and the mix of two channels
    within [-1, 1] is within [-1, 1]. *)
Theorem Mono_of_float :
  (forall x : f32, F32.valid x = true -> is_finite x = true ->
     (- pow2 127 < B32 x < pow2 127)%Q ->
     Mono.process (SampleOps.of_float x) = x) /\
  (forall s : Sample, within 1 (left s) -> within 1 (right s) -> within 1 (Mono.process s)).
Proof.
  split.
  - intros x V F [Hl Hu]. unfold Mono.process, SampleOps.of_float. cbn [left right].
    destruct (is_zero x) eqn:Hz.
    { destruct x as [s|s| |s m e]; try discriminate. destruct s; reflexivity. }
    pose proof (add32 x x V V F F) as R1.
    assert (E2 : (B32 x + B32 x == 2 * B32 x)%Q) by ring.
    assert (Hrep : fmt_repQ F32.prec F32.emax (B32 x + B32 x)).
    { destruct x as [s|s| |s m e]; try discriminate.
      destruct (valid_finite _ _ fmt32 s m e V) as (_ & _ & [Hm Hmin] & _ & _).
      pose proof (B_finite F32.emax s m e) as EB. fold (B32 (S754_finite s m e)) in EB.
      assert (ES : (Q2 (Zpos m) (e + 1) == 2 * Q2 (Zpos m) e)%Q).
      { unfold Q2. rewrite pow2_succ. ring. }
      exists (Zpos m), (e + 1). split; [split; [exact Hm | lia]|].
      assert (P : (pow2 F32.emax == 2 * pow2 127)%Q) by (rewrite <- pow2_succ; reflexivity).
      rewrite EB in Hl, Hu. split.
      - rewrite ES, P. destruct s; lra.
      - rewrite E2, EB, ES. destruct s; [right | left]; ring. }
    pose proof (Rounded_value _ _ R1 Hrep) as Ev.
    assert (P : (pow2 F32.emax == 2 * pow2 127)%Q) by (rewrite <- pow2_succ; reflexivity).
    assert (F1 : is_finite (F32.add x x) = true).
    { apply (finite_B F32.emax); [apply R1|]. fold (B32 (F32.add x x)).
      rewrite Ev, P. split; lra. }
    pose proof (mul32 (F32.add x x) (F32.dec 5 10) (proj1 R1) eq_refl F1 eq_refl) as R2.
    apply Rounded_same; try assumption.
    eapply Rounded_eq; [|exact R2]. rewrite Ev, B32_half. field.
  - intros s (Vl & Fl & Hl) (Vr & Fr & Hr). unfold Mono.process.
    pose proof (add32 _ _ Vl Vr Fl Fr) as R1.
    destruct (Rounded_within _ _ 2 R1 ltac:(lia)) as (V1 & F1 & H1).
    { change (inject_Z 2) with 2%Q. lra. }
    change (inject_Z 2) with 2%Q in H1.
    pose proof (mul32 _ (F32.dec 5 10) V1 eq_refl F1 eq_refl) as R2.
    apply (Rounded_within _ _ 1 R2); [lia|].
    rewrite B32_half. change (inject_Z 1) with 1%Q. lra.
Qed.

Lemma Mono_of_float_witness :
  Mono.process (SampleOps.of_float (F32.dec 1 3)) = F32.dec 1 3.
Proof.
  apply (proj1 Mono_of_float (F32.dec 1 3)); [reflexivity | reflexivity|].
  split; vm_compute; reflexivity.
Defined.

(** ** The delay line *)

Lemma Delay_process_wf (b : RingBuffer.state f32) (c : Delay.Call) :
  RingBuffer_wf b ->
  RingBuffer_wf (snd (Delay.process b c)) /\
  RingBuffer.ring_N (snd (Delay.process b c)) = RingBuffer.ring_N b.
Proof.
  intros W. unfold Delay.process. cbn [snd]. split; [|reflexivity].
  apply RingBuffer_inc_wf, RingBuffer_set_wf, W.
Qed.

Lemma Delay_run_wf (calls : list Delay.Call) :
  forall b, RingBuffer_wf b ->
    RingBuffer_wf (snd (Delay.run b calls)) /\
    RingBuffer.ring_N (snd (Delay.run b calls)) = RingBuffer.ring_N b.
Proof.
  induction calls as [|c r IH]; intros b W; [split; [exact W | reflexivity]|].
  destruct (Delay_process_wf b c W) as [W1 EN].
  cbn [Delay.run]. destruct (Delay.process b c) as [s b1]. cbn [snd] in *.
  specialize (IH b1 W1). destruct (Delay.run b1 r) as [ss b2]. cbn [snd] in *.
  destruct IH as [W2 E2]. split; [exact W2 | congruence].
Qed.

(** One call shifts the line by one place and appends what it stores. *)
Lemma Delay_process_shift (b : RingBuffer.state f32) (c : Delay.Call) (i : Z) :
  RingBuffer_wf b -> 0 <= i < RingBuffer.ring_N b ->
  RingBuffer.get F32.zero (snd (Delay.process b c)) i =
    if i + 1 <? RingBuffer.ring_N b then RingBuffer.get F32.zero b (i + 1)
    else Delay.stored b c.
Proof.
  unfold f32 in *. intros W Hi. pose proof W as (HN & HL & HS).
  change (snd (Delay.process b c))
    with (RingBuffer.inc (RingBuffer.set b 0 (Delay.stored b c))).
  set (x := Delay.stored b c).
  pose proof (RingBuffer_set_wf b 0 x W) as W1.
  transitivity (RingBuffer.get F32.zero (RingBuffer.set b 0 x) (i + 1)).
  { apply (RingBuffer_get_inc F32.zero (RingBuffer.set b 0 x) i W1);
      cbn [RingBuffer.set RingBuffer.ring_N]; lia. }
  destruct (i + 1 <? RingBuffer.ring_N b) eqn:Hlt.
  - apply Z.ltb_lt in Hlt.
    apply (RingBuffer_get_set_other F32.zero b 0 (i + 1) x W); try lia.
    rewrite Z.mod_0_l, Z.mod_small by lia. lia.
  - apply Z.ltb_ge in Hlt. assert (Ei : i + 1 = RingBuffer.ring_N b) by lia.
    unfold RingBuffer.get.
    change (RingBuffer.index (RingBuffer.set b 0 x) (i + 1)) with (RingBuffer.index b (i + 1)).
    cbn [RingBuffer.set RingBuffer.data].
    assert (Ec : RingBuffer.index b (i + 1) = RingBuffer.index b 0).
    { apply (RingBuffer_index_congr b (i + 1) 0 W); try lia.
      rewrite Ei, Z.mod_same, Z.mod_0_l by lia. reflexivity. }
    rewrite Ec. apply nth_store_same.
    apply (RingBuffer_index_spec b 0 W); lia.
Qed.

Lemma Delay_run_line (calls : list Delay.Call) :
  forall (b : RingBuffer.state f32) (i : Z),
    RingBuffer_wf b -> 0 <= i < RingBuffer.ring_N b ->
    RingBuffer.get F32.zero (snd (Delay.run b calls)) i =
      if i + Z.of_nat (List.length calls) <? RingBuffer.ring_N b
      then RingBuffer.get F32.zero b (i + Z.of_nat (List.length calls))
      else nth (Z.to_nat (i + Z.of_nat (List.length calls) - RingBuffer.ring_N b))
             (Delay_written b calls) F32.zero.
Proof.
  induction calls as [|c r IH]; intros b i W Hi.
  - cbn [Delay.run snd List.length Z.of_nat].
    rewrite Z.add_0_r. destruct (i <? RingBuffer.ring_N b) eqn:E; [reflexivity|].
    apply Z.ltb_ge in E. lia.
  - destruct (Delay_process_wf b c W) as [W1 EN].
    cbn [Delay.run Delay_written].
    destruct (Delay.process b c) as [s b1] eqn:Ep. cbn [snd] in *.
    specialize (IH b1 i W1 ltac:(lia)).
    destruct (Delay.run b1 r) as [ss b2]. cbn [snd] in *.
    rewrite IH, EN. cbn [List.length]. rewrite Nat2Z.inj_succ. unfold Z.succ.
    set (n := Z.of_nat (List.length r)) in *.
    assert (Hn : 0 <= n) by (unfold n; lia).
    destruct (i + n <? RingBuffer.ring_N b) eqn:H1.
    + apply Z.ltb_lt in H1.
      replace b1 with (snd (Delay.process b c)) by (rewrite Ep; reflexivity).
      rewrite (Delay_process_shift b c (i + n) W) by lia.
      replace (i + (n + 1)) with (i + n + 1) by lia.
      destruct (i + n + 1 <? RingBuffer.ring_N b) eqn:H2; [reflexivity|].
      apply Z.ltb_ge in H2.
      replace (i + n + 1 - RingBuffer.ring_N b) with 0 by lia. reflexivity.
    + apply Z.ltb_ge in H1.
      destruct (i + (n + 1) <? RingBuffer.ring_N b) eqn:H2; [apply Z.ltb_lt in H2; lia|].
      replace (Z.to_nat (i + (n + 1) - RingBuffer.ring_N b))
        with (Datatypes.S (Z.to_nat (i + n - RingBuffer.ring_N b))) by lia.
      reflexivity.
Qed.

(** X20: the delay line.  In a delay of [N] elements, [N] from 1 to
    2^63, the left tap [buffer[0]] of a call reads what the call [N]
    calls earlier stored ([input + left]), and the right tap
    [buffer[N/2]] what the call [N - N/2] calls earlier stored; before
    that many calls have been made they read the 0 the line was
    constructed with.  More generally, after [n] calls the element [i]
    holds what call [i + n - N] stored. *)
Theorem Delay_line (N : Z) (calls : list Delay.Call) :
  0 < N <= 2 ^ 63 ->
  (forall i, 0 <= i < N ->
     RingBuffer.get F32.zero (snd (Delay.run (Delay.init N) calls)) i =
       if i + Z.of_nat (List.length calls) <? N then F32.zero
       else nth (Z.to_nat (i + Z.of_nat (List.length calls) - N))
              (Delay_written (Delay.init N) calls) F32.zero) /\
  (forall c,
     Delay.left_tap (snd (Delay.run (Delay.init N) calls)) c =
       F32.mul
         (if Z.of_nat (List.length calls) <? N then F32.zero
          else nth (Z.to_nat (Z.of_nat (List.length calls) - N))
                 (Delay_written (Delay.init N) calls) F32.zero)
         (F32.mul (Delay.feedback c) (Delay.feedback c)) /\
     Delay.right_tap (snd (Delay.run (Delay.init N) calls)) c =
       F32.mul
         (if Z.of_nat (List.length calls) <? N - N / 2 then F32.zero
          else nth (Z.to_nat (Z.of_nat (List.length calls) - (N - N / 2)))
                 (Delay_written (Delay.init N) calls) F32.zero)
         (Delay.feedback c)).
Proof.
  intros HN.
  pose proof (RingBuffer_init_wf F32.zero N HN) as W.
  assert (Hline : forall i, 0 <= i < N ->
     RingBuffer.get F32.zero (snd (Delay.run (Delay.init N) calls)) i =
       if i + Z.of_nat (List.length calls) <? N then F32.zero
       else nth (Z.to_nat (i + Z.of_nat (List.length calls) - N))
              (Delay_written (Delay.init N) calls) F32.zero).
  { intros i Hi. unfold Delay.init.
    rewrite (Delay_run_line calls (RingBuffer.init F32.zero N) i W) by exact Hi.
    change (RingBuffer.ring_N (RingBuffer.init F32.zero N)) with N.
    destruct (i + Z.of_nat (List.length calls) <? N) eqn:E; [|reflexivity].
    apply Z.ltb_lt in E. unfold RingBuffer.get, RingBuffer.init.
    cbn [RingBuffer.data]. apply nth_repeat. }
  split; [exact Hline|].
  intros c.
  destruct (Delay_run_wf calls (Delay.init N) W) as [_ EN].
  change (RingBuffer.ring_N (Delay.init N)) with N in EN.
  unfold Delay.left_tap, Delay.right_tap. rewrite EN.
  rewrite (size_t_small N) by lia.
  assert (H2 : 0 <= N / 2 < N).
  { split; [apply Z.div_pos; lia | apply Z.div_lt_upper_bound; lia]. }
  rewrite (Hline 0 ltac:(lia)), (Hline (N / 2) H2).
  rewrite Z.add_0_l.
  replace (N / 2 + Z.of_nat (List.length calls) <? N)
    with (Z.of_nat (List.length calls) <? N - N / 2)
    by (destruct (Z.of_nat (List.length calls) <? N - N / 2) eqn:E1;
        symmetry; [apply Z.ltb_lt; apply Z.ltb_lt in E1 | apply Z.ltb_ge; apply Z.ltb_ge in E1];
        lia).
  replace (N / 2 + Z.of_nat (List.length calls) - N)
    with (Z.of_nat (List.length calls) - (N - N / 2)) by lia.
  split; reflexivity.
Qed.

Lemma Delay_line_witness :
  Delay.left_tap (snd (Delay.run (Delay.init 4)
     [Delay.mkCall F32.one (F32.dec 5 10) F32.one F32.one F32.one;
      Delay.mkCall F32.zero (F32.dec 5 10) F32.one F32.one F32.one]))
    (Delay.mkCall F32.zero (F32.dec 5 10) F32.one F32.one F32.one) =
    F32.mul F32.zero (F32.mul (F32.dec 5 10) (F32.dec 5 10)) /\
  Delay.right_tap (snd (Delay.run (Delay.init 4)
     [Delay.mkCall F32.one (F32.dec 5 10) F32.one F32.one F32.one;
      Delay.mkCall F32.zero (F32.dec 5 10) F32.one F32.one F32.one]))
    (Delay.mkCall F32.zero (F32.dec 5 10) F32.one F32.one F32.one) =
    F32.mul F32.one (F32.dec 5 10).
Proof.
  apply (proj2 (Delay_line 4
    [Delay.mkCall F32.one (F32.dec 5 10) F32.one F32.one F32.one;
     Delay.mkCall F32.zero (F32.dec 5 10) F32.one F32.one F32.one] ltac:(lia))
    (Delay.mkCall F32.zero (F32.dec 5 10) F32.one F32.one F32.one)).
Defined.

(** ** Reading integers *)

Lemma of_int_exact (n : Z) :
  - 2 ^ 24 <= n <= 2 ^ 24 ->
  F32.valid (F32.of_int n) = true /\ is_finite (F32.of_int n) = true /\
  (B32 (F32.of_int n) == inject_Z n)%Q.
Proof.
  intros Hn. pose proof (of_int32 n) as HR.
  assert (E : (Q2 n 0 == inject_Z n)%Q) by (unfold Q2; change (pow2 0) with 1%Q; ring).
  assert (Hv : (B32 (F32.of_int n) == inject_Z n)%Q).
  { apply Rounded_value; [exact HR|].
    apply (fmt_repQ_eq (Q2 n 0)); [exact E | apply grid_repQ; lia]. }
  split; [apply HR|]. split; [|exact Hv].
  apply (finite_B F32.emax); [apply HR|]. fold (B32 (F32.of_int n)). rewrite Hv.
  assert (H1 : (inject_Z n <= inject_Z (2 ^ 24))%Q) by (rewrite <- Zle_Qle; lia).
  assert (H2 : (inject_Z (- 2 ^ 24) <= inject_Z n)%Q) by (rewrite <- Zle_Qle; lia).
  assert (H3 : (inject_Z (2 ^ 24) < pow2 F32.emax)%Q) by qlt.
  assert (H4 : (inject_Z (- 2 ^ 24) == - inject_Z (2 ^ 24))%Q) by reflexivity.
  split; lra.
Qed.

Lemma of_int_nonzero (n : Z) :
  - 2 ^ 24 <= n <= 2 ^ 24 -> n <> 0 -> is_zero (F32.of_int n) = false.
Proof.
  intros Hn Hz. destruct (of_int_exact n Hn) as (V & F & E).
  destruct (is_zero (F32.of_int n)) eqn:Z0; [|reflexivity]. exfalso.
  apply (finite_zero_B _ V F) in Z0. rewrite E in Z0.
  apply Hz. unfold Qeq in Z0. cbn [inject_Z Qnum Qden] in Z0. lia.
Qed.

(** A [float] operation on integers whose exact result is an integer of
    magnitude up to 2^24 other than 0 answers that integer. *)
Lemma Rounded_of_int (v : Q) (r : f32) (n : Z) :
  Rounded F32.prec F32.emax v r -> (v == inject_Z n)%Q ->
  - 2 ^ 24 <= n <= 2 ^ 24 -> n <> 0 -> r = F32.of_int n.
Proof.
  intros HR E Hn Hz. destruct (of_int_exact n Hn) as (V & F & En).
  apply Rounded_same; [exact V | exact F | apply of_int_nonzero; assumption|].
  eapply Rounded_eq; [|exact HR]. rewrite E, En. reflexivity.
Qed.

(** One turn of the digit loop. *)
Lemma parse_step (a d : Z) :
  0 <= a -> 0 <= d <= 9 -> a * 10 + d <= 2 ^ 24 ->
  F32.add (F32.mul (F32.of_int a) (F32.of_int 10)) (F32.of_int d) = F32.of_int (a * 10 + d).
Proof.
  intros Ha Hd Hs.
  assert (Hm : F32.mul (F32.of_int a) (F32.of_int 10) = F32.of_int (a * 10)).
  { destruct (Z.eq_dec a 0) as [-> | Hnz]; [reflexivity|].
    destruct (of_int_exact a ltac:(lia)) as (Va & Fa & Ea).
    destruct (of_int_exact 10 ltac:(lia)) as (Vb & Fb & Eb).
    apply (Rounded_of_int _ _ _ (mul32 _ _ Va Vb Fa Fb)); [|lia|lia].
    rewrite Ea, Eb, inject_Z_mult. reflexivity. }
  rewrite Hm.
  destruct (Z.eq_dec (a * 10 + d) 0) as [E0 | Hnz].
  { assert (a = 0) as -> by lia. assert (d = 0) as -> by lia. reflexivity. }
  destruct (of_int_exact (a * 10) ltac:(lia)) as (Va & Fa & Ea).
  destruct (of_int_exact d ltac:(lia)) as (Vb & Fb & Eb).
  apply (Rounded_of_int _ _ _ (add32 _ _ Va Vb Fa Fb)); [|lia|lia].
  rewrite Ea, Eb, inject_Z_plus. reflexivity.
Qed.

Lemma is_digit_range (c : ascii) : is_digit c = true -> 0 <= char_code c - 48 <= 9.
Proof.
  unfold is_digit. intros H. apply andb_true_iff in H. destruct H as [H1 H2].
  apply Z.leb_le in H1. apply Z.leb_le in H2. lia.
Qed.

Lemma decimal_value_grows (digits : string) :
  forall acc, 0 <= acc -> all_digits digits = true -> acc <= decimal_value acc digits.
Proof.
  induction digits as [|c r IH]; intros acc Ha Hd; cbn [decimal_value]; [lia|].
  cbn [all_digits] in Hd. apply andb_true_iff in Hd. destruct Hd as [Hc Hr].
  pose proof (is_digit_range c Hc).
  specialize (IH (acc * 10 + (char_code c - 48)) ltac:(lia) Hr). lia.
Qed.

Lemma parse_integer_digits (digits rest : string) :
  forall acc, 0 <= acc -> all_digits digits = true ->
    decimal_value acc digits <= 2 ^ 24 -> is_digit (deref rest) = false ->
    Automation.parse_integer (digits ++ rest) (F32.of_int acc) =
      (F32.of_int (decimal_value acc digits), rest).
Proof.
  induction digits as [|c r IH]; intros acc Ha Hd Hv Hrest.
  - cbn [append decimal_value]. destruct rest as [|c r]; [reflexivity|].
    cbn [Automation.parse_integer]. cbn [deref] in Hrest. rewrite Hrest. reflexivity.
  - cbn [all_digits] in Hd. apply andb_true_iff in Hd. destruct Hd as [Hc Hr].
    pose proof (is_digit_range c Hc) as Hcr.
    cbn [decimal_value] in Hv |- *.
    pose proof (decimal_value_grows r (acc * 10 + (char_code c - 48)) ltac:(lia) Hr).
    cbn [append Automation.parse_integer]. rewrite Hc.
    rewrite (parse_step acc (char_code c - 48) Ha Hcr) by lia.
    apply IH; [lia | exact Hr | exact Hv | exact Hrest].
Qed.

Lemma digit_not_minus (c : ascii) : is_digit c = true -> Ascii.eqb c "-" = false.
Proof.
  intros H. destruct (Ascii.eqb c "-") eqn:E; [|reflexivity].
  apply Ascii.eqb_eq in E. subst c. discriminate H.
Qed.

(** X21: integers in a script are read exactly.  On a run of decimal
    digits that denotes an integer up to 16777216, followed by a
    character that is neither a digit nor the point (or by the end of
    the text), [parse_number] answers exactly that integer as a [float]
    and leaves the cursor on what follows; and after a leading [-] it
    answers the negated integer. *)
Theorem parse_number_integer (c : ascii) (digits rest : string) :
  all_digits (String c digits) = true ->
  decimal_value 0 (String c digits) <= 2 ^ 24 ->
  ends_integer rest ->
  Automation.parse_number (String c digits ++ rest) =
    (F32.of_int (decimal_value 0 (String c digits)), rest) /\
  (0 < decimal_value 0 (String c digits) ->
   Automation.parse_number (String "-" (String c digits) ++ rest) =
     (F32.of_int (- decimal_value 0 (String c digits)), rest)).
Proof.
  intros Hd Hv [Hr1 Hr2].
  pose proof Hd as Hd'. cbn [all_digits] in Hd'. apply andb_true_iff in Hd'.
  destruct Hd' as [Hc _].
  pose proof (decimal_value_grows (String c digits) 0 ltac:(lia) Hd) as H0.
  pose proof (parse_integer_digits (String c digits) rest 0 ltac:(lia) Hd Hv Hr1) as Hp.
  change (F32.of_int 0) with F32.zero in Hp.
  destruct (of_int_exact (decimal_value 0 (String c digits)) ltac:(lia)) as (V & F & E).
  split.
  - unfold Automation.parse_number.
    change (deref (String c digits ++ rest)%string) with c. rewrite (digit_not_minus c Hc).
    rewrite Hp, Hr2. rewrite (mul_one _ V). reflexivity.
  - intros Hpos. unfold Automation.parse_number.
    change (deref (String "-" (String c digits) ++ rest)%string) with "-"%char.
    change (Ascii.eqb "-" "-") with true. cbv iota.
    change (advance (String "-" (String c digits) ++ rest)%string)
      with (String c digits ++ rest)%string.
    rewrite Hp, Hr2. f_equal.
    destruct (of_int_exact (-1) ltac:(lia)) as (V1 & F1 & E1).
    apply (Rounded_of_int _ _ _ (mul32 _ _ V V1 F F1)); [|lia|lia].
    rewrite E, E1, inject_Z_opp. change (inject_Z (-1)) with (- (1))%Q. ring.
Qed.

Lemma parse_number_integer_witness :
  Automation.parse_number "440/2 0" = (F32.of_int 440, "/2 0"%string) /\
  (0 < 440 -> Automation.parse_number "-440/2 0" = (F32.of_int (-440), "/2 0"%string)).
Proof.
  apply (parse_number_integer "4" "40" "/2 0").
  - reflexivity.
  - vm_compute. discriminate.
  - split; reflexivity.
Defined.

(** ** The WAV file of audio within range *)

Lemma write_length (size : nat) (data : Z) : List.length (WAVOutput.write size data) = size.
Proof.
  revert data. induction size as [|k IH]; intros data; cbn [WAVOutput.write List.length];
    [reflexivity | rewrite IH; reflexivity].
Qed.

Lemma write_bytes (size : nat) (data : Z) : Forall is_byte (WAVOutput.write size data).
Proof.
  revert data. induction size as [|k IH]; intros data; cbn [WAVOutput.write]; constructor.
  - apply Z.mod_pos_bound. lia.
  - apply IH.
Qed.

Lemma write_decode (size : nat) (data : Z) :
  le_decode (WAVOutput.write size data) = data mod 256 ^ Z.of_nat size.
Proof.
  revert data. induction size as [|k IH]; intros data; cbn [WAVOutput.write le_decode].
  - change (256 ^ Z.of_nat 0) with 1. rewrite Z.mod_1_r. reflexivity.
  - rewrite IH, Nat2Z.inj_succ, Z.pow_succ_r by lia.
    rewrite (Z.rem_mul_r data 256 (256 ^ Z.of_nat k)) by
      (try lia; apply Z.pow_pos_nonneg; lia).
    reflexivity.
Qed.

(** Truncation keeps an integer range. *)
Lemma trunc_bounds (y : f32) (lo hi : Z) :
  is_finite y = true -> lo <= 0 <= hi ->
  (inject_Z lo - 1 < B32 y)%Q -> (B32 y < inject_Z hi + 1)%Q ->
  exists n, SFtrunc y = Some n /\ lo <= n <= hi.
Proof.
  intros F Hz Hlo Hhi. destruct y as [s|s| |s m e]; try discriminate.
  - exists 0. split; [reflexivity | lia].
  - cbn [SFtrunc]. rewrite shiftl_floor.
    pose proof (B_finite F32.emax s m e) as EB. fold (B32 (S754_finite s m e)) in EB.
    rewrite EB in Hlo, Hhi.
    set (q := Q2 (Zpos m) e) in *.
    pose proof (Qfloor_le q) as Hf1.
    assert (Hf0 : 0 <= Qfloor q).
    { change 0 with (Qfloor 0). apply Qfloor_resp_le.
      apply Qlt_le_weak. apply Q2_pos. lia. }
    exists (cond_Zopp s (Qfloor q)). split; [reflexivity|].
    destruct s; cbn [cond_Zopp].
    + split; [|lia].
      assert (H : (inject_Z (Qfloor q) < inject_Z (1 - lo))%Q).
      { unfold Z.sub. rewrite inject_Z_plus, inject_Z_opp. change (inject_Z 1) with 1%Q. lra. }
      rewrite <- Zlt_Qlt in H. lia.
    + split; [lia|].
      assert (H : (inject_Z (Qfloor q) < inject_Z (hi + 1))%Q).
      { rewrite inject_Z_plus. change (inject_Z 1) with 1%Q. lra. }
      rewrite <- Zlt_Qlt in H. lia.
Qed.

(** A channel within [-1, 1] always has a 16-bit value. *)
Lemma quantize_in_range (x : f32) :
  sample_range x -> exists q, WAVOutput.quantize x = Some q /\ - 32766 <= q <= 32767.
Proof.
  intros Hx. destruct (sample_range_B x Hx) as (V & F & H0 & H1).
  unfold WAVOutput.quantize.
  assert (E7 : (B32 (F32.of_int 32767) == 32767)%Q) by (vm_compute; reflexivity).
  pose proof (mul32 x (F32.of_int 32767) V eq_refl F eq_refl) as R1.
  destruct (Rounded_within _ _ 32767 R1 ltac:(lia)) as (V1 & F1 & H1l & H1u).
  { rewrite E7. change (inject_Z 32767) with 32767%Q. lra. }
  change (inject_Z 32767) with 32767%Q in H1l, H1u.
  pose proof (add32 _ (F32.dec 5 10) V1 eq_refl F1 eq_refl) as R2.
  set (y := F32.add (F32.mul x (F32.of_int 32767)) (F32.dec 5 10)) in *.
  assert (Eu : (Q2 65535 (-1) == 32767 + (1 # 2))%Q) by (vm_compute; reflexivity).
  assert (El : (Q2 (-65533) (-1) == - (32766) - (1 # 2))%Q) by (vm_compute; reflexivity).
  assert (Hu : (B32 y <= Q2 65535 (-1))%Q).
  { apply (Rounded_grid _ _ 65535 (-1) R2); [lia | lia|]. rewrite Eu, B32_half. lra. }
  assert (Hl : (Q2 (-65533) (-1) <= B32 y)%Q).
  { apply (Rounded_grid _ _ (-65533) (-1) R2); [lia | lia|]. rewrite El, B32_half. lra. }
  assert (Fy : is_finite y = true).
  { apply (finite_B F32.emax); [apply R2|]. fold (B32 y).
    pose proof pow2_128_big. assert (32768 < pow2 F32.emax)%Q by qlt. split; lra. }
  destruct (trunc_bounds y (-32766) 32767 Fy ltac:(lia)) as (n & Hn & Hr).
  { change (inject_Z (-32766)) with (- (32766))%Q. lra. }
  { change (inject_Z 32767) with 32767%Q. lra. }
  exists n. split; [|exact Hr].
  unfold F32.to_sint. rewrite Hn.
  assert (Hc : (- 2 ^ (16 - 1) <=? n) && (n <? 2 ^ (16 - 1)) = true).
  { change (2 ^ (16 - 1)) with 32768.
    apply andb_true_iff. split; [apply Z.leb_le | apply Z.ltb_lt]; lia. }
  rewrite Hc. reflexivity.
Qed.

Lemma frames_bytes_in_range (l : list Sample) :
  Forall frame_in_range l ->
  exists data, frames_bytes l = Some data /\
    List.length data = (4 * List.length l)%nat /\ Forall is_byte data.
Proof.
  induction 1 as [|s r [Hl Hr] _ IH].
  - exists []. repeat split. constructor.
  - destruct IH as (data & Hd & Hlen & Hb).
    destruct (quantize_in_range _ Hl) as (ql & Hql & _).
    destruct (quantize_in_range _ Hr) as (qr & Hqr & _).
    exists ((WAVOutput.write 2 ql ++ WAVOutput.write 2 qr) ++ data).
    cbn [frames_bytes]. unfold frame_bytes. rewrite Hql, Hqr, Hd.
    split; [reflexivity|]. split.
    + rewrite !length_app, !write_length, Hlen. cbn [List.length]. lia.
    + repeat (apply Forall_app; split); try apply write_bytes. exact Hb.
Qed.

Lemma pulled_length {W : Type} (input : Output W Sample) (count : nat) (t : Z) (w : W) :
  List.length (fst (pulled input count t w)) = count.
Proof.
  revert t w. induction count as [|k IH]; intros t w; cbn [pulled]; [reflexivity|].
  destruct (input t w) as [s w1]. specialize (IH (t + 1) w1).
  destruct (pulled input k (t + 1) w1) as [r w2]. cbn [fst List.length] in *.
  rewrite IH. reflexivity.
Qed.

Lemma header_shape (frames : Z) :
  WAVOutput.header frames =
    [82; 73; 70; 70] ++ WAVOutput.write 4 (wrap32 (36 + wrap32 (wrap32 (frames * 2) * 2)))
    ++ [87; 65; 86; 69; 102; 109; 116; 32; 16; 0; 0; 0; 1; 0; 2; 0; 68; 172; 0; 0;
        16; 177; 2; 0; 4; 0; 16; 0; 100; 97; 116; 97]
    ++ WAVOutput.write 4 (wrap32 (wrap32 (frames * 2) * 2)).
Proof. reflexivity. Qed.

(** X22: audio within range always makes a well-formed file.  A channel
    value within [-1, 1] always converts to a 16-bit integer, from
    -32766 to 32767.  So for up to 2^29 - 10 frames pulled within
    range, [run] succeeds and writes 44 + 4 * frames bytes, and the two
    size fields of the header, read back least significant byte first,
    are 36 + 4 * frames at offset 4 and 4 * frames at offset 40. *)
Theorem WAVOutput_in_range :
  (forall x : f32, sample_range x ->
     exists q, WAVOutput.quantize x = Some q /\ - 32766 <= q <= 32767) /\
  (forall (W : Type) (input : Output W Sample) (frames : Z) (w : W),
     0 <= frames < 2 ^ 29 - 9 ->
     Forall frame_in_range (fst (pulled input (Z.to_nat frames) 1 w)) ->
     exists bytes,
       WAVOutput.run input frames w =
         Some (bytes, snd (pulled input (Z.to_nat frames) 1 w)) /\
       Z.of_nat (List.length bytes) = 44 + 4 * frames /\
       Forall is_byte bytes /\
       le_decode (firstn 4 (skipn 4 bytes)) = 36 + 4 * frames /\
       le_decode (firstn 4 (skipn 40 bytes)) = 4 * frames).
Proof.
  split; [exact quantize_in_range|].
  intros W input frames w Hf Hall.
  destruct (frames_bytes_in_range _ Hall) as (data & Hd & Hlen & Hb).
  pose proof (pulled_length input (Z.to_nat frames) 1 w) as Hn.
  exists (WAVOutput.header frames ++ data).
  rewrite run_pulled by lia. rewrite Hd.
  split; [reflexivity|].
  assert (E1 : wrap32 (wrap32 (frames * 2) * 2) = 4 * frames).
  { rewrite (wrap32_small (frames * 2)) by lia. rewrite wrap32_small by lia. lia. }
  assert (E2 : wrap32 (36 + wrap32 (wrap32 (frames * 2) * 2)) = 36 + 4 * frames).
  { rewrite E1. apply wrap32_small. lia. }
  rewrite header_shape, E2, E1, <- !app_assoc.
  set (a := WAVOutput.write 4 (36 + 4 * frames)).
  set (b := WAVOutput.write 4 (4 * frames)).
  assert (La : List.length a = 4%nat) by apply write_length.
  assert (Lb : List.length b = 4%nat) by apply write_length.
  split; [|split; [|split]].
  - rewrite !length_app, La, Lb, Hlen, Hn. cbn [List.length]. lia.
  - repeat (apply Forall_app; split); try apply write_bytes; try exact Hb;
      repeat constructor; unfold is_byte; lia.
  - cbn [app skipn].
    rewrite firstn_app, La. change (4 - 4)%nat with 0%nat.
    rewrite firstn_O, app_nil_r. rewrite <- La at 1. rewrite firstn_all. unfold a. rewrite write_decode.
    change (256 ^ Z.of_nat 4) with (2 ^ 32). apply Z.mod_small. lia.
  - destruct a as [|a0 [|a1 [|a2 [|a3 [|a4 a']]]]]; try discriminate La.
    cbn [app skipn].
    rewrite firstn_app, Lb. change (4 - 4)%nat with 0%nat.
    rewrite firstn_O, app_nil_r. rewrite <- Lb at 1. rewrite firstn_all. unfold b. rewrite write_decode.
    change (256 ^ Z.of_nat 4) with (2 ^ 32). apply Z.mod_small. lia.
Qed.

Lemma WAVOutput_in_range_witness :
  exists bytes,
    WAVOutput.run (Value_get (mkSample (F32.dec 1 2) (F32.of_int (-1)))) 3 tt =
      Some (bytes, snd (pulled (Value_get (mkSample (F32.dec 1 2) (F32.of_int (-1))))
                          (Z.to_nat 3) 1 tt)) /\
    Z.of_nat (List.length bytes) = 44 + 4 * 3 /\
    Forall is_byte bytes /\
    le_decode (firstn 4 (skipn 4 bytes)) = 36 + 4 * 3 /\
    le_decode (firstn 4 (skipn 40 bytes)) = 4 * 3.
Proof.
  apply (proj2 WAVOutput_in_range unit
           (Value_get (mkSample (F32.dec 1 2) (F32.of_int (-1)))) 3 tt).
  - lia.
  - repeat constructor.
Defined.

(** ** The reverb before its first reflection, and on silence *)

Lemma mul_zero_l (z y : f32) :
  is_zero z = true -> is_finite y = true -> is_zero (F32.mul z y) = true.
Proof.
  destruct z as [s|s| |s m e]; try discriminate. intros _.
  destruct y as [s'|s'| |s' m' e']; try discriminate; reflexivity.
Qed.

Lemma add_zero (z z' : f32) :
  is_zero z = true -> is_zero z' = true -> is_zero (F32.add z z') = true.
Proof.
  destruct z as [s|s| |s m e]; try discriminate.
  destruct z' as [s'|s'| |s' m' e']; try discriminate. intros _ _.
  destruct s, s'; reflexivity.
Qed.

Lemma sub_zero (z z' : f32) :
  is_zero z = true -> is_zero z' = true -> is_zero (F32.sub z z') = true.
Proof.
  destruct z as [s|s| |s m e]; try discriminate.
  destruct z' as [s'|s'| |s' m' e']; try discriminate. intros _ _.
  destruct s, s'; reflexivity.
Qed.

Lemma add_zero_l (z y : f32) :
  is_zero z = true -> same_value (F32.add z y) y.
Proof.
  destruct z as [s|s| |s m e]; try discriminate. intros _.
  destruct y as [s'|s'| |s' m' e'].
  - right. split; [destruct s, s'; reflexivity | reflexivity].
  - left. reflexivity.
  - left. reflexivity.
  - left. reflexivity.
Qed.

(** The derived parameters of a call with settings in range are finite. *)
Lemma Freeverb_settings_finite (c : FreeverbCall) :
  Freeverb_settings c ->
  is_finite (Freeverb.feedback (fv_room_size c)) = true /\
  is_finite (F32.mul (fv_damp c) (F32.dec 4 10)) = true /\
  is_finite (F32.sub F32.one (F32.mul (fv_damp c) (F32.dec 4 10))) = true /\
  is_finite (F32.mul (fv_wet c) (F32.of_int 3)) = true /\
  is_finite (F32.add (F32.dec 5 10) (F32.mul (fv_width c) (F32.dec 5 10))) = true /\
  is_finite (F32.sub (F32.dec 5 10) (F32.mul (fv_width c) (F32.dec 5 10))) = true.
Proof.
  intros (Hroom & Hdamp & Hwet & Hwidth).
  assert (H28 : upto 1 (F32.mul (fv_room_size c) (F32.dec 28 100))).
  { apply scaled_upto; [lia | exact Hroom | reflexivity | reflexivity | split; qle]. }
  assert (H4 : upto 1 (F32.mul (fv_damp c) (F32.dec 4 10))).
  { apply scaled_upto; [lia | exact Hdamp | reflexivity | reflexivity | split; qle]. }
  assert (H3 : upto 3 (F32.mul (fv_wet c) (F32.of_int 3))).
  { apply scaled_upto; [lia | exact Hwet | reflexivity | reflexivity | split; qle]. }
  assert (H5 : upto 1 (F32.mul (fv_width c) (F32.dec 5 10))).
  { apply scaled_upto; [lia | exact Hwidth | reflexivity | reflexivity | split; qle]. }
  destruct H28 as (V28 & F28 & B28). destruct H4 as (V4 & F4 & B4).
  destruct H3 as (V3 & F3 & B3). destruct H5 as (V5 & F5 & B5).
  change (inject_Z 1) with 1%Q in *. change (inject_Z 3) with 3%Q in *.
  split; [|split; [exact F4 | split; [|split; [exact F3 | split]]]].
  - unfold Freeverb.feedback.
    apply (Rounded_within _ _ 2 (add32 _ (F32.dec 7 10) V28 eq_refl F28 eq_refl)); [lia|].
    assert (Hb : (0 <= B32 (F32.dec 7 10) <= 1)%Q) by (split; qle).
    change (inject_Z 2) with 2%Q. lra.
  - apply (Rounded_within _ _ 1 (sub32 F32.one _ eq_refl V4 eq_refl F4)); [lia|].
    rewrite B32_one. change (inject_Z 1) with 1%Q. lra.
  - apply (Rounded_within _ _ 2 (add32 (F32.dec 5 10) _ eq_refl V5 eq_refl F5)); [lia|].
    rewrite B32_half. change (inject_Z 2) with 2%Q. lra.
  - apply (Rounded_within _ _ 1 (sub32 (F32.dec 5 10) _ eq_refl V5 eq_refl F5)); [lia|].
    rewrite B32_half. change (inject_Z 1) with 1%Q. lra.
Qed.

Section Filters.
Variables feedback damp : f32.
Hypothesis feedback_finite : is_finite feedback = true.
Hypothesis damp_finite : is_finite damp = true.
Hypothesis damp'_finite : is_finite (F32.sub F32.one damp) = true.

(** A fresh comb filter answers a zero, whatever its input. *)
Lemma Comb_fresh_step (n j : nat) (c : Freeverb.Comb) (input : f32) :
  Comb_fresh n j c ->
  is_zero (fst (Freeverb.Comb_process c input feedback damp)) = true /\
  ((Datatypes.S j < n)%nat ->
   Comb_fresh n (Datatypes.S j) (snd (Freeverb.Comb_process c input feedback damp))).
Proof.
  intros (HN & Hp & Hprev & Hz). unfold Freeverb.Comb_process. cbn [fst snd].
  rewrite Hp. split; [apply Hz; lia|].
  intros Hj. split; [exact HN|]. cbn [Freeverb.comb_N Freeverb.comb_position
    Freeverb.comb_previous Freeverb.comb_buffer].
  split; [rewrite Nat.mod_small by lia; lia|]. split.
  - apply add_zero; apply mul_zero_l; try assumption. apply Hz. lia.
  - intros i Hi. rewrite nth_store_other by lia. apply Hz. lia.
Qed.

(** A comb filter that holds zeros and is fed a zero keeps holding
    zeros and answers one. *)
Lemma Comb_silent_step (c : Freeverb.Comb) (input : f32) :
  Comb_silent c -> is_zero input = true ->
  is_zero (fst (Freeverb.Comb_process c input feedback damp)) = true /\
  Comb_silent (snd (Freeverb.Comb_process c input feedback damp)).
Proof.
  intros [Hprev Hz] Hin. unfold Freeverb.Comb_process. cbn [fst snd].
  assert (Ho : is_zero (nth (Freeverb.comb_position c) (Freeverb.comb_buffer c) F32.zero) = true).
  { apply (Forall_nth_default (fun x => is_zero x = true)); [exact Hz | reflexivity]. }
  assert (Hf : is_zero (F32.add
                 (F32.mul (nth (Freeverb.comb_position c) (Freeverb.comb_buffer c) F32.zero)
                    (F32.sub F32.one damp))
                 (F32.mul (Freeverb.comb_previous c) damp)) = true).
  { apply add_zero; apply mul_zero_l; assumption. }
  split; [exact Ho|]. split; cbn [Freeverb.comb_previous Freeverb.comb_buffer]; [exact Hf|].
  apply Forall_store; [exact Hz|].
  apply add_zero; [exact Hin | apply mul_zero_l; assumption].
Qed.

Lemma combs_fresh_step (n j : nat) (cs : list Freeverb.Comb) (input result : f32) :
  Forall (Comb_fresh n j) cs -> is_zero result = true ->
  is_zero (fst (Freeverb.combs_process cs input feedback damp result)) = true /\
  ((Datatypes.S j < n)%nat ->
   Forall (Comb_fresh n (Datatypes.S j))
     (snd (Freeverb.combs_process cs input feedback damp result))).
Proof.
  intros Hcs. revert result. induction Hcs as [|c r Hc Hr IH]; intros result Hres.
  - cbn. split; [exact Hres | constructor].
  - cbn [Freeverb.combs_process].
    destruct (Comb_fresh_step n j c input Hc) as [Ho Hc'].
    destruct (Freeverb.Comb_process c input feedback damp) as [o c']. cbn [fst snd] in *.
    specialize (IH (F32.add result o) (add_zero _ _ Hres Ho)).
    destruct (Freeverb.combs_process r input feedback damp (F32.add result o)) as [res' r'].
    cbn [fst snd] in *. destruct IH as [H1 H2].
    split; [exact H1|]. intros Hj. constructor; [apply Hc', Hj | apply H2, Hj].
Qed.

Lemma combs_silent_step (cs : list Freeverb.Comb) (input result : f32) :
  Forall Comb_silent cs -> is_zero input = true -> is_zero result = true ->
  is_zero (fst (Freeverb.combs_process cs input feedback damp result)) = true /\
  Forall Comb_silent (snd (Freeverb.combs_process cs input feedback damp result)).
Proof.
  intros Hcs Hin. revert result. induction Hcs as [|c r Hc Hr IH]; intros result Hres.
  - cbn. split; [exact Hres | constructor].
  - cbn [Freeverb.combs_process].
    destruct (Comb_silent_step c input Hc Hin) as [Ho Hc'].
    destruct (Freeverb.Comb_process c input feedback damp) as [o c']. cbn [fst snd] in *.
    specialize (IH (F32.add result o) (add_zero _ _ Hres Ho)).
    destruct (Freeverb.combs_process r input feedback damp (F32.add result o)) as [res' r'].
    cbn [fst snd] in *. destruct IH as [H1 H2].
    split; [exact H1 | constructor; assumption].
Qed.

Lemma all_passes_silent_step (l : list Freeverb.AllPass) (result : f32) :
  Forall (fun a => all_zero (Freeverb.allpass_buffer a)) l -> is_zero result = true ->
  is_zero (fst (Freeverb.all_passes_process l result)) = true /\
  Forall (fun a => all_zero (Freeverb.allpass_buffer a))
    (snd (Freeverb.all_passes_process l result)).
Proof.
  intros Hl. revert result. induction Hl as [|a r Ha Hr IH]; intros result Hres.
  - cbn. split; [exact Hres | constructor].
  - cbn [Freeverb.all_passes_process]. unfold Freeverb.AllPass_process.
    assert (Ho : is_zero (nth (Freeverb.allpass_position a) (Freeverb.allpass_buffer a)
                            F32.zero) = true).
    { apply (Forall_nth_default (fun x => is_zero x = true)); [exact Ha | reflexivity]. }
    specialize (IH _ (sub_zero _ _ Ho Hres)).
    destruct (Freeverb.all_passes_process r _) as [res' r']. cbn [fst snd] in *.
    destruct IH as [H1 H2]. split; [exact H1|]. constructor; [|exact H2].
    cbn [Freeverb.allpass_buffer]. apply Forall_store; [exact Ha|].
    apply add_zero; [exact Hres | apply mul_zero_l; [exact Ho | reflexivity]].
Qed.

Lemma Channel_fresh_step (n j : nat) (c : Freeverb.Channel) (input : f32) :
  Channel_fresh n j c ->
  is_zero (fst (Freeverb.Channel_process c input feedback damp)) = true /\
  ((Datatypes.S j < n)%nat ->
   Channel_fresh n (Datatypes.S j) (snd (Freeverb.Channel_process c input feedback damp))).
Proof.
  intros [Hcs Hap]. unfold Freeverb.Channel_process.
  destruct (combs_fresh_step n j _ input F32.zero Hcs eq_refl) as [H1 H2].
  destruct (Freeverb.combs_process _ input feedback damp F32.zero) as [res cs'].
  cbn [fst snd] in *.
  destruct (all_passes_silent_step _ res Hap H1) as [H3 H4].
  destruct (Freeverb.all_passes_process _ res) as [res' aps']. cbn [fst snd] in *.
  split; [exact H3|]. intros Hj. split; [apply H2, Hj | exact H4].
Qed.

Lemma Channel_silent_step (c : Freeverb.Channel) (input : f32) :
  Channel_silent c -> is_zero input = true ->
  is_zero (fst (Freeverb.Channel_process c input feedback damp)) = true /\
  Channel_silent (snd (Freeverb.Channel_process c input feedback damp)).
Proof.
  intros [Hcs Hap] Hin. unfold Freeverb.Channel_process.
  destruct (combs_silent_step _ input F32.zero Hcs Hin eq_refl) as [H1 H2].
  destruct (Freeverb.combs_process _ input feedback damp F32.zero) as [res cs'].
  cbn [fst snd] in *.
  destruct (all_passes_silent_step _ res Hap H1) as [H3 H4].
  destruct (Freeverb.all_passes_process _ res) as [res' aps']. cbn [fst snd] in *.
  split; [exact H3 | split; assumption].
Qed.
End Filters.

Lemma Channel_new_fresh (S : nat) : Channel_fresh 1116 0 (Freeverb.Channel_new S).
Proof.
  unfold Freeverb.Channel_new. split; cbn [Freeverb.combs Freeverb.all_passes].
  - apply Forall_forall. intros c Hc. apply in_map_iff in Hc as (n & <- & Hn).
    unfold Freeverb.Comb_new.
    split; cbn [Freeverb.comb_N Freeverb.comb_position Freeverb.comb_previous
                Freeverb.comb_buffer].
    + cbn [In] in Hn. lia.
    + split; [reflexivity|]. split; [reflexivity|]. intros i _.
      destruct (Nat.lt_ge_cases i (n + S)) as [Hi | Hi].
      * rewrite nth_repeat_lt by exact Hi. reflexivity.
      * rewrite nth_overflow by (rewrite repeat_length; exact Hi). reflexivity.
  - apply Forall_forall. intros a Ha. apply in_map_iff in Ha as (n & <- & _).
    unfold Freeverb.AllPass_new, all_zero. cbn [Freeverb.allpass_buffer].
    apply Forall_forall. intros x Hx. apply repeat_spec in Hx. subst x. reflexivity.
Qed.

Lemma Channel_fresh_silent (n j : nat) (c : Freeverb.Channel) :
  Channel_fresh n 0 c -> Channel_silent c.
Proof.
  intros [Hcs Hap]. split; [|exact Hap].
  eapply Forall_impl; [|exact Hcs]. intros x (_ & _ & Hprev & Hz).
  split; [exact Hprev|]. apply Forall_forall. intros y Hy.
  apply (In_nth _ _ F32.zero) in Hy. destruct Hy as (i & _ & <-). apply Hz. lia.
Qed.

(** One call on fresh channels: the answer is the dry path. *)
Lemma Freeverb_fresh_step (j : nat) (r : Freeverb.state) (c : FreeverbCall) :
  Channel_fresh 1116 j (Freeverb.channel1 r) -> Channel_fresh 1116 j (Freeverb.channel2 r) ->
  Freeverb_settings c ->
  (same_value (left (fst (Freeverb.process r (fv_input c) (fv_room_size c) (fv_damp c)
                            (fv_wet c) (fv_dry c) (fv_width c)))) (Freeverb_dry c) /\
   same_value (right (fst (Freeverb.process r (fv_input c) (fv_room_size c) (fv_damp c)
                             (fv_wet c) (fv_dry c) (fv_width c)))) (Freeverb_dry c)) /\
  ((Datatypes.S j < 1116)%nat ->
   Channel_fresh 1116 (Datatypes.S j)
     (Freeverb.channel1 (snd (Freeverb.process r (fv_input c) (fv_room_size c) (fv_damp c)
                                (fv_wet c) (fv_dry c) (fv_width c)))) /\
   Channel_fresh 1116 (Datatypes.S j)
     (Freeverb.channel2 (snd (Freeverb.process r (fv_input c) (fv_room_size c) (fv_damp c)
                                (fv_wet c) (fv_dry c) (fv_width c))))).
Proof.
  intros H1 H2 Hs.
  destruct (Freeverb_settings_finite c Hs) as (Fg & Fd & Fd' & Fw & Fs1 & Fs2).
  unfold Freeverb.process.
  destruct (Channel_fresh_step (Freeverb.feedback (fv_room_size c)) _ Fd Fd' 1116 j _
              (F32.mul (fv_input c) (F32.dec 3 100)) H1) as [Ho1 Hc1].
  destruct (Channel_fresh_step (Freeverb.feedback (fv_room_size c)) _ Fd Fd' 1116 j _
              (F32.mul (fv_input c) (F32.dec 3 100)) H2) as [Ho2 Hc2].
  destruct (Freeverb.Channel_process (Freeverb.channel1 r) _ _ _) as [o1 c1].
  destruct (Freeverb.Channel_process (Freeverb.channel2 r) _ _ _) as [o2 c2].
  cbn [fst snd Freeverb.channel1 Freeverb.channel2] in *.
  split; [|intros Hj; split; [apply Hc1, Hj | apply Hc2, Hj]].
  unfold Width.process, SampleOps.add, SampleOps.scale, SampleOps.of_float, Freeverb_dry.
  cbn [left right].
  split; apply add_zero_l; apply mul_zero_l; try exact Fw;
    apply add_zero; apply mul_zero_l; assumption.
Qed.

(** One call on silent channels with a zero input: the answer is zero. *)
Lemma Freeverb_silent_step (r : Freeverb.state) (c : FreeverbCall) :
  Channel_silent (Freeverb.channel1 r) -> Channel_silent (Freeverb.channel2 r) ->
  Freeverb_in_range c -> is_zero (fv_input c) = true ->
  (is_zero (left (fst (Freeverb.process r (fv_input c) (fv_room_size c) (fv_damp c)
                         (fv_wet c) (fv_dry c) (fv_width c)))) = true /\
   is_zero (right (fst (Freeverb.process r (fv_input c) (fv_room_size c) (fv_damp c)
                          (fv_wet c) (fv_dry c) (fv_width c)))) = true) /\
  Channel_silent
    (Freeverb.channel1 (snd (Freeverb.process r (fv_input c) (fv_room_size c) (fv_damp c)
                               (fv_wet c) (fv_dry c) (fv_width c)))) /\
  Channel_silent
    (Freeverb.channel2 (snd (Freeverb.process r (fv_input c) (fv_room_size c) (fv_damp c)
                               (fv_wet c) (fv_dry c) (fv_width c)))).
Proof.
  intros H1 H2 (Hin & Hroom & Hdamp & Hwet & Hdry & Hwidth) Hz.
  assert (Hs : Freeverb_settings c) by exact (conj Hroom (conj Hdamp (conj Hwet Hwidth))).
  destruct (Freeverb_settings_finite c Hs) as (Fg & Fd & Fd' & Fw & Fs1 & Fs2).
  assert (Fdry : is_finite (F32.mul (fv_dry c) (F32.of_int 2)) = true).
  { apply (scaled_upto 2); [lia | exact Hdry | reflexivity | reflexivity | split; qle]. }
  unfold Freeverb.process.
  assert (Hx : is_zero (F32.mul (fv_input c) (F32.dec 3 100)) = true)
    by (apply mul_zero_l; [exact Hz | reflexivity]).
  destruct (Channel_silent_step _ _ Fg Fd Fd' _ _ H1 Hx) as [Ho1 Hc1].
  destruct (Channel_silent_step _ _ Fg Fd Fd' _ _ H2 Hx) as [Ho2 Hc2].
  destruct (Freeverb.Channel_process (Freeverb.channel1 r) _ _ _) as [o1 c1].
  destruct (Freeverb.Channel_process (Freeverb.channel2 r) _ _ _) as [o2 c2].
  cbn [fst snd Freeverb.channel1 Freeverb.channel2] in *.
  split; [|split; assumption].
  unfold Width.process, SampleOps.add, SampleOps.scale, SampleOps.of_float.
  cbn [left right].
  split; apply add_zero; try (apply mul_zero_l; assumption);
    apply mul_zero_l; try exact Fw; apply add_zero; apply mul_zero_l; assumption.
Qed.

Lemma Freeverb_run_fresh (calls : list FreeverbCall) :
  forall (j : nat) (r : Freeverb.state),
    Channel_fresh 1116 j (Freeverb.channel1 r) ->
    Channel_fresh 1116 j (Freeverb.channel2 r) ->
    Forall Freeverb_settings calls -> (j + List.length calls <= 1116)%nat ->
    Forall2 (fun c s => same_value (left s) (Freeverb_dry c) /\
                        same_value (right s) (Freeverb_dry c))
      calls (fst (Freeverb_run r calls)).
Proof.
  induction calls as [|c rest IH]; intros j r H1 H2 Hall Hlen; [constructor|].
  inversion Hall as [|? ? Hc Hrest]; subst.
  cbn [Freeverb_run].
  destruct (Freeverb_fresh_step j r c H1 H2 Hc) as [Hout Hnext].
  destruct (Freeverb.process r _ _ _ _ _ _) as [s r1]. cbn [fst snd] in *.
  destruct rest as [|c' rest'].
  - cbn [Freeverb_run fst]. constructor; [exact Hout | constructor].
  - cbn [List.length] in Hlen.
    destruct (Hnext ltac:(lia)) as [H1' H2'].
    specialize (IH (Datatypes.S j) r1 H1' H2' Hrest ltac:(cbn [List.length]; lia)).
    destruct (Freeverb_run r1 (c' :: rest')) as [ss r2]. cbn [fst] in *.
    constructor; [exact Hout | exact IH].
Qed.

Lemma Freeverb_run_silent (calls : list FreeverbCall) :
  forall r : Freeverb.state,
    Channel_silent (Freeverb.channel1 r) -> Channel_silent (Freeverb.channel2 r) ->
    Forall (fun c => Freeverb_in_range c /\ is_zero (fv_input c) = true) calls ->
    Forall (fun s => is_zero (left s) = true /\ is_zero (right s) = true)
      (fst (Freeverb_run r calls)).
Proof.
  induction calls as [|c rest IH]; intros r H1 H2 Hall; [constructor|].
  inversion Hall as [|? ? [Hc Hz] Hrest]; subst.
  cbn [Freeverb_run].
  destruct (Freeverb_silent_step r c H1 H2 Hc Hz) as (Hout & H1' & H2').
  destruct (Freeverb.process r _ _ _ _ _ _) as [s r1]. cbn [fst snd] in *.
  specialize (IH r1 H1' H2' Hrest).
  destruct (Freeverb_run r1 rest) as [ss r2]. cbn [fst] in *.
  constructor; assumption.
Qed.

(** X23: the reverb before its first reflection, and on silence.  With
    the room size, the damping, the wet level and the width in [0, 1],
    the first 1116 calls after construction answer on both channels
    what the dry path alone gives, [input * (dry * 2.f)], whatever the
    inputs are: no reflection arrives before the shortest comb filter
    has gone round.  And when every input is a zero, with the dry level
    in [0, 1] as well, every answer is a zero, however long the reverb
    runs. *)
Theorem Freeverb_predelay (calls : list FreeverbCall) :
  (Forall Freeverb_settings calls -> (List.length calls <= 1116)%nat ->
   Forall2 (fun c s => same_value (left s) (Freeverb_dry c) /\
                       same_value (right s) (Freeverb_dry c))
     calls (fst (Freeverb_run Freeverb.init calls))) /\
  (Forall (fun c => Freeverb_in_range c /\ is_zero (fv_input c) = true) calls ->
   Forall (fun s => is_zero (left s) = true /\ is_zero (right s) = true)
     (fst (Freeverb_run Freeverb.init calls))).
Proof.
  split.
  - intros Hall Hlen.
    apply (Freeverb_run_fresh calls 0 Freeverb.init); try assumption;
      apply Channel_new_fresh.
  - intros Hall.
    apply (Freeverb_run_silent calls Freeverb.init); try assumption;
      apply (Channel_fresh_silent 1116 0), Channel_new_fresh.
Qed.

Lemma Freeverb_predelay_witness :
  Forall2 (fun c s => same_value (left s) (Freeverb_dry c) /\
                      same_value (right s) (Freeverb_dry c))
    (Freeverb_impulse 3) (fst (Freeverb_run Freeverb.init (Freeverb_impulse 3))) /\
  Forall (fun s => is_zero (left s) = true /\ is_zero (right s) = true)
    (fst (Freeverb_run Freeverb.init
            (repeat (mkFreeverbCall F32.zero F32.one F32.one F32.one F32.one F32.one) 3))).
Proof.
  split.
  - apply (proj1 (Freeverb_predelay (Freeverb_impulse 3))).
    + repeat constructor.
    + cbn. lia.
  - apply (proj2 (Freeverb_predelay
                    (repeat (mkFreeverbCall F32.zero F32.one F32.one F32.one F32.one F32.one) 3))).
    repeat constructor.
Defined.

(** ** Steady states *)

Lemma add_zero_r (x z : f32) :
  is_zero z = true -> same_value (F32.add x z) x.
Proof.
  destruct z as [s|s| |s m e]; try discriminate. intros _.
  destruct x as [s'|s'| |s' m' e'].
  - right. split; [destruct s, s'; reflexivity | reflexivity].
  - left. reflexivity.
  - left. reflexivity.
  - left. reflexivity.
Qed.

(** [x - x] is a zero. *)
Lemma sub_self (x : f32) :
  F32.valid x = true -> is_finite x = true -> is_zero (F32.sub x x) = true.
Proof.
  intros V F. pose proof (sub32 x x V V F F) as HR.
  assert (E : (B32 x - B32 x == Q2 0 0)%Q) by (rewrite Q2_0; ring).
  assert (Hv : (B32 (F32.sub x x) == 0)%Q).
  { rewrite <- (Q2_0 0), <- E. apply Rounded_value; [exact HR|].
    apply (fmt_repQ_eq (Q2 0 0)); [symmetry; exact E | apply grid_repQ; lia]. }
  apply finite_zero_B; [apply HR | | exact Hv].
  apply (finite_B F32.emax); [apply HR|]. fold (B32 (F32.sub x x)). rewrite Hv.
  pose proof (pow2_pos F32.emax). split; lra.
Qed.

Lemma LowPass_settled (x cutoff : f32) :
  F32.valid x = true -> is_finite x = true -> is_finite cutoff = true ->
  same_value (fst (LowPass.process x x cutoff)) x.
Proof.
  intros V F Fc. unfold LowPass.process. cbn [fst].
  apply add_zero_r, mul_zero_l; [apply sub_self; assumption | exact Fc].
Qed.

Lemma same_value_nonzero (x y : f32) :
  same_value x y -> is_zero y = false -> x = y.
Proof. intros [E | [_ H]] Hz; [exact E | congruence]. Qed.

(** X24: the steady states of the low-pass filter.  Once the filter
    holds a finite non-zero value, an input equal to that value is
    answered by the same value with every finite cutoff, for as many
    calls as one likes: a constant signal that has been reached is
    held exactly.  From construction, an input answered with cutoff 1
    is passed unchanged, and zeros are answered by zeros. *)
Theorem LowPass_steady (x : f32) (cutoffs : list f32) :
  F32.valid x = true ->
  (is_finite x = true -> is_zero x = false ->
   Forall (fun c => is_finite c = true) cutoffs ->
   LowPass.run x (map (fun c => (x, c)) cutoffs) = (repeat x (List.length cutoffs), x)) /\
  same_value (fst (LowPass.process LowPass.init x F32.one)) x /\
  (is_zero x = true -> Forall (fun c => is_finite c = true) cutoffs ->
   Forall (fun o => is_zero o = true)
     (fst (LowPass.run LowPass.init (map (fun c => (x, c)) cutoffs)))).
Proof.
  intros V. split; [|split].
  - intros F Hz Hall. induction Hall as [|c r Hc Hr IH]; [reflexivity|].
    cbn [map LowPass.run].
    pose proof (same_value_nonzero _ _ (LowPass_settled x c V F Hc) Hz) as E.
    unfold LowPass.process in *. cbn [fst] in E. rewrite E, IH. reflexivity.
  - unfold LowPass.process, LowPass.init. cbn [fst].
    destruct x as [s|s| |s m e].
    + right. split; [destruct s; reflexivity | reflexivity].
    + left. destruct s; reflexivity.
    + left. reflexivity.
    + left. assert (E1 : F32.sub (S754_finite s m e) F32.zero = S754_finite s m e) by reflexivity.
      rewrite E1, (mul_one _ V). reflexivity.
  - intros Hz Hall.
    assert (G : forall p, is_zero p = true ->
              Forall (fun o => is_zero o = true)
                (fst (LowPass.run p (map (fun c => (x, c)) cutoffs)))).
    { induction Hall as [|c r Hc Hr IH]; intros p Hp; [constructor|].
      cbn [map LowPass.run]. unfold LowPass.process. unfold f32 in *.
      assert (Ho : is_zero (F32.add p (F32.mul (F32.sub x p) c)) = true).
      { apply add_zero; [exact Hp|]. apply mul_zero_l; [|exact Hc].
        apply sub_zero; assumption. }
      specialize (IH _ Ho).
      destruct (LowPass.run (F32.add p (F32.mul (F32.sub x p) c)) (map (fun c0 => (x, c0)) r))
        as [os p2]. cbn [fst] in *.
      constructor; assumption. }
    apply G. reflexivity.
Qed.

Lemma LowPass_steady_witness :
  LowPass.run (F32.dec 1 3)
    (map (fun c => (F32.dec 1 3, c)) [F32.dec 1 10; F32.one; F32.dec 7 10]) =
    (repeat (F32.dec 1 3) 3, F32.dec 1 3).
Proof.
  apply (proj1 (LowPass_steady (F32.dec 1 3) [F32.dec 1 10; F32.one; F32.dec 7 10] eq_refl));
    [reflexivity | reflexivity | repeat constructor].
Defined.

(** X25: the ends of the width control.  For a sample with finite
    channels, [Width::process] with width 1 answers the sample itself
    and with width -1 the sample with its channels exchanged (a zero
    may change its sign). *)
Theorem Width_ends (s : Sample) :
  F32.valid (left s) = true -> F32.valid (right s) = true ->
  is_finite (left s) = true -> is_finite (right s) = true ->
  (same_value (left (Width.process s F32.one)) (left s) /\
   same_value (right (Width.process s F32.one)) (right s)) /\
  (same_value (left (Width.process s (F32.of_int (-1)))) (right s) /\
   same_value (right (Width.process s (F32.of_int (-1)))) (left s)).
Proof.
  intros Vl Vr Fl Fr.
  unfold Width.process, SampleOps.add, SampleOps.scale. cbn [left right].
  change (F32.add (F32.dec 5 10) (F32.mul F32.one (F32.dec 5 10))) with F32.one.
  change (F32.sub (F32.dec 5 10) (F32.mul F32.one (F32.dec 5 10))) with F32.zero.
  change (F32.add (F32.dec 5 10) (F32.mul (F32.of_int (-1)) (F32.dec 5 10))) with F32.zero.
  change (F32.sub (F32.dec 5 10) (F32.mul (F32.of_int (-1)) (F32.dec 5 10))) with F32.one.
  rewrite !(mul_one _ Vl), !(mul_one _ Vr).
  repeat split.
  - apply add_zero_r, mul_zero_is_zero, Fr.
  - apply add_zero_r, mul_zero_is_zero, Fl.
  - apply add_zero_l, mul_zero_is_zero, Fl.
  - apply add_zero_l, mul_zero_is_zero, Fr.
Qed.

Lemma Width_ends_witness :
  (same_value (left (Width.process (mkSample (F32.dec 1 3) (F32.dec 2 3)) F32.one))
     (F32.dec 1 3) /\
   same_value (right (Width.process (mkSample (F32.dec 1 3) (F32.dec 2 3)) F32.one))
     (F32.dec 2 3)) /\
  (same_value (left (Width.process (mkSample (F32.dec 1 3) (F32.dec 2 3)) (F32.of_int (-1))))
     (F32.dec 2 3) /\
   same_value (right (Width.process (mkSample (F32.dec 1 3) (F32.dec 2 3)) (F32.of_int (-1))))
     (F32.dec 1 3)).
Proof.
  apply (Width_ends (mkSample (F32.dec 1 3) (F32.dec 2 3))); reflexivity.
Defined.

(** ** Resetting an automation *)

Lemma points_into_refl (s : string) : points_into s s.
Proof. exists EmptyString. reflexivity. Qed.

Lemma points_into_trans (a b c : string) :
  points_into a b -> points_into b c -> points_into a c.
Proof.
  intros [p1 E1] [p2 E2]. exists (p2 ++ p1)%string. rewrite E2, E1.
  clear. induction p2 as [|x r IH]; cbn [append]; [reflexivity | rewrite IH; reflexivity].
Qed.

Lemma points_into_advance (s : string) : points_into (advance s) s.
Proof.
  destruct s as [|c r]; [apply points_into_refl|]. exists (String c EmptyString). reflexivity.
Qed.

Lemma parse_integer_points (cursor : string) :
  forall number, points_into (snd (Automation.parse_integer cursor number)) cursor.
Proof.
  induction cursor as [|c r IH]; intros number; cbn [Automation.parse_integer].
  - apply points_into_refl.
  - destruct (is_digit c); [|apply points_into_refl].
    eapply points_into_trans; [apply IH|]. exists (String c EmptyString). reflexivity.
Qed.

Lemma parse_fraction_points (cursor : string) :
  forall number factor,
    points_into (snd (Automation.parse_fraction cursor number factor)) cursor.
Proof.
  induction cursor as [|c r IH]; intros number factor; cbn [Automation.parse_fraction].
  - apply points_into_refl.
  - destruct (is_digit c); [|apply points_into_refl].
    eapply points_into_trans; [apply IH|]. exists (String c EmptyString). reflexivity.
Qed.

Lemma parse_number_points (cursor : string) :
  points_into (snd (Automation.parse_number cursor)) cursor.
Proof.
  unfold Automation.parse_number.
  set (start := if Ascii.eqb (deref cursor) "-" then (F32.of_int (-1), advance cursor)
                else (F32.one, cursor)).
  assert (H0 : points_into (snd start) cursor).
  { unfold start. destruct (Ascii.eqb (deref cursor) "-"); cbn [snd];
      [apply points_into_advance | apply points_into_refl]. }
  destruct start as [sign c0]. cbn [snd] in H0.
  pose proof (parse_integer_points c0 F32.zero) as H1.
  destruct (Automation.parse_integer c0 F32.zero) as [number c1]. cbn [snd] in H1.
  assert (H2 : points_into
            (snd (if Ascii.eqb (deref c1) "."
                  then Automation.parse_fraction (advance c1) number (F32.dec 1 10)
                  else (number, c1))) c1).
  { destruct (Ascii.eqb (deref c1) "."); cbn [snd]; [|apply points_into_refl].
    eapply points_into_trans; [apply parse_fraction_points | apply points_into_advance]. }
  destruct (if Ascii.eqb (deref c1) "."
            then Automation.parse_fraction (advance c1) number (F32.dec 1 10)
            else (number, c1)) as [number' c2].
  cbn [snd] in *.
  eapply points_into_trans; [exact H2|]. eapply points_into_trans; [exact H1 | exact H0].
Qed.

Lemma skip_space_points (cursor : string) : points_into (Automation.skip_space cursor) cursor.
Proof.
  induction cursor as [|c r IH]; cbn [Automation.skip_space]; [apply points_into_refl|].
  destruct (Ascii.eqb c " "); [|apply points_into_refl].
  eapply points_into_trans; [exact IH|]. exists (String c EmptyString). reflexivity.
Qed.

Lemma Automation_process_keeps (a : Automation.state) (v : f32) (a' : Automation.state) :
  Automation.process a = Some (v, a') ->
  Automation.automation a' = Automation.automation a /\
  points_into (Automation.cursor a') (Automation.cursor a).
Proof.
  unfold Automation.process.
  destruct (wrap32 (Automation.t a - 1) =? 0).
  - destruct (negb (Ascii.eqb (deref (Automation.cursor a)) NUL)).
    + pose proof (parse_number_points (Automation.cursor a)) as H1.
      destruct (Automation.parse_number (Automation.cursor a)) as [new_value c1].
      cbn [snd] in H1.
      destruct (Ascii.eqb (deref c1) "/").
      * pose proof (parse_number_points (advance c1)) as H2.
        destruct (Automation.parse_number (advance c1)) as [duration c2]. cbn [snd] in H2.
        destruct (F32.to_sint 32 (F32.div duration DT)); [|discriminate].
        intros E. injection E as <- <-. cbn [Automation.automation Automation.cursor].
        split; [reflexivity|].
        eapply points_into_trans; [apply skip_space_points|].
        eapply points_into_trans; [exact H2|].
        eapply points_into_trans; [apply points_into_advance | exact H1].
      * intros E. injection E as <- <-. cbn [Automation.automation Automation.cursor].
        split; [reflexivity|].
        eapply points_into_trans; [apply skip_space_points | exact H1].
    + intros E. injection E as <- <-. split; [reflexivity | apply points_into_refl].
  - intros E. injection E as <- <-. split; [reflexivity | apply points_into_refl].
Qed.

Lemma Automation_run_keeps (n : nat) :
  forall (a : Automation.state) (vs : list f32) (a' : Automation.state),
    Automation.run n a = Some (vs, a') ->
    Automation.automation a' = Automation.automation a /\
    points_into (Automation.cursor a') (Automation.cursor a) /\
    List.length vs = n.
Proof.
  induction n as [|k IH]; intros a vs a' E; cbn [Automation.run] in E.
  - injection E as <- <-. split; [reflexivity|]. split; [apply points_into_refl | reflexivity].
  - destruct (Automation.process a) as [[v a1]|] eqn:Ep; [|discriminate].
    destruct (Automation.run k a1) as [[vs1 a2]|] eqn:Er; [|discriminate].
    injection E as <- <-.
    destruct (Automation_process_keeps a v a1 Ep) as [H1 H2].
    destruct (IH a1 vs1 a2 Er) as (H3 & H4 & H5).
    split; [congruence|]. split; [eapply points_into_trans; eassumption|].
    cbn [List.length]. rewrite H5. reflexivity.
Qed.

(** X26: an automation can be replayed.  However many calls of
    [process] an automation has answered, its cursor still points into
    its script, one value was answered per call, and [reset] puts it
    back exactly as it was constructed, so that it then answers the
    same values again. *)
Theorem Automation_reset_replays (script : string) (k n : nat)
    (vs : list f32) (a : Automation.state) :
  Automation.run k (Automation.init script) = Some (vs, a) ->
  points_into (Automation.cursor a) script /\ List.length vs = k /\
  Automation.reset a = Automation.init script /\
  Automation.run n (Automation.reset a) = Automation.run n (Automation.init script).
Proof.
  intros E. destruct (Automation_run_keeps k _ _ _ E) as (H1 & H2 & H3).
  cbn [Automation.init Automation.automation Automation.cursor] in H1, H2.
  assert (Hr : Automation.reset a = Automation.init script).
  { unfold Automation.reset. rewrite H1. reflexivity. }
  split; [exact H2|]. split; [exact H3|]. split; [exact Hr|]. rewrite Hr. reflexivity.
Qed.

Lemma Automation_reset_replays_witness :
  points_into (Automation.cursor (Automation.mk "1 0" "0" F32.one F32.zero 1)) "1 0" /\
  List.length [F32.one] = 1%nat /\
  Automation.reset (Automation.mk "1 0" "0" F32.one F32.zero 1) = Automation.init "1 0" /\
  Automation.run 2 (Automation.reset (Automation.mk "1 0" "0" F32.one F32.zero 1)) =
    Automation.run 2 (Automation.init "1 0").
Proof.
  apply (Automation_reset_replays "1 0" 1 2 [F32.one]
           (Automation.mk "1 0" "0" F32.one F32.zero 1)).
  vm_compute. reflexivity.
Defined.
